(** * A shallow embedding of the cbor-go runtime codec

    The development follows the Go sources of the runtime package:
    [defs.go] (wire primitives), [read_bytes.go] (appenders, stateless
    readers, Skip, the deterministic map encoder), [helpers.go]
    (well-formedness validation), the slice-backed [Reader], and the JSON
    interop layer ([json_interop.go], [json_from.go]).

    Conventions.  A Go [byte] is a [Z] in [0, 256); a [[]byte] (and a Go
    [string]) is a [list Z].  Unsigned 64-bit values are [Z] with the
    wrap-around written out where the source can wrap.  A Go function
    returning [(value, rest, err)] becomes a function into [result]: on an
    error the source always hands back the input slice unchanged, so [Err]
    carries only the error. *)

From Stdlib Require Import ZArith List Lia Bool.
From Stdlib Require Import Sorting.Permutation Sorting.Sorted.
From Stdlib Require Import Floats.SpecFloat.
From Stdlib Require Strings.String Strings.Ascii.
From stdpp Require Import base list gmap sets sorting.
Import String.StringSyntax.
Delimit Scope string_scope with string.

Local Open Scope Z_scope.

(** ** Bytes, slices and errors *)

Abbreviation bytes := (list Z).

(** [b[i]] for an index the source has already checked against [len(b)]. *)
Definition idx (b : bytes) (i : nat) : Z := nth i b 0.

(** Every element is a byte. *)
Definition is_bytes (b : bytes) : Prop := Forall (fun x => 0 <= x < 256) b.

(** errors.go: the error values the modelled functions return.  [ErrOther]
    stands for the ad-hoc [errors.New] values and the errors of library
    calls; [GoPanic] is a run-time panic (a slice bound out of range). *)
Inductive error : Type :=
| ErrShortBytes
| ErrMaxDepthExceeded
| ErrInvalidUTF8
| ErrNotNil
| ErrDuplicateMapKey
| ErrNonCanonicalLength
| ErrNonCanonicalFloat
| ErrContainerTooLarge
| ErrIndefiniteForbidden
| ErrUnsupportedType
| InvalidPrefixError (Want Got : Z)
| InvalidAdditionalInfoError (Major Info : Z)
| UintOverflow (Value FailedBitsize : Z)
| IntOverflow (Value FailedBitsize : Z)
| TypeError
| ArrayError (Wanted Got : Z)
| ErrOther
| GoPanic.

Inductive result (A : Type) : Type :=
| Ok (a : A)
| Err (e : error).
Arguments Ok {A} a.
Arguments Err {A} e.

Definition is_ok {A} (r : result A) : bool :=
  match r with Ok _ => true | Err _ => false end.

(** errors.go: [badPrefix(wantMajor, gotMajor)]. *)
Definition badPrefix (wantMajor gotMajor : Z) : error :=
  InvalidPrefixError wantMajor gotMajor.

(** ** defs.go: wire primitives *)

Definition recursionLimit : Z := 100000.

Definition majorTypeUint : Z := 0.
Definition majorTypeNegInt : Z := 1.
Definition majorTypeBytes : Z := 2.
Definition majorTypeText : Z := 3.
Definition majorTypeArray : Z := 4.
Definition majorTypeMap : Z := 5.
Definition majorTypeTag : Z := 6.
Definition majorTypeSimple : Z := 7.

Definition addInfoDirect : Z := 23.
Definition addInfoUint8 : Z := 24.
Definition addInfoUint16 : Z := 25.
Definition addInfoUint32 : Z := 26.
Definition addInfoUint64 : Z := 27.
Definition addInfoIndefinite : Z := 31.

Definition simpleFalse : Z := 20.
Definition simpleTrue : Z := 21.
Definition simpleNull : Z := 22.
Definition simpleUndefined : Z := 23.
Definition simpleFloat16 : Z := 25.
Definition simpleFloat32 : Z := 26.
Definition simpleFloat64 : Z := 27.
Definition simpleBreak : Z := 31.

Definition tagDateTimeString : Z := 0.
Definition tagEpochDateTime : Z := 1.
Definition tagPosBignum : Z := 2.
Definition tagNegBignum : Z := 3.
Definition tagDecimalFrac : Z := 4.
Definition tagBigfloat : Z := 5.
Definition tagBase64URL : Z := 21.
Definition tagBase64 : Z := 22.
Definition tagBase16 : Z := 23.
Definition tagCBOR : Z := 24.
Definition tagURI : Z := 32.
Definition tagBase64URLString : Z := 33.
Definition tagBase64String : Z := 34.
Definition tagRegexp : Z := 35.
Definition tagMIME : Z := 36.
Definition tagSelfDescribeCBOR : Z := 55799.

Definition MaxUint8 : Z := 255.
Definition MaxUint16 : Z := 65535.
Definition MaxUint32 : Z := 4294967295.
Definition MaxInt64 : Z := 9223372036854775807.
Definition MaxUint64 : Z := 18446744073709551615.

(** Conversions to fixed-width integers, as Go's [uint8(x)], [uint32(x)],
    [uint64(x)] and [int64(x)] truncate. *)
Definition uint8 (x : Z) : Z := x mod 256.
Definition uint16 (x : Z) : Z := x mod 65536.
Definition uint32 (x : Z) : Z := x mod 4294967296.
Definition uint64 (x : Z) : Z := x mod 18446744073709551616.
Definition int64 (x : Z) : Z :=
  (x + 9223372036854775808) mod 18446744073709551616 - 9223372036854775808.

(** [makeByte]: [byte((majorType << 5) | addInfo)] on [uint8] operands. *)
Definition makeByte (majorType addInfo : Z) : Z :=
  uint8 (Z.lor (uint8 (Z.shiftl majorType 5)) addInfo).

(** [getMajorType]: [(b >> 5) & 0x07]. *)
Definition getMajorType (b : Z) : Z := Z.land (Z.shiftr b 5) 7.

(** [getAddInfo]: [b & 0x1f]. *)
Definition getAddInfo (b : Z) : Z := Z.land b 31.

(** ** encoding/binary big-endian accessors, as the Go library writes them *)

Definition beUint16 (b : bytes) : Z :=
  Z.lor (idx b 1) (Z.shiftl (idx b 0) 8).

Definition beUint32 (b : bytes) : Z :=
  Z.lor (Z.lor (Z.lor (idx b 3) (Z.shiftl (idx b 2) 8))
               (Z.shiftl (idx b 1) 16))
        (Z.shiftl (idx b 0) 24).

Definition beUint64 (b : bytes) : Z :=
  Z.lor (Z.lor (Z.lor (Z.lor (Z.lor (Z.lor (Z.lor
    (idx b 7)
    (Z.shiftl (idx b 6) 8))
    (Z.shiftl (idx b 5) 16))
    (Z.shiftl (idx b 4) 24))
    (Z.shiftl (idx b 3) 32))
    (Z.shiftl (idx b 2) 40))
    (Z.shiftl (idx b 1) 48))
    (Z.shiftl (idx b 0) 56).

(** [PutUintN(o[off:], v)]: stores byte by byte, most significant first. *)
Definition bePutUint16 (o : bytes) (off : nat) (v : Z) : bytes :=
  <[(off + 1)%nat := uint8 v]> (<[off := uint8 (Z.shiftr v 8)]> o).

Definition bePutUint32 (o : bytes) (off : nat) (v : Z) : bytes :=
  <[(off + 3)%nat := uint8 v]>
  (<[(off + 2)%nat := uint8 (Z.shiftr v 8)]>
  (<[(off + 1)%nat := uint8 (Z.shiftr v 16)]>
  (<[off := uint8 (Z.shiftr v 24)]> o))).

Definition bePutUint64 (o : bytes) (off : nat) (v : Z) : bytes :=
  <[(off + 7)%nat := uint8 v]>
  (<[(off + 6)%nat := uint8 (Z.shiftr v 8)]>
  (<[(off + 5)%nat := uint8 (Z.shiftr v 16)]>
  (<[(off + 4)%nat := uint8 (Z.shiftr v 24)]>
  (<[(off + 3)%nat := uint8 (Z.shiftr v 32)]>
  (<[(off + 2)%nat := uint8 (Z.shiftr v 40)]>
  (<[(off + 1)%nat := uint8 (Z.shiftr v 48)]>
  (<[off := uint8 (Z.shiftr v 56)]> o))))))).

(** ** read_bytes.go: appenders *)

(** [ensure(b, sz)]: [b] extended by [sz] writable bytes, and the old
    length.  The reserved bytes are written by the caller before the slice
    is returned; they are modelled as zero until then. *)
Definition ensure (b : bytes) (sz : nat) : bytes * nat :=
  (b ++ repeat 0 sz, length b).

(** [appendUintCore(b, majorType, u)]. *)
Definition appendUintCore (b : bytes) (majorType u : Z) : bytes :=
  if u <=? addInfoDirect then b ++ [makeByte majorType (uint8 u)]
  else if u <=? MaxUint8 then
    let '(o, n) := ensure b 2 in
    let o := <[n := makeByte majorType addInfoUint8]> o in
    <[(n + 1)%nat := uint8 u]> o
  else if u <=? MaxUint16 then
    let '(o, n) := ensure b 3 in
    let o := <[n := makeByte majorType addInfoUint16]> o in
    bePutUint16 o (n + 1) (uint16 u)
  else if u <=? MaxUint32 then
    let '(o, n) := ensure b 5 in
    let o := <[n := makeByte majorType addInfoUint32]> o in
    bePutUint32 o (n + 1) (uint32 u)
  else
    let '(o, n) := ensure b 9 in
    let o := <[n := makeByte majorType addInfoUint64]> o in
    bePutUint64 o (n + 1) u.

Definition AppendMapHeader (b : bytes) (sz : Z) : bytes :=
  appendUintCore b majorTypeMap (uint64 sz).

Definition AppendArrayHeader (b : bytes) (sz : Z) : bytes :=
  appendUintCore b majorTypeArray (uint64 sz).

Definition AppendTag (b : bytes) (tag : Z) : bytes :=
  appendUintCore b majorTypeTag tag.

Definition AppendUint64 (b : bytes) (u : Z) : bytes :=
  appendUintCore b majorTypeUint u.

(** [AppendInt64(b, i)] for an [int64] value [i]. *)
Definition AppendInt64 (b : bytes) (i : Z) : bytes :=
  if (0 <=? i) && (i <=? addInfoDirect) then
    b ++ [makeByte majorTypeUint (uint8 i)]
  else if i <? 0 then
    let neg := int64 (-1 - i) in
    if (0 <=? neg) && (neg <=? addInfoDirect) then
      b ++ [makeByte majorTypeNegInt (uint8 neg)]
    else appendUintCore b majorTypeNegInt (uint64 neg)
  else appendUintCore b majorTypeUint (uint64 i).

(** ** read_bytes.go: stateless readers *)

(** [readUintCore(b, expectedMajor)]. *)
Definition readUintCore (b : bytes) (expectedMajor : Z) : result (Z * bytes) :=
  if (length b <? 1)%nat then Err ErrShortBytes else
  let major := getMajorType (idx b 0) in
  if negb (major =? expectedMajor) then Err (badPrefix major expectedMajor) else
  let addInfo := getAddInfo (idx b 0) in
  if addInfo <=? addInfoDirect then Ok (addInfo, drop 1 b)
  else if addInfo =? addInfoUint8 then
    if (length b <? 2)%nat then Err ErrShortBytes
    else Ok (idx b 1, drop 2 b)
  else if addInfo =? addInfoUint16 then
    if (length b <? 3)%nat then Err ErrShortBytes
    else Ok (beUint16 (drop 1 b), drop 3 b)
  else if addInfo =? addInfoUint32 then
    if (length b <? 5)%nat then Err ErrShortBytes
    else Ok (beUint32 (drop 1 b), drop 5 b)
  else if addInfo =? addInfoUint64 then
    if (length b <? 9)%nat then Err ErrShortBytes
    else Ok (beUint64 (drop 1 b), drop 9 b)
  else Err ErrUnsupportedType.

(** [ReadInt64Bytes(b)]. *)
Definition ReadInt64Bytes (b : bytes) : result (Z * bytes) :=
  if (length b <? 1)%nat then Err ErrShortBytes else
  let lead := idx b 0 in
  if lead <=? 0x17 then Ok (int64 lead, drop 1 b)
  else if lead =? 0x18 then
    if (length b <? 2)%nat then Err ErrShortBytes
    else Ok (int64 (idx b 1), drop 2 b)
  else if lead =? 0x19 then
    if (length b <? 3)%nat then Err ErrShortBytes
    else Ok (int64 (beUint16 (drop 1 b)), drop 3 b)
  else if lead =? 0x1a then
    if (length b <? 5)%nat then Err ErrShortBytes
    else Ok (int64 (beUint32 (drop 1 b)), drop 5 b)
  else if lead =? 0x1b then
    if (length b <? 9)%nat then Err ErrShortBytes
    else
      let u := beUint64 (drop 1 b) in
      if u >? MaxInt64 then Err (IntOverflow (int64 u) 64)
      else Ok (int64 u, drop 9 b)
  else if (lead >=? 0x20) && (lead <=? 0x37) then
    Ok (int64 (-1 - int64 (uint8 (lead - 0x20))), drop 1 b)
  else if lead =? 0x38 then
    if (length b <? 2)%nat then Err ErrShortBytes
    else Ok (int64 (-1 - int64 (idx b 1)), drop 2 b)
  else if lead =? 0x39 then
    if (length b <? 3)%nat then Err ErrShortBytes
    else Ok (int64 (-1 - int64 (beUint16 (drop 1 b))), drop 3 b)
  else if lead =? 0x3a then
    if (length b <? 5)%nat then Err ErrShortBytes
    else Ok (int64 (-1 - int64 (beUint32 (drop 1 b))), drop 5 b)
  else if lead =? 0x3b then
    if (length b <? 9)%nat then Err ErrShortBytes
    else
      let u := beUint64 (drop 1 b) in
      if u >? MaxInt64 then Err (IntOverflow (-1) 64)
      else Ok (int64 (-1 - int64 u), drop 9 b)
  else
    let major := Z.land (Z.shiftr lead 5) 7 in
    Err (badPrefix major majorTypeUint).

(** ** The canonical header, in the specification's words *)

(** The [n] low-order bytes of [u], most significant first. *)
Fixpoint be_bytes (n : nat) (u : Z) : bytes :=
  match n with
  | O => []
  | S k => (u / 2 ^ (8 * Z.of_nat k)) mod 256 :: be_bytes k u
  end.

(** The number of bytes of the shortest header carrying [u]. *)
Definition canonicalWidth (u : Z) : nat :=
  if u <=? 23 then 1
  else if u <=? 255 then 2
  else if u <=? 65535 then 3
  else if u <=? 4294967295 then 5
  else 9.

(** The shortest header: the value inline up to 23, else the follow-byte
    marker 24, 25, 26 or 27 and the value in 1, 2, 4 or 8 bytes. *)
Definition canonicalHeader (major u : Z) : bytes :=
  if u <=? 23 then [makeByte major u]
  else if u <=? 255 then makeByte major 24 :: be_bytes 1 u
  else if u <=? 65535 then makeByte major 25 :: be_bytes 2 u
  else if u <=? 4294967295 then makeByte major 26 :: be_bytes 4 u
  else makeByte major 27 :: be_bytes 8 u.

(** ** Loops

    A Go [for] loop is a step function iterated under a fuel bound.  Every
    loop of the modelled readers consumes at least one byte per round, so
    a bound of one more than the number of remaining bytes is never
    reached: the totality lemmas of the second part prove it for the
    readers of byte and text strings, on which the readers of tagged
    values rest, and for the conversion from JSON. *)

Inductive flow (S R : Type) : Type :=
| Continue (s : S)
| Return (r : R)
| Stuck.
Arguments Continue {S R} s.
Arguments Return {S R} r.
Arguments Stuck {S R}.

Fixpoint loop {S R : Type} (step : S -> flow S R) (fuel : nat) (s : S)
  : option R :=
  match fuel with
  | O => None
  | S fuel' =>
    match step s with
    | Continue s' => loop step fuel' s'
    | Return r => Some r
    | Stuck => None
    end
  end.

(** The break stop code [0xff]. *)
Definition breakByte : Z := makeByte majorTypeSimple simpleBreak.

(** ** read_bytes.go: container headers *)

(** [ReadMapHeaderBytes(b)]. *)
Definition ReadMapHeaderBytes (b : bytes) : result (Z * bytes) :=
  if (length b <? 1)%nat then Err ErrShortBytes else
  let lead := idx b 0 in
  if (lead >=? 0xa0) && (lead <=? 0xb7) then Ok (uint32 (uint8 (lead - 0xa0)), drop 1 b)
  else if lead =? 0xb8 then
    if (length b <? 2)%nat then Err ErrShortBytes
    else Ok (uint32 (idx b 1), drop 2 b)
  else if lead =? 0xb9 then
    if (length b <? 3)%nat then Err ErrShortBytes
    else Ok (uint32 (beUint16 (drop 1 b)), drop 3 b)
  else if lead =? 0xba then
    if (length b <? 5)%nat then Err ErrShortBytes
    else Ok (beUint32 (drop 1 b), drop 5 b)
  else if lead =? 0xbb then
    if (length b <? 9)%nat then Err ErrShortBytes
    else
      let u := beUint64 (drop 1 b) in
      if u >? MaxUint32 then Err (UintOverflow u 32)
      else Ok (uint32 u, drop 9 b)
  else Err (badPrefix (getMajorType lead) majorTypeMap).

(** [ReadArrayHeaderBytes(b)]. *)
Definition ReadArrayHeaderBytes (b : bytes) : result (Z * bytes) :=
  if (length b <? 1)%nat then Err ErrShortBytes else
  let lead := idx b 0 in
  if (lead >=? 0x80) && (lead <=? 0x97) then Ok (uint32 (uint8 (lead - 0x80)), drop 1 b)
  else if lead =? 0x98 then
    if (length b <? 2)%nat then Err ErrShortBytes
    else Ok (uint32 (idx b 1), drop 2 b)
  else if lead =? 0x99 then
    if (length b <? 3)%nat then Err ErrShortBytes
    else Ok (uint32 (beUint16 (drop 1 b)), drop 3 b)
  else if lead =? 0x9a then
    if (length b <? 5)%nat then Err ErrShortBytes
    else Ok (beUint32 (drop 1 b), drop 5 b)
  else if lead =? 0x9b then
    if (length b <? 9)%nat then Err ErrShortBytes
    else
      let u := beUint64 (drop 1 b) in
      if u >? MaxUint32 then Err (UintOverflow u 32)
      else Ok (uint32 u, drop 9 b)
  else Err (badPrefix (getMajorType lead) majorTypeArray).

(** [ReadArrayStartBytes(b)]: size, indefinite flag and rest. *)
Definition ReadArrayStartBytes (b : bytes) : result (Z * bool * bytes) :=
  if (length b <? 1)%nat then Err ErrShortBytes else
  if idx b 0 =? makeByte majorTypeArray addInfoIndefinite
  then Ok (0, true, drop 1 b)
  else match ReadArrayHeaderBytes b with
       | Ok (s, o) => Ok (s, false, o)
       | Err e => Err e
       end.

(** [ReadMapStartBytes(b)]. *)
Definition ReadMapStartBytes (b : bytes) : result (Z * bool * bytes) :=
  if (length b <? 1)%nat then Err ErrShortBytes else
  if idx b 0 =? makeByte majorTypeMap addInfoIndefinite
  then Ok (0, true, drop 1 b)
  else match ReadMapHeaderBytes b with
       | Ok (s, o) => Ok (s, false, o)
       | Err e => Err e
       end.

(** [ReadUint64Bytes], [ReadUintBytes] (a 64-bit [uint]) and [ReadIntBytes]
    (a 64-bit [int]). *)
Definition ReadUint64Bytes (b : bytes) : result (Z * bytes) :=
  readUintCore b majorTypeUint.

Definition ReadUintBytes (b : bytes) : result (Z * bytes) :=
  match readUintCore b majorTypeUint with
  | Ok (u64, o) => Ok (uint64 u64, o)
  | Err e => Err e
  end.

Definition ReadIntBytes (b : bytes) : result (Z * bytes) :=
  match ReadInt64Bytes b with
  | Ok (i64, o) => Ok (int64 i64, o)
  | Err e => Err e
  end.

(** [ReadTagBytes(b)]. *)
Definition ReadTagBytes (b : bytes) : result (Z * bytes) :=
  match readUintCore b majorTypeTag with
  | Ok (tag, o) => Ok (tag, o)
  | Err e => Err e
  end.

(** ** read_bytes.go: byte strings and text strings *)

(** One round of the chunk loop of an indefinite-length byte string: the
    state is the bytes collected so far and the unread input. *)
Definition bytesChunkStep (st : bytes * bytes)
  : flow (bytes * bytes) (result (bytes * bytes)) :=
  let '(out, p) := st in
  if (length p <? 1)%nat then Return (Err ErrShortBytes)
  else if idx p 0 =? breakByte then Return (Ok (out, drop 1 p))
  else match readUintCore p majorTypeBytes with
       | Err e => Return (Err e)
       | Ok (sz, q) =>
         if Z.of_nat (length q) <? sz then Return (Err ErrShortBytes)
         else Continue (out ++ take (Z.to_nat sz) q, drop (Z.to_nat sz) q)
       end.

(** The definite-length arm shared by the explicit cases of
    [ReadBytesBytes]: a header of [h] bytes announcing [sz] bytes.  The
    bound [h + sz] is an [int] sum and wraps; slicing with a wrapped bound
    panics. *)
Definition bytesBody (b : bytes) (h : nat) (sz : Z) : result (bytes * bytes) :=
  let e := int64 (Z.of_nat h + sz) in
  if Z.of_nat (length b) <? e then Err ErrShortBytes
  else if sz =? 0 then Ok ([], drop h b)
  else if e <? Z.of_nat h then Err GoPanic
  else Ok (take (Z.to_nat sz) (drop h b), drop (h + Z.to_nat sz) b).

(** [ReadBytesBytes(b, scratch)].  The value returned for an empty string
    is [scratch[:0]] and the chunks of an indefinite string are collected
    in [scratch[:0]]; both are the empty byte string here, so [scratch]
    is not a parameter of the model.  [int] is 64 bits wide. *)
Definition ReadBytesBytes (b : bytes) : option (result (bytes * bytes)) :=
  if (length b <? 1)%nat then Some (Err ErrShortBytes) else
  if idx b 0 =? makeByte majorTypeBytes addInfoIndefinite then
    loop bytesChunkStep (S (length b)) ([], drop 1 b)
  else
  let lead := idx b 0 in
  Some (
  if (lead >=? 0x40) && (lead <=? 0x57) then bytesBody b 1 (Z.land lead 0x1f)
  else if lead =? 0x58 then
    if (length b <? 2)%nat then Err ErrShortBytes
    else bytesBody b 2 (idx b 1)
  else if lead =? 0x59 then
    if (length b <? 3)%nat then Err ErrShortBytes
    else bytesBody b 3 (beUint16 (drop 1 b))
  else if lead =? 0x5a then
    if (length b <? 5)%nat then Err ErrShortBytes
    else bytesBody b 5 (beUint32 (drop 1 b))
  else if lead =? 0x5b then
    if (length b <? 9)%nat then Err ErrShortBytes
    else
      let u64 := beUint64 (drop 1 b) in
      if u64 >? MaxInt64 then Err (UintOverflow u64 64)
      else bytesBody b 9 u64
  else
    match readUintCore b majorTypeBytes with
    | Err e => Err e
    | Ok (sz, o) =>
      if Z.of_nat (length o) <? sz then Err ErrShortBytes
      else if sz =? 0 then Ok ([], o)
      else Ok (take (Z.to_nat sz) o, drop (Z.to_nat sz) o)
    end).

(** [ReadStringZC(b)]: the text bytes as a view of the input. *)
Definition ReadStringZC (b : bytes) : result (bytes * bytes) :=
  if (length b <? 1)%nat then Err ErrShortBytes else
  let lead := idx b 0 in
  if (lead >=? 0x60) && (lead <=? 0x77) then
    let sz := Z.to_nat (Z.land lead 0x1f) in
    if (length b <? 1 + sz)%nat then Err ErrShortBytes
    else Ok (take sz (drop 1 b), drop (1 + sz) b)
  else
  let hdr :=
    if lead =? 0x78 then
      if (length b <? 2)%nat then Err ErrShortBytes else Ok (idx b 1, 2%nat)
    else if lead =? 0x79 then
      if (length b <? 3)%nat then Err ErrShortBytes
      else Ok (beUint16 (drop 1 b), 3%nat)
    else if lead =? 0x7a then
      if (length b <? 5)%nat then Err ErrShortBytes
      else Ok (beUint32 (drop 1 b), 5%nat)
    else if lead =? 0x7b then
      if (length b <? 9)%nat then Err ErrShortBytes
      else
        let u64 := beUint64 (drop 1 b) in
        if u64 >? MaxInt64 then Err (UintOverflow u64 64)
        else Ok (u64, 9%nat)
    else Err (badPrefix (getMajorType lead) majorTypeText) in
  match hdr with
  | Err e => Err e
  | Ok (sz, start) =>
    if (length b <? start)%nat then Err ErrShortBytes
    else if (sz <? 0) || (sz >? Z.of_nat (length b) - Z.of_nat start)
    then Err ErrShortBytes
    else Ok (take (Z.to_nat sz) (drop start b), drop (start + Z.to_nat sz) b)
  end.

Section Runtime.

(** utf8_validate.go: [isUTF8Valid] is a package variable holding the
    validator ([unicode/utf8.Valid] unless a build replaces it);
    defs.go: [ValidateUTF8OnDecode] is the package-level switch. *)
Variable isUTF8Valid : bytes -> bool.
Variable ValidateUTF8OnDecode : bool.

(** One round of the chunk loop of an indefinite-length text string. *)
Definition textChunkStep (st : bytes * bytes)
  : flow (bytes * bytes) (result (bytes * bytes)) :=
  let '(out, p) := st in
  if (length p <? 1)%nat then Return (Err ErrShortBytes)
  else if idx p 0 =? breakByte then
    if ValidateUTF8OnDecode && negb (isUTF8Valid out)
    then Return (Err ErrInvalidUTF8)
    else Return (Ok (out, drop 1 p))
  else match ReadStringZC p with
       | Err e => Return (Err e)
       | Ok (chunk, q) => Continue (out ++ chunk, q)
       end.

(** [ReadStringBytes(b)].  The string is returned as its bytes; whether it
    is copied or aliased ([UnsafeStringDecode]) does not change them. *)
Definition ReadStringBytes (b : bytes) : option (result (bytes * bytes)) :=
  if (length b <? 1)%nat then Some (Err ErrShortBytes) else
  if idx b 0 =? makeByte majorTypeText addInfoIndefinite then
    loop textChunkStep (S (length b)) ([], drop 1 b)
  else
  Some (
  match ReadStringZC b with
  | Err e => Err e
  | Ok (v, o) =>
    if ValidateUTF8OnDecode && negb (isUTF8Valid v) then Err ErrInvalidUTF8
    else Ok (v, o)
  end).

End Runtime.

(** ** read_bytes.go: Skip *)

(** One round of the chunk loop of an indefinite-length byte or text
    string in [skip]; the chunks must carry the major type of the string. *)
Definition skipChunkStep (major : Z) (o : bytes) : flow bytes (result bytes) :=
  if (length o <? 1)%nat then Return (Err ErrShortBytes)
  else if idx o 0 =? breakByte then Return (Ok (drop 1 o))
  else match readUintCore o major with
       | Err e => Return (Err e)
       | Ok (sz, q) =>
         if Z.of_nat (length q) <? sz then Return (Err ErrShortBytes)
         else Continue (drop (Z.to_nat sz) q)
       end.

(** One round of an indefinite-length array ([pairs = false]) or map
    ([pairs = true]: a key, then a value), for a walker [walk] of one
    item. *)
Definition indefItemStep (walk : bytes -> option (result bytes)) (pairs : bool)
  (o : bytes) : flow bytes (result bytes) :=
  if (length o <? 1)%nat then Return (Err ErrShortBytes)
  else if idx o 0 =? breakByte then Return (Ok (drop 1 o))
  else match walk o with
       | None => Stuck
       | Some (Err e) => Return (Err e)
       | Some (Ok o1) =>
         if pairs then
           match walk o1 with
           | None => Stuck
           | Some (Err e) => Return (Err e)
           | Some (Ok o2) => Continue o2
           end
         else Continue o1
       end.

(** One round of [for i := uint64(0); i < sz; i++] over the items of a
    definite-length array or map; the state is [(i, o)]. *)
Definition defItemStep (walk : bytes -> option (result bytes)) (pairs : bool)
  (sz : Z) (st : Z * bytes) : flow (Z * bytes) (result bytes) :=
  let '(i, o) := st in
  if i <? sz then
    match walk o with
    | None => Stuck
    | Some (Err e) => Return (Err e)
    | Some (Ok o1) =>
      if pairs then
        match walk o1 with
        | None => Stuck
        | Some (Err e) => Return (Err e)
        | Some (Ok o2) => Continue (i + 1, o2)
        end
      else Continue (i + 1, o1)
    end
  else Return (Ok o).

(** The simple-value arm of [skip]. *)
Definition skipSimple (b : bytes) (addInfo : Z) : result bytes :=
  if (addInfo =? simpleFalse) || (addInfo =? simpleTrue)
     || (addInfo =? simpleNull) || (addInfo =? simpleUndefined)
  then Ok (drop 1 b)
  else if addInfo =? simpleFloat16 then
    if (length b <? 3)%nat then Err ErrShortBytes else Ok (drop 3 b)
  else if addInfo =? simpleFloat32 then
    if (length b <? 5)%nat then Err ErrShortBytes else Ok (drop 5 b)
  else if addInfo =? simpleFloat64 then
    if (length b <? 9)%nat then Err ErrShortBytes else Ok (drop 9 b)
  else if addInfo <? 20 then Ok (drop 1 b)
  else Err ErrUnsupportedType.

(** [skip(b, depth)], by recursion on a fuel bound. *)
Fixpoint skip (fuel : nat) (b : bytes) (depth : Z) {struct fuel}
  : option (result bytes) :=
  match fuel with
  | O => None
  | S fuel' =>
    if depth >? recursionLimit then Some (Err ErrMaxDepthExceeded) else
    if (length b <? 1)%nat then Some (Err ErrShortBytes) else
    let major := getMajorType (idx b 0) in
    let addInfo := getAddInfo (idx b 0) in
    if (major =? majorTypeUint) || (major =? majorTypeNegInt)
       || (major =? majorTypeTag) then
      match readUintCore b major with
      | Err e => Some (Err e)
      | Ok (_, o) =>
        if major =? majorTypeTag then skip fuel' o (depth + 1)
        else Some (Ok o)
      end
    else if (major =? majorTypeBytes) || (major =? majorTypeText) then
      if addInfo =? addInfoIndefinite then
        loop (skipChunkStep major) (S (length b)) (drop 1 b)
      else
        match readUintCore b major with
        | Err e => Some (Err e)
        | Ok (sz, o) =>
          if Z.of_nat (length o) <? sz then Some (Err ErrShortBytes)
          else Some (Ok (drop (Z.to_nat sz) o))
        end
    else if major =? majorTypeArray then
      if addInfo =? addInfoIndefinite then
        loop (indefItemStep (fun o => skip fuel' o (depth + 1)) false)
             (S (length b)) (drop 1 b)
      else
        match readUintCore b major with
        | Err e => Some (Err e)
        | Ok (sz, o) =>
          loop (defItemStep (fun o => skip fuel' o (depth + 1)) false sz)
               (S (length b)) (0, o)
        end
    else if major =? majorTypeMap then
      if addInfo =? addInfoIndefinite then
        loop (indefItemStep (fun o => skip fuel' o (depth + 1)) true)
             (S (length b)) (drop 1 b)
      else
        match readUintCore b major with
        | Err e => Some (Err e)
        | Ok (sz, o) =>
          loop (defItemStep (fun o => skip fuel' o (depth + 1)) true sz)
               (S (length b)) (0, o)
        end
    else if major =? majorTypeSimple then Some (skipSimple b addInfo)
    else Some (Err ErrUnsupportedType)
  end.

(** A result for a walk that cannot run out of fuel. *)
Definition run {A : Type} (r : option (result A)) : result A :=
  match r with
  | Some x => x
  | None => Err GoPanic
  end.

(** [Skip(b)]: every nested call works on a strictly shorter slice, so a
    fuel of [len(b) + 1] is enough. *)
Definition Skip (b : bytes) : result bytes := run (skip (S (length b)) b 0).

(** ** helpers.go: well-formedness *)

Section WellFormed.

Variable isUTF8Valid : bytes -> bool.

(** One round of the chunk loop of an indefinite-length text string in
    [validateWellFormed]. *)
Definition validateTextChunkStep (p : bytes) : flow bytes (result bytes) :=
  if (length p <? 1)%nat then Return (Err ErrShortBytes)
  else if idx p 0 =? breakByte then Return (Ok (drop 1 p))
  else match ReadStringZC p with
       | Err e => Return (Err e)
       | Ok (chunk, o) =>
         if negb (isUTF8Valid chunk) then Return (Err ErrInvalidUTF8)
         else Continue o
       end.

(** The simple-value arm of [validateWellFormed]. *)
Definition validateSimple (b : bytes) (add : Z) : result bytes :=
  if (add =? simpleFalse) || (add =? simpleTrue)
     || (add =? simpleNull) || (add =? simpleUndefined)
  then Ok (drop 1 b)
  else if add =? simpleFloat16 then
    if (length b <? 3)%nat then Err ErrShortBytes else Ok (drop 3 b)
  else if add =? simpleFloat32 then
    if (length b <? 5)%nat then Err ErrShortBytes else Ok (drop 5 b)
  else if add =? simpleFloat64 then
    if (length b <? 9)%nat then Err ErrShortBytes else Ok (drop 9 b)
  else if add =? addInfoUint8 then
    if (length b <? 2)%nat then Err ErrShortBytes else Ok (drop 2 b)
  else if add <? 20 then Ok (drop 1 b)
  else Err ErrUnsupportedType.

(** [validateWellFormed(b, depth)], by recursion on a fuel bound. *)
Fixpoint validateWellFormed (fuel : nat) (b : bytes) (depth : Z) {struct fuel}
  : option (result bytes) :=
  match fuel with
  | O => None
  | S fuel' =>
    if depth >? recursionLimit then Some (Err ErrMaxDepthExceeded) else
    if (length b <? 1)%nat then Some (Err ErrShortBytes) else
    let lead := idx b 0 in
    let major := getMajorType lead in
    let add := getAddInfo lead in
    if (add =? 28) || (add =? 29) || (add =? 30)
    then Some (Err (InvalidPrefixError major major)) else
    if (major =? majorTypeUint) || (major =? majorTypeNegInt)
       || (major =? majorTypeTag) then
      match readUintCore b major with
      | Err e => Some (Err e)
      | Ok (_, o) =>
        if major =? majorTypeTag then validateWellFormed fuel' o (depth + 1)
        else Some (Ok o)
      end
    else if major =? majorTypeBytes then
      if add =? addInfoIndefinite then
        loop (skipChunkStep majorTypeBytes) (S (length b)) (drop 1 b)
      else
        match readUintCore b majorTypeBytes with
        | Err e => Some (Err e)
        | Ok (sz, o) =>
          if Z.of_nat (length o) <? sz then Some (Err ErrShortBytes)
          else Some (Ok (drop (Z.to_nat sz) o))
        end
    else if major =? majorTypeText then
      if add =? addInfoIndefinite then
        loop validateTextChunkStep (S (length b)) (drop 1 b)
      else
        match ReadStringZC b with
        | Err e => Some (Err e)
        | Ok (s, o) =>
          if negb (isUTF8Valid s) then Some (Err ErrInvalidUTF8)
          else Some (Ok o)
        end
    else if major =? majorTypeArray then
      if add =? addInfoIndefinite then
        loop (indefItemStep (fun p => validateWellFormed fuel' p (depth + 1)) false)
             (S (length b)) (drop 1 b)
      else
        match readUintCore b majorTypeArray with
        | Err e => Some (Err e)
        | Ok (sz, p) =>
          loop (defItemStep (fun p => validateWellFormed fuel' p (depth + 1)) false sz)
               (S (length b)) (0, p)
        end
    else if major =? majorTypeMap then
      if add =? addInfoIndefinite then
        loop (indefItemStep (fun p => validateWellFormed fuel' p (depth + 1)) true)
             (S (length b)) (drop 1 b)
      else
        match readUintCore b majorTypeMap with
        | Err e => Some (Err e)
        | Ok (sz, p) =>
          loop (defItemStep (fun p => validateWellFormed fuel' p (depth + 1)) true sz)
               (S (length b)) (0, p)
        end
    else if major =? majorTypeSimple then Some (validateSimple b add)
    else Some (Err ErrUnsupportedType)
  end.

(** [ValidateWellFormedBytes(b)]. *)
Definition ValidateWellFormedBytes (b : bytes) : result bytes :=
  run (validateWellFormed (S (length b)) b 0).

End WellFormed.

(** ** read_bytes.go: maps read as raw pairs *)

(** defs.go: [RawPair], an already-encoded key/value pair. *)
Record RawPair : Type := mkRawPair { Key : bytes; Value : bytes }.

(** The body shared by both loops of [ReadMapNoDupBytes]: capture the raw
    key at the head of [p], look it up in [seen], record it, skip the
    value.  [seen] is the Go [map[string]struct{}] used as a set. *)
Definition noDupEntry (seen : gset (list Z)) (p : bytes)
  : result (gset (list Z) * bytes) :=
  match Skip p with
  | Err e => Err e
  | Ok r =>
    let keyLen := (length p - length r)%nat in
    let rawKey := take keyLen p in
    if decide (rawKey ∈ seen) then Err ErrDuplicateMapKey
    else
      let seen' := {[ rawKey ]} ∪ seen in
      match Skip r with
      | Err e => Err e
      | Ok r2 => Ok (seen', r2)
      end
  end.

Definition noDupIndefStep (st : gset (list Z) * bytes)
  : flow (gset (list Z) * bytes) (result bytes) :=
  let '(seen, p) := st in
  if (length p <? 1)%nat then Return (Err ErrShortBytes)
  else if idx p 0 =? breakByte then Return (Ok (drop 1 p))
  else match noDupEntry seen p with
       | Err e => Return (Err e)
       | Ok st' => Continue st'
       end.

Definition noDupDefStep (sz : Z) (st : Z * (gset (list Z) * bytes))
  : flow (Z * (gset (list Z) * bytes)) (result bytes) :=
  let '(i, (seen, p)) := st in
  if i <? sz then
    match noDupEntry seen p with
    | Err e => Return (Err e)
    | Ok st' => Continue (uint32 (i + 1), st')
    end
  else Return (Ok p).

(** [ReadMapNoDupBytes(b)]. *)
Definition ReadMapNoDupBytes (b : bytes) : result bytes :=
  if (length b <? 1)%nat then Err ErrShortBytes else
  if negb (getMajorType (idx b 0) =? majorTypeMap)
  then Err (badPrefix majorTypeMap (getMajorType (idx b 0))) else
  if getAddInfo (idx b 0) =? addInfoIndefinite then
    run (loop noDupIndefStep (S (length b)) (∅, drop 1 b))
  else
    match ReadMapHeaderBytes b with
    | Err e => Err e
    | Ok (sz, p) => run (loop (noDupDefStep sz) (S (length b)) (0, (∅, p)))
    end.

(** The body shared by both loops of [ReadOrderedMapBytes]: the raw key
    and the raw value at the head of [p], copied into the scratch buffer. *)
Definition orderedEntry (p : bytes) : result (RawPair * bytes) :=
  match Skip p with
  | Err e => Err e
  | Ok r1 =>
    let klen := (length p - length r1)%nat in
    let kraw := take klen p in
    match Skip r1 with
    | Err e => Err e
    | Ok r2 =>
      let vlen := (length r1 - length r2)%nat in
      let vraw := take vlen r1 in
      Ok (mkRawPair kraw vraw, r2)
    end
  end.

Definition orderedIndefStep (st : list RawPair * bytes)
  : flow (list RawPair * bytes) (result (list RawPair * bytes)) :=
  let '(pairs, p) := st in
  if (length p <? 1)%nat then Return (Err ErrShortBytes)
  else if idx p 0 =? breakByte then Return (Ok (pairs, drop 1 p))
  else match orderedEntry p with
       | Err e => Return (Err e)
       | Ok (pr, r2) => Continue (pairs ++ [pr], r2)
       end.

Definition orderedDefStep (sz : Z) (st : Z * (list RawPair * bytes))
  : flow (Z * (list RawPair * bytes)) (result (list RawPair * bytes)) :=
  let '(i, (pairs, p)) := st in
  if i <? sz then
    match orderedEntry p with
    | Err e => Return (Err e)
    | Ok (pr, r2) => Continue (uint32 (i + 1), (pairs ++ [pr], r2))
    end
  else Return (Ok (pairs, p)).

(** [ReadOrderedMapBytes(b)]: the pairs in wire order and the rest. *)
Definition ReadOrderedMapBytes (b : bytes) : result (list RawPair * bytes) :=
  if (length b <? 1)%nat then Err ErrShortBytes else
  if negb (getMajorType (idx b 0) =? majorTypeMap)
  then Err (badPrefix majorTypeMap (getMajorType (idx b 0))) else
  if getAddInfo (idx b 0) =? addInfoIndefinite then
    run (loop orderedIndefStep (S (length b)) ([], drop 1 b))
  else
    match ReadMapHeaderBytes b with
    | Err e => Err e
    | Ok (sz, p) => run (loop (orderedDefStep sz) (S (length b)) (0, ([], p)))
    end.

(** ** The slice-backed Reader *)

(** [Reader]: the unread buffer, the two mode flags, the size ceiling. *)
Record Reader : Type := mkReader {
  buf : bytes;
  strict : bool;
  deterministic : bool;
  maxContainer : Z
}.

(** [NewReaderBytes(b)] and the three setters. *)
Definition NewReaderBytes (b : bytes) : Reader := mkReader b false false 0.

Definition SetStrictDecode (r : Reader) (s : bool) : Reader :=
  mkReader (buf r) s (deterministic r) (maxContainer r).

Definition SetDeterministicDecode (r : Reader) (d : bool) : Reader :=
  mkReader (buf r) (strict r) d (maxContainer r).

Definition SetMaxContainerLen (r : Reader) (max : Z) : Reader :=
  mkReader (buf r) (strict r) (deterministic r) max.

(** [r.buf = rest]. *)
Definition advance (r : Reader) (rest : bytes) : Reader :=
  mkReader rest (strict r) (deterministic r) (maxContainer r).

(** [isNonCanonicalLength(b, expectedMajor)]. *)
Definition isNonCanonicalLength (b : bytes) (expectedMajor : Z) : result bool :=
  if (length b <? 1)%nat then Err ErrShortBytes else
  if negb (getMajorType (idx b 0) =? expectedMajor)
  then Err (badPrefix (getMajorType (idx b 0)) expectedMajor) else
  let add := getAddInfo (idx b 0) in
  if (add >=? 28) && (add <=? 30)
  then Err (InvalidAdditionalInfoError expectedMajor add) else
  if add =? addInfoIndefinite then Ok false
  else if (0 <=? add) && (add <=? 23) then Ok false
  else if add =? addInfoUint8 then
    if (length b <? 2)%nat then Err ErrShortBytes
    else Ok (idx b 1 <=? 23)
  else if add =? addInfoUint16 then
    if (length b <? 3)%nat then Err ErrShortBytes
    else Ok (beUint16 (drop 1 b) <=? MaxUint8)
  else if add =? addInfoUint32 then
    if (length b <? 5)%nat then Err ErrShortBytes
    else Ok (beUint32 (drop 1 b) <=? MaxUint16)
  else if add =? addInfoUint64 then
    if (length b <? 9)%nat then Err ErrShortBytes
    else Ok (beUint64 (drop 1 b) <=? MaxUint32)
  else Err ErrUnsupportedType.

Definition isNonCanonicalArrayLength (b : bytes) : result bool :=
  isNonCanonicalLength b majorTypeArray.
Definition isNonCanonicalMapLength (b : bytes) : result bool :=
  isNonCanonicalLength b majorTypeMap.
Definition isNonCanonicalBytesLength (b : bytes) : result bool :=
  isNonCanonicalLength b majorTypeBytes.
Definition isNonCanonicalTextLength (b : bytes) : result bool :=
  isNonCanonicalLength b majorTypeText.

(** The strict-mode gate the reader methods open with: [None] lets the
    method go on, [Some e] is the error it returns. *)
Definition strictGate (check : result bool) : option error :=
  match check with
  | Err e => Some e
  | Ok true => Some ErrNonCanonicalLength
  | Ok false => None
  end.

(** [Reader.ReadArrayHeader]. *)
Definition Reader_ReadArrayHeader (r : Reader) : result Z * Reader :=
  if (length (buf r) <? 1)%nat then (Err ErrShortBytes, r) else
  match (if strict r then strictGate (isNonCanonicalArrayLength (buf r))
         else None) with
  | Some e => (Err e, r)
  | None =>
    match ReadArrayHeaderBytes (buf r) with
    | Err e => (Err e, r)
    | Ok (sz, rest) =>
      if (maxContainer r >? 0) && (sz >? maxContainer r)
      then (Err ErrContainerTooLarge, r)
      else (Ok sz, advance r rest)
    end
  end.

(** [Reader.ReadArrayStart]. *)
Definition Reader_ReadArrayStart (r : Reader) : result (Z * bool) * Reader :=
  match ReadArrayStartBytes (buf r) with
  | Err e => (Err e, r)
  | Ok (sz, indef, rest) =>
    if indef && deterministic r then (Err ErrIndefiniteForbidden, r)
    else (Ok (sz, indef), advance r rest)
  end.

(** [Reader.ReadMapHeader]. *)
Definition Reader_ReadMapHeader (r : Reader) : result Z * Reader :=
  if (length (buf r) <? 1)%nat then (Err ErrShortBytes, r) else
  match (if strict r then strictGate (isNonCanonicalMapLength (buf r))
         else None) with
  | Some e => (Err e, r)
  | None =>
    match ReadMapHeaderBytes (buf r) with
    | Err e => (Err e, r)
    | Ok (sz, rest) =>
      if (maxContainer r >? 0) && (sz >? maxContainer r)
      then (Err ErrContainerTooLarge, r)
      else (Ok sz, advance r rest)
    end
  end.

(** [Reader.ReadInt64] and [Reader.ReadInt]. *)
Definition Reader_ReadInt64 (r : Reader) : result Z * Reader :=
  if (length (buf r) <? 1)%nat then (Err ErrShortBytes, r) else
  let maj := getMajorType (idx (buf r) 0) in
  match (if strict r && ((maj =? majorTypeUint) || (maj =? majorTypeNegInt))
         then strictGate (isNonCanonicalLength (buf r) maj) else None) with
  | Some e => (Err e, r)
  | None =>
    match ReadInt64Bytes (buf r) with
    | Err e => (Err e, r)
    | Ok (v, rest) => (Ok v, advance r rest)
    end
  end.

Definition Reader_ReadInt (r : Reader) : result Z * Reader :=
  if (length (buf r) <? 1)%nat then (Err ErrShortBytes, r) else
  let maj := getMajorType (idx (buf r) 0) in
  match (if strict r && ((maj =? majorTypeUint) || (maj =? majorTypeNegInt))
         then strictGate (isNonCanonicalLength (buf r) maj) else None) with
  | Some e => (Err e, r)
  | None =>
    match ReadIntBytes (buf r) with
    | Err e => (Err e, r)
    | Ok (v, rest) => (Ok v, advance r rest)
    end
  end.

(** [Reader.ReadUint64] and [Reader.ReadUint]. *)
Definition Reader_ReadUint64 (r : Reader) : result Z * Reader :=
  if (length (buf r) <? 1)%nat then (Err ErrShortBytes, r) else
  match (if strict r && (getMajorType (idx (buf r) 0) =? majorTypeUint)
         then strictGate (isNonCanonicalLength (buf r) majorTypeUint)
         else None) with
  | Some e => (Err e, r)
  | None =>
    match ReadUint64Bytes (buf r) with
    | Err e => (Err e, r)
    | Ok (v, rest) => (Ok v, advance r rest)
    end
  end.

Definition Reader_ReadUint (r : Reader) : result Z * Reader :=
  if (length (buf r) <? 1)%nat then (Err ErrShortBytes, r) else
  match (if strict r && (getMajorType (idx (buf r) 0) =? majorTypeUint)
         then strictGate (isNonCanonicalLength (buf r) majorTypeUint)
         else None) with
  | Some e => (Err e, r)
  | None =>
    match ReadUintBytes (buf r) with
    | Err e => (Err e, r)
    | Ok (v, rest) => (Ok v, advance r rest)
    end
  end.

(** [Reader.ReadBytes]. *)
Definition Reader_ReadBytes (r : Reader) : result bytes * Reader :=
  if (length (buf r) <? 1)%nat then (Err ErrShortBytes, r) else
  match (if strict r then strictGate (isNonCanonicalBytesLength (buf r))
         else None) with
  | Some e => (Err e, r)
  | None =>
    if deterministic r && (getMajorType (idx (buf r) 0) =? majorTypeBytes)
       && (getAddInfo (idx (buf r) 0) =? addInfoIndefinite)
    then (Err ErrIndefiniteForbidden, r)
    else
      match run (ReadBytesBytes (buf r)) with
      | Err e => (Err e, r)
      | Ok (v, rest) => (Ok v, advance r rest)
      end
  end.

Section ReaderText.

Variable isUTF8Valid : bytes -> bool.
Variable ValidateUTF8OnDecode : bool.

(** [Reader.ReadString]. *)
Definition Reader_ReadString (r : Reader) : result bytes * Reader :=
  if (length (buf r) <? 1)%nat then (Err ErrShortBytes, r) else
  match (if strict r then strictGate (isNonCanonicalTextLength (buf r))
         else None) with
  | Some e => (Err e, r)
  | None =>
    if deterministic r && (getMajorType (idx (buf r) 0) =? majorTypeText)
       && (getAddInfo (idx (buf r) 0) =? addInfoIndefinite)
    then (Err ErrIndefiniteForbidden, r)
    else
      match run (ReadStringBytes isUTF8Valid ValidateUTF8OnDecode (buf r)) with
      | Err e => (Err e, r)
      | Ok (s, rest) => (Ok s, advance r rest)
      end
  end.

End ReaderText.

(** ** Duplicate keys, in the specification's words *)

(** The keys [ks], met in this order after the keys of [seen], hold no
    key twice and none of [seen]. *)
Fixpoint dupfree (seen : gset (list Z)) (ks : list (list Z)) : bool :=
  match ks with
  | [] => true
  | k :: ks' =>
    if decide (k ∈ seen) then false else dupfree ({[ k ]} ∪ seen) ks'
  end.

(** ** Length headers of a chosen width, in the specification's words *)

(** The additional-info value announcing [w] follow bytes (for [w = 0] the
    value itself is the additional info). *)
Definition followInfo (w : nat) (n : Z) : Z :=
  match w with
  | 0%nat => n
  | 1%nat => 24
  | 2%nat => 25
  | 4%nat => 26
  | _ => 27
  end.

(** A header of major type [major] carrying [n] in [w] follow bytes. *)
Definition lengthHeader (major : Z) (w : nat) (n : Z) : bytes :=
  makeByte major (followInfo w n) :: be_bytes w n.

(** [n] fits a header with [w] follow bytes. *)
Definition fitsWidth (w : nat) (n : Z) : Prop :=
  (w = 0%nat /\ 0 <= n <= 23)
  \/ ((w = 1 \/ w = 2 \/ w = 4 \/ w = 8)%nat /\ 0 <= n < 2 ^ (8 * Z.of_nat w)).

(** The header is wider than the canonical one for its value. *)
Definition nonMinimal (w : nat) (n : Z) : Prop :=
  (canonicalWidth n < 1 + w)%nat.

(** ** Floating point

    A [float64], [float32] or binary16 value is its IEEE 754 bit pattern (what
    [math.Float64bits] and [math.Float32bits] return), a [Z].  The
    conversions between widths go through [spec_float], the Standard
    Library's specification of IEEE 754 values, whose [binary_round] rounds
    to nearest, ties to even. *)

(** An IEEE 754 interchange format: the widths of the trailing
    significand and of the exponent. *)
Record format : Type := mkFormat { mbits : Z; ebits : Z }.

Definition binary16 : format := mkFormat 10 5.
Definition binary32 : format := mkFormat 23 8.
Definition binary64 : format := mkFormat 52 11.

Definition fprec (f : format) : Z := mbits f + 1.
Definition femax (f : format) : Z := 2 ^ (ebits f - 1).
Definition fbias (f : format) : Z := 2 ^ (ebits f - 1) - 1.

Definition signOf (f : format) (x : Z) : bool :=
  Z.testbit x (mbits f + ebits f).
Definition expOf (f : format) (x : Z) : Z :=
  (x / 2 ^ mbits f) mod 2 ^ ebits f.
Definition mantOf (f : format) (x : Z) : Z := x mod 2 ^ mbits f.

(** The value a bit pattern denotes. *)
Definition decode (f : format) (x : Z) : spec_float :=
  let s := signOf f x in
  let e := expOf f x in
  let m := mantOf f x in
  if e =? 0 then
    if m =? 0 then S754_zero s
    else S754_finite s (Z.to_pos m) (1 - fbias f - mbits f)
  else if e =? 2 ^ ebits f - 1 then
    if m =? 0 then S754_infinity s else S754_nan
  else S754_finite s (Z.to_pos (m + 2 ^ mbits f)) (e - fbias f - mbits f).

Definition signBit (f : format) (s : bool) : Z :=
  if s then 2 ^ (mbits f + ebits f) else 0.

(** The bit pattern of a value already rounded to the format; [nan] is the
    pattern to use for a NaN. *)
Definition encode (f : format) (nan : Z) (v : spec_float) : Z :=
  match v with
  | S754_zero s => signBit f s
  | S754_infinity s => signBit f s + (2 ^ ebits f - 1) * 2 ^ mbits f
  | S754_nan => nan
  | S754_finite s m e =>
    if Z.pos m <? 2 ^ mbits f then signBit f s + Z.pos m
    else signBit f s + (e + fbias f + mbits f) * 2 ^ mbits f
         + (Z.pos m - 2 ^ mbits f)
  end.

(** Rounding a value to a format. *)
Definition roundTo (f : format) (v : spec_float) : spec_float :=
  match v with
  | S754_finite s m e => binary_round (fprec f) (femax f) s m e
  | _ => v
  end.

(** Go's [float32(f)] on a [float64]: round to nearest even; a NaN keeps
    its sign and the high bits of its payload and is made quiet, as the
    conversion instructions of amd64 and arm64 do. *)
Definition toFloat32 (x : Z) : Z :=
  encode binary32
    (signBit binary32 (signOf binary64 x) + 0x7fc00000
     + mantOf binary64 x / 2 ^ 29 mod 2 ^ 22)
    (roundTo binary32 (decode binary64 x)).

(** Go's [float64(f)] on a [float32]: exact. *)
Definition toFloat64 (x : Z) : Z :=
  encode binary64
    (signBit binary64 (signOf binary32 x) + 0x7ff8000000000000
     + (mantOf binary32 x mod 2 ^ 22) * 2 ^ 29)
    (roundTo binary64 (decode binary32 x)).

(** [a == b] on [float64] values. *)
Definition float64_eq (a b : Z) : bool :=
  SFeqb (decode binary64 a) (decode binary64 b).

(** [math.IsNaN] and [math.Signbit] on a [float64]. *)
Definition IsNaN (x : Z) : bool :=
  match decode binary64 x with S754_nan => true | _ => false end.
Definition Signbit (x : Z) : bool := signOf binary64 x.

(** [math.Ldexp(float64(mant), exp)] for a non-negative integer [mant],
    negated when [neg]. *)
Definition ldexpInt (neg : bool) (mant exp : Z) : Z :=
  encode binary64 0x7ff8000000000001
    (binary_normalize (fprec binary64) (femax binary64)
       (if neg then - mant else mant) exp false).

(** [float32ToFloat16Bits(f)]. *)
Definition float32ToFloat16Bits (f : Z) : Z :=
  let bits := f in
  let sign := uint16 (Z.land (Z.shiftr bits 31) 0x1) in
  let exp := Z.land (Z.shiftr bits 23) 0xFF in
  let mant := Z.land bits 0x7FFFFF in
  let h :=
    if exp =? 0xFF then
      if mant =? 0 then Z.shiftl 0x1F 10
      else
        let h := Z.lor (Z.shiftl 0x1F 10) (uint16 (Z.shiftr mant 13)) in
        if Z.land h 0x03FF =? 0 then Z.lor h 1 else h
    else if exp =? 0 then 0
    else
      let e32 := exp - 127 in
      let e16 := e32 + 15 in
      if e16 >=? 0x1F then Z.shiftl 0x1F 10
      else if e16 <=? 0 then
        let shift := 14 - e32 in
        if shift >? 24 then 0
        else
          let mantissa := Z.lor mant (Z.shiftl 1 23) in
          let round := uint32 (Z.shiftl 1 (shift - 1)) in
          let val := mantissa in
          let val := uint32 (val + (round - 1 + Z.land (Z.shiftr val shift) 1)) in
          let frac := uint16 (Z.shiftr val shift) in
          Z.land frac 0x03FF
      else
        let mantR := mant in
        let round := Z.shiftl 1 12 in
        let val := uint32 (mantR + round - 1 + Z.land (Z.shiftr mantR 13) 1) in
        let frac := uint16 (Z.shiftr val 13) in
        let h := Z.lor (uint16 (Z.shiftl (uint16 e16) 10)) (Z.land frac 0x03FF) in
        if negb (Z.shiftr frac 10 =? 0) then
          let e16 := e16 + 1 in
          if e16 >=? 0x1F then Z.shiftl 0x1F 10
          else uint16 (Z.shiftl (uint16 e16) 10)
        else h in
  Z.lor (uint16 (Z.shiftl sign 15)) h.

(** [float16BitsToFloat32(h)]. *)
Definition float16BitsToFloat32 (h : Z) : Z :=
  let sign := Z.land (Z.shiftr h 15) 0x1 in
  let exp := Z.land (Z.shiftr h 10) 0x1F in
  let mant := Z.land h 0x03FF in
  if exp =? 0 then
    if mant =? 0 then uint32 (Z.shiftl sign 31)
    else toFloat32 (ldexpInt (negb (sign =? 0)) mant (-24))
  else if exp =? 0x1F then
    let bits := Z.lor (uint32 (Z.shiftl sign 31)) (Z.shiftl 0xFF 23) in
    if negb (mant =? 0) then Z.lor bits (uint32 (Z.shiftl mant 13)) else bits
  else
    let e32 := exp - 15 + 127 in
    Z.lor (Z.lor (uint32 (Z.shiftl sign 31)) (uint32 (Z.shiftl e32 23)))
          (uint32 (Z.shiftl mant 13)).

(** [AppendFloat16(b, f)], [AppendFloat32(b, f)], [AppendFloat64(b, f)]. *)
Definition AppendFloat16 (b : bytes) (f : Z) : bytes :=
  let '(o, n) := ensure b 3 in
  let o := <[n := makeByte majorTypeSimple simpleFloat16]> o in
  bePutUint16 o (n + 1) (float32ToFloat16Bits f).

Definition AppendFloat32 (b : bytes) (f : Z) : bytes :=
  let '(o, n) := ensure b 5 in
  let o := <[n := makeByte majorTypeSimple simpleFloat32]> o in
  bePutUint32 o (n + 1) f.

Definition AppendFloat64 (b : bytes) (f : Z) : bytes :=
  let '(o, n) := ensure b 9 in
  let o := <[n := makeByte majorTypeSimple simpleFloat64]> o in
  bePutUint64 o (n + 1) f.

(** [AppendFloatCanonical(b, f)]. *)
Definition AppendFloatCanonical (b : bytes) (f : Z) : bytes :=
  let f := if float64_eq f 0 && Signbit f then 0 else f in
  if IsNaN f then AppendFloat16 b (toFloat32 f)
  else
    let f16 := float32ToFloat16Bits (toFloat32 f) in
    if float64_eq (toFloat64 (float16BitsToFloat32 f16)) f
    then AppendFloat16 b (toFloat32 f)
    else
      let f32 := toFloat32 f in
      if float64_eq (toFloat64 f32) f then AppendFloat32 b f32
      else AppendFloat64 b f.

(** The narrowest width, in the specification's words: a value is
    representable in binary16 (in binary32) when some bit pattern of that
    width widens to exactly the given [float64]. *)
Definition widen16 (h : Z) : Z := toFloat64 (float16BitsToFloat32 h).

(** ** read_bytes.go: the deterministic map encoder *)

(** [bytes.Compare(a, b)]: lexicographic, as [-1], [0] or [1]. *)
Fixpoint bytesCompare (a b : bytes) : Z :=
  match a, b with
  | [], [] => 0
  | [], _ :: _ => -1
  | _ :: _, [] => 1
  | x :: a', y :: b' =>
    if x <? y then -1 else if y <? x then 1 else bytesCompare a' b'
  end.

(** The encoded key of entry [i]. *)
Definition keyOf (keys : list bytes) (i : nat) : bytes := nth i keys [].

(** The comparator handed to [sort.Slice]. *)
Definition keyLess (keys : list bytes) (i j : nat) : bool :=
  bytesCompare (keyOf keys i) (keyOf keys j) <? 0.

(** [byLen[l] = append(byLen[l], i)] for [i] from [0] to [n-1]. *)
Definition bucketByLen (keys : list bytes) : gmap nat (list nat) :=
  fold_left
    (fun (byLen : gmap nat (list nat)) (i : nat) =>
       let l := length (keyOf keys i) in
       <[l := default [] (byLen !! l) ++ [i]]> byLen)
    (seq 0 (length keys)) ∅.

(** The bucket lengths in ascending order: the keys of [byLen] collected
    (in the map's iteration order) and passed to [sort.Ints], whose output
    is the one ascending arrangement of these distinct lengths. *)
Definition sortedLens (byLen : gmap nat (list nat)) : list nat :=
  merge_sort Nat.le (fst <$> map_to_list byLen).

(** The byte of entry [i]'s key at position [pos], as an index into
    [counts]. *)
Definition keyByte (keys : list bytes) (i pos : nat) : nat :=
  Z.to_nat (idx (keyOf keys i) pos).

(** [for _, idx := range cur { counts[int(pairs[idx].Key[pos])]++ }]. *)
Definition countPass (keys : list bytes) (pos : nat) (cur : list nat)
  (counts : list nat) : list nat :=
  fold_left
    (fun cs i =>
       let bv := keyByte keys i pos in <[bv := S (nth bv cs 0%nat)]> cs)
    cur counts.

(** [sum := 0; for i := 0; i < 256; i++ { c := counts[i]; counts[i] = sum;
    sum += c }]. *)
Fixpoint prefixPass (sum : nat) (counts : list nat) : list nat :=
  match counts with
  | [] => []
  | c :: counts' => sum :: prefixPass (sum + c) counts'
  end.

(** [for _, idx := range cur { bv := ...; p := counts[int(bv)];
    aux[p] = idx; counts[int(bv)] = p + 1 }]. *)
Definition placePass (keys : list bytes) (pos : nat) (cur : list nat)
  (counts aux : list nat) : list nat * list nat :=
  fold_left
    (fun '(cs, aux) i =>
       let bv := keyByte keys i pos in
       let p := nth bv cs 0%nat in
       (<[bv := S p]> cs, <[p := i]> aux))
    cur (counts, aux).

(** One pass of the radix sort at byte position [pos], ending with
    [cur, aux = aux, cur]. *)
Definition radixPass (keys : list bytes) (pos : nat) (st : list nat * list nat)
  : list nat * list nat :=
  let '(cur, aux) := st in
  let counts := repeat 0%nat 256 in
  let counts := countPass keys pos cur counts in
  let counts := prefixPass 0 counts in
  let '(_, aux) := placePass keys pos cur counts aux in
  (aux, cur).

(** [for pos := l - 1; pos >= 0; pos--]: [k] positions remain. *)
Fixpoint radixLoop (keys : list bytes) (k : nat) (st : list nat * list nat)
  : list nat * list nat :=
  match k with
  | O => st
  | S k' => radixLoop keys k' (radixPass keys k' st)
  end.

Section DeterministicMap.

(** [sort.Slice(grp, less)] of the Go library, which sorts in place with
    an unstable algorithm; the theorems assume of it what its
    documentation promises. *)
Variable sort_Slice : (nat -> nat -> bool) -> list nat -> list nat.

(** The body of [for _, l := range lens]: the state is [order] and the
    scratch slice [tmp] (its whole backing array, stale contents
    included). *)
Definition orderGroup (keys : list bytes) (byLen : gmap nat (list nat))
  (st : list nat * list nat) (l : nat) : list nat * list nat :=
  let '(order, tmp) := st in
  let grp := default [] (byLen !! l) in
  if (length grp <=? 1)%nat then (order ++ grp, tmp)
  else if (l <? 64)%nat && (length grp <? 1024)%nat then
    (order ++ sort_Slice (keyLess keys) grp, tmp)
  else
    let fresh := (length tmp <? length grp)%nat in
    let aux0 := if fresh then repeat 0%nat (length grp)
                else take (length grp) tmp in
    let '(cur, aux) := radixLoop keys l (grp, aux0) in
    let tmpArray := if Nat.even l then aux else cur in
    (order ++ cur,
     if fresh then tmpArray else tmpArray ++ drop (length grp) tmp).

(** The order in which the entries are written. *)
Definition detOrder (keys : list bytes) : list nat :=
  let byLen := bucketByLen keys in
  let lens := sortedLens byLen in
  fst (fold_left (orderGroup keys byLen) lens ([], [])).

(** [AppendRawMapDeterministic(b, pairs)]. *)
Definition AppendRawMapDeterministic (b : bytes) (pairs : list RawPair)
  : bytes :=
  let n := length pairs in
  if (n =? 0)%nat then AppendMapHeader b 0
  else
    let order := detOrder (map Key pairs) in
    let b := AppendMapHeader b (uint32 (Z.of_nat n)) in
    fold_left
      (fun b i =>
         (b ++ Key (nth i pairs (mkRawPair [] [])))
           ++ Value (nth i pairs (mkRawPair [] [])))
      order b.

(** [AppendMapDeterministic(b, m, encKey, encVal)].  [m] is the list of
    the map's entries in the order the [range] loop yields them; [encKey]
    and [encVal] give the bytes the two encoders append. *)
Definition AppendMapDeterministic {K V : Type} (b : bytes) (m : list (K * V))
  (encKey : K -> bytes) (encVal : V -> result bytes) : result bytes :=
  let keyEncs := map (fun kv => encKey (fst kv)) m in
  let order := detOrder keyEncs in
  let b := AppendMapHeader b (uint32 (Z.of_nat (length m))) in
  fold_left
    (fun acc oi =>
       match acc with
       | Err e => Err e
       | Ok b =>
         let b := b ++ nth oi keyEncs [] in
         match nth_error m oi with
         | None => Err GoPanic
         | Some kv =>
           match encVal (snd kv) with
           | Ok v => Ok (b ++ v)
           | Err e => Err e
           end
         end
       end)
    order (Ok b).

End DeterministicMap.

(** ** The order of encoded keys, in the specification's words *)

(** Bytewise lexicographic [a <= b]. *)
Fixpoint lexLe (a b : bytes) : Prop :=
  match a, b with
  | [], _ => True
  | _ :: _, [] => False
  | x :: a', y :: b' => x < y \/ (x = y /\ lexLe a' b')
  end.

(** Length first, then bytewise lexicographic. *)
Definition keyLe (a b : bytes) : Prop :=
  (length a < length b)%nat \/ (length a = length b /\ lexLe a b).

(** ** Bucket sort, the specification of one radix pass *)

(** The entries of [l] whose byte is [v], in the order of [l]. *)
Definition bucket (beta : nat -> nat) (v : nat) (l : list nat) : list nat :=
  filter (fun i => beta i = v) l.

(** The buckets of the 256 byte values, one after the other. *)
Definition bucketSort (beta : nat -> nat) (l : list nat) : list nat :=
  flat_map (fun v => bucket beta v l) (seq 0 256).

(** Where bucket [v] starts in [bucketSort beta l]. *)
Definition startOf (beta : nat -> nat) (l : list nat) (v : nat) : nat :=
  length (flat_map (fun u => bucket beta u l) (seq 0 v)).

(** What [sort.Slice] leaves behind: no entry is [less] than one before
    it. *)
Definition notLess (less : nat -> nat -> bool) (i j : nat) : Prop :=
  less j i = false.

#[global] Instance notLess_dec (less : nat -> nat -> bool) (i j : nat) :
  Decision (notLess less i j).
Proof. unfold notLess. apply _. Defined.

(** A sort meeting the contract of [sort.Slice] (a merge sort), to run
    the encoder with. *)
Definition mergeSortSlice (less : nat -> nat -> bool) (l : list nat)
  : list nat :=
  merge_sort (notLess less) l.

(** The entries of [all] whose key is [l] bytes long. *)
Definition lenGroup (keys : list bytes) (l : nat) (all : list nat) : list nat :=
  filter (fun i => length (keyOf keys i) = l) all.

(* ================================================================== *)
(** * JSON interop *)
(* ================================================================== *)

(** ** Go strings and partial results *)

(** The bytes of a string literal, and the double quote. *)
Definition str (s : String.string) : bytes :=
  map (fun a => Z.of_N (Ascii.N_of_ascii a)) (String.list_ascii_of_string s).
Arguments str s%_string.

Definition dq : bytes := [34].

(** The readers of text and byte strings contain loops, so they and their
    callers return an [option (result _)]; the sequencing below is the
    source's [if err != nil { return b, err }]. *)
Definition bind {A B : Type} (m : option (result A))
  (k : A -> option (result B)) : option (result B) :=
  match m with
  | None => None
  | Some (Err e) => Some (Err e)
  | Some (Ok a) => k a
  end.

Definition ret {A : Type} (a : A) : option (result A) := Some (Ok a).
Definition throw {A : Type} (e : error) : option (result A) := Some (Err e).
Definition lift {A : Type} (r : result A) : option (result A) := Some r.

Notation "'let?' p ':=' m 'in' k" := (bind m (fun p => k))
  (at level 10, p pattern, m at level 100, k at level 200, only parsing).

(** ** What the interop layer imports

    The functions of the Go standard library (and the two package
    variables of the runtime) that [json_interop.go] and [json_from.go]
    call and whose results the model does not compute.  A [float64] is its
    bit pattern; an error of a library call is [None] (or [false]) here
    and [ErrOther] in the result of the caller.  [DiagBytes] is the
    diagnostic printer of [diag.go], which [toJSON] uses for a map key that
    is not a text string. *)
Record Imports : Type := mkImports {
  isUTF8Valid : bytes -> bool;
  ValidateUTF8OnDecode : bool;
  (* package time; the layout is always time.RFC3339Nano *)
  Time : Type;
  time_Unix : Z -> Z -> Time;
  time_Parse : bytes -> option Time;
  Time_Format : Time -> bytes;
  Time_UTC : Time -> Time;
  Time_Unix : Time -> Z;
  Time_Nanosecond : Time -> Z;
  (* package math, and the conversions int64(f), uint64(f) of a float64 *)
  math_Floor : Z -> Z;
  math_Round : Z -> Z;
  int64_of_float64 : Z -> Z;
  uint64_of_float64 : Z -> Z;
  (* math/big: z.String() and new(big.Int).SetString(s, 10) *)
  big_String : Z -> bytes;
  big_SetString : bytes -> option Z;
  (* json.Number: n.Int64() and n.Float64() *)
  Number_Int64 : bytes -> option Z;
  Number_Float64 : bytes -> option Z;
  (* encoding/base64, encoding/hex, regexp *)
  RawURLEncoding_DecodeString : bytes -> option bytes;
  StdEncoding_DecodeString : bytes -> option bytes;
  hex_DecodeString : bytes -> option bytes;
  regexp_Compile : bytes -> bool;
  DiagBytes : bytes -> result (bytes * bytes)
}.

(** ** read_bytes.go: floats *)

Definition ReadFloat64Bytes (b : bytes) : result (Z * bytes) :=
  if (length b <? 9)%nat then Err ErrShortBytes
  else if negb (idx b 0 =? 0xfb)
  then Err (badPrefix (getMajorType (idx b 0)) majorTypeSimple)
  else Ok (beUint64 (drop 1 b), drop 9 b).

Definition ReadFloat32Bytes (b : bytes) : result (Z * bytes) :=
  if (length b <? 5)%nat then Err ErrShortBytes
  else if negb (idx b 0 =? 0xfa)
  then Err (badPrefix (getMajorType (idx b 0)) majorTypeSimple)
  else Ok (beUint32 (drop 1 b), drop 5 b).

(** [ReadFloat16Bytes(b)]: the value is handed back as a [float32]. *)
Definition ReadFloat16Bytes (b : bytes) : result (Z * bytes) :=
  if (length b <? 3)%nat then Err ErrShortBytes
  else if negb (idx b 0 =? 0xF9)
  then Err (badPrefix (getMajorType (idx b 0)) majorTypeSimple)
  else Ok (float16BitsToFloat32 (beUint16 (drop 1 b)), drop 3 b).

(** [x - y], [x + y], [x * y] and the comparisons on [float64] values. *)
Definition float64_op (op : Z -> Z -> spec_float -> spec_float -> spec_float)
  (x y : Z) : Z :=
  encode binary64 0x7ff8000000000001
    (op (fprec binary64) (femax binary64)
        (decode binary64 x) (decode binary64 y)).

Definition float64_sub : Z -> Z -> Z := float64_op SFsub.
Definition float64_add : Z -> Z -> Z := float64_op SFadd.
Definition float64_mul : Z -> Z -> Z := float64_op SFmul.
Definition float64_div : Z -> Z -> Z := float64_op SFdiv.
Definition float64_ltb (x y : Z) : bool :=
  SFltb (decode binary64 x) (decode binary64 y).
Definition float64_leb (x y : Z) : bool :=
  SFleb (decode binary64 x) (decode binary64 y).

(** The constants [1e9] and [0.5] as [float64]. *)
Definition float64_1e9 : Z := 0x41cdcd6500000000.
Definition float64_half : Z := 0x3fe0000000000000.

(** [float64(i)] for an [int64]. *)
Definition float64_of_int64 (i : Z) : Z :=
  encode binary64 0x7ff8000000000001
    (binary_normalize (fprec binary64) (femax binary64) i 0 false).

(** ** read_bytes.go: readers of tagged values *)

Section TaggedReaders.

Variable L : Imports.

(** The seconds-and-nanoseconds arithmetic that [ReadTimeBytes] repeats
    in each of its three float cases, for [f] already a [float64]. *)
Definition timeOfFloat (f : Z) : Time L :=
  let sec := math_Floor L f in
  let ns := int64_of_float64 L
              (math_Round L (float64_mul (float64_sub f sec) float64_1e9)) in
  let secs := int64_of_float64 L sec in
  if ns >=? 1000000000
  then time_Unix L (int64 (secs + 1)) (int64 (ns - 1000000000))
  else time_Unix L secs ns.

(** [ReadTimeBytes(b)]. *)
Definition ReadTimeBytes (b : bytes) : result (Time L * bytes) :=
  if (length b <? 2)%nat then Err ErrShortBytes
  else if negb (getMajorType (idx b 0) =? majorTypeTag)
  then Err (badPrefix (getMajorType (idx b 0)) majorTypeTag)
  else
  match readUintCore b majorTypeTag with
  | Err e => Err e
  | Ok (tag, o) =>
    if negb (tag =? tagEpochDateTime) then Err ErrOther
    else if (length o <? 1)%nat then Err ErrShortBytes
    else
    let major := getMajorType (idx o 0) in
    if (major =? majorTypeUint) || (major =? majorTypeNegInt) then
      match ReadInt64Bytes o with
      | Err e => Err e
      | Ok (sec, o2) => Ok (time_Unix L sec 0, o2)
      end
    else if major =? majorTypeSimple then
      let add := getAddInfo (idx o 0) in
      if add =? simpleFloat64 then
        match ReadFloat64Bytes o with
        | Err e => Err e
        | Ok (f, o2) => Ok (timeOfFloat f, o2)
        end
      else if add =? simpleFloat32 then
        match ReadFloat32Bytes o with
        | Err e => Err e
        | Ok (f, o2) => Ok (timeOfFloat (toFloat64 f), o2)
        end
      else if add =? simpleFloat16 then
        match ReadFloat16Bytes o with
        | Err e => Err e
        | Ok (f, o2) => Ok (timeOfFloat (toFloat64 f), o2)
        end
      else Err ErrUnsupportedType
    else Err ErrUnsupportedType
  end.

(** The opening shared by the readers of one fixed tag: read the tag,
    compare it with the expected one. *)
Definition expectTag (want : Z) (mismatch : error) (b : bytes)
  : result bytes :=
  match ReadTagBytes b with
  | Err e => Err e
  | Ok (tag, o) => if negb (tag =? want) then Err mismatch else Ok o
  end.

Definition tagMismatch : error := badPrefix majorTypeTag majorTypeTag.

Definition readString (o : bytes) : option (result (bytes * bytes)) :=
  ReadStringBytes (isUTF8Valid L) (ValidateUTF8OnDecode L) o.

(** [ReadRFC3339TimeBytes(b)]. *)
Definition ReadRFC3339TimeBytes (b : bytes)
  : option (result (Time L * bytes)) :=
  let? o := lift (expectTag tagDateTimeString tagMismatch b) in
  let? (s, o2) := readString o in
  match time_Parse L s with
  | None => throw ErrOther
  | Some t => ret (t, o2)
  end.

(** The text-string readers of tags 33, 34, 32, 35 and 36. *)
Definition ReadBase64URLStringBytes (b : bytes) :=
  let? o := lift (expectTag tagBase64URLString tagMismatch b) in readString o.
Definition ReadBase64StringBytes (b : bytes) :=
  let? o := lift (expectTag tagBase64String tagMismatch b) in readString o.
Definition ReadURIStringBytes (b : bytes) :=
  let? o := lift (expectTag tagURI tagMismatch b) in readString o.
Definition ReadRegexpStringBytes (b : bytes) :=
  let? o := lift (expectTag tagRegexp tagMismatch b) in readString o.
Definition ReadMIMEStringBytes (b : bytes) :=
  let? o := lift (expectTag tagMIME tagMismatch b) in readString o.

(** The byte-string readers of tags 24, 21, 22 and 23. *)
Definition ReadEmbeddedCBORBytes (b : bytes) :=
  let? o := lift (expectTag tagCBOR tagMismatch b) in ReadBytesBytes o.
Definition ReadBase64URLBytes (b : bytes) :=
  let? o := lift (expectTag tagBase64URL tagMismatch b) in ReadBytesBytes o.
Definition ReadBase64Bytes (b : bytes) :=
  let? o := lift (expectTag tagBase64 tagMismatch b) in ReadBytesBytes o.
Definition ReadBase16Bytes (b : bytes) :=
  let? o := lift (expectTag tagBase16 tagMismatch b) in ReadBytesBytes o.

(** [ReadUUIDBytes(b)]. *)
Definition ReadUUIDBytes (b : bytes) : option (result (bytes * bytes)) :=
  let? o := lift (expectTag 37 tagMismatch b) in
  let? (bs, o2) := ReadBytesBytes o in
  if negb (length bs =? 16)%nat then throw ErrOther else ret (bs, o2).

(** [StripSelfDescribeCBOR(b)]: the rest and whether the tag was found. *)
Definition StripSelfDescribeCBOR (b : bytes) : result (bytes * bool) :=
  if (length b <? 1)%nat then Err ErrShortBytes
  else if negb (getMajorType (idx b 0) =? majorTypeTag) then Ok (b, false)
  else match ReadTagBytes b with
       | Err e => Err e
       | Ok (tag, o) =>
         if negb (tag =? tagSelfDescribeCBOR) then Ok (b, false)
         else Ok (o, true)
       end.

(** [new(big.Int).SetBytes(bs)]: the big-endian magnitude. *)
Definition SetBytes (bs : bytes) : Z :=
  fold_left (fun acc x => acc * 256 + x) bs 0.

(** [ReadBigIntBytes(b)]. *)
Definition ReadBigIntBytes (b : bytes) : option (result (Z * bytes)) :=
  let? (tag, o) := lift (ReadTagBytes b) in
  let? (bs, o2) := ReadBytesBytes o in
  let mag := SetBytes bs in
  if tag =? tagPosBignum then ret (mag, o2)
  else if tag =? tagNegBignum then ret (- (mag + 1), o2)
  else throw tagMismatch.

(** [readCBORIntegerAsBigInt(b)]. *)
Definition readCBORIntegerAsBigInt (b : bytes) : option (result (Z * bytes)) :=
  if (length b <? 1)%nat then throw ErrShortBytes else
  let major := getMajorType (idx b 0) in
  if major =? majorTypeUint then lift (readUintCore b majorTypeUint)
  else if major =? majorTypeNegInt then lift (ReadInt64Bytes b)
  else if major =? majorTypeTag then
    let? (tag, o) := lift (ReadTagBytes b) in
    if negb (tag =? tagPosBignum) && negb (tag =? tagNegBignum)
    then throw ErrUnsupportedType
    else
      let? (bs, o2) := ReadBytesBytes o in
      let mag := SetBytes bs in
      ret (if tag =? tagNegBignum then - (mag + 1) else mag, o2)
  else throw ErrUnsupportedType.

(** The body that [ReadDecimalFractionBytes] and [ReadBigfloatBytes]
    share word for word: after the tag, an array of two items, definite
    or indefinite, holding the exponent and the mantissa. *)
Definition readExpMant (o : bytes) : option (result (Z * Z * bytes)) :=
  if (length o <? 1)%nat then throw ErrShortBytes else
  if idx o 0 =? makeByte majorTypeArray addInfoIndefinite then
    let p := drop 1 o in
    let? (exp, p) := lift (ReadInt64Bytes p) in
    let? (mant, p) := readCBORIntegerAsBigInt p in
    if (length p <? 1)%nat || negb (idx p 0 =? breakByte)
    then throw ErrUnsupportedType
    else ret (exp, mant, drop 1 p)
  else
    let? (sz, p) := lift (ReadArrayHeaderBytes o) in
    if negb (sz =? 2) then throw (ArrayError 2 sz) else
    let? (exp, p) := lift (ReadInt64Bytes p) in
    let? (mant, p) := readCBORIntegerAsBigInt p in
    ret (exp, mant, p).

Definition ReadDecimalFractionBytes (b : bytes) :=
  let? o := lift (expectTag tagDecimalFrac ErrUnsupportedType b) in
  readExpMant o.

Definition ReadBigfloatBytes (b : bytes) :=
  let? o := lift (expectTag tagBigfloat ErrUnsupportedType b) in
  readExpMant o.

End TaggedReaders.

(** ** json_interop.go: CBOR to JSON *)

(** What [toJSON] writes to its [ByteBuffer], one entry per write.  The
    text of a literal is kept; the output of a library encoder is kept
    as the call that produced it. *)
Inductive write : Type :=
| WriteString (s : bytes)
    (* buf.WriteString(s) for a literal or a string built by the code *)
| json_Marshal (s : bytes)
    (* js, _ := json.Marshal(s); buf.Write(js): the JSON string for s *)
| FormatUint (u : Z)              (* strconv.FormatUint(u, 10) *)
| FormatInt (i : Z)               (* strconv.FormatInt(i, 10) *)
| FormatFloat (f bitSize : Z)     (* strconv.FormatFloat(f, 'g', -1, bitSize) *)
| encodeBase64Std (src : bytes)
| encodeBase64RawURL (src : bytes).

(** [hex.EncodeToString(src)]: two lower-case digits per byte. *)
Definition hexDigit (n : Z) : Z := if n <? 10 then 48 + n else 87 + n.

Definition hex_EncodeToString (src : bytes) : bytes :=
  flat_map (fun x => [hexDigit (x / 16); hexDigit (x mod 16)]) src.

(** [s[i:j]]. *)
Definition slice (s : bytes) (i j : nat) : bytes := take (j - i) (drop i s).

Section ToJSON.

Variable L : Imports.

(** One key and its value in a map: the key is read as text, or printed
    by [DiagBytes] when it is not text; [walk] converts the value. *)
Definition mapEntry (walk : bytes -> option (result (list write * bytes)))
  (p : bytes) : option (result (list write * bytes)) :=
  if getMajorType (idx p 0) =? majorTypeText then
    let? (k, o) := readString L p in
    let? (w, p') := walk o in
    ret ([json_Marshal k; WriteString (str ":")] ++ w, p')
  else
    let? (ks, o) := lift (DiagBytes L p) in
    let? (w, p') := walk o in
    ret ([json_Marshal ks; WriteString (str ":")] ++ w, p').

(** One round of the loop over an indefinite-length array ([pairs =
    false]) or map; the state is the unread input, [first], and the output
    so far. *)
Definition jsonIndefStep (walk : bytes -> option (result (list write * bytes)))
  (pairs : bool) (st : bytes * bool * list write)
  : flow (bytes * bool * list write) (result (list write * bytes)) :=
  let '(p, first, out) := st in
  if (length p <? 1)%nat then Return (Err ErrShortBytes)
  else if idx p 0 =? breakByte then
    Return (Ok (out ++ [WriteString (str (if pairs then "}" else "]"))],
                drop 1 p))
  else
    let sep := if first then [] else [WriteString (str ",")] in
    match (if pairs then mapEntry walk p else walk p) with
    | None => Stuck
    | Some (Err e) => Return (Err e)
    | Some (Ok (w, p')) => Continue (p', false, out ++ sep ++ w)
    end.

(** One round of [for i := uint64(0); i < sz; i++]; the state is [i], the
    unread input and the output so far.  The map loop reads [p[0]] without
    a length check. *)
Definition jsonDefStep (walk : bytes -> option (result (list write * bytes)))
  (pairs : bool) (sz : Z) (st : Z * bytes * list write)
  : flow (Z * bytes * list write) (result (list write * bytes)) :=
  let '(i, p, out) := st in
  if i <? sz then
    let sep := if i >? 0 then [WriteString (str ",")] else [] in
    if pairs && (length p <? 1)%nat then Return (Err GoPanic) else
    match (if pairs then mapEntry walk p else walk p) with
    | None => Stuck
    | Some (Err e) => Return (Err e)
    | Some (Ok (w, p')) => Continue (i + 1, p', out ++ sep ++ w)
    end
  else
    Return (Ok (out ++ [WriteString (str (if pairs then "}" else "]"))], p)).

(** The arm [case majorTypeArray] ([pairs = false]) or [case majorTypeMap]
    of [toJSON]. *)
Definition toJSONContainer
  (walk : bytes -> option (result (list write * bytes)))
  (pairs : bool) (b : bytes) : option (result (list write * bytes)) :=
  let open := [WriteString (str (if pairs then "{" else "["))] in
  if getAddInfo (idx b 0) =? addInfoIndefinite then
    loop (jsonIndefStep walk pairs) (S (length b)) (drop 1 b, true, open)
  else
    let? (sz, p) :=
      lift (readUintCore b (if pairs then majorTypeMap else majorTypeArray)) in
    loop (jsonDefStep walk pairs sz) (S (length b)) (0, p, open).

(** The arm [case majorTypeSimple] of [toJSON]. *)
Definition toJSONSimple (b : bytes) : result (list write * bytes) :=
  let add := getAddInfo (idx b 0) in
  if add =? simpleFalse then Ok ([WriteString (str "false")], drop 1 b)
  else if add =? simpleTrue then Ok ([WriteString (str "true")], drop 1 b)
  else if (add =? simpleNull) || (add =? simpleUndefined)
  then Ok ([WriteString (str "null")], drop 1 b)
  else if add =? simpleFloat16 then
    match ReadFloat16Bytes b with
    | Err e => Err e
    | Ok (f, o) => Ok ([FormatFloat (toFloat64 f) 32], o)
    end
  else if add =? simpleFloat32 then
    match ReadFloat32Bytes b with
    | Err e => Err e
    | Ok (f, o) => Ok ([FormatFloat (toFloat64 f) 32], o)
    end
  else if add =? simpleFloat64 then
    match ReadFloat64Bytes b with
    | Err e => Err e
    | Ok (f, o) => Ok ([FormatFloat f 64], o)
    end
  else if add =? addInfoUint8 then
    if (length b <? 2)%nat then Err ErrShortBytes
    else Ok ([WriteString (str "null")], drop 2 b)
  else if add <? 20 then Ok ([WriteString (str "null")], drop 1 b)
  else Err ErrUnsupportedType.

(** A JSON object with the single member [name], up to its colon:
    [{"name":]. *)
Definition wrapperOpen (name : bytes) : bytes :=
  str "{" ++ dq ++ name ++ dq ++ str ":".

(** The arms [case tagDecimalFrac] and [case tagBigfloat], which differ
    in the reader and in the name. *)
Definition toJSONExpMant (name : bytes)
  (read : option (result (Z * Z * bytes)))
  : option (result (list write * bytes)) :=
  let? (exp, mant, rest) := read in
  ret ([WriteString (wrapperOpen name ++ str "[");
        FormatInt exp;
        WriteString (str ",");
        json_Marshal (big_String L mant);
        WriteString (str "]}")], rest).

(** The arms that wrap text: [{"name":] then the JSON string then [}]. *)
Definition toJSONTextWrapper (name : bytes)
  (read : option (result (bytes * bytes)))
  : option (result (list write * bytes)) :=
  let? (s, rest) := read in
  ret ([WriteString (wrapperOpen name); json_Marshal s;
        WriteString (str "}")], rest).

(** The arms that wrap encoded bytes: [{"name":"] then the encoding then
    ["}]. *)
Definition toJSONBytesWrapper (name : bytes) (enc : bytes -> write)
  (read : option (result (bytes * bytes)))
  : option (result (list write * bytes)) :=
  let? (bs, rest) := read in
  ret ([WriteString (wrapperOpen name ++ dq); enc bs;
        WriteString (dq ++ str "}")], rest).

(** The arm [case majorTypeTag] of [toJSON]; [walk] is the recursive call
    [toJSON(vbuf, o, depth+1)] of the default case. *)
Definition toJSONTag (walk : bytes -> option (result (list write * bytes)))
  (b : bytes) : option (result (list write * bytes)) :=
  let? (tag, o) := lift (ReadTagBytes b) in
  if tag =? tagDateTimeString then
    let? (tm, rest) := ReadRFC3339TimeBytes L b in
    ret ([json_Marshal (Time_Format L tm)], rest)
  else if tag =? tagEpochDateTime then
    let? (tm, rest) := lift (ReadTimeBytes L b) in
    ret ([json_Marshal (Time_Format L tm)], rest)
  else if (tag =? tagPosBignum) || (tag =? tagNegBignum) then
    let? (z, rest) := ReadBigIntBytes b in
    ret ([json_Marshal (big_String L z)], rest)
  else if tag =? tagDecimalFrac then
    toJSONExpMant (str "$decimal") (ReadDecimalFractionBytes b)
  else if tag =? tagBigfloat then
    toJSONExpMant (str "$bigfloat") (ReadBigfloatBytes b)
  else if tag =? tagBase64URL then
    toJSONBytesWrapper (str "$base64url") encodeBase64RawURL
      (ReadBase64URLBytes b)
  else if tag =? tagBase64 then
    toJSONBytesWrapper (str "$base64") encodeBase64Std (ReadBase64Bytes b)
  else if tag =? tagBase16 then
    toJSONBytesWrapper (str "$base16")
      (fun bs => WriteString (hex_EncodeToString bs)) (ReadBase16Bytes b)
  else if tag =? tagCBOR then
    toJSONBytesWrapper (str "$cbor") encodeBase64Std (ReadEmbeddedCBORBytes b)
  else if tag =? tagURI then
    let? (s, rest) := ReadURIStringBytes L b in
    ret ([json_Marshal s], rest)
  else if tag =? tagBase64URLString then
    toJSONTextWrapper (str "$base64urlstr") (ReadBase64URLStringBytes L b)
  else if tag =? tagBase64String then
    toJSONTextWrapper (str "$base64str") (ReadBase64StringBytes L b)
  else if tag =? tagRegexp then
    toJSONTextWrapper (str "$regex") (ReadRegexpStringBytes L b)
  else if tag =? tagMIME then
    toJSONTextWrapper (str "$mime") (ReadMIMEStringBytes L b)
  else if tag =? 37 then
    let? (u, rest) := ReadUUIDBytes b in
    let hexs := hex_EncodeToString u in
    let uuidStr :=
      slice hexs 0 8 ++ str "-" ++ slice hexs 8 12 ++ str "-"
      ++ slice hexs 12 16 ++ str "-" ++ slice hexs 16 20 ++ str "-"
      ++ slice hexs 20 32 in
    ret ([WriteString (wrapperOpen (str "$uuid") ++ dq);
          WriteString uuidStr;
          WriteString (dq ++ str "}")], rest)
  else if tag =? tagSelfDescribeCBOR then
    match StripSelfDescribeCBOR b with
    | Ok (_, true) =>
      ret ([WriteString (wrapperOpen (str "$selfdescribe") ++ str "true}")],
           match ReadTagBytes b with Ok (_, o2) => o2 | Err _ => b end)
    | _ => throw ErrUnsupportedType
    end
  else
    let? (vbuf, rest) := walk o in
    ret ([WriteString (wrapperOpen (str "$tag")); FormatUint tag;
          WriteString (str "," ++ dq ++ str "$" ++ dq ++ str ":")]
         ++ vbuf ++ [WriteString (str "}")], rest).

(** [toJSON(buf, b, depth)], by recursion on a fuel bound: the writes the
    call adds to [buf], and the rest of the input. *)
Fixpoint toJSON (fuel : nat) (b : bytes) (depth : Z) {struct fuel}
  : option (result (list write * bytes)) :=
  match fuel with
  | O => None
  | S fuel' =>
    if depth >? recursionLimit then throw ErrMaxDepthExceeded else
    if (length b <? 1)%nat then throw ErrShortBytes else
    let maj := getMajorType (idx b 0) in
    let walk := fun p => toJSON fuel' p (depth + 1) in
    if maj =? majorTypeUint then
      let? (u, o) := lift (readUintCore b majorTypeUint) in
      ret ([FormatUint u], o)
    else if maj =? majorTypeNegInt then
      let? (u, o) := lift (readUintCore b majorTypeNegInt) in
      ret ([FormatInt (int64 (-1 - int64 u))], o)
    else if maj =? majorTypeBytes then
      let? (bs, o) := ReadBytesBytes b in
      ret ([WriteString dq; encodeBase64Std bs; WriteString dq], o)
    else if maj =? majorTypeText then
      let? (s, o) := readString L b in
      ret ([json_Marshal s], o)
    else if maj =? majorTypeArray then toJSONContainer walk false b
    else if maj =? majorTypeMap then toJSONContainer walk true b
    else if maj =? majorTypeTag then toJSONTag walk b
    else if maj =? majorTypeSimple then lift (toJSONSimple b)
    else throw ErrUnsupportedType
  end.

(** [ToJSONBytes(b)]: every nested call works on a shorter slice. *)
Definition ToJSONBytes (b : bytes) : result (list write * bytes) :=
  run (toJSON (S (length b)) b 0).

End ToJSON.

(** ** The shapes of a rendering, in the specification's words *)

(** A plain JSON string: the output is one marshalled string. *)
Definition plainString (out : list write) : Prop :=
  exists s, out = [json_Marshal s].







(** An instance of [Imports] for evaluating closed examples: times are
    pairs of seconds and nanoseconds, and every parser and decoder
    refuses its input. *)
Definition refusingImports : Imports := {|
  isUTF8Valid := fun _ => true;
  ValidateUTF8OnDecode := true;
  Time := Z * Z;
  time_Unix := fun sec nsec => (sec, nsec);
  time_Parse := fun _ => None;
  Time_Format := fun _ => [];
  Time_UTC := fun t => t;
  Time_Unix := fst;
  Time_Nanosecond := snd;
  math_Floor := fun f => f;
  math_Round := fun f => f;
  int64_of_float64 := fun _ => 0;
  uint64_of_float64 := fun _ => 0;
  big_String := fun _ => [];
  big_SetString := fun _ => None;
  Number_Int64 := fun _ => None;
  Number_Float64 := fun _ => None;
  RawURLEncoding_DecodeString := fun _ => None;
  StdEncoding_DecodeString := fun _ => None;
  hex_DecodeString := fun _ => None;
  regexp_Compile := fun _ => false;
  DiagBytes := fun _ => Err ErrOther
|}.

(** ** read_bytes.go: appenders of strings and tagged values *)

(** [copy(o[off:], src)]. *)
Definition copy_into (o : bytes) (off : nat) (src : bytes) : bytes :=
  take off o ++ take (length o - off) src ++ drop (off + length src) o.

(** The body that [AppendBytes] and [AppendString] share word for word,
    for the major type each of them writes. *)
Definition appendData (major : Z) (b data : bytes) : bytes :=
  let sz := uint64 (Z.of_nat (length data)) in
  let h : nat :=
    if sz <=? addInfoDirect then 1%nat
    else if sz <=? MaxUint8 then 2%nat
    else if sz <=? MaxUint16 then 3%nat
    else if sz <=? MaxUint32 then 5%nat
    else 9%nat in
  let '(o, n) := ensure b (h + Z.to_nat (int64 sz)) in
  let '(o, n) :=
    match h with
    | 1%nat => (<[n := makeByte major (uint8 sz)]> o, (n + 1)%nat)
    | 2%nat =>
      let o := <[n := makeByte major addInfoUint8]> o in
      (<[(n + 1)%nat := uint8 sz]> o, (n + 2)%nat)
    | 3%nat =>
      let o := <[n := makeByte major addInfoUint16]> o in
      (bePutUint16 o (n + 1) (uint16 sz), (n + 3)%nat)
    | 5%nat =>
      let o := <[n := makeByte major addInfoUint32]> o in
      (bePutUint32 o (n + 1) (uint32 sz), (n + 5)%nat)
    | _ =>
      let o := <[n := makeByte major addInfoUint64]> o in
      (bePutUint64 o (n + 1) sz, (n + 9)%nat)
    end in
  take (n + Z.to_nat (int64 sz)) (copy_into o n data).

Definition AppendBytes (b data : bytes) : bytes :=
  appendData majorTypeBytes b data.

Definition AppendString (b s : bytes) : bytes :=
  appendData majorTypeText b s.

Definition AppendNil (b : bytes) : bytes :=
  b ++ [makeByte majorTypeSimple simpleNull].

Definition AppendBool (b : bytes) (val : bool) : bytes :=
  if val then b ++ [makeByte majorTypeSimple simpleTrue]
  else b ++ [makeByte majorTypeSimple simpleFalse].

Definition AppendTagged (b : bytes) (tag : Z) (value : bytes) : bytes :=
  AppendTag b tag ++ value.

Definition AppendBase64URLString (b s : bytes) : bytes :=
  AppendString (AppendTag b tagBase64URLString) s.
Definition AppendBase64String (b s : bytes) : bytes :=
  AppendString (AppendTag b tagBase64String) s.
Definition AppendURI (b uri : bytes) : bytes :=
  AppendString (AppendTag b tagURI) uri.
Definition AppendEmbeddedCBOR (b payload : bytes) : bytes :=
  AppendBytes (AppendTag b tagCBOR) payload.
Definition AppendUUID (b uuid : bytes) : bytes :=
  AppendBytes (AppendTag b 37) uuid.
Definition AppendRegexpString (b re : bytes) : bytes :=
  AppendString (AppendTag b tagRegexp) re.
Definition AppendMIMEString (b mime : bytes) : bytes :=
  AppendString (AppendTag b tagMIME) mime.
Definition AppendSelfDescribeCBOR (b : bytes) : bytes :=
  appendUintCore b majorTypeTag tagSelfDescribeCBOR.
Definition AppendBase64URL (b data : bytes) : bytes :=
  AppendBytes (AppendTag b tagBase64URL) data.
Definition AppendBase64 (b data : bytes) : bytes :=
  AppendBytes (AppendTag b tagBase64) data.
Definition AppendBase16 (b data : bytes) : bytes :=
  AppendBytes (AppendTag b tagBase16) data.

(** [z.Bytes()]: the magnitude of [z], big-endian, without leading
    zeros. *)
Definition big_Bytes (z : Z) : bytes :=
  let m := Z.abs z in
  if m =? 0 then [] else be_bytes (Z.to_nat (Z.log2 m / 8 + 1)) m.

(** [AppendBigInt(b, z)] for a non-nil [z]. *)
Definition AppendBigInt (b : bytes) (z : Z) : bytes :=
  if z >=? 0 then AppendBytes (AppendTag b tagPosBignum) (big_Bytes z)
  else AppendBytes (AppendTag b tagNegBignum) (big_Bytes (- z - 1)).

(** [appendCBORIntegerFromBigInt(b, z)] for a non-nil [z]: [z.BitLen()]
    is the bit length of the magnitude. *)
Definition BitLen (z : Z) : Z :=
  if z =? 0 then 0 else Z.log2 (Z.abs z) + 1.

Definition appendCBORIntegerFromBigInt (b : bytes) (z : Z) : bytes :=
  if (z >=? 0) && (BitLen z <=? 64) then AppendUint64 b (uint64 z)
  else if (z <? 0) && (BitLen z <=? 63) then AppendInt64 b (int64 z)
  else AppendBigInt b z.

Definition AppendDecimalFraction (b : bytes) (exponent mantissa : Z) : bytes :=
  let b := AppendTag b tagDecimalFrac in
  let b := AppendArrayHeader b 2 in
  let b := AppendInt64 b exponent in
  appendCBORIntegerFromBigInt b mantissa.

Definition AppendBigfloat (b : bytes) (exponent mantissa : Z) : bytes :=
  let b := AppendTag b tagBigfloat in
  let b := AppendArrayHeader b 2 in
  let b := AppendInt64 b exponent in
  appendCBORIntegerFromBigInt b mantissa.

(** ** json_from.go: JSON to CBOR *)

(** The values [jsonToCBOR] and its helpers switch on: what
    [encoding/json] decodes into [any] with [UseNumber], and the numeric
    types the helpers also accept.  An object is the list of the entries
    of the Go map, each key once, in the order [range] visits them. *)
#[warnings="-register-all"]
Inductive json : Type :=
| JNil
| JBool (x : bool)
| JNumber (x : bytes)                 (* json.Number, the literal *)
| JFloat64 (x : Z)
| JInt64 (x : Z)
| JInt (x : Z)
| JString (x : bytes)
| JArray (x : list json)
| JObject (x : list (bytes * json))
| JOther.

(** [m[k]] and its [ok]. *)
Fixpoint mapIndex (m : list (bytes * json)) (k : bytes) : option json :=
  match m with
  | [] => None
  | (k', v) :: m' => if bool_decide (k' = k) then Some v else mapIndex m' k
  end.

(** [s, _ := v.(string)] and [bval, _ := v.(bool)]. *)
Definition asString (v : json) : bytes :=
  match v with JString s => s | _ => [] end.
Definition asBool (v : json) : bool :=
  match v with JBool x => x | _ => false end.

(** [strings.ContainsAny(s, ".eE")]. *)
Definition hasFraction (s : bytes) : bool :=
  existsb (fun c => (c =? 46) || (c =? 101) || (c =? 69)) s.

(** What [tryWrapper] hands back: [ok = false], or [ok = true] with the
    output or the error. *)
Inductive wrapped : Type :=
| NotWrapper
| Wrapper (r : result bytes).

(** The body of a range loop that appends: stop at the first error. *)
Fixpoint forEach {A : Type} (body : bytes -> A -> option (result bytes))
  (b : bytes) (l : list A) : option (result bytes) :=
  match l with
  | [] => ret b
  | x :: l' => let? b' := body b x in forEach body b' l'
  end.

Section FromJSON.

Variable L : Imports.

Definition orOther {A : Type} (o : option A) : result A :=
  match o with Some a => Ok a | None => Err ErrOther end.

(** [numToUint64(v)]. *)
Definition numToUint64 (v : json) : result Z :=
  match v with
  | JNumber t =>
    if hasFraction t then
      match Number_Float64 L t with
      | None => Err ErrOther
      | Some f =>
        if float64_ltb f 0 then Err ErrOther
        else Ok (uint64_of_float64 L f)
      end
    else
      match Number_Int64 L t with
      | None => Err ErrOther
      | Some i => if i <? 0 then Err ErrOther else Ok (uint64 i)
      end
  | JFloat64 t =>
    if float64_ltb t 0 then Err ErrOther else Ok (uint64_of_float64 L t)
  | JInt64 t | JInt t => if t <? 0 then Err ErrOther else Ok (uint64 t)
  | _ => Err ErrOther
  end.

(** [anyToInt64(v)]. *)
Definition anyToInt64 (v : json) : result Z :=
  match v with
  | JNumber t => orOther (Number_Int64 L t)
  | JFloat64 t => Ok (int64_of_float64 L t)
  | JInt64 t | JInt t => Ok t
  | _ => Err ErrOther
  end.

(** [mathFloor(f)] and [mathRound(f)]. *)
Definition mathFloor (f : Z) : Z :=
  let i := int64_of_float64 L f in
  if float64_leb 0 f then float64_of_int64 i
  else if float64_eq (float64_of_int64 i) f then f
  else float64_of_int64 (int64 (i - 1)).

Definition mathRound (f : Z) : Z :=
  if float64_leb 0 f
  then float64_of_int64 (int64_of_float64 L (float64_add f float64_half))
  else float64_of_int64 (int64_of_float64 L (float64_sub f float64_half)).

(** [AppendTime(b, t)] and [AppendRFC3339Time(b, t)]. *)
Definition AppendTime (b : bytes) (t : Time L) : bytes :=
  let b := AppendTag b tagEpochDateTime in
  let sec := Time_Unix L t in
  let nsec := Time_Nanosecond L t in
  if nsec =? 0 then AppendInt64 b sec
  else AppendFloat64 b
         (float64_add (float64_of_int64 sec)
            (float64_div (float64_of_int64 nsec) float64_1e9)).

Definition AppendRFC3339Time (b : bytes) (t : Time L) : bytes :=
  AppendString (AppendTag b tagDateTimeString) (Time_Format L t).

(** The arms [$decimal] and [$bigfloat] of [tryWrapper], which differ in
    the appender. *)
Definition wrapExpMant (append : bytes -> Z -> Z -> bytes) (b : bytes)
  (v : json) : result bytes :=
  match v with
  | JArray [e; m] =>
    match anyToInt64 e with
    | Err err => Err err
    | Ok exp =>
      match m with
      | JString mantStr =>
        match big_SetString L mantStr with
        | None => Err ErrOther
        | Some z => Ok (append b exp z)
        end
      | _ => Err ErrOther
      end
    end
  | _ => Err ErrOther
  end.

(** The arms of [tryWrapper] that decode a string into bytes. *)
Definition wrapDecoded (decode : bytes -> option bytes)
  (append : bytes -> bytes -> bytes) (b : bytes) (v : json) : result bytes :=
  match decode (asString v) with
  | None => Err ErrOther
  | Some bs => Ok (append b bs)
  end.

(** The arm [$epoch]. *)
Definition wrapEpoch (b : bytes) (v : json) : result bytes :=
  let number :=
    match v with
    | JNumber vv => orOther (Number_Float64 L vv)
    | JFloat64 vv => Ok vv
    | JInt64 vv => Ok (float64_of_int64 vv)
    | _ => Err ErrOther
    end in
  match number with
  | Err e => Err e
  | Ok f =>
    let sec := mathFloor f in
    let ns := int64_of_float64 L
                (mathRound (float64_mul (float64_sub f sec) float64_1e9)) in
    let secs := int64_of_float64 L sec in
    let '(secs, ns) :=
      if ns >=? 1000000000 then (int64 (secs + 1), int64 (ns - 1000000000))
      else (secs, ns) in
    Ok (AppendTime b (Time_UTC L (time_Unix L secs ns)))
  end.

(** The arm [$uuid]. *)
Definition wrapUUID (b : bytes) (v : json) : result bytes :=
  let s := asString v in
  if negb (length s =? 36)%nat then Err ErrOther else
  let hexStr := filter (fun c => c <> 45) s in
  match hex_DecodeString L hexStr with
  | None => Err ErrOther
  | Some bs =>
    if negb (length bs =? 16)%nat then Err ErrOther else Ok (AppendUUID b bs)
  end.

(** The arms of [tryWrapper] that take the member as a string, refuse the
    empty string when [nonEmpty], run the check [valid], and append. *)
Definition wrapText (nonEmpty : bool) (valid : bytes -> bool)
  (append : bytes -> bytes -> bytes) (b : bytes) (v : json) : result bytes :=
  let s := asString v in
  if nonEmpty && (length s =? 0)%nat then Err ErrOther
  else if negb (valid s) then Err ErrOther
  else Ok (append b s).

(** [tryWrapper(b, m)]; [encode] is the call [jsonToCBOR(nil, iv)] of the
    [$tag] arm.  The keys are looked up one after the other, in this
    order, and the first one present decides. *)
Definition tryWrapper (encode : json -> option (result bytes))
  (b : bytes) (m : list (bytes * json)) : option wrapped :=
  let always := fun _ : bytes => true in
  match mapIndex m (str "$tag") with
  | Some tagv =>
    match mapIndex m (str "$") with
    | None => Some (Wrapper (Err ErrOther))
    | Some iv =>
      match numToUint64 tagv with
      | Err e => Some (Wrapper (Err e))
      | Ok tag =>
        match encode iv with
        | None => None
        | Some (Err e) => Some (Wrapper (Err e))
        | Some (Ok inner) => Some (Wrapper (Ok (AppendTagged b tag inner)))
        end
      end
    end
  | None => Some (
  match mapIndex m (str "$rfc3339") with
  | Some v =>
    let s := asString v in
    Wrapper (
      if (length s =? 0)%nat then Err ErrOther
      else match time_Parse L s with
           | None => Err ErrOther
           | Some t => Ok (AppendRFC3339Time b t)
           end)
  | None =>
  match mapIndex m (str "$epoch") with
  | Some v => Wrapper (wrapEpoch b v)
  | None =>
  match mapIndex m (str "$decimal") with
  | Some v => Wrapper (wrapExpMant AppendDecimalFraction b v)
  | None =>
  match mapIndex m (str "$bigfloat") with
  | Some v => Wrapper (wrapExpMant AppendBigfloat b v)
  | None =>
  match mapIndex m (str "$base64url") with
  | Some v =>
    Wrapper (wrapDecoded (RawURLEncoding_DecodeString L) AppendBase64URL b v)
  | None =>
  match mapIndex m (str "$base64") with
  | Some v => Wrapper (wrapDecoded (StdEncoding_DecodeString L) AppendBase64 b v)
  | None =>
  match mapIndex m (str "$base16") with
  | Some v => Wrapper (wrapDecoded (hex_DecodeString L) AppendBase16 b v)
  | None =>
  match mapIndex m (str "$cbor") with
  | Some v =>
    Wrapper (wrapDecoded (StdEncoding_DecodeString L) AppendEmbeddedCBOR b v)
  | None =>
  match mapIndex m (str "$uri") with
  | Some v => Wrapper (wrapText true always AppendURI b v)
  | None =>
  match mapIndex m (str "$base64urlstr") with
  | Some v => Wrapper (wrapText false always AppendBase64URLString b v)
  | None =>
  match mapIndex m (str "$base64str") with
  | Some v => Wrapper (wrapText false always AppendBase64String b v)
  | None =>
  match mapIndex m (str "$regex") with
  | Some v => Wrapper (wrapText true (regexp_Compile L) AppendRegexpString b v)
  | None =>
  match mapIndex m (str "$mime") with
  | Some v => Wrapper (wrapText true always AppendMIMEString b v)
  | None =>
  match mapIndex m (str "$uuid") with
  | Some v => Wrapper (wrapUUID b v)
  | None =>
  match mapIndex m (str "$selfdescribe") with
  | Some v =>
    Wrapper (if negb (asBool v) then Err ErrOther
             else Ok (AppendSelfDescribeCBOR b))
  | None => NotWrapper
  end end end end end end end end end end end end end end end)
  end.

(** The arm [case json.Number] of [jsonToCBOR]. *)
Definition numberToCBOR (b x : bytes) : result bytes :=
  if hasFraction x then
    match Number_Float64 L x with
    | None => Err ErrOther
    | Some f => Ok (AppendFloat64 b f)
    end
  else
    match Number_Int64 L x with
    | Some i => Ok (AppendInt64 b i)
    | None =>
      match Number_Float64 L x with
      | None => Err ErrOther
      | Some f => Ok (AppendFloat64 b f)
      end
    end.

(** The plain-object arm: the map header, then every key as a text
    string followed by its value. *)
Definition plainObject (encode : bytes -> json -> option (result bytes))
  (b : bytes) (x : list (bytes * json)) : option (result bytes) :=
  forEach (fun b kv => encode (AppendString b kv.1) kv.2)
    (AppendMapHeader b (uint32 (Z.of_nat (length x)))) x.

(** [jsonToCBOR(b, v)], by recursion on a fuel bound. *)
Fixpoint jsonToCBOR (fuel : nat) (b : bytes) (v : json) {struct fuel}
  : option (result bytes) :=
  match fuel with
  | O => None
  | S fuel' =>
    match v with
    | JNil => ret (AppendNil b)
    | JBool x => ret (AppendBool b x)
    | JNumber x => lift (numberToCBOR b x)
    | JFloat64 x => ret (AppendFloat64 b x)
    | JString x => ret (AppendString b x)
    | JArray x =>
      forEach (jsonToCBOR fuel')
        (AppendArrayHeader b (uint32 (Z.of_nat (length x)))) x
    | JObject x =>
      match tryWrapper (jsonToCBOR fuel' []) b x with
      | None => None
      | Some (Wrapper r) => Some r
      | Some NotWrapper => plainObject (jsonToCBOR fuel') b x
      end
    | _ => throw ErrUnsupportedType
    end
  end.

End FromJSON.

(** The nesting depth of a value: the fuel [jsonToCBOR] needs. *)
Fixpoint json_depth (v : json) : nat :=
  match v with
  | JArray x => S (list_max (map json_depth x))
  | JObject x => S (list_max (map (fun kv => json_depth kv.2) x))
  | _ => 1
  end.

(** The conversion of a decoded document, [jsonToCBOR(nil, v)] in
    [FromJSONBytes]. *)
Definition FromJSON (L : Imports) (v : json) : result bytes :=
  run (jsonToCBOR L (S (json_depth v)) [] v).

(** ** Wrapper recognition, in the words of the amended claim *)







(* ================================================================== *)
(** * More of the runtime *)
(* ================================================================== *)

(** ** read_bytes.go: the remaining scalar readers and appenders *)

(** [ReadNilBytes(b)] and [IsNil(b)]. *)
Definition ReadNilBytes (b : bytes) : result bytes :=
  if (length b <? 1)%nat then Err ErrShortBytes
  else if negb (idx b 0 =? makeByte majorTypeSimple simpleNull)
  then Err ErrNotNil
  else Ok (drop 1 b).

Definition IsNil (b : bytes) : bool :=
  (0 <? length b)%nat && (idx b 0 =? makeByte majorTypeSimple simpleNull).

(** [ReadBoolBytes(b)]; [TypeError] stands for the source's
    [TypeError{Method: BoolType, Encoded: getType(b[0])}]. *)
Definition ReadBoolBytes (b : bytes) : result (bool * bytes) :=
  if (length b <? 1)%nat then Err ErrShortBytes
  else if idx b 0 =? 0xf5 then Ok (true, drop 1 b)
  else if idx b 0 =? 0xf4 then Ok (false, drop 1 b)
  else Err TypeError.

(** The narrowing integer readers: [intN(i64)] after the range check is
    the value itself. *)
Definition readIntN (bits lo hi : Z) (b : bytes) : result (Z * bytes) :=
  match ReadInt64Bytes b with
  | Err e => Err e
  | Ok (i64, o) =>
    if (i64 >? hi) || (i64 <? lo) then Err (IntOverflow i64 bits)
    else Ok (i64, o)
  end.

Definition ReadInt32Bytes : bytes -> result (Z * bytes) :=
  readIntN 32 (-2147483648) 2147483647.
Definition ReadInt16Bytes : bytes -> result (Z * bytes) :=
  readIntN 16 (-32768) 32767.
Definition ReadInt8Bytes : bytes -> result (Z * bytes) :=
  readIntN 8 (-128) 127.

Definition readUintN (bits hi : Z) (b : bytes) : result (Z * bytes) :=
  match readUintCore b majorTypeUint with
  | Err e => Err e
  | Ok (u64, o) =>
    if u64 >? hi then Err (UintOverflow u64 bits) else Ok (u64, o)
  end.

Definition ReadUint32Bytes : bytes -> result (Z * bytes) :=
  readUintN 32 MaxUint32.
Definition ReadUint16Bytes : bytes -> result (Z * bytes) :=
  readUintN 16 MaxUint16.
Definition ReadUint8Bytes : bytes -> result (Z * bytes) :=
  readUintN 8 MaxUint8.

(** [ReadSimpleValue(b)] and [AppendSimpleValue(b, val)]. *)
Definition ReadSimpleValue (b : bytes) : result (Z * bytes) :=
  if (length b <? 1)%nat then Err ErrShortBytes else
  let major := getMajorType (idx b 0) in
  if negb (major =? majorTypeSimple)
  then Err (badPrefix major majorTypeSimple) else
  let addInfo := getAddInfo (idx b 0) in
  if (addInfo =? simpleFloat16) || (addInfo =? simpleFloat32)
     || (addInfo =? simpleFloat64)
  then Err ErrUnsupportedType
  else if addInfo =? addInfoUint8 then
    if (length b <? 2)%nat then Err ErrShortBytes
    else Ok (idx b 1, drop 2 b)
  else if addInfo <=? addInfoDirect then Ok (addInfo, drop 1 b)
  else Err ErrUnsupportedType.

Definition AppendSimpleValue (b : bytes) (val : Z) : bytes :=
  if val <=? addInfoDirect then b ++ [makeByte majorTypeSimple val]
  else
    let '(o, n) := ensure b 2 in
    let o := <[n := makeByte majorTypeSimple addInfoUint8]> o in
    <[(n + 1)%nat := val]> o.

(** [AppendStringFromBytes(b, data)]. *)
Definition AppendStringFromBytes (b data : bytes) : bytes :=
  let sz := uint64 (Z.of_nat (length data)) in
  appendUintCore b majorTypeText sz ++ data.

(** ** size.go: worst-case encoded sizes *)

(** The constants the generated [Msgsize] methods add up; for strings and
    byte slices the prefix size, to which the length of the value is
    added. *)
Definition Int64Size : nat := 9.
Definition Uint64Size : nat := Int64Size.
Definition Float64Size : nat := 9.
Definition Float32Size : nat := 5.
Definition TimeSize : nat := 15.
Definition BoolSize : nat := 1.
Definition NilSize : nat := 1.
Definition MapHeaderSize : nat := 5.
Definition ArrayHeaderSize : nat := 5.
Definition BytesPrefixSize : nat := 5.
Definition StringPrefixSize : nat := 5.

(** ** helpers.go: the type of the next item *)

(** defs.go: [Type]. *)
Inductive CborType : Type :=
| InvalidType | StrType | BinType | MapType | ArrayType | Float64Type
| Float32Type | BoolType | IntType | UintType | NilType | DurationType
| ExtensionType | TimeType.

Definition getType (b : Z) : CborType :=
  let major := getMajorType b in
  if major =? majorTypeUint then UintType
  else if major =? majorTypeNegInt then IntType
  else if major =? majorTypeBytes then BinType
  else if major =? majorTypeText then StrType
  else if major =? majorTypeArray then ArrayType
  else if major =? majorTypeMap then MapType
  else if major =? majorTypeTag then ExtensionType
  else if major =? majorTypeSimple then
    let addInfo := getAddInfo b in
    if (addInfo =? simpleTrue) || (addInfo =? simpleFalse) then BoolType
    else if addInfo =? simpleNull then NilType
    else if (addInfo =? simpleFloat32) || (addInfo =? simpleFloat64)
    then Float64Type
    else InvalidType
  else InvalidType.

Definition NextType (b : bytes) : CborType :=
  if (length b =? 0)%nat then InvalidType else getType (idx b 0).

(** ** number.go *)

(** [Number]: the 64 raw bits and the kind. *)
Record Number : Type := mkNumber { bits : Z; typ : CborType }.

Definition AsInt (i : Z) : Number :=
  if i =? 0 then mkNumber 0 InvalidType else mkNumber (uint64 i) IntType.
Definition AsUint (u : Z) : Number := mkNumber u UintType.
Definition AsFloat32 (f : Z) : Number := mkNumber (uint64 f) Float32Type.
Definition AsFloat64 (f : Z) : Number := mkNumber f Float64Type.

(** [n.UnmarshalCBOR(b)]: the number read and the rest; [n] is written
    only on success. *)
Definition Number_UnmarshalCBOR (b : bytes) : result (Number * bytes) :=
  match NextType b with
  | IntType =>
    match ReadInt64Bytes b with
    | Err e => Err e
    | Ok (i, o) => Ok (AsInt i, o)
    end
  | UintType =>
    match ReadUint64Bytes b with
    | Err e => Err e
    | Ok (u, o) => Ok (AsUint u, o)
    end
  | Float64Type =>
    match ReadFloat64Bytes b with
    | Err e => Err e
    | Ok (f, o) => Ok (AsFloat64 f, o)
    end
  | Float32Type =>
    match ReadFloat32Bytes b with
    | Err e => Err e
    | Ok (f, o) => Ok (AsFloat32 f, o)
    end
  | _ => Err ErrUnsupportedType
  end.

Definition Number_MarshalCBOR (n : Number) (b : bytes) : bytes :=
  match typ n with
  | IntType => AppendInt64 b (int64 (bits n))
  | UintType => AppendUint64 b (bits n)
  | Float64Type => AppendFloat64 b (bits n)
  | Float32Type => AppendFloat32 b (uint32 (bits n))
  | _ => AppendInt64 b 0
  end.

(** [n.Int()]: the value as an [int64], and whether the kind is int (or
    the zero value). *)
Definition Number_Int (n : Number) : Z * bool :=
  (int64 (bits n),
   match typ n with IntType | InvalidType => true | _ => false end).

(** ** The stateful reader: floats, booleans, Skip *)

(** The strict-mode comparison [Reader.ReadFloat32] and
    [Reader.ReadFloat64] share: the bytes consumed must be the canonical
    encoding of the value. *)
Definition floatGate (r : Reader) (v64 : Z) (rest : bytes) : option error :=
  if strict r then
    let orig := buf r in
    let canon := AppendFloatCanonical [] v64 in
    let encLen := Z.of_nat (length orig) - Z.of_nat (length rest) in
    if (encLen <? 0) || (encLen >? Z.of_nat (length orig))
    then Some ErrShortBytes
    else if negb (Z.of_nat (length canon) =? encLen)
            || negb (bool_decide (take (Z.to_nat encLen) orig = canon))
    then Some ErrNonCanonicalFloat
    else None
  else None.

Definition Reader_ReadFloat32 (r : Reader) : result Z * Reader :=
  match ReadFloat32Bytes (buf r) with
  | Err e => (Err e, r)
  | Ok (v, rest) =>
    match floatGate r (toFloat64 v) rest with
    | Some e => (Err e, r)
    | None => (Ok v, advance r rest)
    end
  end.

Definition Reader_ReadFloat64 (r : Reader) : result Z * Reader :=
  match ReadFloat64Bytes (buf r) with
  | Err e => (Err e, r)
  | Ok (v, rest) =>
    match floatGate r v rest with
    | Some e => (Err e, r)
    | None => (Ok v, advance r rest)
    end
  end.

Definition Reader_ReadBool (r : Reader) : result bool * Reader :=
  match ReadBoolBytes (buf r) with
  | Err e => (Err e, r)
  | Ok (v, rest) => (Ok v, advance r rest)
  end.

Definition Reader_Skip (r : Reader) : option error * Reader :=
  match Skip (buf r) with
  | Err e => (Some e, r)
  | Ok rest => (None, advance r rest)
  end.

(** ** read_bytes.go: CBOR sequences *)

(** One round of [for len(p) > 0] in [ForEachSequenceBytes] with the
    callback of [SplitSequenceBytes], which appends the item to [out] and
    never fails.  The loop ends with [out] and the error, [None] for
    [nil]. *)
Definition splitStep (st : bytes * list bytes)
  : flow (bytes * list bytes) (list bytes * option error) :=
  let '(p, out) := st in
  if (0 <? length p)%nat then
    match Skip p with
    | Err e => Return (out, Some e)
    | Ok r => Continue (r, out ++ [take (length p - length r) p])
    end
  else Return (out, None).

(** [SplitSequenceBytes(b)]: the items collected and the error; on an
    error the items collected before it are returned with it.  Every
    round works on a strictly shorter slice, so a fuel of [len(b) + 1] is
    enough. *)
Definition SplitSequenceBytes (b : bytes)
  : option (list bytes * option error) :=
  loop splitStep (S (length b)) (b, []).

(** [AppendSequence(b, items...)]. *)
Definition AppendSequence (b : bytes) (items : list bytes) : bytes :=
  fold_left (fun b it => b ++ it) items b.

(** ** Floats, in the words of the properties *)

(** A binary16 bit pattern is subnormal: exponent field zero, fraction not
    zero. *)
Definition halfSubnormal (h : Z) : bool :=
  (Z.land (Z.shiftr h 10) 0x1F =? 0) && negb (Z.land h 0x03FF =? 0).

(** Decoding a binary16 pattern and encoding it again. *)
Definition halfThroughFloat32 (h : Z) : Z :=
  float32ToFloat16Bits (float16BitsToFloat32 h).

(** What [halfThroughFloat32] gives on every pattern, as a check. *)
Definition halfRoundTripOk (h : Z) : bool :=
  halfThroughFloat32 h =? (if halfSubnormal h then Z.land h 0x8000 else h).

(** The integers [start], [start + 1], ... ([n] of them). *)
Fixpoint zrange (start : Z) (n : nat) : list Z :=
  match n with
  | O => []
  | S k => start :: zrange (start + 1) k
  end.

(** ** Consuming input, in the words of the properties *)

(** [o] is what is left of [b] after at least one byte was consumed. *)
Definition consumed (b o : bytes) : Prop :=
  exists n, (0 < n <= length b)%nat /\ o = drop n b.

(** ** helpers.go: ValidateDocument *)

(** One round of [for len(b) > 0] in [ValidateDocument]. *)
Definition validateDocStep (isUTF8Valid : bytes -> bool) (p : bytes)
  : flow bytes (option error) :=
  if (0 <? length p)%nat then
    match ValidateWellFormedBytes isUTF8Valid p with
    | Err e => Return (Some e)
    | Ok o => Continue o
    end
  else Return None.

(** [ValidateDocument(b)]: [Some None] is a nil error.  Every round
    works on a strictly shorter slice, so a fuel of [len(b) + 1] is
    enough. *)
Definition ValidateDocument (isUTF8Valid : bytes -> bool) (b : bytes)
  : option (option error) :=
  loop (validateDocStep isUTF8Valid) (S (length b)) b.

(** ** JSON to CBOR and back, in the words of the properties *)

(** A decoded JSON value converted to CBOR by [jsonToCBOR] and the result
    rendered by [ToJSONBytes]. *)
Definition thereAndBack (L : Imports) (v : json)
  : result (list write * bytes) :=
  match FromJSON L v with
  | Err e => Err e
  | Ok c => ToJSONBytes L c
  end.

(** ** The stateful reader, in the words of the properties *)

Definition isErr {A : Type} (x : result A) : bool :=
  match x with Err _ => true | Ok _ => false end.

(** A reader method that, when it fails, leaves the reader as it was and,
    when it succeeds, keeps the three settings and leaves fewer unread
    bytes, a suffix of those it had.  [failed] tells a failure from a
    success in the method's first result. *)
Definition transactional {O : Type} (failed : O -> bool)
  (op : Reader -> O * Reader) : Prop :=
  forall r,
    let '(x, r') := op r in
    if failed x then r' = r
    else strict r' = strict r /\ deterministic r' = deterministic r
         /\ maxContainer r' = maxContainer r
         /\ (length (buf r') < length (buf r))%nat.
(* ===================================================================== *)
(** * Properties *)
(* ===================================================================== *)

(** ** Bit-level arithmetic *)

Lemma lor_shiftl_add (lo hi k : Z) :
  0 <= k -> 0 <= lo < 2 ^ k ->
  Z.lor lo (Z.shiftl hi k) = lo + hi * 2 ^ k.
Proof.
  intros Hk Hlo.
  assert (Z.land lo (Z.shiftl hi k) = 0) as Hland.
  { apply Z.bits_inj'. intros n Hn.
    rewrite Z.land_spec, Z.bits_0.
    destruct (Z.lt_ge_cases n k) as [Hlt|Hge].
    - rewrite (Z.shiftl_spec_low hi k n Hlt). apply andb_false_r.
    - assert (Z.testbit lo n = false) as ->; [|reflexivity].
      destruct (Z.eq_dec lo 0) as [->|Hne]; [apply Z.bits_0|].
      apply Z.bits_above_log2; [lia|].
      apply Z.log2_lt_pow2; [lia|].
      apply Z.lt_le_trans with (2 ^ k); [lia|].
      apply Z.pow_le_mono_r; lia. }
  pose proof (Z.add_lor_land lo (Z.shiftl hi k)) as Hadd.
  rewrite Hland in Hadd. rewrite Z.shiftl_mul_pow2 in * by lia. lia.
Qed.

(** Evaluate the closed powers of two that appear in the goal. *)
Ltac pow2 :=
  repeat match goal with
  | |- context [2 ^ ?k] =>
      let v := eval vm_compute in (2 ^ k) in change (2 ^ k) with v
  | H : context [2 ^ ?k] |- _ =>
      let v := eval vm_compute in (2 ^ k) in change (2 ^ k) with v in H
  end.

Lemma shiftr_div (v k : Z) : 0 <= k -> Z.shiftr v k = v / 2 ^ k.
Proof. intros. apply Z.shiftr_div_pow2; lia. Qed.

Lemma beUint16_bytes (b0 b1 : Z) (r : bytes) :
  0 <= b0 < 256 -> 0 <= b1 < 256 ->
  beUint16 (b0 :: b1 :: r) = b0 * 256 + b1.
Proof.
  intros H0 H1. unfold beUint16, idx; cbn [nth].
  rewrite lor_shiftl_add by (pow2; lia). cbn. lia.
Qed.

Lemma beUint32_bytes (b0 b1 b2 b3 : Z) (r : bytes) :
  0 <= b0 < 256 -> 0 <= b1 < 256 -> 0 <= b2 < 256 -> 0 <= b3 < 256 ->
  beUint32 (b0 :: b1 :: b2 :: b3 :: r)
  = ((b0 * 256 + b1) * 256 + b2) * 256 + b3.
Proof.
  intros H0 H1 H2 H3. unfold beUint32, idx; cbn [nth].
  rewrite (lor_shiftl_add b3 b2 8) by (pow2; lia).
  rewrite (lor_shiftl_add _ b1 16) by (pow2; lia).
  rewrite (lor_shiftl_add _ b0 24) by (pow2; lia).
  pow2. lia.
Qed.

Lemma beUint64_bytes (b0 b1 b2 b3 b4 b5 b6 b7 : Z) (r : bytes) :
  0 <= b0 < 256 -> 0 <= b1 < 256 -> 0 <= b2 < 256 -> 0 <= b3 < 256 ->
  0 <= b4 < 256 -> 0 <= b5 < 256 -> 0 <= b6 < 256 -> 0 <= b7 < 256 ->
  beUint64 (b0 :: b1 :: b2 :: b3 :: b4 :: b5 :: b6 :: b7 :: r)
  = ((((((b0 * 256 + b1) * 256 + b2) * 256 + b3) * 256 + b4) * 256 + b5)
       * 256 + b6) * 256 + b7.
Proof.
  intros H0 H1 H2 H3 H4 H5 H6 H7. unfold beUint64, idx; cbn [nth].
  rewrite (lor_shiftl_add b7 b6 8) by (pow2; lia).
  rewrite (lor_shiftl_add _ b5 16) by (pow2; lia).
  rewrite (lor_shiftl_add _ b4 24) by (pow2; lia).
  rewrite (lor_shiftl_add _ b3 32) by (pow2; lia).
  rewrite (lor_shiftl_add _ b2 40) by (pow2; lia).
  rewrite (lor_shiftl_add _ b1 48) by (pow2; lia).
  rewrite (lor_shiftl_add _ b0 56) by (pow2; lia).
  pow2. lia.
Qed.

(** ** Writes into reserved space land after the old contents *)

Lemma insert_at_end (b l : bytes) (x : Z) :
  <[length b := x]> (b ++ l) = b ++ <[0%nat := x]> l.
Proof.
  rewrite <- (Nat.add_0_r (length b)) at 1. apply insert_app_r.
Qed.

Lemma bePutUint16_app (b l : bytes) (j : nat) (v : Z) :
  bePutUint16 (b ++ l) (length b + j) v = b ++ bePutUint16 l j v.
Proof.
  unfold bePutUint16. rewrite <- !Nat.add_assoc. now rewrite !insert_app_r.
Qed.

Lemma bePutUint32_app (b l : bytes) (j : nat) (v : Z) :
  bePutUint32 (b ++ l) (length b + j) v = b ++ bePutUint32 l j v.
Proof.
  unfold bePutUint32. rewrite <- !Nat.add_assoc. now rewrite !insert_app_r.
Qed.

Lemma bePutUint64_app (b l : bytes) (j : nat) (v : Z) :
  bePutUint64 (b ++ l) (length b + j) v = b ++ bePutUint64 l j v.
Proof.
  unfold bePutUint64. rewrite <- !Nat.add_assoc. now rewrite !insert_app_r.
Qed.

(** ** C1: canonical headers *)

Lemma appendUintCore_canonical (b : bytes) (major u : Z) :
  0 <= u < 2 ^ 64 ->
  appendUintCore b major u = b ++ canonicalHeader major u.
Proof.
  intros Hu. pow2.
  unfold appendUintCore, canonicalHeader, ensure,
    addInfoDirect, MaxUint8, MaxUint16, MaxUint32,
    addInfoUint8, addInfoUint16, addInfoUint32, addInfoUint64.
  destruct (u <=? 23) eqn:H23.
  { apply Z.leb_le in H23. unfold uint8. now rewrite Z.mod_small by lia. }
  apply Z.leb_gt in H23.
  destruct (u <=? 255) eqn:H255.
  { apply Z.leb_le in H255.
    rewrite insert_at_end, insert_app_r. cbn [repeat be_bytes].
    unfold uint8. cbn [list_insert]. do 3 f_equal.
    change (8 * Z.of_nat 0) with 0. pow2. now rewrite Z.div_1_r. }
  apply Z.leb_gt in H255.
  destruct (u <=? 65535) eqn:H16.
  { apply Z.leb_le in H16.
    rewrite insert_at_end, bePutUint16_app. cbn [repeat be_bytes].
    unfold bePutUint16, uint16, uint8. cbn [list_insert Nat.add].
    rewrite (Z.mod_small u 65536) by lia.
    rewrite shiftr_div by lia.
    change (8 * Z.of_nat 1) with 8. change (8 * Z.of_nat 0) with 0.
    pow2. now rewrite Z.div_1_r. }
  apply Z.leb_gt in H16.
  destruct (u <=? 4294967295) eqn:H32.
  { apply Z.leb_le in H32.
    rewrite insert_at_end, bePutUint32_app. cbn [repeat be_bytes].
    unfold bePutUint32, uint32, uint8. cbn [list_insert Nat.add].
    rewrite (Z.mod_small u 4294967296) by lia.
    rewrite !shiftr_div by lia.
    change (8 * Z.of_nat 3) with 24. change (8 * Z.of_nat 2) with 16.
    change (8 * Z.of_nat 1) with 8. change (8 * Z.of_nat 0) with 0.
    pow2. now rewrite Z.div_1_r. }
  apply Z.leb_gt in H32.
  rewrite insert_at_end, bePutUint64_app. cbn [repeat be_bytes].
  unfold bePutUint64, uint8. cbn [list_insert Nat.add].
  rewrite !shiftr_div by lia.
  change (8 * Z.of_nat 7) with 56. change (8 * Z.of_nat 6) with 48.
  change (8 * Z.of_nat 5) with 40. change (8 * Z.of_nat 4) with 32.
  change (8 * Z.of_nat 3) with 24. change (8 * Z.of_nat 2) with 16.
  change (8 * Z.of_nat 1) with 8. change (8 * Z.of_nat 0) with 0.
  pow2. now rewrite Z.div_1_r.
Qed.

Lemma canonicalHeader_length (major u : Z) :
  length (canonicalHeader major u) = canonicalWidth u.
Proof.
  unfold canonicalHeader, canonicalWidth.
  repeat match goal with |- context [if ?c then _ else _] => destruct c end;
    reflexivity.
Qed.

Lemma int64_small (x : Z) : - 2 ^ 63 <= x < 2 ^ 63 -> int64 x = x.
Proof.
  intros H. pow2. unfold int64. rewrite Z.mod_small by lia. lia.
Qed.

Lemma uint64_small (x : Z) : 0 <= x < 2 ^ 64 -> uint64 x = x.
Proof. intros H. pow2. unfold uint64. now rewrite Z.mod_small by lia. Qed.

(** The integer appender: the magnitude [i] under major type 0 for
    [i >= 0], and [-1 - i] under major type 1 otherwise. *)
Lemma AppendInt64_canonical (b : bytes) (i : Z) :
  - 2 ^ 63 <= i < 2 ^ 63 ->
  AppendInt64 b i =
  b ++ (if i <? 0 then canonicalHeader majorTypeNegInt (-1 - i)
        else canonicalHeader majorTypeUint i).
Proof.
  intros Hi. pose proof Hi as Hi'. pow2. unfold AppendInt64, addInfoDirect.
  destruct (i <? 0) eqn:Hneg.
  - apply Z.ltb_lt in Hneg.
    assert ((0 <=? i) && (i <=? 23) = false) as ->.
    { apply andb_false_iff. left. apply Z.leb_gt. lia. }
    rewrite (int64_small (-1 - i)) by (pow2; lia).
    destruct ((0 <=? -1 - i) && (-1 - i <=? 23)) eqn:Hsm.
    + apply andb_true_iff in Hsm as [_ Hle]. apply Z.leb_le in Hle.
      unfold canonicalHeader. apply Z.leb_le in Hle as Hle'. rewrite Hle'.
      unfold uint8. now rewrite Z.mod_small by lia.
    + rewrite uint64_small by (pow2; lia).
      apply appendUintCore_canonical. pow2. lia.
  - apply Z.ltb_ge in Hneg.
    destruct ((0 <=? i) && (i <=? 23)) eqn:Hsm.
    + apply andb_true_iff in Hsm as [_ Hle].
      unfold canonicalHeader. rewrite Hle. apply Z.leb_le in Hle.
      unfold uint8. now rewrite Z.mod_small by lia.
    + rewrite uint64_small by (pow2; lia).
      apply appendUintCore_canonical. pow2. lia.
Qed.

(** C1: for every unsigned [u] and every major type, [appendUintCore]
    appends the canonical shortest header (1 byte up to 23, 2 up to 255,
    3 up to 65535, 5 up to 2^32-1, else 9); [AppendInt64] appends the same
    header for a non-negative [i] and, for a negative [i], the header of
    [-1 - i] under major type 1; the eight integers of the canonical suite
    encode as 00, 17, 1818, 18ff, 190100, 20, 37, 3818. *)
Theorem C1_canonical_shortest_header (b : bytes) (major u i : Z) :
  0 <= u < 2 ^ 64 ->
  - 2 ^ 63 <= i < 2 ^ 63 ->
  (appendUintCore b major u = b ++ canonicalHeader major u
   /\ length (appendUintCore b major u) = (length b + canonicalWidth u)%nat)
  /\ (AppendInt64 b i =
        b ++ canonicalHeader (if i <? 0 then majorTypeNegInt else majorTypeUint)
                             (if i <? 0 then -1 - i else i)
      /\ length (AppendInt64 b i) =
           (length b + canonicalWidth (if (i <? 0)%Z then (-1 - i)%Z else i))%nat)
  /\ AppendInt64 [] 0 = [0x00]
  /\ AppendInt64 [] 23 = [0x17]
  /\ AppendInt64 [] 24 = [0x18; 0x18]
  /\ AppendInt64 [] 255 = [0x18; 0xff]
  /\ AppendInt64 [] 256 = [0x19; 0x01; 0x00]
  /\ AppendInt64 [] (-1) = [0x20]
  /\ AppendInt64 [] (-24) = [0x37]
  /\ AppendInt64 [] (-25) = [0x38; 0x18].
Proof.
  intros Hu Hi.
  assert (AppendInt64 b i =
          b ++ canonicalHeader (if i <? 0 then majorTypeNegInt else majorTypeUint)
                               (if i <? 0 then -1 - i else i)) as Hint.
  { rewrite AppendInt64_canonical by assumption. now destruct (i <? 0). }
  split; [|split].
  - rewrite appendUintCore_canonical by assumption. split; [reflexivity|].
    now rewrite length_app, canonicalHeader_length.
  - split; [exact Hint|].
    now rewrite Hint, length_app, canonicalHeader_length.
  - repeat split; vm_compute; reflexivity.
Qed.

Lemma C1_canonical_shortest_header_witness :
  (appendUintCore [0x01] majorTypeArray 300 = [0x01; 0x99; 0x01; 0x2c]
   /\ length (appendUintCore [0x01] majorTypeArray 300) = 4%nat)
  /\ (AppendInt64 [0x01] (-1000) = [0x01; 0x39; 0x03; 0xe7]
      /\ length (AppendInt64 [0x01] (-1000)) = 4%nat)
  /\ AppendInt64 [] 0 = [0x00]
  /\ AppendInt64 [] 23 = [0x17]
  /\ AppendInt64 [] 24 = [0x18; 0x18]
  /\ AppendInt64 [] 255 = [0x18; 0xff]
  /\ AppendInt64 [] 256 = [0x19; 0x01; 0x00]
  /\ AppendInt64 [] (-1) = [0x20]
  /\ AppendInt64 [] (-24) = [0x37]
  /\ AppendInt64 [] (-25) = [0x38; 0x18].
Proof.
  apply (C1_canonical_shortest_header [0x01] majorTypeArray 300 (-1000));
    vm_compute; split; congruence.
Defined.

(** ** C2: the integer round trip *)

Lemma be_bytes_1 (u : Z) : be_bytes 1 u = [u mod 256].
Proof.
  cbn [be_bytes]. change (8 * Z.of_nat 0) with 0. pow2.
  now rewrite Z.div_1_r.
Qed.

Lemma be_bytes_2 (u : Z) : be_bytes 2 u = [(u / 256) mod 256; u mod 256].
Proof.
  cbn [be_bytes]. change (8 * Z.of_nat 1) with 8.
  change (8 * Z.of_nat 0) with 0. pow2. now rewrite Z.div_1_r.
Qed.

Lemma be_bytes_4 (u : Z) :
  be_bytes 4 u = [(u / 16777216) mod 256; (u / 65536) mod 256;
                  (u / 256) mod 256; u mod 256].
Proof.
  cbn [be_bytes]. change (8 * Z.of_nat 3) with 24.
  change (8 * Z.of_nat 2) with 16. change (8 * Z.of_nat 1) with 8.
  change (8 * Z.of_nat 0) with 0. pow2. now rewrite Z.div_1_r.
Qed.

Lemma be_bytes_8 (u : Z) :
  be_bytes 8 u = [(u / 72057594037927936) mod 256;
                  (u / 281474976710656) mod 256;
                  (u / 1099511627776) mod 256;
                  (u / 4294967296) mod 256;
                  (u / 16777216) mod 256; (u / 65536) mod 256;
                  (u / 256) mod 256; u mod 256].
Proof.
  cbn [be_bytes]. change (8 * Z.of_nat 7) with 56.
  change (8 * Z.of_nat 6) with 48. change (8 * Z.of_nat 5) with 40.
  change (8 * Z.of_nat 4) with 32. change (8 * Z.of_nat 3) with 24.
  change (8 * Z.of_nat 2) with 16. change (8 * Z.of_nat 1) with 8.
  change (8 * Z.of_nat 0) with 0. pow2. now rewrite Z.div_1_r.
Qed.

Lemma beUint16_be_bytes (u : Z) (r : bytes) :
  0 <= u < 65536 -> beUint16 (be_bytes 2 u ++ r) = u.
Proof.
  intros Hu. rewrite be_bytes_2. cbn [app].
  rewrite beUint16_bytes by (apply Z.mod_pos_bound; lia).
  rewrite (Z.mod_small (u / 256)) by (split; [apply Z.div_pos|apply Z.div_lt_upper_bound]; lia).
  pose proof (Z.div_mod u 256). lia.
Qed.

Lemma beUint32_be_bytes (u : Z) (r : bytes) :
  0 <= u < 4294967296 -> beUint32 (be_bytes 4 u ++ r) = u.
Proof.
  intros Hu. rewrite be_bytes_4. cbn [app].
  rewrite beUint32_bytes by (apply Z.mod_pos_bound; lia).
  Z.div_mod_to_equations. lia.
Qed.

Lemma beUint64_be_bytes (u : Z) (r : bytes) :
  0 <= u < 18446744073709551616 -> beUint64 (be_bytes 8 u ++ r) = u.
Proof.
  intros Hu. rewrite be_bytes_8. cbn [app].
  rewrite beUint64_bytes by (apply Z.mod_pos_bound; lia).
  Z.div_mod_to_equations. lia.
Qed.

Lemma makeByte_uint_direct (u : Z) :
  0 <= u <= 23 -> makeByte majorTypeUint u = u.
Proof.
  intros Hu. unfold makeByte, uint8, majorTypeUint.
  rewrite Z.shiftl_0_l. change (0 mod 256) with 0.
  rewrite Z.lor_0_l. apply Z.mod_small. lia.
Qed.

Lemma makeByte_negint_direct (u : Z) :
  0 <= u <= 23 -> makeByte majorTypeNegInt u = 32 + u.
Proof.
  intros Hu. unfold makeByte, uint8, majorTypeNegInt.
  change (Z.shiftl 1 5 mod 256) with (Z.shiftl 1 5).
  rewrite Z.lor_comm, lor_shiftl_add by (pow2; lia).
  pow2. rewrite Z.mod_small; lia.
Qed.

Lemma ReadInt64Bytes_uint_header (u : Z) :
  0 <= u <= MaxInt64 ->
  ReadInt64Bytes (canonicalHeader majorTypeUint u) = Ok (u, []).
Proof.
  unfold MaxInt64. intros Hu. unfold canonicalHeader.
  destruct (u <=? 23) eqn:H23.
  { apply Z.leb_le in H23. rewrite makeByte_uint_direct by lia.
    unfold ReadInt64Bytes. cbn [length idx nth drop Nat.ltb Nat.leb].
    assert ((u <=? 23) = true) as -> by (apply Z.leb_le; lia).
    now rewrite int64_small by (pow2; lia). }
  destruct (u <=? 255) eqn:H255.
  { apply Z.leb_gt in H23. apply Z.leb_le in H255.
    rewrite be_bytes_1, (Z.mod_small u 256) by lia.
    change (makeByte majorTypeUint 24) with 24.
    unfold ReadInt64Bytes. cbn [length idx nth drop Nat.ltb Nat.leb].
    change (24 <=? 23) with false. change (24 =? 24) with true. cbv iota.
    now rewrite int64_small by (pow2; lia). }
  destruct (u <=? 65535) eqn:H16.
  { apply Z.leb_gt in H255. apply Z.leb_le in H16.
    change (makeByte majorTypeUint 25) with 25.
    unfold ReadInt64Bytes.
    assert (length (25 :: be_bytes 2 u) = 3%nat) as -> by now rewrite be_bytes_2.
    assert (drop 3 (25 :: be_bytes 2 u) = []) as -> by now rewrite be_bytes_2.
    cbn [idx nth drop Nat.ltb Nat.leb].
    change (25 <=? 23) with false. change (25 =? 24) with false.
    change (25 =? 25) with true. cbv iota.
    rewrite drop_0, <- (app_nil_r (be_bytes 2 u)), beUint16_be_bytes by lia.
    now rewrite int64_small by (pow2; lia). }
  destruct (u <=? 4294967295) eqn:H32.
  { apply Z.leb_gt in H16. apply Z.leb_le in H32.
    change (makeByte majorTypeUint 26) with 26.
    unfold ReadInt64Bytes.
    assert (length (26 :: be_bytes 4 u) = 5%nat) as -> by now rewrite be_bytes_4.
    assert (drop 5 (26 :: be_bytes 4 u) = []) as -> by now rewrite be_bytes_4.
    cbn [idx nth drop Nat.ltb Nat.leb].
    change (26 <=? 23) with false. change (26 =? 24) with false.
    change (26 =? 25) with false. change (26 =? 26) with true. cbv iota.
    rewrite drop_0, <- (app_nil_r (be_bytes 4 u)), beUint32_be_bytes by lia.
    now rewrite int64_small by (pow2; lia). }
  apply Z.leb_gt in H32.
  change (makeByte majorTypeUint 27) with 27.
  unfold ReadInt64Bytes.
  assert (length (27 :: be_bytes 8 u) = 9%nat) as -> by now rewrite be_bytes_8.
  assert (drop 9 (27 :: be_bytes 8 u) = []) as -> by now rewrite be_bytes_8.
  cbn [idx nth drop Nat.ltb Nat.leb].
  change (27 <=? 23) with false. change (27 =? 24) with false.
  change (27 =? 25) with false. change (27 =? 26) with false.
  change (27 =? 27) with true. cbv iota.
  rewrite drop_0, <- (app_nil_r (be_bytes 8 u)), beUint64_be_bytes by lia.
  unfold MaxInt64.
  assert ((u >? 9223372036854775807) = false) as ->.
  { rewrite Z.gtb_ltb. apply Z.ltb_ge. lia. }
  now rewrite int64_small by (pow2; lia).
Qed.

Lemma ReadInt64Bytes_negint_header (n : Z) :
  0 <= n <= MaxInt64 ->
  ReadInt64Bytes (canonicalHeader majorTypeNegInt n) = Ok (-1 - n, []).
Proof.
  unfold MaxInt64. intros Hn. unfold canonicalHeader.
  destruct (n <=? 23) eqn:H23.
  { apply Z.leb_le in H23. rewrite makeByte_negint_direct by lia.
    unfold ReadInt64Bytes. cbn [length idx nth drop Nat.ltb Nat.leb].
    assert ((32 + n <=? 23) = false) as -> by (apply Z.leb_gt; lia).
    assert ((32 + n =? 24) = false) as -> by (apply Z.eqb_neq; lia).
    assert ((32 + n =? 25) = false) as -> by (apply Z.eqb_neq; lia).
    assert ((32 + n =? 26) = false) as -> by (apply Z.eqb_neq; lia).
    assert ((32 + n =? 27) = false) as -> by (apply Z.eqb_neq; lia).
    assert (((32 + n >=? 32) && (32 + n <=? 55)) = true) as ->.
    { apply andb_true_iff. split; [apply Z.geb_le|apply Z.leb_le]; lia. }
    unfold uint8. replace (32 + n - 32) with n by lia.
    rewrite (Z.mod_small n 256) by lia.
    now rewrite !int64_small by (pow2; rewrite ?int64_small by (pow2; lia); lia). }
  destruct (n <=? 255) eqn:H255.
  { apply Z.leb_gt in H23. apply Z.leb_le in H255.
    rewrite be_bytes_1, (Z.mod_small n 256) by lia.
    change (makeByte majorTypeNegInt 24) with 56.
    unfold ReadInt64Bytes. cbn [length idx nth drop Nat.ltb Nat.leb].
    change (56 <=? 23) with false. change (56 =? 24) with false.
    change (56 =? 25) with false. change (56 =? 26) with false.
    change (56 =? 27) with false.
    change ((56 >=? 32) && (56 <=? 55)) with false.
    change (56 =? 56) with true. cbv iota.
    now rewrite !int64_small by (pow2; rewrite ?int64_small by (pow2; lia); lia). }
  destruct (n <=? 65535) eqn:H16.
  { apply Z.leb_gt in H255. apply Z.leb_le in H16.
    change (makeByte majorTypeNegInt 25) with 57.
    unfold ReadInt64Bytes.
    assert (length (57 :: be_bytes 2 n) = 3%nat) as -> by now rewrite be_bytes_2.
    assert (drop 3 (57 :: be_bytes 2 n) = []) as -> by now rewrite be_bytes_2.
    cbn [idx nth drop Nat.ltb Nat.leb].
    change (57 <=? 23) with false. change (57 =? 24) with false.
    change (57 =? 25) with false. change (57 =? 26) with false.
    change (57 =? 27) with false.
    change ((57 >=? 32) && (57 <=? 55)) with false.
    change (57 =? 56) with false. change (57 =? 57) with true. cbv iota.
    rewrite drop_0, <- (app_nil_r (be_bytes 2 n)), beUint16_be_bytes by lia.
    now rewrite !int64_small by (pow2; rewrite ?int64_small by (pow2; lia); lia). }
  destruct (n <=? 4294967295) eqn:H32.
  { apply Z.leb_gt in H16. apply Z.leb_le in H32.
    change (makeByte majorTypeNegInt 26) with 58.
    unfold ReadInt64Bytes.
    assert (length (58 :: be_bytes 4 n) = 5%nat) as -> by now rewrite be_bytes_4.
    assert (drop 5 (58 :: be_bytes 4 n) = []) as -> by now rewrite be_bytes_4.
    cbn [idx nth drop Nat.ltb Nat.leb].
    change (58 <=? 23) with false. change (58 =? 24) with false.
    change (58 =? 25) with false. change (58 =? 26) with false.
    change (58 =? 27) with false.
    change ((58 >=? 32) && (58 <=? 55)) with false.
    change (58 =? 56) with false. change (58 =? 57) with false.
    change (58 =? 58) with true. cbv iota.
    rewrite drop_0, <- (app_nil_r (be_bytes 4 n)), beUint32_be_bytes by lia.
    now rewrite !int64_small by (pow2; rewrite ?int64_small by (pow2; lia); lia). }
  apply Z.leb_gt in H32.
  change (makeByte majorTypeNegInt 27) with 59.
  unfold ReadInt64Bytes.
  assert (length (59 :: be_bytes 8 n) = 9%nat) as -> by now rewrite be_bytes_8.
  assert (drop 9 (59 :: be_bytes 8 n) = []) as -> by now rewrite be_bytes_8.
  cbn [idx nth drop Nat.ltb Nat.leb].
  change (59 <=? 23) with false. change (59 =? 24) with false.
  change (59 =? 25) with false. change (59 =? 26) with false.
  change (59 =? 27) with false.
  change ((59 >=? 32) && (59 <=? 55)) with false.
  change (59 =? 56) with false. change (59 =? 57) with false.
  change (59 =? 58) with false. change (59 =? 59) with true. cbv iota.
  rewrite drop_0, <- (app_nil_r (be_bytes 8 n)), beUint64_be_bytes by lia.
  unfold MaxInt64.
  assert ((n >? 9223372036854775807) = false) as ->.
  { rewrite Z.gtb_ltb. apply Z.ltb_ge. lia. }
  now rewrite !int64_small by (pow2; rewrite ?int64_small by (pow2; lia); lia).
Qed.

(** C2: for every [int64] value [v], decoding what [AppendInt64] appended
    to an empty buffer succeeds, returns [v] and leaves nothing. *)
Theorem C2_int64_roundtrip (v : Z) :
  - 2 ^ 63 <= v < 2 ^ 63 ->
  ReadInt64Bytes (AppendInt64 [] v) = Ok (v, []).
Proof.
  intros Hv. rewrite AppendInt64_canonical by assumption. pow2.
  cbn [app]. destruct (v <? 0) eqn:Hneg.
  - apply Z.ltb_lt in Hneg.
    rewrite ReadInt64Bytes_negint_header by (unfold MaxInt64; lia).
    do 2 f_equal. lia.
  - apply Z.ltb_ge in Hneg.
    apply ReadInt64Bytes_uint_header. unfold MaxInt64. lia.
Qed.

Lemma C2_int64_roundtrip_witness :
  ReadInt64Bytes (AppendInt64 [] (-9223372036854775808))
  = Ok (-9223372036854775808, []).
Proof.
  apply (C2_int64_roundtrip (-9223372036854775808)). vm_compute.
  split; congruence.
Defined.

(** ** C3: well-formedness against Skip *)

(** C3 (the code departs from the claim): the two-byte simple value
    [f8 20] passes [ValidateWellFormedBytes], whose simple-value arm has
    the case [addInfoUint8], and is refused by [Skip], whose arm lacks
    it. *)
Theorem C3_validate_accepts_what_skip_refuses (isUTF8Valid : bytes -> bool) :
  ValidateWellFormedBytes isUTF8Valid [0xf8; 0x20] = Ok []
  /\ Skip [0xf8; 0x20] = Err ErrUnsupportedType.
Proof. split; reflexivity. Qed.

(** ** C6: duplicate map keys *)

Lemma dupfree_spec (ks : list (list Z)) (seen : gset (list Z)) :
  dupfree seen ks = true <-> NoDup ks /\ (forall k, k ∈ ks -> k ∉ seen).
Proof.
  revert seen. induction ks as [|k ks IH]; intros seen; cbn [dupfree].
  - split; [intros _|reflexivity]. split; [constructor|].
    intros k Hk. now apply elem_of_nil in Hk.
  - destruct (decide (k ∈ seen)) as [Hin|Hnin].
    + split; [discriminate|]. intros [_ Hall].
      exfalso. apply (Hall k); [left|assumption].
    + rewrite IH. split.
      * intros [Hnd Hall]. split.
        -- constructor; [|assumption].
           intros Hk. apply (Hall k Hk). set_solver.
        -- intros k' Hk'. apply elem_of_cons in Hk' as [->|Hk']; [assumption|].
           specialize (Hall k' Hk'). set_solver.
      * intros [Hnd Hall]. apply NoDup_cons in Hnd as [Hk Hnd].
        split; [assumption|]. intros k' Hk'.
        assert (k' ∉ seen) by (apply Hall; now right).
        assert (k' <> k) by (intros ->; contradiction).
        set_solver.
Qed.

Lemma dupfree_empty (ks : list (list Z)) :
  dupfree ∅ ks = bool_decide (NoDup ks).
Proof.
  apply eq_true_iff_eq. rewrite dupfree_spec, bool_decide_eq_true.
  split; [now intros [H _]|]. intros H. split; [assumption|]. set_solver.
Qed.

(** The two readers walk an entry in the same way. *)
Lemma noDupEntry_orderedEntry (seen : gset (list Z)) (p r2 : bytes)
  (pr : RawPair) :
  orderedEntry p = Ok (pr, r2) ->
  noDupEntry seen p =
  if decide (Key pr ∈ seen) then Err ErrDuplicateMapKey
  else Ok ({[ Key pr ]} ∪ seen, r2).
Proof.
  unfold orderedEntry, noDupEntry.
  destruct (Skip p) as [r1|e]; [|discriminate].
  destruct (Skip r1) as [r2'|e] eqn:Hv; [|discriminate].
  intros [= <- <-]. cbn [Key].
  destruct (decide (_ ∈ seen)); reflexivity.
Qed.

Lemma noDup_indef_lockstep (k : nat) :
  forall (acc : list RawPair) (seen : gset (list Z)) (p : bytes)
         (pairs : list RawPair) (rest : bytes),
  loop orderedIndefStep k (acc, p) = Some (Ok (pairs, rest)) ->
  exists new, pairs = acc ++ new /\
    loop noDupIndefStep k (seen, p) =
    Some (if dupfree seen (map Key new) then Ok rest
          else Err ErrDuplicateMapKey).
Proof.
  induction k as [|k IH]; intros acc seen p pairs rest; [discriminate|].
  cbn [loop]. unfold orderedIndefStep at 1, noDupIndefStep at 1.
  destruct (length p <? 1)%nat; [discriminate|].
  destruct (idx p 0 =? breakByte).
  { intros [= <- <-]. exists []. now rewrite app_nil_r. }
  destruct (orderedEntry p) as [[pr r2]|e] eqn:Hent; [|discriminate].
  intros Hloop. rewrite (noDupEntry_orderedEntry seen p r2 pr Hent).
  destruct (IH _ ({[ Key pr ]} ∪ seen) _ _ _ Hloop) as (new & -> & Hnd).
  exists (pr :: new). rewrite <- app_assoc. split; [reflexivity|].
  cbn [map dupfree]. destruct (decide (Key pr ∈ seen)); [reflexivity|].
  exact Hnd.
Qed.

Lemma noDup_def_lockstep (sz : Z) (k : nat) :
  forall (i : Z) (acc : list RawPair) (seen : gset (list Z)) (p : bytes)
         (pairs : list RawPair) (rest : bytes),
  loop (orderedDefStep sz) k (i, (acc, p)) = Some (Ok (pairs, rest)) ->
  exists new, pairs = acc ++ new /\
    loop (noDupDefStep sz) k (i, (seen, p)) =
    Some (if dupfree seen (map Key new) then Ok rest
          else Err ErrDuplicateMapKey).
Proof.
  induction k as [|k IH]; intros i acc seen p pairs rest; [discriminate|].
  cbn [loop]. unfold orderedDefStep at 1, noDupDefStep at 1.
  destruct (i <? sz).
  2:{ intros [= <- <-]. exists []. now rewrite app_nil_r. }
  destruct (orderedEntry p) as [[pr r2]|e] eqn:Hent; [|discriminate].
  intros Hloop. rewrite (noDupEntry_orderedEntry seen p r2 pr Hent).
  destruct (IH _ _ ({[ Key pr ]} ∪ seen) _ _ _ Hloop) as (new & -> & Hnd).
  exists (pr :: new). rewrite <- app_assoc. split; [reflexivity|].
  cbn [map dupfree]. destruct (decide (Key pr ∈ seen)); [reflexivity|].
  exact Hnd.
Qed.

(** Where the claim holds: on a definite- or indefinite-length map whose
    entries [ReadOrderedMapBytes] lists, that is, whose keys and values
    [Skip] steps over, [ReadMapNoDupBytes] returns the duplicate-map-key
    error exactly when two entries have the same raw key bytes, and the
    bytes after the map otherwise; [a2616101616102] returns the
    duplicate-map-key error. *)
Lemma no_dup_reader_on_listed_maps (b : bytes) (pairs : list RawPair) (rest : bytes) :
  ReadOrderedMapBytes b = Ok (pairs, rest) ->
  ReadMapNoDupBytes b =
    (if bool_decide (NoDup (map Key pairs)) then Ok rest
     else Err ErrDuplicateMapKey)
  /\ ReadMapNoDupBytes [0xa2; 0x61; 0x61; 0x01; 0x61; 0x61; 0x02]
     = Err ErrDuplicateMapKey.
Proof.
  intros Hord. split; [|reflexivity].
  unfold ReadOrderedMapBytes in Hord. unfold ReadMapNoDupBytes.
  destruct (length b <? 1)%nat; [discriminate|].
  destruct (negb (getMajorType (idx b 0) =? majorTypeMap)); [discriminate|].
  destruct (getAddInfo (idx b 0) =? addInfoIndefinite).
  - destruct (loop orderedIndefStep _ _) as [[[ps rs]|e]|] eqn:Hloop;
      cbn [run] in Hord; try discriminate.
    injection Hord as -> ->.
    destruct (noDup_indef_lockstep _ [] ∅ _ _ _ Hloop) as (new & Heq & ->).
    cbn [app] in Heq. subst new. cbn [run]. now rewrite dupfree_empty.
  - destruct (ReadMapHeaderBytes b) as [[sz p]|e]; [|discriminate].
    destruct (loop (orderedDefStep sz) _ _) as [[[ps rs]|e]|] eqn:Hloop;
      cbn [run] in Hord; try discriminate.
    injection Hord as -> ->.
    destruct (noDup_def_lockstep sz _ 0 [] ∅ _ _ _ Hloop) as (new & Heq & ->).
    cbn [app] in Heq. subst new. cbn [run]. now rewrite dupfree_empty.
Qed.

(** C6 (the code departs from the claim): the map [a2 f8 20 01 f8 21 02]
    has two entries whose raw keys, [f8 20] and [f8 21], differ, and it
    passes [ValidateWellFormedBytes]; yet [ReadMapNoDupBytes] returns
    neither the bytes after the map nor the duplicate-map-key error: it
    walks keys and values with [Skip], which refuses the two-byte simple
    values, and hands back [ErrUnsupportedType].  The same happens for a
    simple value in value position and in an indefinite-length map.  With
    the integer keys [18 20] and [18 21] the same map is read to its end,
    and [a2616101616102] is refused as a duplicate. *)
Theorem C6_no_dup_reader_refuses_simple_values (isUTF8Valid : bytes -> bool) :
  ValidateWellFormedBytes isUTF8Valid
    [0xa2; 0xf8; 0x20; 0x01; 0xf8; 0x21; 0x02] = Ok []
  /\ NoDup [[0xf8; 0x20]; [0xf8; 0x21]]
  /\ ReadMapNoDupBytes [0xa2; 0xf8; 0x20; 0x01; 0xf8; 0x21; 0x02]
     = Err ErrUnsupportedType
  /\ ReadMapNoDupBytes [0xa1; 0x01; 0xf8; 0x20] = Err ErrUnsupportedType
  /\ ReadMapNoDupBytes [0xbf; 0xf8; 0x20; 0x01; 0xff] = Err ErrUnsupportedType
  /\ ReadMapNoDupBytes [0xa2; 0x18; 0x20; 0x01; 0x18; 0x21; 0x02] = Ok []
  /\ ReadMapNoDupBytes [0xa2; 0x61; 0x61; 0x01; 0x61; 0x61; 0x02]
     = Err ErrDuplicateMapKey.
Proof.
  split; [reflexivity|]. split; [|repeat split].
  apply NoDup_cons. split; [|apply NoDup_singleton].
  intros H. apply list_elem_of_singleton in H. discriminate.
Qed.

(** ** Initial bytes *)

Lemma makeByte_fields (major ai : Z) :
  0 <= major <= 7 -> 0 <= ai <= 31 ->
  makeByte major ai = 32 * major + ai
  /\ getMajorType (makeByte major ai) = major
  /\ getAddInfo (makeByte major ai) = ai.
Proof.
  intros Hm Ha.
  assert (forallb (fun m => forallb (fun a =>
            (makeByte m a =? 32 * m + a)
            && (getMajorType (makeByte m a) =? m)
            && (getAddInfo (makeByte m a) =? a)) (seqZ 0 32)) (seqZ 0 8)
          = true) as Hall by (vm_compute; reflexivity).
  rewrite forallb_forall in Hall.
  assert (In major (seqZ 0 8)) as Hin1.
  { apply list_elem_of_In, elem_of_seqZ. lia. }
  specialize (Hall _ Hin1). rewrite forallb_forall in Hall.
  assert (In ai (seqZ 0 32)) as Hin2.
  { apply list_elem_of_In, elem_of_seqZ. lia. }
  specialize (Hall _ Hin2).
  apply andb_true_iff in Hall as [Hall H3].
  apply andb_true_iff in Hall as [H1 H2].
  apply Z.eqb_eq in H1, H2, H3. auto.
Qed.

Lemma be_bytes_length (w : nat) (n : Z) : length (be_bytes w n) = w.
Proof. induction w; cbn [be_bytes length]; congruence. Qed.

Lemma length_lengthHeader (major : Z) (w : nat) (n : Z) :
  length (lengthHeader major w n) = S w.
Proof. unfold lengthHeader. cbn [length]. now rewrite be_bytes_length. Qed.

Lemma followInfo_range (w : nat) (n : Z) :
  fitsWidth w n -> 0 <= followInfo w n <= 27.
Proof.
  intros [[-> H] | [[ -> | [ -> | [ -> | -> ]]] _]]; cbn [followInfo]; lia.
Qed.

(** ** C7: strict decoding *)

(** The value a header of [w] follow bytes carries, read back. *)
Lemma lengthHeader_value (major : Z) (w : nat) (n : Z) (rest : bytes) :
  fitsWidth w n ->
  match w with
  | 0%nat => True
  | 1%nat => idx (lengthHeader major w n ++ rest) 1 = n
  | 2%nat => beUint16 (drop 1 (lengthHeader major w n ++ rest)) = n
  | 4%nat => beUint32 (drop 1 (lengthHeader major w n ++ rest)) = n
  | _ => beUint64 (drop 1 (lengthHeader major w n ++ rest)) = n
  end.
Proof.
  intros [[-> H] | [[ -> | [ -> | [ -> | -> ]]] H]]; [exact I|..];
    unfold lengthHeader; cbn [app drop]; rewrite ?drop_0.
  - rewrite be_bytes_1. cbn [idx nth app]. apply Z.mod_small.
    revert H. change (8 * Z.of_nat 1) with 8. pow2. lia.
  - apply beUint16_be_bytes. revert H. change (8 * Z.of_nat 2) with 16.
    pow2. lia.
  - apply beUint32_be_bytes. revert H. change (8 * Z.of_nat 4) with 32.
    pow2. lia.
  - apply beUint64_be_bytes. revert H. change (8 * Z.of_nat 8) with 64.
    pow2. lia.
Qed.

Lemma lengthHeader_lead (major : Z) (w : nat) (n : Z) (rest : bytes) :
  0 <= major <= 7 -> fitsWidth w n ->
  idx (lengthHeader major w n ++ rest) 0 = 32 * major + followInfo w n
  /\ getMajorType (idx (lengthHeader major w n ++ rest) 0) = major
  /\ getAddInfo (idx (lengthHeader major w n ++ rest) 0) = followInfo w n.
Proof.
  intros Hm Hf. unfold lengthHeader. cbn [app idx nth].
  apply makeByte_fields; [assumption|].
  pose proof (followInfo_range w n Hf). lia.
Qed.

(** What the strict-mode check answers on a complete header. *)
Lemma isNonCanonicalLength_header (major : Z) (w : nat) (n : Z) (rest : bytes) :
  0 <= major <= 7 -> fitsWidth w n ->
  isNonCanonicalLength (lengthHeader major w n ++ rest) major
  = Ok (negb (canonicalWidth n =? 1 + w)%nat).
Proof.
  intros Hm Hf. unfold isNonCanonicalLength.
  destruct (lengthHeader_lead major w n rest Hm Hf) as (_ & Hmaj & Hai).
  pose proof (lengthHeader_value major w n rest Hf) as Hval.
  rewrite Hmaj, Hai, Z.eqb_refl. cbn [negb].
  rewrite length_app, length_lengthHeader.
  unfold addInfoIndefinite, addInfoUint8, addInfoUint16, addInfoUint32,
    addInfoUint64, MaxUint8, MaxUint16, MaxUint32, canonicalWidth.
  destruct Hf as [[-> H] | [[ -> | [ -> | [ -> | -> ]]] H]]; cbn [followInfo] in *.
  - assert ((n >=? 28) && (n <=? 30) = false) as ->.
    { apply andb_false_iff. left. rewrite Z.geb_leb. apply Z.leb_gt. lia. }
    assert ((n =? 31) = false) as -> by (apply Z.eqb_neq; lia).
    assert ((0 <=? n) && (n <=? 23) = true) as ->.
    { apply andb_true_iff. split; apply Z.leb_le; lia. }
    assert ((n <=? 23) = true) as -> by (apply Z.leb_le; lia).
    reflexivity.
  - rewrite Hval. cbn. destruct (n <=? 23) eqn:E; [reflexivity|].
    revert H. change (8 * Z.of_nat 1) with 8. pow2. intros H.
    assert ((n <=? 255) = true) as -> by (apply Z.leb_le; lia).
    reflexivity.
  - rewrite Hval. cbn. revert H. change (8 * Z.of_nat 2) with 16. pow2.
    intros H. destruct (n <=? 255) eqn:E.
    + destruct (n <=? 23); reflexivity.
    + assert ((n <=? 23) = false) as -> by (apply Z.leb_gt; apply Z.leb_gt in E; lia).
      assert ((n <=? 65535) = true) as -> by (apply Z.leb_le; lia).
      reflexivity.
  - rewrite Hval. cbn. revert H. change (8 * Z.of_nat 4) with 32. pow2.
    intros H. destruct (n <=? 65535) eqn:E.
    + destruct (n <=? 23); [reflexivity|]. destruct (n <=? 255); reflexivity.
    + apply Z.leb_gt in E.
      assert ((n <=? 23) = false) as -> by (apply Z.leb_gt; lia).
      assert ((n <=? 255) = false) as -> by (apply Z.leb_gt; lia).
      assert ((n <=? 4294967295) = true) as -> by (apply Z.leb_le; lia).
      reflexivity.
  - rewrite Hval. cbn. destruct (n <=? 4294967295) eqn:E.
    + destruct (n <=? 23); [reflexivity|]. destruct (n <=? 255); [reflexivity|].
      destruct (n <=? 65535); reflexivity.
    + apply Z.leb_gt in E.
      assert ((n <=? 23) = false) as -> by (apply Z.leb_gt; lia).
      assert ((n <=? 255) = false) as -> by (apply Z.leb_gt; lia).
      assert ((n <=? 65535) = false) as -> by (apply Z.leb_gt; lia).
      reflexivity.
Qed.

Lemma strictGate_wide (major : Z) (w : nat) (n : Z) (rest : bytes) :
  0 <= major <= 7 -> fitsWidth w n -> nonMinimal w n ->
  strictGate (isNonCanonicalLength (lengthHeader major w n ++ rest) major)
  = Some ErrNonCanonicalLength.
Proof.
  intros Hm Hf Hnm. rewrite isNonCanonicalLength_header by assumption.
  unfold nonMinimal in Hnm.
  assert ((canonicalWidth n =? 1 + w)%nat = false) as ->.
  { apply Nat.eqb_neq. lia. }
  reflexivity.
Qed.

Lemma header_not_short (major : Z) (w : nat) (n : Z) (rest : bytes) :
  (length (lengthHeader major w n ++ rest) <? 1)%nat = false.
Proof.
  apply Nat.ltb_ge. rewrite length_app, length_lengthHeader. lia.
Qed.

(** In strict mode every reader method that checks its header refuses a
    header wider than the canonical one and leaves the reader as it was. *)
Lemma strict_rejects_wide_header (r : Reader) (major : Z) (w : nat) (n : Z)
  (rest : bytes) :
  strict r = true ->
  fitsWidth w n -> nonMinimal w n ->
  buf r = lengthHeader major w n ++ rest ->
  (major = majorTypeArray ->
     Reader_ReadArrayHeader r = (Err ErrNonCanonicalLength, r))
  /\ (major = majorTypeMap ->
     Reader_ReadMapHeader r = (Err ErrNonCanonicalLength, r))
  /\ (major = majorTypeBytes ->
     Reader_ReadBytes r = (Err ErrNonCanonicalLength, r))
  /\ (major = majorTypeText -> forall valid onDecode,
     Reader_ReadString valid onDecode r = (Err ErrNonCanonicalLength, r))
  /\ (major = majorTypeUint \/ major = majorTypeNegInt ->
     Reader_ReadInt64 r = (Err ErrNonCanonicalLength, r)
     /\ Reader_ReadInt r = (Err ErrNonCanonicalLength, r))
  /\ (major = majorTypeUint ->
     Reader_ReadUint64 r = (Err ErrNonCanonicalLength, r)
     /\ Reader_ReadUint r = (Err ErrNonCanonicalLength, r)).
Proof.
  intros Hs Hf Hnm Hb.
  split; [|split; [|split; [|split; [|split]]]]; intros Hmaj.
  - subst major. unfold Reader_ReadArrayHeader, isNonCanonicalArrayLength.
    rewrite Hb, Hs, header_not_short, strictGate_wide; auto.
    unfold majorTypeArray; lia.
  - subst major. unfold Reader_ReadMapHeader, isNonCanonicalMapLength.
    rewrite Hb, Hs, header_not_short, strictGate_wide; auto.
    unfold majorTypeMap; lia.
  - subst major. unfold Reader_ReadBytes, isNonCanonicalBytesLength.
    rewrite Hb, Hs, header_not_short, strictGate_wide; auto.
    unfold majorTypeBytes; lia.
  - intros valid onDecode.
    subst major. unfold Reader_ReadString, isNonCanonicalTextLength.
    rewrite Hb, Hs, header_not_short, strictGate_wide; auto.
    unfold majorTypeText; lia.
  - assert (0 <= major <= 7) as Hm
      by (destruct Hmaj; subst; unfold majorTypeUint, majorTypeNegInt; lia).
    assert ((major =? majorTypeUint) || (major =? majorTypeNegInt) = true)
      as Hor.
    { apply orb_true_iff. destruct Hmaj; [left|right]; now apply Z.eqb_eq. }
    destruct (lengthHeader_lead major w n rest Hm Hf) as (_ & Hlead & _).
    unfold Reader_ReadInt64, Reader_ReadInt.
    rewrite Hb, Hs, header_not_short, Hlead, Hor. cbn [andb].
    now rewrite strictGate_wide.
  - subst major.
    assert (0 <= majorTypeUint <= 7) as Hm by (unfold majorTypeUint; lia).
    destruct (lengthHeader_lead majorTypeUint w n rest Hm Hf) as (_ & Hlead & _).
    unfold Reader_ReadUint64, Reader_ReadUint.
    rewrite Hb, Hs, header_not_short, Hlead, Z.eqb_refl. cbn [andb].
    now rewrite strictGate_wide.
Qed.

(** C7 (the code departs from the claim): [ReadArrayHeader] refuses the
    non-canonical header [9802] in strict mode, leaving the reader as it
    was, and returns size 2 without strict mode; [ReadArrayStart] has no
    strict-mode gate and reads the same header in strict mode, returning
    size 2 and advancing the cursor. *)
Theorem C7_strict_mode_headers :
  Reader_ReadArrayHeader (SetStrictDecode (NewReaderBytes [0x98; 0x02]) true)
  = (Err ErrNonCanonicalLength,
     SetStrictDecode (NewReaderBytes [0x98; 0x02]) true)
  /\ Reader_ReadArrayHeader (NewReaderBytes [0x98; 0x02])
     = (Ok 2, NewReaderBytes [])
  /\ Reader_ReadArrayStart (SetStrictDecode (NewReaderBytes [0x98; 0x02]) true)
     = (Ok (2, false), SetStrictDecode (NewReaderBytes []) true).
Proof. repeat split; reflexivity. Qed.

(** ** C10: the size ceiling and strings *)

Lemma take_drop_payload (hdr payload rest : bytes) :
  take (length payload) (drop (length hdr) (hdr ++ payload ++ rest)) = payload
  /\ drop (length hdr + length payload) (hdr ++ payload ++ rest) = rest.
Proof.
  split.
  - rewrite drop_app_length. apply take_app_length.
  - rewrite <- drop_drop, drop_app_length. apply drop_app_length.
Qed.

Lemma bytesBody_payload (hdr payload rest : bytes) :
  (0 < length payload)%nat ->
  Z.of_nat (length (hdr ++ payload ++ rest)) <= MaxInt64 ->
  bytesBody (hdr ++ payload ++ rest) (length hdr) (Z.of_nat (length payload))
  = Ok (payload, rest).
Proof.
  intros Hpos Hlen. unfold bytesBody. unfold MaxInt64 in Hlen.
  rewrite !length_app in Hlen.
  rewrite int64_small by (pow2; lia).
  assert ((Z.of_nat (length (hdr ++ payload ++ rest))
           <? Z.of_nat (length hdr) + Z.of_nat (length payload)) = false) as ->.
  { apply Z.ltb_ge. rewrite !length_app. lia. }
  assert ((Z.of_nat (length payload) =? 0) = false) as ->
    by (apply Z.eqb_neq; lia).
  assert ((Z.of_nat (length hdr) + Z.of_nat (length payload)
           <? Z.of_nat (length hdr)) = false) as -> by (apply Z.ltb_ge; lia).
  rewrite Nat2Z.id.
  now destruct (take_drop_payload hdr payload rest) as [-> ->].
Qed.

(** Evaluate the conditions of the goal that mention no variable. *)
Ltac has_var c := match c with context [?x] => is_var x end.

Ltac closed_ifs :=
  repeat match goal with
  | |- context [if ?c then _ else _] =>
      tryif has_var c then fail else
      (let v := eval vm_compute in c in
       match v with
       | true => change c with true
       | false => change c with false
       end; cbv iota)
  end.

(** The length checks a complete header passes. *)
Ltac long_enough :=
  repeat match goal with
  | |- context [(?a <? ?b)%nat] =>
      let H := fresh in
      assert ((a <? b)%nat = false) as H
        by (apply Nat.ltb_ge;
            rewrite ?length_app, ?length_lengthHeader; lia);
      rewrite H; clear H
  end.

Lemma ReadBytesBytes_definite (w : nat) (payload rest : bytes) :
  fitsWidth w (Z.of_nat (length payload)) ->
  (0 < length payload)%nat ->
  Z.of_nat (length (lengthHeader majorTypeBytes w (Z.of_nat (length payload))
                    ++ payload ++ rest)) <= MaxInt64 ->
  ReadBytesBytes (lengthHeader majorTypeBytes w (Z.of_nat (length payload))
                  ++ payload ++ rest)
  = Some (Ok (payload, rest)).
Proof.
  intros Hf Hpos Hlen. set (n := Z.of_nat (length payload)) in *.
  assert (0 <= majorTypeBytes <= 7) as Hm by (unfold majorTypeBytes; lia).
  pose proof (bytesBody_payload (lengthHeader majorTypeBytes w n)
                payload rest Hpos Hlen) as Hbody.
  rewrite length_lengthHeader in Hbody. fold n in Hbody.
  pose proof (lengthHeader_value majorTypeBytes w n (payload ++ rest) Hf) as Hval.
  destruct (lengthHeader_lead majorTypeBytes w n (payload ++ rest) Hm Hf)
    as (Hlead & _ & Hai).
  unfold ReadBytesBytes. long_enough.
  change (Z.land ?x 31) with (getAddInfo x). rewrite Hai, Hlead.
  unfold majorTypeBytes in *. change (makeByte 2 addInfoIndefinite) with 95.
  destruct Hf as [[-> H] | [[ -> | [ -> | [ -> | -> ]]] H]];
    cbn [followInfo] in *.
  - assert ((32 * 2 + n =? 95) = false) as -> by (apply Z.eqb_neq; lia).
    assert ((32 * 2 + n >=? 64) && (32 * 2 + n <=? 87) = true) as ->.
    { apply andb_true_iff. split; [rewrite Z.geb_leb|]; apply Z.leb_le; lia. }
    now rewrite Hbody.
  - closed_ifs. now rewrite Hval, Hbody.
  - closed_ifs. now rewrite Hval, Hbody.
  - closed_ifs. now rewrite Hval, Hbody.
  - closed_ifs. rewrite Hval.
    assert ((n >? MaxInt64) = false) as ->.
    { rewrite Z.gtb_ltb. apply Z.ltb_ge. rewrite !length_app in Hlen. lia. }
    now rewrite Hbody.
Qed.

Lemma ReadStringZC_definite (w : nat) (payload rest : bytes) :
  fitsWidth w (Z.of_nat (length payload)) ->
  Z.of_nat (length payload) <= MaxInt64 ->
  ReadStringZC (lengthHeader majorTypeText w (Z.of_nat (length payload))
                ++ payload ++ rest)
  = Ok (payload, rest).
Proof.
  intros Hf Hlen. set (n := Z.of_nat (length payload)) in *.
  assert (0 <= majorTypeText <= 7) as Hm by (unfold majorTypeText; lia).
  pose proof (take_drop_payload (lengthHeader majorTypeText w n) payload rest)
    as [Htake Hdrop].
  rewrite length_lengthHeader in Htake, Hdrop.
  pose proof (lengthHeader_value majorTypeText w n (payload ++ rest) Hf) as Hval.
  destruct (lengthHeader_lead majorTypeText w n (payload ++ rest) Hm Hf)
    as (Hlead & _ & Hai).
  unfold ReadStringZC.
  change (Z.land ?x 31) with (getAddInfo x). rewrite Hai, Hlead.
  rewrite length_app, length_lengthHeader, length_app.
  unfold majorTypeText in *.
  destruct Hf as [[-> H] | [[ -> | [ -> | [ -> | -> ]]] H]];
    cbn [followInfo] in *.
  - assert ((32 * 3 + n >=? 96) && (32 * 3 + n <=? 119) = true) as ->.
    { apply andb_true_iff. split; [rewrite Z.geb_leb|]; apply Z.leb_le; lia. }
    unfold n in *. rewrite Nat2Z.id. long_enough.
    change (1 + length payload)%nat with (S (length payload)) in *.
    change (1 + length payload)%nat with (S (length payload)).
    now rewrite Htake, Hdrop.
  - closed_ifs. long_enough. rewrite Hval. cbv iota beta.
    assert ((n <? 0) || (n >? Z.of_nat (2 + (length payload + length rest))
                              - Z.of_nat 2) = false) as ->.
    { apply orb_false_iff. split; [apply Z.ltb_ge|rewrite Z.gtb_ltb; apply Z.ltb_ge]; lia. }
    long_enough. unfold n in *. rewrite Nat2Z.id. now rewrite Htake, Hdrop.
  - closed_ifs. long_enough. rewrite Hval. cbv iota beta.
    assert ((n <? 0) || (n >? Z.of_nat (3 + (length payload + length rest))
                              - Z.of_nat 3) = false) as ->.
    { apply orb_false_iff. split; [apply Z.ltb_ge|rewrite Z.gtb_ltb; apply Z.ltb_ge]; lia. }
    long_enough. unfold n in *. rewrite Nat2Z.id. now rewrite Htake, Hdrop.
  - closed_ifs. long_enough. rewrite Hval. cbv iota beta.
    assert ((n <? 0) || (n >? Z.of_nat (5 + (length payload + length rest))
                              - Z.of_nat 5) = false) as ->.
    { apply orb_false_iff. split; [apply Z.ltb_ge|rewrite Z.gtb_ltb; apply Z.ltb_ge]; lia. }
    long_enough. unfold n in *. rewrite Nat2Z.id. now rewrite Htake, Hdrop.
  - closed_ifs. long_enough. rewrite Hval.
    assert ((n >? MaxInt64) = false) as ->.
    { rewrite Z.gtb_ltb. apply Z.ltb_ge. lia. }
    cbv iota beta.
    assert ((n <? 0) || (n >? Z.of_nat (9 + (length payload + length rest))
                              - Z.of_nat 9) = false) as ->.
    { apply orb_false_iff. split; [apply Z.ltb_ge|rewrite Z.gtb_ltb; apply Z.ltb_ge]; lia. }
    long_enough. unfold n in *. rewrite Nat2Z.id. now rewrite Htake, Hdrop.
Qed.

Lemma followInfo_not_indefinite (w : nat) (n : Z) :
  fitsWidth w n -> (followInfo w n =? addInfoIndefinite) = false.
Proof.
  intros Hf. pose proof (followInfo_range w n Hf).
  apply Z.eqb_neq. unfold addInfoIndefinite. lia.
Qed.

Lemma strictGate_canonical (s : bool) (major : Z) (w : nat) (n : Z)
  (rest : bytes) :
  0 <= major <= 7 -> fitsWidth w n ->
  s = false \/ canonicalWidth n = (1 + w)%nat ->
  (if s then strictGate (isNonCanonicalLength (lengthHeader major w n ++ rest)
                                              major)
   else None) = None.
Proof.
  intros Hm Hf [->|Hc]; [reflexivity|]. destruct s; [|reflexivity].
  rewrite isNonCanonicalLength_header by assumption.
  now rewrite Hc, Nat.eqb_refl.
Qed.

(** C10: with a ceiling [L > 0] configured, [Reader.ReadBytes] and
    [Reader.ReadString] return every definite-length byte string and text
    string of length [n > L] (any header width the reader's strict flag
    admits, valid UTF-8 when text is validated) and advance past it: the
    ceiling plays no part, although [ReadArrayHeader] and [ReadMapHeader]
    refuse a size 3 under a ceiling of 2. *)
Theorem C10_ceiling_not_applied_to_strings
  (isUTF8Valid : bytes -> bool) (onDecode s d : bool) (L : Z) (w : nat)
  (payload rest : bytes) :
  0 < L -> L < Z.of_nat (length payload) ->
  fitsWidth w (Z.of_nat (length payload)) ->
  Z.of_nat (S w + length payload + length rest) <= MaxInt64 ->
  s = false \/ canonicalWidth (Z.of_nat (length payload)) = (1 + w)%nat ->
  onDecode = false \/ isUTF8Valid payload = true ->
  Reader_ReadBytes
    (mkReader (lengthHeader majorTypeBytes w (Z.of_nat (length payload))
               ++ payload ++ rest) s d L)
  = (Ok payload, mkReader rest s d L)
  /\ Reader_ReadString isUTF8Valid onDecode
       (mkReader (lengthHeader majorTypeText w (Z.of_nat (length payload))
                  ++ payload ++ rest) s d L)
     = (Ok payload, mkReader rest s d L)
  /\ Reader_ReadArrayHeader
       (SetMaxContainerLen (NewReaderBytes [0x83; 0x01; 0x02; 0x03]) 2)
     = (Err ErrContainerTooLarge,
        SetMaxContainerLen (NewReaderBytes [0x83; 0x01; 0x02; 0x03]) 2)
  /\ Reader_ReadMapHeader
       (SetMaxContainerLen
          (NewReaderBytes [0xa3; 0x61; 0x61; 0x01; 0x61; 0x62; 0x02;
                           0x61; 0x63; 0x03]) 2)
     = (Err ErrContainerTooLarge,
        SetMaxContainerLen
          (NewReaderBytes [0xa3; 0x61; 0x61; 0x01; 0x61; 0x62; 0x02;
                           0x61; 0x63; 0x03]) 2).
Proof.
  intros HL Hn Hf Hlen Hs Hutf.
  set (n := Z.of_nat (length payload)) in *.
  split; [|split; [|split; reflexivity]].
  - assert (0 <= majorTypeBytes <= 7) as Hm by (unfold majorTypeBytes; lia).
    destruct (lengthHeader_lead majorTypeBytes w n (payload ++ rest) Hm Hf)
      as (_ & _ & Hai).
    unfold Reader_ReadBytes, isNonCanonicalBytesLength. cbn [buf strict deterministic].
    long_enough. rewrite strictGate_canonical by assumption.
    rewrite Hai, followInfo_not_indefinite, andb_false_r by assumption.
    unfold n. rewrite ReadBytesBytes_definite; [reflexivity|assumption|lia|].
    rewrite !length_app, length_lengthHeader. lia.
  - assert (0 <= majorTypeText <= 7) as Hm by (unfold majorTypeText; lia).
    destruct (lengthHeader_lead majorTypeText w n (payload ++ rest) Hm Hf)
      as (Hlead & _ & Hai).
    unfold Reader_ReadString, isNonCanonicalTextLength. cbn [buf strict deterministic].
    long_enough. rewrite strictGate_canonical by assumption.
    rewrite Hai, followInfo_not_indefinite, andb_false_r by assumption.
    unfold ReadStringBytes. long_enough. rewrite Hlead.
    assert ((32 * majorTypeText + followInfo w n
             =? makeByte majorTypeText addInfoIndefinite) = false) as ->.
    { pose proof (followInfo_range w n Hf). apply Z.eqb_neq.
      change (makeByte majorTypeText addInfoIndefinite) with 127.
      unfold majorTypeText. lia. }
    unfold n. rewrite ReadStringZC_definite by (assumption || lia).
    assert (onDecode && negb (isUTF8Valid payload) = false) as ->.
    { destruct Hutf as [->| ->]; [reflexivity|apply andb_false_r]. }
    reflexivity.
Qed.

Lemma C10_ceiling_not_applied_to_strings_witness :
  Reader_ReadBytes
    (mkReader (lengthHeader majorTypeBytes 0 (Z.of_nat (length [0x01; 0x02; 0x03]))
               ++ [0x01; 0x02; 0x03] ++ [0xf6]) true true 2)
  = (Ok [0x01; 0x02; 0x03], mkReader [0xf6] true true 2)
  /\ Reader_ReadString (fun _ => true) true
       (mkReader (lengthHeader majorTypeText 0 (Z.of_nat (length [0x01; 0x02; 0x03]))
                  ++ [0x01; 0x02; 0x03] ++ [0xf6]) true true 2)
     = (Ok [0x01; 0x02; 0x03], mkReader [0xf6] true true 2)
  /\ Reader_ReadArrayHeader
       (SetMaxContainerLen (NewReaderBytes [0x83; 0x01; 0x02; 0x03]) 2)
     = (Err ErrContainerTooLarge,
        SetMaxContainerLen (NewReaderBytes [0x83; 0x01; 0x02; 0x03]) 2)
  /\ Reader_ReadMapHeader
       (SetMaxContainerLen
          (NewReaderBytes [0xa3; 0x61; 0x61; 0x01; 0x61; 0x62; 0x02;
                           0x61; 0x63; 0x03]) 2)
     = (Err ErrContainerTooLarge,
        SetMaxContainerLen
          (NewReaderBytes [0xa3; 0x61; 0x61; 0x01; 0x61; 0x62; 0x02;
                           0x61; 0x63; 0x03]) 2).
Proof.
  apply (C10_ceiling_not_applied_to_strings
           (fun _ => true) true true true 2 0 [0x01; 0x02; 0x03] [0xf6]).
  - lia.
  - cbn. lia.
  - left. cbn. split; [reflexivity|lia].
  - unfold MaxInt64. cbn. lia.
  - right. reflexivity.
  - right. reflexivity.
Defined.

(** ** C4: canonical floats *)

(** C4 (the code departs from the claim): [AppendFloatCanonical] maps
    [-0.0] to [+0.0], sends the NaNs tried here to a binary16 NaN, encodes
    [1.0] as [f9 3c 00] and [1.0/3.0] in nine bytes starting with [fb];
    but for [2^-24], which the binary16 pattern [0001] widens to exactly,
    it emits the five-byte binary32 form [fa 33 80 00 00]:
    [float32ToFloat16Bits] flushes every binary16 subnormal to zero (its
    subnormal branch computes the shift as [14 - e32], always above 24),
    so the narrowest width is not picked. *)
Theorem C4_canonical_float_misses_binary16_subnormals :
  AppendFloatCanonical [] 0x8000000000000000 = [0xf9; 0x00; 0x00]
  /\ AppendFloatCanonical [] 0x0000000000000000 = [0xf9; 0x00; 0x00]
  /\ AppendFloatCanonical [] 0x7ff8000000000001 = [0xf9; 0x7e; 0x00]
  /\ AppendFloatCanonical [] 0xfff0000000000001 = [0xf9; 0xfe; 0x00]
  /\ AppendFloatCanonical [] 0x3ff0000000000000 = [0xf9; 0x3c; 0x00]
  /\ AppendFloatCanonical [] 0x3fd5555555555555
     = [0xfb; 0x3f; 0xd5; 0x55; 0x55; 0x55; 0x55; 0x55; 0x55]
  /\ widen16 0x0001 = 0x3e70000000000000
  /\ float32ToFloat16Bits (toFloat32 0x3e70000000000000) = 0x0000
  /\ AppendFloatCanonical [] 0x3e70000000000000
     = [0xfa; 0x33; 0x80; 0x00; 0x00].
Proof. repeat split; vm_compute; reflexivity. Qed.

(** ** C5: the deterministic map encoder *)

(** *** One radix pass is a bucket sort *)

Section CountingSort.

Variable beta : nat -> nat.

Lemma startOf_S (l : list nat) (v : nat) :
  startOf beta l (S v) = (startOf beta l v + length (bucket beta v l))%nat.
Proof.
  unfold startOf. rewrite seq_S, flat_map_app, length_app. cbn [flat_map].
  now rewrite app_nil_r.
Qed.

Lemma startOf_mono (l : list nat) (u v : nat) :
  (u <= v)%nat -> (startOf beta l u <= startOf beta l v)%nat.
Proof.
  induction 1 as [|v Huv IH]; [lia|]. rewrite startOf_S. lia.
Qed.

Lemma bucket_app (v : nat) (l1 l2 : list nat) :
  bucket beta v (l1 ++ l2) = bucket beta v l1 ++ bucket beta v l2.
Proof. apply filter_app. Qed.

Lemma bucketSort_lookup (l : list nat) (v r : nat) :
  (v < 256)%nat -> (r < length (bucket beta v l))%nat ->
  bucketSort beta l !! (startOf beta l v + r)%nat = bucket beta v l !! r.
Proof.
  intros Hv Hr. unfold bucketSort.
  replace 256%nat with (v + S (255 - v))%nat by lia.
  rewrite seq_app, flat_map_app. cbn [seq flat_map Nat.add].
  rewrite lookup_app_r by (unfold startOf; lia).
  replace (startOf beta l v + r - _)%nat with r by (unfold startOf; lia).
  now rewrite lookup_app_l.
Qed.

Lemma bucketSort_length (l : list nat) :
  length (bucketSort beta l) = startOf beta l 256.
Proof. reflexivity. Qed.

(** Every position of the output lies in one bucket. *)
Lemma position_in_bucket (l : list nat) (n q : nat) :
  (q < startOf beta l n)%nat ->
  exists v r, (v < n)%nat /\ (r < length (bucket beta v l))%nat
              /\ q = (startOf beta l v + r)%nat.
Proof.
  induction n as [|n IH]; [unfold startOf; cbn; lia|].
  rewrite startOf_S. intros Hq.
  destruct (Nat.lt_ge_cases q (startOf beta l n)) as [Hlt|Hge].
  - destruct (IH Hlt) as (v & r & Hv & Hr & ->). exists v, r. auto with lia.
  - exists n, (q - startOf beta l n)%nat. repeat split; lia.
Qed.

Lemma buckets_below (l : list nat) (n : nat) :
  flat_map (fun v => bucket beta v l) (seq 0 n)
  ≡ₚ filter (fun i => (beta i < n)%nat) l.
Proof.
  induction n as [|n IH].
  - cbn. induction l as [|x l IHl]; [reflexivity|].
    rewrite filter_cons. destruct (decide _); [lia|assumption].
  - rewrite seq_S, flat_map_app, IH. cbn [flat_map Nat.add].
    rewrite app_nil_r. unfold bucket. clear. induction l as [|x l IHl]; [reflexivity|].
    rewrite !filter_cons.
    destruct (decide (beta x < n)%nat), (decide (beta x = n)),
             (decide (beta x < S n)%nat); try lia; cbn.
    + now rewrite IHl.
    + rewrite <- IHl. now rewrite Permutation_middle.
    + assumption.
Qed.

Lemma bucketSort_Permutation (l : list nat) :
  (forall i, i ∈ l -> (beta i < 256)%nat) ->
  bucketSort beta l ≡ₚ l.
Proof.
  intros Hb. unfold bucketSort. rewrite buckets_below.
  induction l as [|x l IHl]; [reflexivity|].
  rewrite filter_cons. destruct (decide _) as [_|Hn].
  - f_equiv. apply IHl. intros i Hi. apply Hb. now right.
  - exfalso. apply Hn, Hb. now left.
Qed.

End CountingSort.

Section RadixPass.

Variable keys : list bytes.
Variable pos : nat.

Let beta (i : nat) : nat := keyByte keys i pos.

Lemma countPass_length (cur cs : list nat) :
  length (countPass keys pos cur cs) = length cs.
Proof.
  unfold countPass. revert cs. induction cur as [|i cur IH]; intros cs;
    [reflexivity|].
  cbn [fold_left]. now rewrite IH, length_insert.
Qed.

Lemma countPass_lookup (cur cs : list nat) (v : nat) :
  (v < length cs)%nat ->
  countPass keys pos cur cs !! v
  = Some (nth v cs 0 + length (bucket beta v cur))%nat.
Proof.
  unfold countPass. revert cs. induction cur as [|i cur IH]; intros cs Hv.
  - cbn. rewrite Nat.add_0_r, nth_lookup.
    destruct (lookup_lt_is_Some_2 cs v Hv) as [x ->]. reflexivity.
  - cbn [fold_left]. rewrite IH by now rewrite length_insert.
    unfold bucket. rewrite filter_cons. fold (beta i). f_equal.
    rewrite nth_lookup.
    destruct (decide (beta i = v)) as [->|Hne].
    + rewrite list_lookup_insert_eq by assumption. cbn. lia.
    + rewrite list_lookup_insert_ne by assumption.
      now rewrite <- nth_lookup.
Qed.

Lemma prefixPass_lookup (cs : list nat) (s v : nat) :
  (v < length cs)%nat ->
  prefixPass s cs !! v = Some (s + sum_list (take v cs))%nat.
Proof.
  revert s v. induction cs as [|c cs IH]; intros s v Hv; [cbn in Hv; lia|].
  destruct v as [|v]; cbn [prefixPass take sum_list lookup list_lookup].
  - f_equal. lia.
  - cbn in Hv. rewrite IH by lia. f_equal. change (id c) with c. lia.
Qed.

Lemma prefixPass_length (cs : list nat) (s : nat) :
  length (prefixPass s cs) = length cs.
Proof.
  revert s. induction cs as [|c cs IH]; intros s; cbn; [reflexivity|].
  now rewrite IH.
Qed.

Lemma sum_counts (cur cs : list nat) (v : nat) :
  (v <= length cs)%nat ->
  (forall u, (u < v)%nat -> cs !! u = Some (length (bucket beta u cur))) ->
  sum_list (take v cs) = startOf beta cur v.
Proof.
  induction v as [|v IH]; intros Hv Hcs; [now rewrite take_0|].
  destruct (lookup_lt_is_Some_2 cs v) as [x Hx]; [lia|].
  rewrite (take_S_r _ _ _ Hx), sum_list_with_app, startOf_S.
  rewrite IH by (lia || auto with lia).
  rewrite Hcs in Hx by lia. injection Hx as <-. cbn. lia.
Qed.

(** The offsets the placement loop starts from. *)
Lemma offsets_lookup (cur : list nat) (v : nat) :
  (v < 256)%nat ->
  prefixPass 0 (countPass keys pos cur (repeat 0%nat 256)) !! v
  = Some (startOf beta cur v).
Proof.
  intros Hv.
  rewrite prefixPass_lookup by (rewrite countPass_length, repeat_length; lia).
  f_equal. cbn [Nat.add]. apply sum_counts.
  - rewrite countPass_length, repeat_length. lia.
  - intros u Hu. rewrite countPass_lookup by (rewrite repeat_length; lia).
    f_equal. rewrite nth_repeat. reflexivity.
Qed.

End RadixPass.

Section Placement.

Variable keys : list bytes.
Variable pos : nat.
Variable cur : list nat.

Let beta (i : nat) : nat := keyByte keys i pos.

Hypothesis beta_byte : forall i, i ∈ cur -> (beta i < 256)%nat.

Lemma bucket_length_le (v : nat) (done todo : list nat) :
  cur = done ++ todo ->
  (length (bucket beta v done) <= length (bucket beta v cur))%nat.
Proof. intros ->. rewrite bucket_app, length_app. lia. Qed.

Lemma startOf_total : startOf beta cur 256 = length cur.
Proof.
  rewrite <- bucketSort_length.
  now rewrite (Permutation_length (bucketSort_Permutation beta cur beta_byte)).
Qed.

Lemma segment_bound (v r : nat) :
  (v < 256)%nat -> (r < length (bucket beta v cur))%nat ->
  (startOf beta cur v + r < length cur)%nat.
Proof.
  intros Hv Hr. rewrite <- startOf_total.
  pose proof (startOf_mono beta cur (S v) 256 ltac:(lia)) as Hm.
  rewrite startOf_S in Hm. lia.
Qed.

(** The invariant of the placement loop: the offsets point behind what
    has been placed, and what has been placed is where the bucket sort
    has it. *)
Lemma placePass_invariant (todo : list nat) :
  forall (done cs aux : list nat),
  cur = done ++ todo ->
  length cs = 256%nat -> length aux = length cur ->
  (forall v, (v < 256)%nat ->
     cs !! v = Some (startOf beta cur v + length (bucket beta v done))%nat) ->
  (forall v r, (v < 256)%nat -> (r < length (bucket beta v done))%nat ->
     aux !! (startOf beta cur v + r)%nat
     = bucketSort beta cur !! (startOf beta cur v + r)%nat) ->
  length (snd (placePass keys pos todo cs aux)) = length cur
  /\ (forall v r, (v < 256)%nat -> (r < length (bucket beta v cur))%nat ->
        snd (placePass keys pos todo cs aux) !! (startOf beta cur v + r)%nat
        = bucketSort beta cur !! (startOf beta cur v + r)%nat).
Proof.
  induction todo as [|i todo IH]; intros done cs aux Hcur Hcs Haux Hoff Hplaced.
  - rewrite app_nil_r in Hcur. subst done. cbn. auto.
  - unfold placePass. cbn [fold_left]. fold (beta i).
    fold (placePass keys pos todo (<[beta i := S (nth (beta i) cs 0%nat)]> cs)
            (<[nth (beta i) cs 0%nat := i]> aux)).
    assert (i ∈ cur) as Hi by (rewrite Hcur; set_solver).
    pose proof (beta_byte i Hi) as Hv0.
    set (v0 := beta i) in *.
    assert (nth v0 cs 0%nat
            = (startOf beta cur v0 + length (bucket beta v0 done))%nat) as Hp.
    { now rewrite nth_lookup, (Hoff v0 Hv0). }
    rewrite Hp.
    assert (bucket beta v0 cur
            = bucket beta v0 done ++ i :: bucket beta v0 todo) as Hb0.
    { rewrite Hcur, bucket_app. f_equal. unfold bucket at 1.
      rewrite filter_cons. destruct (decide (beta i = v0)); [reflexivity|].
      now subst v0. }
    assert (length (bucket beta v0 done) < length (bucket beta v0 cur))%nat
      as Hlt by (rewrite Hb0, length_app; cbn; lia).
    apply (IH (done ++ [i])).
    + now rewrite <- app_assoc.
    + now rewrite length_insert.
    + now rewrite length_insert.
    + intros v Hv. rewrite bucket_app, length_app.
      destruct (decide (v0 = v)) as [<-|Hne].
      * rewrite list_lookup_insert_eq by lia. f_equal.
        unfold bucket at 3. rewrite filter_cons.
        destruct (decide (beta i = v0)) as [_|Hn]; [cbn; lia|].
        now subst v0.
      * rewrite list_lookup_insert_ne by assumption. rewrite Hoff by assumption.
        f_equal. unfold bucket at 3. rewrite filter_cons.
        destruct (decide (beta i = v)) as [Heq|_]; [|cbn; lia].
        now subst v0.
    + intros v r Hv Hr. rewrite bucket_app, length_app in Hr.
      destruct (decide (v = v0 /\ r = length (bucket beta v0 done)))
        as [[-> ->]|Hne].
      * rewrite list_lookup_insert_eq
          by (rewrite Haux; apply segment_bound; assumption).
        rewrite bucketSort_lookup by assumption.
        rewrite Hb0. now rewrite list_lookup_middle.
      * assert (r < length (bucket beta v done))%nat as Hr'.
        { unfold bucket at 2 in Hr. rewrite filter_cons in Hr.
          destruct (decide (beta i = v)) as [Heq|_]; cbn in Hr; [|lia].
          fold v0 in Heq. subst v.
          destruct (decide (r = length (bucket beta v0 done))); [|lia].
          exfalso. apply Hne. auto. }
        rewrite list_lookup_insert_ne; [now apply Hplaced|].
        pose proof (bucket_length_le v done (i :: todo) Hcur) as Hle.
        destruct (Nat.lt_trichotomy v v0) as [Hlv|[->|Hgv]].
        -- pose proof (startOf_mono beta cur (S v) v0 ltac:(lia)) as Hm.
           rewrite startOf_S in Hm. lia.
        -- lia.
        -- pose proof (startOf_mono beta cur (S v0) v ltac:(lia)) as Hm.
           rewrite startOf_S in Hm. lia.
Qed.

(** One radix pass writes the bucket sort of [cur] into [aux], whatever
    [aux] held before, and swaps the two slices. *)
Lemma radixPass_bucketSort (aux : list nat) :
  length aux = length cur ->
  radixPass keys pos (cur, aux) = (bucketSort beta cur, cur).
Proof.
  intros Haux. unfold radixPass.
  set (counts := prefixPass 0 (countPass keys pos cur (repeat 0%nat 256))).
  destruct (placePass keys pos cur counts aux) as [cs' aux'] eqn:Hplace.
  f_equal.
  destruct (placePass_invariant cur [] counts aux) as [Hlen Hall].
  - reflexivity.
  - unfold counts. now rewrite prefixPass_length, countPass_length, repeat_length.
  - assumption.
  - intros v Hv. unfold counts. rewrite offsets_lookup by assumption.
    cbn. f_equal. fold beta. lia.
  - intros v r _ Hr. cbn in Hr. lia.
  - rewrite Hplace in Hlen, Hall. cbn [snd] in Hlen, Hall.
    apply list_eq. intros q.
    destruct (Nat.lt_ge_cases q (length cur)) as [Hq|Hq].
    + rewrite <- startOf_total in Hq.
      destruct (position_in_bucket beta cur 256 q Hq) as (v & r & Hv & Hr & ->).
      now apply Hall.
    + rewrite !lookup_ge_None_2; [reflexivity| |lia].
      rewrite bucketSort_length, startOf_total. lia.
Qed.

End Placement.

(** *** The lexicographic order *)

Lemma lexLe_refl (a : bytes) : lexLe a a.
Proof. induction a as [|x a IH]; cbn; auto. Qed.

Lemma lexLe_trans (a b c : bytes) : lexLe a b -> lexLe b c -> lexLe a c.
Proof.
  revert b c. induction a as [|x a IH]; intros [|y b] [|z c]; cbn; try tauto.
  intros [Hxy|[-> Hab]] [Hyz|[-> Hbc]]; try (left; lia).
  right. split; [reflexivity|]. eauto.
Qed.

Lemma lexLe_total (a b : bytes) : lexLe a b \/ lexLe b a.
Proof.
  revert b. induction a as [|x a IH]; intros [|y b]; cbn; auto.
  destruct (Z.lt_trichotomy x y) as [H|[->|H]]; auto.
  destruct (IH b); auto.
Qed.

(** [bytes.Compare(b, a) < 0] fails exactly when [a <= b]. *)
Lemma bytesCompare_lexLe (a b : bytes) :
  (bytesCompare b a <? 0) = false <-> lexLe a b.
Proof.
  revert b. induction a as [|x a IH]; intros [|y b]; cbn.
  - split; [auto|reflexivity].
  - split; [auto|reflexivity].
  - split; [discriminate|tauto].
  - destruct (y <? x) eqn:Hyx.
    + apply Z.ltb_lt in Hyx. split; [discriminate|]. intros [H|[-> _]]; lia.
    + apply Z.ltb_ge in Hyx. destruct (x <? y) eqn:Hxy.
      * apply Z.ltb_lt in Hxy. split; [auto|reflexivity].
      * apply Z.ltb_ge in Hxy. rewrite IH.
        split; [intros H; right; split; [lia|assumption]|].
        intros [H|[_ H]]; [lia|assumption].
Qed.

(** *** The radix loop sorts a bucket of equal-length keys *)

Lemma StronglySorted_flat_map {A} (R : relation A) (f : nat -> list A)
  (a n : nat) :
  (forall v, StronglySorted R (f v)) ->
  (forall u v x y, (u < v)%nat -> x ∈ f u -> y ∈ f v -> R x y) ->
  StronglySorted R (flat_map f (seq a n)).
Proof.
  intros Hin Hacross. revert a. induction n as [|n IH]; intros a;
    cbn [seq flat_map]; [constructor|].
  apply StronglySorted_app_2; [|apply Hin|apply IH].
  intros x y Hx Hy. apply list_elem_of_In, in_flat_map in Hy as (v & Hv & Hy).
  apply in_seq in Hv. apply (Hacross a v); [lia|assumption|].
  now apply list_elem_of_In.
Qed.

Lemma StronglySorted_filter {A} (R : relation A) (P : A -> Prop)
  `{forall x, Decision (P x)} (l : list A) :
  StronglySorted R l -> StronglySorted R (filter P l).
Proof.
  induction 1 as [|x l Hs IH Hall]; [constructor|].
  rewrite filter_cons. destruct (decide (P x)); [|assumption].
  constructor; [assumption|].
  apply Forall_forall. intros y Hy.
  apply list_elem_of_filter in Hy as [_ Hy].
  rewrite Forall_forall in Hall. now apply Hall.
Qed.

Section RadixSort.

Variable keys : list bytes.
Variable l : nat.

(** The keys of the bucket: [l] bytes each. *)
Definition inBucket (i : nat) : Prop :=
  length (keyOf keys i) = l /\ is_bytes (keyOf keys i).

(** Order by the bytes from position [k] on. *)
Definition suffixLe (k i j : nat) : Prop :=
  lexLe (drop k (keyOf keys i)) (drop k (keyOf keys j)).

Lemma inBucket_byte (i k : nat) :
  inBucket i -> (k < l)%nat ->
  drop k (keyOf keys i) = idx (keyOf keys i) k :: drop (S k) (keyOf keys i)
  /\ 0 <= idx (keyOf keys i) k < 256.
Proof.
  intros [Hlen Hb] Hk.
  destruct (lookup_lt_is_Some_2 (keyOf keys i) k) as [x Hx]; [lia|].
  assert (idx (keyOf keys i) k = x) as ->.
  { unfold idx. now rewrite nth_lookup, Hx. }
  split; [now apply drop_S|].
  unfold is_bytes in Hb. rewrite Forall_forall in Hb. apply Hb.
  eapply list_elem_of_lookup_2. eassumption.
Qed.

Lemma keyByte_lt (i k : nat) :
  inBucket i -> (k < l)%nat -> (keyByte keys i k < 256)%nat.
Proof.
  intros Hi Hk. destruct (inBucket_byte i k Hi Hk) as [_ Hb].
  unfold keyByte. lia.
Qed.

Lemma bucketSort_suffix_sorted (k : nat) (cur : list nat) :
  (k < l)%nat ->
  (forall i, i ∈ cur -> inBucket i) ->
  StronglySorted (suffixLe (S k)) cur ->
  StronglySorted (suffixLe k) (bucketSort (fun i => keyByte keys i k) cur).
Proof.
  intros Hk Hin Hs. unfold bucketSort. apply StronglySorted_flat_map.
  - intros v. unfold bucket.
    assert (StronglySorted (suffixLe (S k))
              (filter (fun i => keyByte keys i k = v) cur)) as Hf
      by now apply StronglySorted_filter.
    assert (forall i, i ∈ filter (fun i => keyByte keys i k = v) cur ->
                      inBucket i /\ keyByte keys i k = v) as Hmem.
    { intros i Hi. apply list_elem_of_filter in Hi as [Hv Hi]. auto. }
    induction Hf as [|x f Hf IH Hall]; [constructor|].
    constructor.
    + apply IH. intros i Hi. apply Hmem. now right.
    + rewrite Forall_forall in Hall |- *. intros y Hy.
      specialize (Hall y Hy).
      destruct (Hmem x ltac:(left)) as [Hbx Hvx].
      destruct (Hmem y ltac:(now right)) as [Hby Hvy].
      destruct (inBucket_byte x k Hbx Hk) as [Hdx Hrx].
      destruct (inBucket_byte y k Hby Hk) as [Hdy Hry].
      unfold suffixLe in *. rewrite Hdx, Hdy. cbn [lexLe]. right.
      split; [|assumption]. unfold keyByte in Hvx, Hvy. lia.
  - intros u v x y Huv Hx Hy. unfold bucket in Hx, Hy.
    apply list_elem_of_filter in Hx as [Hvx Hx], Hy as [Hvy Hy].
    destruct (inBucket_byte x k (Hin x Hx) Hk) as [Hdx Hrx].
    destruct (inBucket_byte y k (Hin y Hy) Hk) as [Hdy Hry].
    unfold suffixLe. rewrite Hdx, Hdy. cbn [lexLe]. left.
    unfold keyByte in Hvx, Hvy. lia.
Qed.

Lemma radixLoop_sorted (k : nat) :
  forall (cur aux : list nat),
  (k <= l)%nat ->
  length aux = length cur ->
  (forall i, i ∈ cur -> inBucket i) ->
  StronglySorted (suffixLe k) cur ->
  StronglySorted (suffixLe 0) (fst (radixLoop keys k (cur, aux)))
  /\ fst (radixLoop keys k (cur, aux)) ≡ₚ cur
  /\ length (snd (radixLoop keys k (cur, aux))) = length cur.
Proof.
  induction k as [|k IH]; intros cur aux Hk Haux Hin Hs.
  - cbn. auto.
  - cbn [radixLoop].
    assert (forall i, i ∈ cur -> (keyByte keys i k < 256)%nat) as Hb
      by (intros i Hi; apply keyByte_lt; [auto|lia]).
    rewrite (radixPass_bucketSort keys k cur Hb aux Haux).
    pose proof (bucketSort_Permutation (fun i => keyByte keys i k) cur Hb)
      as Hperm.
    destruct (IH (bucketSort (fun i => keyByte keys i k) cur) cur)
      as (H1 & H2 & H3).
    + lia.
    + now rewrite (Permutation_length Hperm).
    + intros i Hi. apply Hin. now rewrite <- Hperm.
    + apply bucketSort_suffix_sorted; [lia|assumption|assumption].
    + split; [assumption|]. split; [now rewrite H2|].
      now rewrite H3, (Permutation_length Hperm).
Qed.

End RadixSort.

(** *** Buckets by key length *)

Section LengthBuckets.

Variable keys : list bytes.

Lemma lenGroup_snoc (l i : nat) (done : list nat) :
  lenGroup keys l (done ++ [i])
  = lenGroup keys l done
    ++ (if decide (length (keyOf keys i) = l) then [i] else []).
Proof.
  unfold lenGroup. now rewrite filter_app.
Qed.

Lemma bucket_fold (todo : list nat) :
  forall (done : list nat) (m : gmap nat (list nat)),
  (forall l, m !! l = if decide (lenGroup keys l done = []) then None
                      else Some (lenGroup keys l done)) ->
  forall l,
  fold_left
    (fun (byLen : gmap nat (list nat)) (i : nat) =>
       let l := length (keyOf keys i) in
       <[l := default [] (byLen !! l) ++ [i]]> byLen) todo m !! l
  = if decide (lenGroup keys l (done ++ todo) = []) then None
    else Some (lenGroup keys l (done ++ todo)).
Proof.
  induction todo as [|i todo IH]; intros done m Hm l.
  - rewrite app_nil_r. apply Hm.
  - cbn [fold_left]. replace (done ++ i :: todo) with ((done ++ [i]) ++ todo)
      by now rewrite <- app_assoc.
    apply IH. clear l. intros l. rewrite lenGroup_snoc.
    destruct (decide (length (keyOf keys i) = l)) as [Heq|Hne].
    + rewrite Heq, lookup_insert_eq.
      destruct (decide (_ ++ [i] = [])) as [Hnil|_];
        [now apply app_eq_nil in Hnil as [_ ?]|].
      f_equal. f_equal. rewrite Hm. now destruct (decide _) as [->|].
    + rewrite lookup_insert_ne by assumption. now rewrite app_nil_r.
Qed.

Lemma bucketByLen_lookup (l : nat) :
  bucketByLen keys !! l
  = if decide (lenGroup keys l (seq 0 (length keys)) = []) then None
    else Some (lenGroup keys l (seq 0 (length keys))).
Proof.
  unfold bucketByLen. apply (bucket_fold _ []).
  intros l'. now rewrite lookup_empty.
Qed.

Lemma sortedLens_elem (l : nat) :
  l ∈ sortedLens (bucketByLen keys)
  <-> lenGroup keys l (seq 0 (length keys)) <> [].
Proof.
  unfold sortedLens. rewrite merge_sort_Permutation.
  rewrite list_elem_of_fmap. split.
  - intros ([l' grp] & -> & Hin). apply elem_of_map_to_list in Hin.
    cbn. rewrite bucketByLen_lookup in Hin. now destruct (decide _).
  - intros Hne. exists (l, lenGroup keys l (seq 0 (length keys))).
    split; [reflexivity|]. apply elem_of_map_to_list.
    rewrite bucketByLen_lookup. now destruct (decide _).
Qed.

Lemma sortedLens_NoDup : NoDup (sortedLens (bucketByLen keys)).
Proof.
  unfold sortedLens. rewrite merge_sort_Permutation.
  apply NoDup_fst_map_to_list.
Qed.

Lemma sortedLens_sorted : StronglySorted Nat.le (sortedLens (bucketByLen keys)).
Proof. unfold sortedLens. apply StronglySorted_merge_sort; apply _. Qed.

(** The buckets of a duplicate-free list of lengths that covers every
    entry hold every entry once. *)
Lemma lenGroups_Permutation (lens all : list nat) :
  NoDup lens ->
  (forall i, i ∈ all -> length (keyOf keys i) ∈ lens) ->
  flat_map (fun l => lenGroup keys l all) lens ≡ₚ all.
Proof.
  intros Hnd. induction all as [|x all IH]; intros Hcov.
  - clear. induction lens as [|l lens IHl]; [reflexivity|]. cbn. apply IHl.
  - assert (forall ls, NoDup ls ->
              flat_map (fun l => lenGroup keys l (x :: all)) ls
              ≡ₚ (if decide (length (keyOf keys x) ∈ ls) then [x] else [])
                 ++ flat_map (fun l => lenGroup keys l all) ls) as Hone.
    { clear. induction ls as [|l ls IHls]; intros Hnd.
      - cbn. destruct (decide _) as [Hin|_]; [|reflexivity].
        now apply elem_of_nil in Hin.
      - apply NoDup_cons in Hnd as [Hl Hnd]. cbn [flat_map].
        rewrite (IHls Hnd). unfold lenGroup at 1. rewrite filter_cons.
        fold (lenGroup keys l all).
        destruct (decide (length (keyOf keys x) = l)) as [Heq|Hne].
        + subst l. destruct (decide (_ ∈ ls)) as [Hin|_]; [contradiction|].
          destruct (decide (_ ∈ _ :: ls)) as [_|Hn]; [reflexivity|].
          exfalso. apply Hn. now left.
        + destruct (decide (_ ∈ ls)) as [Hin|Hnin].
          * destruct (decide (_ ∈ l :: ls)) as [_|Hn].
            -- cbn. now rewrite Permutation_middle.
            -- exfalso. apply Hn. now right.
          * destruct (decide (_ ∈ l :: ls)) as [Hin|_]; [|reflexivity].
            apply elem_of_cons in Hin as [?|?]; congruence. }
    rewrite (Hone lens Hnd).
    destruct (decide _) as [_|Hn].
    + cbn. f_equiv. apply IH. intros i Hi. apply Hcov. now right.
    + exfalso. apply Hn, Hcov. now left.
Qed.

End LengthBuckets.

(** *** The order of the entries written *)

Lemma StronglySorted_weaken {A} (R1 R2 : relation A) (l : list A) :
  (forall x y, x ∈ l -> y ∈ l -> R1 x y -> R2 x y) ->
  StronglySorted R1 l -> StronglySorted R2 l.
Proof.
  intros Himp Hs. induction Hs as [|x l Hs IH Hall]; [constructor|].
  constructor.
  - apply IH. intros a b Ha Hb. apply Himp; now right.
  - rewrite Forall_forall in Hall |- *. intros y Hy.
    apply Himp; [now left|now right|auto].
Qed.

Section DetOrder.

Variable sort_Slice : (nat -> nat -> bool) -> list nat -> list nat.

(** The contract of [sort.Slice]: the slice is rearranged, and afterwards
    no element is less than an earlier one. *)
Hypothesis sort_Slice_Permutation :
  forall less l, sort_Slice less l ≡ₚ l.
Hypothesis sort_Slice_sorted :
  forall keys l,
  StronglySorted (notLess (keyLess keys)) (sort_Slice (keyLess keys) l).

Variable keys : list bytes.
Hypothesis keys_bytes : Forall is_bytes keys.

(** Entry [i] is written no later than entry [j]. *)
Let before (i j : nat) : Prop := keyLe (keyOf keys i) (keyOf keys j).

Let all : list nat := seq 0 (length keys).

Lemma keyOf_bytes (i : nat) : is_bytes (keyOf keys i).
Proof.
  unfold keyOf. destruct (Nat.lt_ge_cases i (length keys)) as [Hi|Hi].
  - rewrite Forall_forall in keys_bytes. apply keys_bytes.
    apply list_elem_of_In, nth_In. assumption.
  - rewrite nth_overflow by assumption. constructor.
Qed.

Lemma lenGroup_inBucket (l i : nat) (done : list nat) :
  i ∈ lenGroup keys l done -> inBucket keys l i.
Proof.
  intros Hi. apply list_elem_of_filter in Hi as [Hlen _].
  split; [assumption|apply keyOf_bytes].
Qed.

(** One round of [for _, l := range lens] appends the bucket of [l],
    rearranged into ascending key order. *)
Lemma orderGroup_spec (order tmp : list nat) (l : nat) :
  lenGroup keys l all <> [] ->
  exists g tmp',
    orderGroup sort_Slice keys (bucketByLen keys) (order, tmp) l
    = (order ++ g, tmp')
    /\ g ≡ₚ lenGroup keys l all
    /\ StronglySorted before g.
Proof.
  intros Hne. unfold orderGroup. rewrite bucketByLen_lookup.
  fold all. destruct (decide (lenGroup keys l all = [])); [contradiction|].
  cbn [from_option id]. set (grp := lenGroup keys l all).
  assert (forall i, i ∈ grp -> inBucket keys l i) as Hin
    by (intros i; apply lenGroup_inBucket).
  destruct (length grp <=? 1)%nat eqn:Hsmall.
  { exists grp, tmp. split; [reflexivity|]. split; [reflexivity|].
    apply Nat.leb_le in Hsmall.
    destruct grp as [|x [|y grp']]; cbn in Hsmall; try lia;
      repeat constructor. }
  destruct ((l <? 64)%nat && (length grp <? 1024)%nat).
  { exists (sort_Slice (keyLess keys) grp), tmp.
    split; [reflexivity|]. split; [apply sort_Slice_Permutation|].
    apply (StronglySorted_weaken (notLess (keyLess keys)));
      [|apply sort_Slice_sorted].
    intros x y Hx Hy Hxy. rewrite sort_Slice_Permutation in Hx, Hy.
    destruct (Hin x Hx) as [Hlx _], (Hin y Hy) as [Hly _].
    unfold before, keyLe. right. split; [congruence|].
    now apply bytesCompare_lexLe. }
  set (fresh := (length tmp <? length grp)%nat).
  set (aux0 := if fresh then repeat 0%nat (length grp)
               else take (length grp) tmp).
  assert (length aux0 = length grp) as Haux.
  { unfold aux0, fresh. destruct (length tmp <? length grp)%nat eqn:Hf.
    - apply repeat_length.
    - apply Nat.ltb_ge in Hf. rewrite length_take. lia. }
  destruct (radixLoop_sorted keys l l grp aux0) as (Hs & Hp & _);
    [lia|assumption|assumption| |].
  { apply (StronglySorted_weaken (fun _ _ => True)).
    - intros x y Hx Hy _. unfold suffixLe.
      destruct (Hin x Hx) as [Hlx _].
      rewrite drop_ge by lia. exact I.
    - clear. induction grp; constructor; [assumption|].
      apply Forall_forall. auto. }
  destruct (radixLoop keys l (grp, aux0)) as [cur aux] eqn:Hloop.
  cbn [fst] in Hs, Hp.
  eexists cur, _. split; [reflexivity|]. split; [assumption|].
  apply (StronglySorted_weaken (suffixLe keys 0)); [|assumption].
  intros x y Hx Hy Hxy. rewrite Hp in Hx, Hy.
  destruct (Hin x Hx) as [Hlx _], (Hin y Hy) as [Hly _].
  unfold before, keyLe. right. split; [congruence|].
  unfold suffixLe in Hxy. now rewrite !drop_0 in Hxy.
Qed.

Lemma orderGroups_spec (lens : list nat) :
  forall (order tmp : list nat),
  StronglySorted Nat.le lens -> NoDup lens ->
  (forall l, l ∈ lens -> lenGroup keys l all <> []) ->
  exists new,
    fst (fold_left (orderGroup sort_Slice keys (bucketByLen keys)) lens
           (order, tmp)) = order ++ new
    /\ new ≡ₚ flat_map (fun l => lenGroup keys l all) lens
    /\ StronglySorted before new.
Proof.
  induction lens as [|l lens IH]; intros order tmp Hs Hnd Hne.
  - exists []. cbn. rewrite app_nil_r. repeat split; constructor.
  - cbn [fold_left flat_map].
    destruct (orderGroup_spec order tmp l) as (g & tmp' & -> & Hg & Hsg).
    { apply Hne. now left. }
    apply StronglySorted_inv in Hs as [Hs Hall].
    apply NoDup_cons in Hnd as [Hl Hnd].
    destruct (IH (order ++ g) tmp' Hs Hnd) as (new & -> & Hnew & Hsn).
    { intros l' Hl'. apply Hne. now right. }
    exists (g ++ new). rewrite <- app_assoc. split; [reflexivity|].
    split; [now rewrite Hg, Hnew|].
    apply StronglySorted_app_2; [|assumption|assumption].
    intros x y Hx Hy. rewrite Hg in Hx. rewrite Hnew in Hy.
    apply list_elem_of_filter in Hx as [Hlx _].
    apply list_elem_of_In, in_flat_map in Hy as (l' & Hl' & Hy).
    apply list_elem_of_In in Hl', Hy.
    apply list_elem_of_filter in Hy as [Hly _].
    rewrite Forall_forall in Hall. specialize (Hall l' Hl').
    assert (l <> l') by (intros ->; contradiction).
    unfold before, keyLe. left. lia.
Qed.

(** The entries are written once each, in ascending order of their
    encoded keys. *)
Lemma detOrder_spec :
  detOrder sort_Slice keys ≡ₚ seq 0 (length keys)
  /\ StronglySorted before (detOrder sort_Slice keys).
Proof.
  unfold detOrder.
  destruct (orderGroups_spec (sortedLens (bucketByLen keys)) [] [])
    as (new & -> & Hnew & Hs).
  - apply sortedLens_sorted.
  - apply sortedLens_NoDup.
  - intros l Hl. now apply sortedLens_elem.
  - cbn [app]. split; [|assumption]. rewrite Hnew.
    apply lenGroups_Permutation; [apply sortedLens_NoDup|].
    intros i Hi. apply sortedLens_elem. fold all.
    intros Hnil. assert (i ∈ lenGroup keys (length (keyOf keys i)) all) as Hin
      by (apply list_elem_of_filter; auto).
    rewrite Hnil in Hin. now apply elem_of_nil in Hin.
Qed.

End DetOrder.

Lemma fold_left_append {A} (f g : A -> bytes) (order : list A) (b : bytes) :
  fold_left (fun b i => (b ++ f i) ++ g i) order b
  = b ++ flat_map (fun i => f i ++ g i) order.
Proof.
  revert b. induction order as [|i order IH]; intros b; cbn.
  - now rewrite app_nil_r.
  - rewrite IH. now rewrite <- !app_assoc.
Qed.

Lemma StronglySorted_map {A B} (R : relation A) (R' : relation B)
  (f : A -> B) (l : list A) :
  (forall x y, R x y -> R' (f x) (f y)) ->
  StronglySorted R l -> StronglySorted R' (map f l).
Proof.
  intros Himp Hs. induction Hs as [|x l Hs IH Hall]; cbn [map];
    constructor; [assumption|].
  rewrite Forall_forall in Hall. apply Forall_forall. intros k Hk.
  apply list_elem_of_In, in_map_iff in Hk as (y & <- & Hy).
  apply Himp, Hall. now apply list_elem_of_In.
Qed.

Section DeterministicMapTheorem.

Variable sort_Slice : (nat -> nat -> bool) -> list nat -> list nat.

Hypothesis sort_Slice_Permutation :
  forall less l, sort_Slice less l ≡ₚ l.
Hypothesis sort_Slice_sorted :
  forall keys l,
  StronglySorted (notLess (keyLess keys)) (sort_Slice (keyLess keys) l).

Lemma detOrder_keys_sorted (keys : list bytes) :
  Forall is_bytes keys ->
  detOrder sort_Slice keys ≡ₚ seq 0 (length keys)
  /\ StronglySorted keyLe (map (keyOf keys) (detOrder sort_Slice keys)).
Proof.
  intros Hb.
  destruct (detOrder_spec sort_Slice sort_Slice_Permutation sort_Slice_sorted
              keys Hb) as [Hp Hs].
  split; [assumption|].
  now apply (StronglySorted_map
               (fun i j => keyLe (keyOf keys i) (keyOf keys j))).
Qed.

Lemma AppendMapDeterministic_ok {K V : Type} (b : bytes) (m : list (K * V))
  (encKey : K -> bytes) (ev : V -> bytes) (order : list nat) :
  (forall i, i ∈ order -> (i < length m)%nat) ->
  fold_left
    (fun acc oi =>
       match acc with
       | Err e => Err e
       | Ok b =>
         let b := b ++ nth oi (map (fun kv => encKey (fst kv)) m) [] in
         match nth_error m oi with
         | None => Err GoPanic
         | Some kv =>
           match (fun v => Ok (ev v)) (snd kv) with
           | Ok v => Ok (b ++ v)
           | Err e => Err e
           end
         end
       end) order (Ok b)
  = Ok (b ++ flat_map
          (fun i => keyOf (map (fun kv => encKey (fst kv)) m) i
                    ++ match nth_error m i with
                       | Some kv => ev (snd kv)
                       | None => []
                       end) order).
Proof.
  revert b. induction order as [|i order IH]; intros b Hlt; cbn [fold_left].
  - cbn. now rewrite app_nil_r.
  - destruct (nth_error m i) as [kv|] eqn:Hi.
    + rewrite IH by (intros j Hj; apply Hlt; now right).
      cbn [flat_map]. rewrite Hi. unfold keyOf. now rewrite <- !app_assoc.
    + apply nth_error_None in Hi. specialize (Hlt i ltac:(left)). lia.
Qed.

(** C5: whatever the input order of the raw pairs (of byte-string keys),
    [AppendRawMapDeterministic] writes the map header and then every pair
    once, and the encoded keys in the order written ascend under the
    length-first-then-bytewise-lexicographic rule; the generic
    [AppendMapDeterministic] does the same with the keys [encKey]
    produces; [{"b": 1, "a": 2}] encodes to [a2 6161 02 6162 01]. *)
Theorem C5_deterministic_map_ascending (b : bytes) (pairs : list RawPair) :
  Forall is_bytes (map Key pairs) ->
  (detOrder sort_Slice (map Key pairs) ≡ₚ seq 0 (length pairs)
   /\ StronglySorted keyLe
        (map (keyOf (map Key pairs)) (detOrder sort_Slice (map Key pairs)))
   /\ AppendRawMapDeterministic sort_Slice b pairs
      = AppendMapHeader b (uint32 (Z.of_nat (length pairs)))
        ++ flat_map (fun i => Key (nth i pairs (mkRawPair [] []))
                              ++ Value (nth i pairs (mkRawPair [] [])))
                    (detOrder sort_Slice (map Key pairs)))
  /\ (forall (K V : Type) (m : list (K * V)) (encKey : K -> bytes)
             (ev : V -> bytes),
      let keyEncs := map (fun kv => encKey (fst kv)) m in
      Forall is_bytes keyEncs ->
      detOrder sort_Slice keyEncs ≡ₚ seq 0 (length m)
      /\ StronglySorted keyLe
           (map (keyOf keyEncs) (detOrder sort_Slice keyEncs))
      /\ AppendMapDeterministic sort_Slice b m encKey (fun v => Ok (ev v))
         = Ok (AppendMapHeader b (uint32 (Z.of_nat (length m)))
               ++ flat_map
                    (fun i => keyOf keyEncs i
                              ++ match nth_error m i with
                                 | Some kv => ev (snd kv)
                                 | None => []
                                 end)
                    (detOrder sort_Slice keyEncs)))
  /\ AppendRawMapDeterministic sort_Slice []
       [mkRawPair [0x61; 0x62] [0x01]; mkRawPair [0x61; 0x61] [0x02]]
     = [0xa2; 0x61; 0x61; 0x02; 0x61; 0x62; 0x01].
Proof.
  intros Hb. split; [|split].
  - destruct (detOrder_keys_sorted (map Key pairs) Hb) as [Hp Hs].
    rewrite length_map in Hp. split; [assumption|]. split; [assumption|].
    unfold AppendRawMapDeterministic.
    destruct (length pairs =? 0)%nat eqn:Hn.
    + apply Nat.eqb_eq in Hn. rewrite Hn in Hp |- *.
      apply Permutation_nil_r in Hp. rewrite Hp. cbn [flat_map].
      now rewrite app_nil_r.
    + apply fold_left_append.
  - intros K V m encKey ev keyEncs Hk.
    destruct (detOrder_keys_sorted keyEncs Hk) as [Hp Hs].
    unfold keyEncs in Hp at 2. rewrite length_map in Hp.
    split; [assumption|]. split; [assumption|].
    unfold AppendMapDeterministic. apply AppendMapDeterministic_ok.
    intros i Hi. fold keyEncs in Hi. rewrite Hp in Hi.
    apply elem_of_seq in Hi. lia.
  - set (ks := [[0x61; 0x62]; [0x61; 0x61]]).
    assert (Forall is_bytes ks) as Hks.
    { repeat constructor; lia. }
    destruct (detOrder_keys_sorted ks Hks) as [Hp Hs].
    assert (detOrder sort_Slice ks = [1%nat; 0%nat]) as Horder.
    { cbn in Hp. symmetry in Hp.
      apply Permutation_length_2_inv in Hp as [Heq|Heq]; [|assumption].
      exfalso. rewrite Heq in Hs. cbn in Hs.
      apply StronglySorted_inv in Hs as [_ Hall].
      apply Forall_inv in Hall. unfold keyLe in Hall. cbn in Hall. lia. }
    unfold AppendRawMapDeterministic. cbn [length Nat.eqb map Key].
    fold ks. rewrite Horder. reflexivity.
Qed.

End DeterministicMapTheorem.

(** The merge sort meets the contract assumed of [sort.Slice]. *)
Lemma mergeSortSlice_Permutation (less : nat -> nat -> bool) (l : list nat) :
  mergeSortSlice less l ≡ₚ l.
Proof. apply merge_sort_Permutation. Qed.

Lemma mergeSortSlice_sorted (keys : list bytes) (l : list nat) :
  StronglySorted (notLess (keyLess keys)) (mergeSortSlice (keyLess keys) l).
Proof.
  assert (forall i j, notLess (keyLess keys) i j
                      <-> lexLe (keyOf keys i) (keyOf keys j)) as Hiff.
  { intros i j. unfold notLess, keyLess. apply bytesCompare_lexLe. }
  unfold mergeSortSlice. apply StronglySorted_merge_sort.
  - intros i j k. rewrite !Hiff. apply lexLe_trans.
  - intros i j. rewrite !Hiff. apply lexLe_total.
Qed.

Lemma C5_deterministic_map_ascending_witness :
  (detOrder mergeSortSlice (map Key [mkRawPair [0x61; 0x62] [0x01];
                                     mkRawPair [0x61; 0x61] [0x02];
                                     mkRawPair [0x0a] [0x03]])
   ≡ₚ seq 0 3
   /\ StronglySorted keyLe
        (map (keyOf (map Key [mkRawPair [0x61; 0x62] [0x01];
                              mkRawPair [0x61; 0x61] [0x02];
                              mkRawPair [0x0a] [0x03]]))
           (detOrder mergeSortSlice
              (map Key [mkRawPair [0x61; 0x62] [0x01];
                        mkRawPair [0x61; 0x61] [0x02];
                        mkRawPair [0x0a] [0x03]])))
   /\ AppendRawMapDeterministic mergeSortSlice []
        [mkRawPair [0x61; 0x62] [0x01]; mkRawPair [0x61; 0x61] [0x02];
         mkRawPair [0x0a] [0x03]]
      = AppendMapHeader [] (uint32 (Z.of_nat 3))
        ++ flat_map (fun i => Key (nth i [mkRawPair [0x61; 0x62] [0x01];
                                          mkRawPair [0x61; 0x61] [0x02];
                                          mkRawPair [0x0a] [0x03]]
                                     (mkRawPair [] []))
                              ++ Value (nth i [mkRawPair [0x61; 0x62] [0x01];
                                               mkRawPair [0x61; 0x61] [0x02];
                                               mkRawPair [0x0a] [0x03]]
                                          (mkRawPair [] [])))
                    (detOrder mergeSortSlice
                       (map Key [mkRawPair [0x61; 0x62] [0x01];
                                 mkRawPair [0x61; 0x61] [0x02];
                                 mkRawPair [0x0a] [0x03]])))
  /\ (forall (K V : Type) (m : list (K * V)) (encKey : K -> bytes)
             (ev : V -> bytes),
      let keyEncs := map (fun kv => encKey (fst kv)) m in
      Forall is_bytes keyEncs ->
      detOrder mergeSortSlice keyEncs ≡ₚ seq 0 (length m)
      /\ StronglySorted keyLe
           (map (keyOf keyEncs) (detOrder mergeSortSlice keyEncs))
      /\ AppendMapDeterministic mergeSortSlice [] m encKey (fun v => Ok (ev v))
         = Ok (AppendMapHeader [] (uint32 (Z.of_nat (length m)))
               ++ flat_map
                    (fun i => keyOf keyEncs i
                              ++ match nth_error m i with
                                 | Some kv => ev (snd kv)
                                 | None => []
                                 end)
                    (detOrder mergeSortSlice keyEncs)))
  /\ AppendRawMapDeterministic mergeSortSlice []
       [mkRawPair [0x61; 0x62] [0x01]; mkRawPair [0x61; 0x61] [0x02]]
     = [0xa2; 0x61; 0x61; 0x02; 0x61; 0x62; 0x01].
Proof.
  apply (C5_deterministic_map_ascending mergeSortSlice
           mergeSortSlice_Permutation mergeSortSlice_sorted []
           [mkRawPair [0x61; 0x62] [0x01]; mkRawPair [0x61; 0x61] [0x02];
            mkRawPair [0x0a] [0x03]]).
  repeat constructor; lia.
Defined.

(** ** Loops that consume input terminate *)

(** A loop whose rounds never get stuck and lower a measure returns when
    the fuel exceeds the measure. *)
Lemma loop_total {S R : Type} (step : S -> flow S R) (mu : S -> nat) :
  (forall s, step s <> Stuck) ->
  (forall s s', step s = Continue s' -> (mu s' < mu s)%nat) ->
  forall fuel s, (mu s < fuel)%nat -> exists r, loop step fuel s = Some r.
Proof.
  intros Hstuck Hdec fuel.
  induction fuel as [|fuel IH]; intros s Hs; [lia|].
  cbn [loop]. destruct (step s) as [s'|r|] eqn:E.
  - apply IH. specialize (Hdec s s' E). lia.
  - now exists r.
  - now destruct (Hstuck s).
Qed.

Ltac split_ifs H :=
  repeat match type of H with
  | context [if ?c then _ else _] => destruct c eqn:?
  end.

Ltac nat_tests :=
  repeat match goal with
  | Hc : (_ <? _)%nat = false |- _ => apply Nat.ltb_ge in Hc
  | Hc : (_ <? _)%nat = true |- _ => apply Nat.ltb_lt in Hc
  end.

(** A header that is read takes at least one byte. *)
Lemma readUintCore_shorter (b : bytes) (major u : Z) (o : bytes) :
  readUintCore b major = Ok (u, o) -> (length o < length b)%nat.
Proof.
  unfold readUintCore. intros H. split_ifs H; try discriminate;
    inversion H; subst; rewrite length_drop; nat_tests; lia.
Qed.

Lemma ReadStringZC_shorter (b v o : bytes) :
  ReadStringZC b = Ok (v, o) -> (length o < length b)%nat.
Proof.
  unfold ReadStringZC. intros H. split_ifs H; try discriminate;
    inversion H; subst; rewrite length_drop; nat_tests; lia.
Qed.


Lemma bytesChunkStep_shorter (st st' : bytes * bytes) :
  bytesChunkStep st = Continue st' -> (length st'.2 < length st.2)%nat.
Proof.
  destruct st as [out p]. unfold bytesChunkStep.
  destruct (length p <? 1)%nat; [discriminate|].
  destruct (idx p 0 =? breakByte); [discriminate|].
  destruct (readUintCore p majorTypeBytes) as [[sz q]|e] eqn:E; [|discriminate].
  destruct (Z.of_nat (length q) <? sz); [discriminate|].
  intros [= <-]. cbn [snd]. apply readUintCore_shorter in E.
  rewrite length_drop. lia.
Qed.


Section TextTotal.

Variable isUTF8Valid : bytes -> bool.
Variable ValidateUTF8OnDecode : bool.


Lemma textChunkStep_shorter (st st' : bytes * bytes) :
  textChunkStep isUTF8Valid ValidateUTF8OnDecode st = Continue st' ->
  (length st'.2 < length st.2)%nat.
Proof.
  destruct st as [out p]. unfold textChunkStep.
  destruct (length p <? 1)%nat; [discriminate|].
  destruct (idx p 0 =? breakByte).
  { destruct (ValidateUTF8OnDecode && negb (isUTF8Valid out)); discriminate. }
  destruct (ReadStringZC p) as [[chunk q]|e] eqn:E; [|discriminate].
  intros [= <-]. cbn [snd]. now apply ReadStringZC_shorter in E.
Qed.


End TextTotal.

(** ** C8: the rendering of tags by [toJSON] *)

Lemma ReadTagBytes_lead (b o : bytes) (tag : Z) :
  ReadTagBytes b = Ok (tag, o) ->
  (length b <? 1)%nat = false /\ getMajorType (idx b 0) = majorTypeTag.
Proof.
  unfold ReadTagBytes, readUintCore.
  destruct (length b <? 1)%nat; [discriminate|].
  destruct (getMajorType (idx b 0) =? majorTypeTag) eqn:E; [|discriminate].
  intros _. split; [reflexivity|]. now apply Z.eqb_eq.
Qed.

(** On an item that carries a tag, [toJSON] runs its tag arm. *)
Lemma toJSON_tag_arm (L : Imports) (fuel : nat) (b o : bytes) (depth tag : Z) :
  ReadTagBytes b = Ok (tag, o) ->
  toJSON L (S fuel) b depth =
    if depth >? recursionLimit then throw ErrMaxDepthExceeded
    else toJSONTag L (fun p => toJSON L fuel p (depth + 1)) b.
Proof.
  intros H. apply ReadTagBytes_lead in H as [Hlen Hmaj].
  cbn [toJSON]. rewrite Hlen, Hmaj.
  now destruct (depth >? recursionLimit).
Qed.










(** Every tag of the table has an input that [toJSON] renders: the
    theorem above is about outputs that exist.  The text payloads pass
    when UTF-8 validation on decode is off, the time stamp when
    [time.Parse] accepts it. *)
Lemma toJSON_table_examples (L : Imports) :
  ValidateUTF8OnDecode L = false ->
  time_Parse L (str "2024-01-02T03:04:05Z") <> None ->
  Forall (fun b => is_ok (run (toJSON L 1 b 0)) = true)
    [ [0xc0; 0x74] ++ str "2024-01-02T03:04:05Z";
      [0xc1; 0x0a]; [0xc2; 0x41; 0x01];
      [0xc3; 0x41; 0x01]; [0xc4; 0x82; 0x21; 0x19; 0x30; 0x39];
      [0xc5; 0x82; 0x21; 0x03]; [0xd5; 0x41; 0x01]; [0xd6; 0x41; 0x01];
      [0xd7; 0x41; 0x01]; [0xd8; 0x18; 0x41; 0x01]; [0xd8; 0x20; 0x61; 0x78];
      [0xd8; 0x21; 0x61; 0x78]; [0xd8; 0x22; 0x61; 0x78];
      [0xd8; 0x23; 0x61; 0x78]; [0xd8; 0x24; 0x61; 0x78];
      [0xd8; 0x25; 0x50; 0; 1; 2; 3; 4; 5; 6; 7; 8; 9; 10; 11; 12; 13; 14; 15];
      [0xd9; 0xd9; 0xf7; 0x01] ].
Proof.
  intros Hoff Hparse. destruct L. cbn in Hoff, Hparse. subst.
  repeat (apply Forall_cons; split); try apply Forall_nil;
    try (vm_compute; reflexivity).
  vm_compute. vm_compute in Hparse.
  destruct (time_Parse0 _); [reflexivity|contradiction].
Qed.

(** ** C9: wrapper recognition by [jsonToCBOR] *)






(** ** Appenders extend their input *)

Lemma prefix_insert (b o : bytes) (i : nat) (x : Z) :
  b `prefix_of` o -> (length b <= i)%nat -> b `prefix_of` <[i := x]> o.
Proof.
  intros [k ->] Hi. rewrite insert_app_r_alt by exact Hi. now eexists.
Qed.

Lemma prefix_take (b o : bytes) (n : nat) :
  b `prefix_of` o -> (length b <= n)%nat -> b `prefix_of` take n o.
Proof.
  intros [k ->] Hn. rewrite take_app_ge by exact Hn. now eexists.
Qed.

Lemma prefix_ensure (b : bytes) (sz : nat) :
  b `prefix_of` (ensure b sz).1 /\ (ensure b sz).2 = length b.
Proof. split; [now eexists|reflexivity]. Qed.

Lemma prefix_bePutUint16 (b o : bytes) (off : nat) (v : Z) :
  b `prefix_of` o -> (length b <= off)%nat ->
  b `prefix_of` bePutUint16 o off v.
Proof.
  intros. unfold bePutUint16. repeat apply prefix_insert; auto; lia.
Qed.

Lemma prefix_bePutUint32 (b o : bytes) (off : nat) (v : Z) :
  b `prefix_of` o -> (length b <= off)%nat ->
  b `prefix_of` bePutUint32 o off v.
Proof.
  intros. unfold bePutUint32. repeat apply prefix_insert; auto; lia.
Qed.

Lemma prefix_bePutUint64 (b o : bytes) (off : nat) (v : Z) :
  b `prefix_of` o -> (length b <= off)%nat ->
  b `prefix_of` bePutUint64 o off v.
Proof.
  intros. unfold bePutUint64. repeat apply prefix_insert; auto; lia.
Qed.

Lemma prefix_copy_into (b o src : bytes) (off : nat) :
  b `prefix_of` o -> (length b <= off)%nat ->
  b `prefix_of` copy_into o off src.
Proof.
  intros Hb Hoff. unfold copy_into.
  destruct (prefix_take b o off Hb Hoff) as [k ->].
  rewrite <- app_assoc. now eexists.
Qed.

(** The steps that keep [b] at the front of the buffer being written. *)
Ltac keeps_prefix :=
  repeat first
    [ apply prefix_take | apply prefix_copy_into
    | apply prefix_bePutUint16 | apply prefix_bePutUint32
    | apply prefix_bePutUint64 | apply prefix_insert
    | apply prefix_app_r; reflexivity ];
  try lia.

Lemma appendUintCore_prefix (b : bytes) (major u : Z) :
  b `prefix_of` appendUintCore b major u.
Proof.
  unfold appendUintCore, ensure.
  repeat match goal with
  | |- context [if ?c then _ else _] => destruct c
  end; keeps_prefix.
Qed.

Lemma AppendInt64_prefix (b : bytes) (i : Z) : b `prefix_of` AppendInt64 b i.
Proof.
  unfold AppendInt64.
  repeat match goal with
  | |- context [if ?c then _ else _] => destruct c
  end; try apply appendUintCore_prefix; keeps_prefix.
Qed.

Lemma AppendFloat64_prefix (b : bytes) (f : Z) :
  b `prefix_of` AppendFloat64 b f.
Proof. unfold AppendFloat64, ensure. keeps_prefix. Qed.

Lemma appendData_prefix (major : Z) (b data : bytes) :
  b `prefix_of` appendData major b data.
Proof.
  unfold appendData, ensure.
  repeat match goal with
  | |- context [if ?c then _ else _] => destruct c
  end; cbv iota beta; keeps_prefix.
Qed.

(** The same facts in the form that chains: what is at the front of the
    input of an appender is at the front of its output. *)
Create HintDb extends.

Lemma extends_refl (p : bytes) : p `prefix_of` p.
Proof. reflexivity. Qed.

Lemma appendUintCore_extends (p b : bytes) (major u : Z) :
  p `prefix_of` b -> p `prefix_of` appendUintCore b major u.
Proof. intros. etrans; [eassumption|apply appendUintCore_prefix]. Qed.

Lemma AppendInt64_extends (p b : bytes) (i : Z) :
  p `prefix_of` b -> p `prefix_of` AppendInt64 b i.
Proof. intros. etrans; [eassumption|apply AppendInt64_prefix]. Qed.

Lemma AppendFloat64_extends (p b : bytes) (f : Z) :
  p `prefix_of` b -> p `prefix_of` AppendFloat64 b f.
Proof. intros. etrans; [eassumption|apply AppendFloat64_prefix]. Qed.

Lemma appendData_extends (p b data : bytes) (major : Z) :
  p `prefix_of` b -> p `prefix_of` appendData major b data.
Proof. intros. etrans; [eassumption|apply appendData_prefix]. Qed.

Lemma app_extends (p b ext : bytes) :
  p `prefix_of` b -> p `prefix_of` b ++ ext.
Proof. intros. now apply prefix_app_r. Qed.

#[global] Hint Resolve extends_refl appendUintCore_extends AppendInt64_extends
  AppendFloat64_extends appendData_extends app_extends : extends.

Lemma AppendBigInt_extends (p b : bytes) (z : Z) :
  p `prefix_of` b -> p `prefix_of` AppendBigInt b z.
Proof.
  intros. unfold AppendBigInt, AppendBytes, AppendTag.
  destruct (z >=? 0); auto with extends.
Qed.

Lemma appendCBORIntegerFromBigInt_extends (p b : bytes) (z : Z) :
  p `prefix_of` b -> p `prefix_of` appendCBORIntegerFromBigInt b z.
Proof.
  intros. unfold appendCBORIntegerFromBigInt, AppendUint64.
  destruct ((z >=? 0) && (BitLen z <=? 64)); [auto with extends|].
  destruct ((z <? 0) && (BitLen z <=? 63)); [auto with extends|].
  now apply AppendBigInt_extends.
Qed.

#[global] Hint Resolve AppendBigInt_extends appendCBORIntegerFromBigInt_extends
  : extends.



(** ** [jsonToCBOR] returns *)





(** ** [jsonToCBOR] extends its buffer *)








(* ================================================================== *)
(** * Further properties of the runtime *)
(* ================================================================== *)

(** ** What the encoder writes, as a header of a chosen width *)

(** The number of follow bytes of the canonical header of [u]. *)
Lemma canonicalHeader_lengthHeader (major u : Z) :
  0 <= u < 2 ^ 64 ->
  canonicalHeader major u = lengthHeader major (canonicalWidth u - 1) u
  /\ fitsWidth (canonicalWidth u - 1) u
  /\ canonicalWidth u = (1 + (canonicalWidth u - 1))%nat.
Proof.
  intros Hu. pow2. unfold canonicalHeader, canonicalWidth, lengthHeader, fitsWidth.
  destruct (u <=? 23) eqn:H23.
  { apply Z.leb_le in H23. cbn. split; [reflexivity|]. split; [|reflexivity].
    left. split; [reflexivity|lia]. }
  apply Z.leb_gt in H23.
  destruct (u <=? 255) eqn:H255.
  { apply Z.leb_le in H255. cbn [Nat.sub followInfo].
    split; [reflexivity|]. split; [|reflexivity]. right.
    split; [tauto|]. change (8 * Z.of_nat 1) with 8. pow2. lia. }
  apply Z.leb_gt in H255.
  destruct (u <=? 65535) eqn:H16.
  { apply Z.leb_le in H16. cbn [Nat.sub followInfo].
    split; [reflexivity|]. split; [|reflexivity]. right.
    split; [tauto|]. change (8 * Z.of_nat 2) with 16. pow2. lia. }
  apply Z.leb_gt in H16.
  destruct (u <=? 4294967295) eqn:H32.
  { apply Z.leb_le in H32. cbn [Nat.sub followInfo].
    split; [reflexivity|]. split; [|reflexivity]. right.
    split; [tauto|]. change (8 * Z.of_nat 4) with 32. pow2. lia. }
  apply Z.leb_gt in H32. cbn [Nat.sub followInfo].
  split; [reflexivity|]. split; [|reflexivity]. right.
  split; [tauto|]. change (8 * Z.of_nat 8) with 64. pow2. lia.
Qed.

(** [readUintCore] on a complete header of any admissible width. *)
Lemma readUintCore_header (major : Z) (w : nat) (n : Z) (rest : bytes) :
  0 <= major <= 7 -> fitsWidth w n ->
  readUintCore (lengthHeader major w n ++ rest) major = Ok (n, rest).
Proof.
  intros Hm Hf. unfold readUintCore.
  destruct (lengthHeader_lead major w n rest Hm Hf) as (_ & Hmaj & Hai).
  pose proof (lengthHeader_value major w n rest Hf) as Hval.
  rewrite header_not_short, Hmaj, Hai, Z.eqb_refl. cbn [negb].
  unfold addInfoDirect, addInfoUint8, addInfoUint16, addInfoUint32,
    addInfoUint64.
  rewrite length_app, length_lengthHeader.
  destruct Hf as [[ -> Hn] | [Hw Hn]].
  - cbn [followInfo]. assert ((n <=? 23) = true) as -> by (apply Z.leb_le; lia).
    reflexivity.
  - destruct Hw as [ -> | [ -> | [ -> | -> ]]]; cbn [followInfo]; closed_ifs;
      long_enough; rewrite Hval; unfold lengthHeader; cbn [app];
      repeat f_equal; rewrite drop_app_length'; 
      try reflexivity; rewrite be_bytes_length; reflexivity.
Qed.

Lemma appendUintCore_header (b : bytes) (major u : Z) :
  0 <= u < 2 ^ 64 ->
  appendUintCore b major u = b ++ lengthHeader major (canonicalWidth u - 1) u.
Proof.
  intros Hu. rewrite appendUintCore_canonical by assumption.
  now destruct (canonicalHeader_lengthHeader major u Hu) as [-> _].
Qed.

(** ** Round trips of headers and integers *)

(** X1: what [appendUintCore] writes for a major type and a 64-bit value
    is read back by [readUintCore] as that value, whatever follows; so
    [ReadTagBytes] inverts [AppendTag] and [ReadUint64Bytes] inverts
    [AppendUint64]. *)
Theorem X1_uint_header_roundtrip (major u : Z) (rest : bytes) :
  0 <= major <= 7 -> 0 <= u < 2 ^ 64 ->
  readUintCore (appendUintCore [] major u ++ rest) major = Ok (u, rest)
  /\ (major = majorTypeTag ->
      ReadTagBytes (AppendTag [] u ++ rest) = Ok (u, rest))
  /\ (major = majorTypeUint ->
      ReadUint64Bytes (AppendUint64 [] u ++ rest) = Ok (u, rest)).
Proof.
  intros Hm Hu.
  assert (readUintCore (appendUintCore [] major u ++ rest) major = Ok (u, rest))
    as Hrt.
  { rewrite appendUintCore_header by assumption. cbn [app].
    destruct (canonicalHeader_lengthHeader major u Hu) as (_ & Hf & _).
    now apply readUintCore_header. }
  split; [exact Hrt|]. split; intros ->.
  - unfold ReadTagBytes, AppendTag. now rewrite Hrt.
  - exact Hrt.
Qed.

Lemma X1_uint_header_roundtrip_witness :
  readUintCore (appendUintCore [] 6 55799 ++ [0x01]) 6 = Ok (55799, [0x01])
  /\ (6 = majorTypeTag ->
      ReadTagBytes (AppendTag [] 55799 ++ [0x01]) = Ok (55799, [0x01]))
  /\ (6 = majorTypeUint ->
      ReadUint64Bytes (AppendUint64 [] 55799 ++ [0x01]) = Ok (55799, [0x01])).
Proof. apply (X1_uint_header_roundtrip 6 55799 [0x01]); lia. Defined.

(** The container-header readers on a complete header. *)
Lemma ReadArrayHeaderBytes_header (w : nat) (n : Z) (rest : bytes) :
  fitsWidth w n -> n <= MaxUint32 ->
  ReadArrayHeaderBytes (lengthHeader majorTypeArray w n ++ rest)
  = Ok (n, rest).
Proof.
  intros Hf Hn. unfold ReadArrayHeaderBytes, MaxUint32 in *.
  assert (0 <= majorTypeArray <= 7) as Hm by (unfold majorTypeArray; lia).
  destruct (lengthHeader_lead majorTypeArray w n rest Hm Hf) as (Hlead & _ & _).
  pose proof (lengthHeader_value majorTypeArray w n rest Hf) as Hval.
  rewrite header_not_short, Hlead. unfold majorTypeArray in *.
  rewrite length_app, length_lengthHeader.
  assert (forall k m, m = (1 + k)%nat ->
            drop m (lengthHeader 4 k n ++ rest) = rest) as Hdrop.
  { intros k m ->. rewrite drop_app_length'; [reflexivity|].
    now rewrite length_lengthHeader. }
  destruct Hf as [[ -> Hr] | [Hw Hr]].
  - cbn [followInfo].
    assert ((32 * 4 + n >=? 128) && (32 * 4 + n <=? 151) = true) as ->.
    { apply andb_true_iff. split; [apply Z.geb_le|apply Z.leb_le]; lia. }
    unfold uint32, uint8.
    rewrite (Z.mod_small (32 * 4 + n - 128) 256) by lia.
    rewrite Z.mod_small by lia.
    rewrite (Hdrop 0%nat 1%nat eq_refl). do 2 f_equal. lia.
  - destruct Hw as [ -> | [ -> | [ -> | -> ]]]; cbn [followInfo]; closed_ifs;
      long_enough; rewrite Hval;
      [change (8 * Z.of_nat 1) with 8 in Hr
      |change (8 * Z.of_nat 2) with 16 in Hr
      |change (8 * Z.of_nat 4) with 32 in Hr
      |change (8 * Z.of_nat 8) with 64 in Hr]; pow2.
    + unfold uint32. rewrite Z.mod_small by lia. now rewrite (Hdrop 1%nat 2%nat eq_refl).
    + unfold uint32. rewrite Z.mod_small by lia. now rewrite (Hdrop 2%nat 3%nat eq_refl).
    + now rewrite (Hdrop 4%nat 5%nat eq_refl).
    + assert ((n >? 4294967295) = false) as ->.
      { rewrite Z.gtb_ltb. apply Z.ltb_ge. lia. }
      unfold uint32. rewrite Z.mod_small by lia. now rewrite (Hdrop 8%nat 9%nat eq_refl).
Qed.

Lemma ReadMapHeaderBytes_header (w : nat) (n : Z) (rest : bytes) :
  fitsWidth w n -> n <= MaxUint32 ->
  ReadMapHeaderBytes (lengthHeader majorTypeMap w n ++ rest) = Ok (n, rest).
Proof.
  intros Hf Hn. unfold ReadMapHeaderBytes, MaxUint32 in *.
  assert (0 <= majorTypeMap <= 7) as Hm by (unfold majorTypeMap; lia).
  destruct (lengthHeader_lead majorTypeMap w n rest Hm Hf) as (Hlead & _ & _).
  pose proof (lengthHeader_value majorTypeMap w n rest Hf) as Hval.
  rewrite header_not_short, Hlead. unfold majorTypeMap in *.
  rewrite length_app, length_lengthHeader.
  assert (forall k m, m = (1 + k)%nat ->
            drop m (lengthHeader 5 k n ++ rest) = rest) as Hdrop.
  { intros k m ->. rewrite drop_app_length'; [reflexivity|].
    now rewrite length_lengthHeader. }
  destruct Hf as [[ -> Hr] | [Hw Hr]].
  - cbn [followInfo].
    assert ((32 * 5 + n >=? 160) && (32 * 5 + n <=? 183) = true) as ->.
    { apply andb_true_iff. split; [apply Z.geb_le|apply Z.leb_le]; lia. }
    unfold uint32, uint8.
    rewrite (Z.mod_small (32 * 5 + n - 160) 256) by lia.
    rewrite Z.mod_small by lia.
    rewrite (Hdrop 0%nat 1%nat eq_refl). do 2 f_equal. lia.
  - destruct Hw as [ -> | [ -> | [ -> | -> ]]]; cbn [followInfo]; closed_ifs;
      long_enough; rewrite Hval;
      [change (8 * Z.of_nat 1) with 8 in Hr
      |change (8 * Z.of_nat 2) with 16 in Hr
      |change (8 * Z.of_nat 4) with 32 in Hr
      |change (8 * Z.of_nat 8) with 64 in Hr]; pow2.
    + unfold uint32. rewrite Z.mod_small by lia. now rewrite (Hdrop 1%nat 2%nat eq_refl).
    + unfold uint32. rewrite Z.mod_small by lia. now rewrite (Hdrop 2%nat 3%nat eq_refl).
    + now rewrite (Hdrop 4%nat 5%nat eq_refl).
    + assert ((n >? 4294967295) = false) as ->.
      { rewrite Z.gtb_ltb. apply Z.ltb_ge. lia. }
      unfold uint32. rewrite Z.mod_small by lia. now rewrite (Hdrop 8%nat 9%nat eq_refl).
Qed.

Lemma drop_header (major : Z) (w : nat) (n : Z) (rest : bytes) (m : nat) :
  m = (1 + w)%nat -> drop m (lengthHeader major w n ++ rest) = rest.
Proof.
  intros ->. rewrite drop_app_length'; [reflexivity|].
  now rewrite length_lengthHeader.
Qed.

(** [ReadInt64Bytes] on a complete header of either integer major type. *)
Lemma ReadInt64Bytes_header (w : nat) (n : Z) (rest : bytes) :
  fitsWidth w n -> n <= MaxInt64 ->
  ReadInt64Bytes (lengthHeader majorTypeUint w n ++ rest) = Ok (n, rest)
  /\ ReadInt64Bytes (lengthHeader majorTypeNegInt w n ++ rest)
     = Ok (-1 - n, rest).
Proof.
  intros Hf Hn. unfold ReadInt64Bytes, MaxInt64 in *.
  assert (0 <= majorTypeUint <= 7) as Hm0 by (unfold majorTypeUint; lia).
  assert (0 <= majorTypeNegInt <= 7) as Hm1 by (unfold majorTypeNegInt; lia).
  destruct (lengthHeader_lead majorTypeUint w n rest Hm0 Hf) as (Hl0 & _ & _).
  destruct (lengthHeader_lead majorTypeNegInt w n rest Hm1 Hf) as (Hl1 & _ & _).
  pose proof (lengthHeader_value majorTypeUint w n rest Hf) as Hv0.
  pose proof (lengthHeader_value majorTypeNegInt w n rest Hf) as Hv1.
  rewrite !header_not_short, Hl0, Hl1.
  unfold majorTypeUint, majorTypeNegInt in *.
  rewrite !length_app, !length_lengthHeader.
  destruct Hf as [[ -> Hr] | [Hw Hr]].
  - cbn [followInfo]. split.
    + change (32 * 0 + n) with n.
      assert ((n <=? 23) = true) as -> by (apply Z.leb_le; lia).
      rewrite (drop_header 0 0 n rest 1) by reflexivity.
      now rewrite int64_small by (pow2; lia).
    + assert ((32 * 1 + n <=? 23) = false) as -> by (apply Z.leb_gt; lia).
      closed_ifs.
      repeat match goal with
      | |- context [32 * 1 + n =? ?k] =>
          let H := fresh in
          assert ((32 * 1 + n =? k) = false) as H by (apply Z.eqb_neq; lia);
          rewrite H; clear H
      end.
      assert ((32 * 1 + n >=? 32) && (32 * 1 + n <=? 55) = true) as ->.
      { apply andb_true_iff. split; [apply Z.geb_le|apply Z.leb_le]; lia. }
      rewrite (drop_header 1 0 n rest 1) by reflexivity.
      unfold uint8. rewrite (Z.mod_small (32 * 1 + n - 32) 256) by lia.
      rewrite (int64_small (32 * 1 + n - 32)) by (pow2; lia).
      rewrite int64_small by (pow2; lia). do 2 f_equal. lia.
  - destruct Hw as [ -> | [ -> | [ -> | -> ]]]; cbn [followInfo]; closed_ifs;
      long_enough; rewrite Hv0, Hv1;
      [change (8 * Z.of_nat 1) with 8 in Hr
      |change (8 * Z.of_nat 2) with 16 in Hr
      |change (8 * Z.of_nat 4) with 32 in Hr
      |change (8 * Z.of_nat 8) with 64 in Hr]; pow2;
      try (assert ((n >? 9223372036854775807) = false) as ->
             by (rewrite Z.gtb_ltb; apply Z.ltb_ge; lia));
      rewrite !(int64_small n) by (pow2; lia);
      rewrite !(int64_small (-1 - n)) by (pow2; lia);
      (split; f_equal; f_equal; apply drop_header; reflexivity).
Qed.

(** ** Byte and text strings *)

Lemma copy_into_tail (pre zs data : bytes) (off : nat) :
  length pre = off -> length zs = length data ->
  take (off + length data) (copy_into (pre ++ zs) off data) = pre ++ data.
Proof.
  intros <- Hz. unfold copy_into.
  rewrite take_app_length, length_app, Hz.
  replace (length pre + length data - length pre)%nat with (length data) by lia.
  rewrite firstn_all.
  rewrite drop_ge by (rewrite length_app; lia).
  rewrite app_nil_r. rewrite <- (length_app pre data). apply firstn_all.
Qed.

(** [AppendBytes] and [AppendString] write the header [appendUintCore]
    writes for the length, then the data. *)
Lemma appendData_appendUintCore (major : Z) (b data : bytes) :
  Z.of_nat (length data) <= MaxInt64 ->
  appendData major b data
  = appendUintCore b major (Z.of_nat (length data)) ++ data.
Proof.
  intros Hlen. unfold MaxInt64 in Hlen. unfold appendData, appendUintCore.
  rewrite uint64_small by (pow2; lia). rewrite int64_small by (pow2; lia).
  rewrite Nat2Z.id. set (sz := Z.of_nat (length data)). unfold ensure.
  destruct (sz <=? addInfoDirect).
  { cbn [Nat.add repeat]. rewrite insert_at_end. cbn [insert list_insert].
    change (b ++ makeByte major (uint8 sz) :: repeat 0 (length data))
      with (b ++ [makeByte major (uint8 sz)] ++ repeat 0 (length data)).
    rewrite app_assoc. apply copy_into_tail; [|apply repeat_length].
    rewrite length_app. reflexivity. }
  destruct (sz <=? MaxUint8).
  { cbn [Nat.add repeat]. rewrite insert_at_end, insert_app_r.
    cbn [insert list_insert].
    match goal with
    | |- context [b ++ ?x :: ?y :: repeat 0 (length data)] =>
        change (b ++ x :: y :: repeat 0 (length data))
          with (b ++ [x; y] ++ repeat 0 (length data))
    end.
    rewrite app_assoc. rewrite insert_at_end, insert_app_r.
    cbn [insert list_insert].
    apply copy_into_tail; [|apply repeat_length].
    rewrite length_app. reflexivity. }
  destruct (sz <=? MaxUint16).
  { cbn [Nat.add repeat]. rewrite !insert_at_end, !bePutUint16_app.
    unfold bePutUint16. cbn [insert list_insert Nat.add].
    match goal with
    | |- context [b ++ ?x :: ?y :: ?z :: repeat 0 (length data)] =>
        change (b ++ x :: y :: z :: repeat 0 (length data))
          with (b ++ [x; y; z] ++ repeat 0 (length data))
    end.
    rewrite app_assoc.
    apply copy_into_tail; [|apply repeat_length].
    rewrite length_app. reflexivity. }
  destruct (sz <=? MaxUint32).
  { cbn [Nat.add repeat]. rewrite !insert_at_end, !bePutUint32_app.
    unfold bePutUint32. cbn [insert list_insert Nat.add].
    match goal with
    | |- context [b ++ ?x0 :: ?x1 :: ?x2 :: ?x3 :: ?x4
                    :: repeat 0 (length data)] =>
        change (b ++ x0 :: x1 :: x2 :: x3 :: x4 :: repeat 0 (length data))
          with (b ++ [x0; x1; x2; x3; x4] ++ repeat 0 (length data))
    end.
    rewrite app_assoc.
    apply copy_into_tail; [|apply repeat_length].
    rewrite length_app. reflexivity. }
  cbn [Nat.add repeat]. rewrite !insert_at_end, !bePutUint64_app.
  unfold bePutUint64. cbn [insert list_insert Nat.add].
  match goal with
  | |- context [b ++ ?x0 :: ?x1 :: ?x2 :: ?x3 :: ?x4 :: ?x5 :: ?x6 :: ?x7
                  :: ?x8 :: repeat 0 (length data)] =>
      change (b ++ x0 :: x1 :: x2 :: x3 :: x4 :: x5 :: x6 :: x7 :: x8
                :: repeat 0 (length data))
        with (b ++ [x0; x1; x2; x3; x4; x5; x6; x7; x8]
                ++ repeat 0 (length data))
  end.
  rewrite app_assoc.
  apply copy_into_tail; [|apply repeat_length].
  rewrite length_app. reflexivity.
Qed.

Lemma uint32_as_uint64 (n : Z) : 0 <= n <= MaxUint32 -> uint64 n = n.
Proof. unfold MaxUint32. intros. apply uint64_small. pow2. lia. Qed.

Lemma AppendArrayHeader_header (b : bytes) (n : Z) :
  0 <= n <= MaxUint32 ->
  AppendArrayHeader b n
  = b ++ lengthHeader majorTypeArray (canonicalWidth n - 1) n.
Proof.
  intros Hn. unfold AppendArrayHeader. rewrite uint32_as_uint64 by assumption.
  apply appendUintCore_header. unfold MaxUint32 in Hn. pow2. lia.
Qed.

Lemma AppendMapHeader_header (b : bytes) (n : Z) :
  0 <= n <= MaxUint32 ->
  AppendMapHeader b n
  = b ++ lengthHeader majorTypeMap (canonicalWidth n - 1) n.
Proof.
  intros Hn. unfold AppendMapHeader. rewrite uint32_as_uint64 by assumption.
  apply appendUintCore_header. unfold MaxUint32 in Hn. pow2. lia.
Qed.

Lemma fits_canonical (n : Z) :
  0 <= n < 2 ^ 64 -> fitsWidth (canonicalWidth n - 1) n.
Proof. intros Hn. now destruct (canonicalHeader_lengthHeader 0 n Hn) as (_ & ? & _). Qed.

Lemma canonical_follow (n : Z) :
  0 <= n < 2 ^ 64 -> canonicalWidth n = (1 + (canonicalWidth n - 1))%nat.
Proof. intros Hn. now destruct (canonicalHeader_lengthHeader 0 n Hn) as (_ & _ & ?). Qed.

(** X2: a container size of 32 bits written by [AppendArrayHeader] or
    [AppendMapHeader] is read back by [ReadArrayHeaderBytes] or
    [ReadMapHeaderBytes], whatever follows the header. *)
Theorem X2_container_header_roundtrip (n : Z) (rest : bytes) :
  0 <= n <= MaxUint32 ->
  ReadArrayHeaderBytes (AppendArrayHeader [] n ++ rest) = Ok (n, rest)
  /\ ReadMapHeaderBytes (AppendMapHeader [] n ++ rest) = Ok (n, rest).
Proof.
  intros Hn.
  assert (0 <= n < 2 ^ 64) as Hn64 by (unfold MaxUint32 in Hn; pow2; lia).
  rewrite AppendArrayHeader_header, AppendMapHeader_header by assumption.
  cbn [app]. split.
  - apply ReadArrayHeaderBytes_header; [now apply fits_canonical|lia].
  - apply ReadMapHeaderBytes_header; [now apply fits_canonical|lia].
Qed.

Lemma X2_container_header_roundtrip_witness :
  ReadArrayHeaderBytes (AppendArrayHeader [] 70000 ++ [0x01]) = Ok (70000, [0x01])
  /\ ReadMapHeaderBytes (AppendMapHeader [] 70000 ++ [0x01]) = Ok (70000, [0x01]).
Proof.
  apply (X2_container_header_roundtrip 70000 [0x01]). unfold MaxUint32. lia.
Defined.

Lemma appendData_header (major : Z) (data : bytes) :
  Z.of_nat (length data) <= MaxInt64 ->
  appendData major [] data
  = lengthHeader major (canonicalWidth (Z.of_nat (length data)) - 1)
      (Z.of_nat (length data)) ++ data.
Proof.
  intros Hlen. rewrite appendData_appendUintCore by assumption.
  rewrite appendUintCore_header; [reflexivity|].
  unfold MaxInt64 in Hlen. pow2. lia.
Qed.

(** [ReadBytesBytes] on what [AppendBytes] wrote; a Go slice holds at
    most [MaxInt64] bytes. *)
Lemma ReadBytesBytes_AppendBytes (data rest : bytes) :
  Z.of_nat (length data) + Z.of_nat (length rest) + 9 <= MaxInt64 ->
  ReadBytesBytes (AppendBytes [] data ++ rest) = Some (Ok (data, rest)).
Proof.
  intros Hlen. unfold AppendBytes.
  assert (Z.of_nat (length data) <= MaxInt64) as Hd by lia.
  rewrite appendData_header by assumption. rewrite <- app_assoc.
  set (n := Z.of_nat (length data)) in *.
  assert (0 <= n < 2 ^ 64) as Hn by (unfold MaxInt64 in Hd; pow2; lia).
  destruct (length data) as [|k] eqn:Ek.
  - apply length_zero_iff_nil in Ek. subst data. subst n.
    change (lengthHeader majorTypeBytes (canonicalWidth (Z.of_nat 0) - 1)
              (Z.of_nat 0) ++ [] ++ rest) with (64 :: rest).
    unfold ReadBytesBytes, bytesBody. cbn [length idx nth Nat.ltb Nat.leb].
    closed_ifs.
    change (int64 (Z.of_nat 1 + Z.land 64 31)) with 1.
    assert ((Z.of_nat (S (length rest)) <? 1) = false) as ->
      by (apply Z.ltb_ge; lia).
    reflexivity.
  - subst n. rewrite <- Ek in *.
    apply ReadBytesBytes_definite; [now apply fits_canonical|lia|].
    rewrite !length_app, length_lengthHeader.
    pose proof (canonical_follow _ Hn) as Hw.
    assert (canonicalWidth (Z.of_nat (length data)) <= 9)%nat.
    { unfold canonicalWidth. repeat case_match; lia. }
    lia.
Qed.

(** [ReadStringBytes] on what [AppendString] wrote. *)
Lemma ReadStringBytes_AppendString (valid : bytes -> bool) (onDecode : bool)
  (s rest : bytes) :
  Z.of_nat (length s) <= MaxInt64 ->
  onDecode = false \/ valid s = true ->
  ReadStringBytes valid onDecode (AppendString [] s ++ rest)
  = Some (Ok (s, rest)).
Proof.
  intros Hlen Hutf. unfold AppendString.
  rewrite appendData_header by assumption. rewrite <- app_assoc.
  set (n := Z.of_nat (length s)) in *.
  assert (0 <= n < 2 ^ 64) as Hn by (unfold MaxInt64 in Hlen; pow2; lia).
  pose proof (fits_canonical n Hn) as Hf.
  assert (0 <= majorTypeText <= 7) as Hm by (unfold majorTypeText; lia).
  unfold ReadStringBytes.
  rewrite header_not_short.
  destruct (lengthHeader_lead majorTypeText _ n (s ++ rest) Hm Hf)
    as (Hlead & _ & _).
  rewrite Hlead.
  assert ((32 * majorTypeText + followInfo (canonicalWidth n - 1) n
           =? makeByte majorTypeText addInfoIndefinite) = false) as ->.
  { apply Z.eqb_neq. pose proof (followInfo_range _ n Hf).
    change (makeByte majorTypeText addInfoIndefinite) with 127.
    unfold majorTypeText. lia. }
  subst n. rewrite ReadStringZC_definite by assumption.
  destruct Hutf as [ -> | -> ]; [reflexivity|].
  now rewrite andb_false_r.
Qed.

(** X3: a byte string written by [AppendBytes] is read back by
    [ReadBytesBytes], and a text string written by [AppendString] by
    [ReadStringBytes] when UTF-8 validation on decode is off or accepts
    it; what follows the string is handed back untouched. *)
Theorem X3_string_roundtrip (valid : bytes -> bool) (onDecode : bool)
  (data rest : bytes) :
  Z.of_nat (length data) + Z.of_nat (length rest) + 9 <= MaxInt64 ->
  ReadBytesBytes (AppendBytes [] data ++ rest) = Some (Ok (data, rest))
  /\ (onDecode = false \/ valid data = true ->
      ReadStringBytes valid onDecode (AppendString [] data ++ rest)
      = Some (Ok (data, rest))).
Proof.
  intros Hlen. split.
  - now apply ReadBytesBytes_AppendBytes.
  - intros Hutf. apply ReadStringBytes_AppendString; [lia|assumption].
Qed.

Lemma X3_string_roundtrip_witness :
  ReadBytesBytes (AppendBytes [] (repeat 7 300) ++ [0x01])
  = Some (Ok (repeat 7 300, [0x01]))
  /\ (true = false \/ (fun _ : bytes => true) (repeat 7 300) = true ->
      ReadStringBytes (fun _ => true) true
        (AppendString [] (repeat 7 300) ++ [0x01])
      = Some (Ok (repeat 7 300, [0x01]))).
Proof.
  apply (X3_string_roundtrip (fun _ => true) true (repeat 7 300) [0x01]).
  vm_compute. discriminate.
Defined.

(** ** Floats *)

Lemma AppendFloat64_cells (b : bytes) (f : Z) :
  AppendFloat64 b f = b ++ 0xfb :: be_bytes 8 f.
Proof.
  unfold AppendFloat64, ensure.
  rewrite insert_at_end, bePutUint64_app. cbn [repeat be_bytes].
  unfold bePutUint64, uint8. cbn [insert list_insert Nat.add].
  rewrite !shiftr_div by lia.
  change (8 * Z.of_nat 7) with 56. change (8 * Z.of_nat 6) with 48.
  change (8 * Z.of_nat 5) with 40. change (8 * Z.of_nat 4) with 32.
  change (8 * Z.of_nat 3) with 24. change (8 * Z.of_nat 2) with 16.
  change (8 * Z.of_nat 1) with 8. change (8 * Z.of_nat 0) with 0.
  pow2. now rewrite Z.div_1_r.
Qed.

Lemma AppendFloat32_cells (b : bytes) (f : Z) :
  AppendFloat32 b f = b ++ 0xfa :: be_bytes 4 f.
Proof.
  unfold AppendFloat32, ensure.
  rewrite insert_at_end, bePutUint32_app. cbn [repeat be_bytes].
  unfold bePutUint32, uint8. cbn [insert list_insert Nat.add].
  rewrite !shiftr_div by lia.
  change (8 * Z.of_nat 3) with 24. change (8 * Z.of_nat 2) with 16.
  change (8 * Z.of_nat 1) with 8. change (8 * Z.of_nat 0) with 0.
  pow2. now rewrite Z.div_1_r.
Qed.

Lemma AppendFloat16_cells (b : bytes) (f : Z) :
  AppendFloat16 b f = b ++ 0xf9 :: be_bytes 2 (float32ToFloat16Bits f).
Proof.
  unfold AppendFloat16, ensure.
  rewrite insert_at_end, bePutUint16_app. cbn [repeat be_bytes].
  unfold bePutUint16, uint8. cbn [insert list_insert Nat.add].
  rewrite !shiftr_div by lia.
  change (8 * Z.of_nat 1) with 8. change (8 * Z.of_nat 0) with 0.
  pow2. now rewrite Z.div_1_r.
Qed.

Lemma ReadFloat64Bytes_AppendFloat64 (f : Z) (rest : bytes) :
  0 <= f < 2 ^ 64 ->
  ReadFloat64Bytes (AppendFloat64 [] f ++ rest) = Ok (f, rest).
Proof.
  intros Hf. pow2. rewrite AppendFloat64_cells. cbn [app].
  unfold ReadFloat64Bytes.
  assert ((length (251%Z :: be_bytes 8 f ++ rest) <? 9)%nat = false) as ->.
  { apply Nat.ltb_ge. cbn [length]. rewrite length_app, be_bytes_length. lia. }
  cbn [idx nth]. closed_ifs. cbn [drop]. rewrite drop_0.
  rewrite beUint64_be_bytes by lia.
  rewrite drop_app_length'; [reflexivity|symmetry; apply be_bytes_length].
Qed.

Lemma ReadFloat32Bytes_AppendFloat32 (f : Z) (rest : bytes) :
  0 <= f < 2 ^ 32 ->
  ReadFloat32Bytes (AppendFloat32 [] f ++ rest) = Ok (f, rest).
Proof.
  intros Hf. pow2. rewrite AppendFloat32_cells. cbn [app].
  unfold ReadFloat32Bytes.
  assert ((length (250%Z :: be_bytes 4 f ++ rest) <? 5)%nat = false) as ->.
  { apply Nat.ltb_ge. cbn [length]. rewrite length_app, be_bytes_length. lia. }
  cbn [idx nth]. closed_ifs. cbn [drop]. rewrite drop_0.
  rewrite beUint32_be_bytes by lia.
  rewrite drop_app_length'; [reflexivity|symmetry; apply be_bytes_length].
Qed.

(** X4: the bits of a [float64] written by [AppendFloat64], and of a
    [float32] written by [AppendFloat32], are read back unchanged by
    [ReadFloat64Bytes] and [ReadFloat32Bytes] (NaN payloads and the sign of
    zero included), whatever follows. *)
Theorem X4_float_bits_roundtrip (f g : Z) (rest : bytes) :
  0 <= f < 2 ^ 64 -> 0 <= g < 2 ^ 32 ->
  ReadFloat64Bytes (AppendFloat64 [] f ++ rest) = Ok (f, rest)
  /\ ReadFloat32Bytes (AppendFloat32 [] g ++ rest) = Ok (g, rest).
Proof.
  intros Hf Hg. split.
  - now apply ReadFloat64Bytes_AppendFloat64.
  - now apply ReadFloat32Bytes_AppendFloat32.
Qed.

Lemma X4_float_bits_roundtrip_witness :
  ReadFloat64Bytes (AppendFloat64 [] 0x7ff8000000000001 ++ [0x01])
  = Ok (0x7ff8000000000001, [0x01])
  /\ ReadFloat32Bytes (AppendFloat32 [] 0x80000000 ++ [0x01])
     = Ok (0x80000000, [0x01]).
Proof.
  apply (X4_float_bits_roundtrip 0x7ff8000000000001 0x80000000 [0x01]); lia.
Defined.

Lemma zrange_In (h start : Z) (n : nat) :
  start <= h < start + Z.of_nat n -> In h (zrange start n).
Proof.
  revert start. induction n as [|n IH]; intros start Hh; [lia|].
  cbn [zrange]. destruct (Z.eq_dec start h) as [->|Hne]; [now left|].
  right. apply IH. lia.
Qed.

Lemma halfRoundTrip_all :
  forallb halfRoundTripOk (zrange 0 (Z.to_nat 65536)) = true.
Proof. vm_compute. reflexivity. Qed.

(** X5: for every binary16 bit pattern that is not subnormal (zeros,
    normal numbers, infinities and NaNs), converting to [float32] with
    [float16BitsToFloat32] and back with [float32ToFloat16Bits] returns the
    pattern; on a subnormal pattern the way back returns the zero of the
    same sign. *)
Theorem X5_half_conversion_roundtrip (h : Z) :
  0 <= h < 65536 ->
  float32ToFloat16Bits (float16BitsToFloat32 h)
  = if halfSubnormal h then Z.land h 0x8000 else h.
Proof.
  intros Hh. pose proof halfRoundTrip_all as Hall.
  rewrite forallb_forall in Hall.
  specialize (Hall h). unfold halfRoundTripOk, halfThroughFloat32 in Hall.
  apply Z.eqb_eq, Hall. apply zrange_In. lia.
Qed.

Lemma X5_half_conversion_roundtrip_witness :
  float32ToFloat16Bits (float16BitsToFloat32 0x3c00)
  = if halfSubnormal 0x3c00 then Z.land 0x3c00 0x8000 else 0x3c00.
Proof. apply (X5_half_conversion_roundtrip 0x3c00). lia. Defined.

Lemma lor_uint16 (a b : Z) :
  0 <= a < 65536 -> 0 <= b < 65536 -> 0 <= Z.lor a b < 65536.
Proof.
  intros Ha Hb. split; [apply Z.lor_nonneg; lia|].
  destruct (Z.eq_dec (Z.lor a b) 0) as [->|Hne]; [lia|].
  assert (0 < Z.lor a b) by (pose proof (Z.lor_nonneg a b); lia).
  change 65536 with (2 ^ 16). apply Z.log2_lt_pow2; [assumption|].
  rewrite Z.log2_lor by lia.
  assert (Z.log2 a < 16).
  { destruct (Z.eq_dec a 0) as [->|?]; [cbn; lia|].
    apply Z.log2_lt_pow2; [lia|]. change (2 ^ 16) with 65536. lia. }
  assert (Z.log2 b < 16).
  { destruct (Z.eq_dec b 0) as [->|?]; [cbn; lia|].
    apply Z.log2_lt_pow2; [lia|]. change (2 ^ 16) with 65536. lia. }
  lia.
Qed.

Lemma uint16_range (x : Z) : 0 <= uint16 x < 65536.
Proof. unfold uint16. apply Z.mod_pos_bound. lia. Qed.

Lemma land_3ff_range (x : Z) : 0 <= Z.land x 0x03FF < 65536.
Proof.
  change 0x03FF with (Z.ones 10). rewrite Z.land_ones by lia.
  pose proof (Z.mod_pos_bound x (2 ^ 10) ltac:(lia)). pow2. lia.
Qed.

(** [float32ToFloat16Bits] returns 16 bits. *)
Lemma float32ToFloat16Bits_range (f : Z) :
  0 <= float32ToFloat16Bits f < 65536.
Proof.
  unfold float32ToFloat16Bits. apply lor_uint16; [apply uint16_range|].
  repeat match goal with
  | |- context [if ?c then _ else _] => destruct c
  end;
  repeat first
    [ apply lor_uint16 | apply uint16_range | apply land_3ff_range
    | (vm_compute; split; congruence) ].
Qed.

Lemma SFeqb_zero_l (x : spec_float) (s : bool) :
  SFeqb x (S754_zero s) = true -> exists s', x = S754_zero s'.
Proof.
  destruct x as [s'| [] | |[] m e]; destruct s; cbn; try discriminate;
    intros _; now eexists.
Qed.

Lemma float64_eq_zero (g f : Z) :
  float64_eq g 0 = true -> float64_eq f 0 = true -> float64_eq g f = true.
Proof.
  unfold float64_eq. change (decode binary64 0) with (S754_zero false).
  intros Hg Hf. apply SFeqb_zero_l in Hg as [sg ->].
  apply SFeqb_zero_l in Hf as [sf ->]. reflexivity.
Qed.

(** X6: for a [float64] that is not a NaN, [AppendFloatCanonical] writes
    one of three items, a binary16, a binary32 or the binary64 itself, and
    the value written, widened to [float64], compares equal to the
    input: the narrowing never changes the value. *)
Theorem X6_canonical_float_keeps_value (b : bytes) (f : Z) :
  IsNaN f = false ->
  (exists h, AppendFloatCanonical b f = b ++ 0xf9 :: be_bytes 2 h
             /\ 0 <= h < 65536
             /\ float64_eq (widen16 h) f = true)
  \/ (exists s, AppendFloatCanonical b f = b ++ 0xfa :: be_bytes 4 s
                /\ float64_eq (toFloat64 s) f = true)
  \/ AppendFloatCanonical b f = b ++ 0xfb :: be_bytes 8 f.
Proof.
  intros Hnan. unfold AppendFloatCanonical.
  destruct (float64_eq f 0 && Signbit f) eqn:Hz.
  - apply andb_true_iff in Hz as [Hz _].
    change (IsNaN 0) with false. cbv iota.
    left. exists (float32ToFloat16Bits (toFloat32 0)).
    assert (float64_eq
              (toFloat64 (float16BitsToFloat32
                            (float32ToFloat16Bits (toFloat32 0)))) 0 = true)
      as Hw by (vm_compute; reflexivity).
    rewrite Hw. rewrite AppendFloat16_cells.
    split; [reflexivity|]. split; [apply float32ToFloat16Bits_range|].
    unfold widen16. now apply float64_eq_zero.
  - rewrite Hnan.
    destruct (float64_eq
                (toFloat64 (float16BitsToFloat32
                              (float32ToFloat16Bits (toFloat32 f)))) f)
      eqn:H16.
    + left. exists (float32ToFloat16Bits (toFloat32 f)).
      rewrite AppendFloat16_cells.
      split; [reflexivity|]. split; [apply float32ToFloat16Bits_range|].
      exact H16.
    + destruct (float64_eq (toFloat64 (toFloat32 f)) f) eqn:H32.
      * right. left. exists (toFloat32 f). rewrite AppendFloat32_cells.
        now split.
      * right. right. apply AppendFloat64_cells.
Qed.

Lemma X6_canonical_float_keeps_value_witness :
  (exists h, AppendFloatCanonical [] 0x3ff0000000000000
             = [] ++ 0xf9 :: be_bytes 2 h
             /\ 0 <= h < 65536
             /\ float64_eq (widen16 h) 0x3ff0000000000000 = true)
  \/ (exists s, AppendFloatCanonical [] 0x3ff0000000000000
                = [] ++ 0xfa :: be_bytes 4 s
                /\ float64_eq (toFloat64 s) 0x3ff0000000000000 = true)
  \/ AppendFloatCanonical [] 0x3ff0000000000000
     = [] ++ 0xfb :: be_bytes 8 0x3ff0000000000000.
Proof.
  apply (X6_canonical_float_keeps_value [] 0x3ff0000000000000). reflexivity.
Defined.

Lemma take_own_length (l rest : bytes) (n : nat) :
  n = length l -> take n (l ++ rest) = l.
Proof. intros ->. apply take_app_length. Qed.

(** X7: in strict mode [Reader.ReadFloat64] accepts a binary64 item
    exactly when [AppendFloatCanonical] writes the same nine bytes for its
    value; otherwise it returns [ErrNonCanonicalFloat] and does not
    advance.  A NaN is always refused, since its canonical form is a
    binary16. *)
Theorem X7_strict_float64 (r : Reader) (f : Z) (rest : bytes) :
  strict r = true -> 0 <= f < 2 ^ 64 ->
  buf r = AppendFloat64 [] f ++ rest ->
  Reader_ReadFloat64 r
  = (if bool_decide (AppendFloatCanonical [] f = AppendFloat64 [] f)
     then (Ok f, advance r rest)
     else (Err ErrNonCanonicalFloat, r))
  /\ (IsNaN f = true -> Reader_ReadFloat64 r = (Err ErrNonCanonicalFloat, r)).
Proof.
  intros Hs Hf Hb.
  assert (length (AppendFloat64 [] f) = 9%nat) as Hlen9.
  { rewrite AppendFloat64_cells. cbn [app length].
    now rewrite be_bytes_length. }
  assert (Reader_ReadFloat64 r
          = (if bool_decide (AppendFloatCanonical [] f = AppendFloat64 [] f)
             then (Ok f, advance r rest)
             else (Err ErrNonCanonicalFloat, r))) as Hmain.
  { unfold Reader_ReadFloat64.
    rewrite Hb, ReadFloat64Bytes_AppendFloat64 by assumption.
    unfold floatGate. rewrite Hs, Hb, length_app, Hlen9.
    replace (Z.of_nat (9 + length rest) - Z.of_nat (length rest)) with 9
      by lia.
    assert ((9 <? 0) || (9 >? Z.of_nat (9 + length rest)) = false) as ->.
    { cbn [orb Z.ltb Z.compare]. rewrite Z.gtb_ltb. apply Z.ltb_ge. lia. }
    rewrite (take_own_length (AppendFloat64 [] f) rest (Z.to_nat 9))
      by (rewrite Hlen9; reflexivity).
    destruct (bool_decide (AppendFloatCanonical [] f = AppendFloat64 [] f))
      eqn:Hc.
    - apply bool_decide_eq_true in Hc. rewrite Hc, Hlen9.
      rewrite bool_decide_eq_true_2 by reflexivity. reflexivity.
    - apply bool_decide_eq_false in Hc.
      rewrite (bool_decide_eq_false_2 (AppendFloat64 [] f
                                       = AppendFloatCanonical [] f))
        by congruence.
      cbn [negb]. now rewrite orb_true_r. }
  split; [exact Hmain|].
  intros Hnan. rewrite Hmain.
  rewrite bool_decide_eq_false_2; [reflexivity|].
  intros Heq. apply (f_equal (@length Z)) in Heq. rewrite Hlen9 in Heq.
  revert Heq. unfold AppendFloatCanonical.
  assert (float64_eq f 0 && Signbit f = false) as ->.
  { unfold float64_eq, IsNaN in *.
    destruct (decode binary64 f); try discriminate. reflexivity. }
  rewrite Hnan, AppendFloat16_cells. cbn [app length].
  rewrite be_bytes_length. discriminate.
Qed.

Lemma X7_strict_float64_witness :
  Reader_ReadFloat64
    (SetStrictDecode
       (NewReaderBytes (AppendFloat64 [] 0x3ff0000000000000 ++ [])) true)
  = (if bool_decide (AppendFloatCanonical [] 0x3ff0000000000000
                     = AppendFloat64 [] 0x3ff0000000000000)
     then (Ok 0x3ff0000000000000,
           advance (SetStrictDecode
                      (NewReaderBytes
                         (AppendFloat64 [] 0x3ff0000000000000 ++ [])) true)
                   [])
     else (Err ErrNonCanonicalFloat,
           SetStrictDecode
             (NewReaderBytes (AppendFloat64 [] 0x3ff0000000000000 ++ []))
             true))
  /\ (IsNaN 0x3ff0000000000000 = true ->
      Reader_ReadFloat64
        (SetStrictDecode
           (NewReaderBytes (AppendFloat64 [] 0x3ff0000000000000 ++ [])) true)
      = (Err ErrNonCanonicalFloat,
         SetStrictDecode
           (NewReaderBytes (AppendFloat64 [] 0x3ff0000000000000 ++ [])) true)).
Proof.
  apply (X7_strict_float64
           (SetStrictDecode
              (NewReaderBytes (AppendFloat64 [] 0x3ff0000000000000 ++ []))
              true)
           0x3ff0000000000000 []); [reflexivity|lia|reflexivity].
Defined.

(** ** Skip consumes a prefix *)

Lemma loop_invariant {S R : Type} (step : S -> flow S R)
  (P : S -> Prop) (Q : R -> Prop) :
  (forall s s', P s -> step s = Continue s' -> P s') ->
  (forall s r, P s -> step s = Return r -> Q r) ->
  forall fuel s r, P s -> loop step fuel s = Some r -> Q r.
Proof.
  intros Hc Hr fuel. induction fuel as [|fuel IH]; intros s r Hs;
    cbn [loop]; [discriminate|].
  destruct (step s) as [s'|r'|] eqn:E; try discriminate.
  - apply IH. now apply (Hc s).
  - intros [= <-]. now apply (Hr s).
Qed.

Lemma consumed_drop (b : bytes) (k : nat) :
  (0 < k <= length b)%nat -> consumed b (drop k b).
Proof. intros Hk. now exists k. Qed.

Lemma consumed_more (b o : bytes) (k : nat) :
  consumed b o -> (k <= length o)%nat -> consumed b (drop k o).
Proof.
  intros (n & Hn & ->) Hk. rewrite length_drop in Hk.
  exists (n + k)%nat. split; [lia|]. now rewrite drop_drop.
Qed.

Lemma consumed_trans (b o o' : bytes) :
  consumed b o -> consumed o o' -> consumed b o'.
Proof.
  intros Hbo (n & Hn & ->). apply consumed_more; [assumption|lia].
Qed.

Lemma consumed_shorter (b o : bytes) :
  consumed b o -> (length o < length b)%nat.
Proof. intros (n & Hn & ->). rewrite length_drop. lia. Qed.

Lemma readUintCore_consumed (b : bytes) (major u : Z) (o : bytes) :
  readUintCore b major = Ok (u, o) -> consumed b o.
Proof.
  unfold readUintCore. intros H. split_ifs H; try discriminate;
    inversion H; subst; apply consumed_drop; nat_tests; lia.
Qed.

Lemma skipChunkStep_consumed (b : bytes) (major : Z) (fuel : nat) (o : bytes)
  (r : result bytes) :
  consumed b o ->
  loop (skipChunkStep major) fuel o = Some r ->
  forall o', r = Ok o' -> consumed b o'.
Proof.
  intros Ho Hl.
  apply (loop_invariant (skipChunkStep major) (consumed b)
           (fun r => forall o', r = Ok o' -> consumed b o')) with fuel o;
    try assumption.
  - intros s s' Hs. unfold skipChunkStep.
    destruct (length s <? 1)%nat; [discriminate|].
    destruct (idx s 0 =? breakByte); [discriminate|].
    destruct (readUintCore s major) as [[sz q]|e] eqn:E; [|discriminate].
    destruct (Z.of_nat (length q) <? sz) eqn:Hsz; [discriminate|].
    intros [= <-]. apply Z.ltb_ge in Hsz.
    apply consumed_more; [|lia].
    apply (consumed_trans b s q Hs). now apply readUintCore_consumed in E.
  - intros s r' Hs. unfold skipChunkStep.
    destruct (length s <? 1)%nat eqn:Hlen.
    { intros [= <-] o' [=]. }
    destruct (idx s 0 =? breakByte).
    { intros [= <-] o' [= <-]. apply consumed_more; [assumption|].
      apply Nat.ltb_ge in Hlen. lia. }
    destruct (readUintCore s major) as [[sz q]|e] eqn:E.
    + destruct (Z.of_nat (length q) <? sz); [|discriminate].
      intros [= <-] o' [=].
    + intros [= <-] o' [=].
Qed.

Section Walker.

(** A walker of one item whose successful results are what is left after
    consuming a prefix. *)
Variable walk : bytes -> option (result bytes).
Hypothesis walk_consumed :
  forall p o, walk p = Some (Ok o) -> consumed p o.

Lemma indefItemStep_consumed (b : bytes) (pairs : bool) (fuel : nat)
  (o : bytes) (r : result bytes) :
  consumed b o ->
  loop (indefItemStep walk pairs) fuel o = Some r ->
  forall o', r = Ok o' -> consumed b o'.
Proof.
  intros Ho Hl.
  apply (loop_invariant (indefItemStep walk pairs) (consumed b)
           (fun r => forall o', r = Ok o' -> consumed b o')) with fuel o;
    try assumption.
  - intros s s' Hs. unfold indefItemStep.
    destruct (length s <? 1)%nat; [discriminate|].
    destruct (idx s 0 =? breakByte); [discriminate|].
    destruct (walk s) as [[o1|e]|] eqn:E1; try discriminate.
    apply walk_consumed in E1.
    destruct pairs.
    + destruct (walk o1) as [[o2|e]|] eqn:E2; try discriminate.
      apply walk_consumed in E2. intros [= <-].
      eauto using consumed_trans.
    + intros [= <-]. eauto using consumed_trans.
  - intros s r' Hs. unfold indefItemStep.
    destruct (length s <? 1)%nat eqn:Hlen.
    { intros [= <-] o' [=]. }
    destruct (idx s 0 =? breakByte).
    { intros [= <-] o' [= <-]. apply consumed_more; [assumption|].
      apply Nat.ltb_ge in Hlen. lia. }
    destruct (walk s) as [[o1|e]|]; try discriminate.
    + destruct pairs; [|discriminate].
      destruct (walk o1) as [[o2|e]|]; try discriminate.
      intros [= <-] o' [=].
    + intros [= <-] o' [=].
Qed.

Lemma defItemStep_consumed (b : bytes) (pairs : bool) (sz : Z) (fuel : nat)
  (i : Z) (o : bytes) (r : result bytes) :
  consumed b o ->
  loop (defItemStep walk pairs sz) fuel (i, o) = Some r ->
  forall o', r = Ok o' -> consumed b o'.
Proof.
  intros Ho Hl.
  apply (loop_invariant (defItemStep walk pairs sz)
           (fun st => consumed b st.2)
           (fun r => forall o', r = Ok o' -> consumed b o')) with fuel (i, o);
    try assumption.
  - intros [j s] [j' s'] Hs. cbn [snd] in *. unfold defItemStep.
    destruct (j <? sz); [|discriminate].
    destruct (walk s) as [[o1|e]|] eqn:E1; try discriminate.
    apply walk_consumed in E1.
    destruct pairs.
    + destruct (walk o1) as [[o2|e]|] eqn:E2; try discriminate.
      apply walk_consumed in E2. intros [= <- <-].
      eauto using consumed_trans.
    + intros [= <- <-]. eauto using consumed_trans.
  - intros [j s] r' Hs. cbn [snd] in *. unfold defItemStep.
    destruct (j <? sz).
    + destruct (walk s) as [[o1|e]|]; try discriminate.
      * destruct pairs; [|discriminate].
        destruct (walk o1) as [[o2|e]|]; try discriminate.
        intros [= <-] o' [=].
      * intros [= <-] o' [=].
    + intros [= <-] o' [= <-]. assumption.
Qed.

End Walker.

Lemma skip_consumed (fuel : nat) :
  forall (b : bytes) (depth : Z) (o : bytes),
  skip fuel b depth = Some (Ok o) -> consumed b o.
Proof.
  induction fuel as [|fuel IH]; intros b depth o; [discriminate|].
  cbn [skip].
  destruct (depth >? recursionLimit); [discriminate|].
  destruct (length b <? 1)%nat eqn:Hlen; [discriminate|].
  apply Nat.ltb_ge in Hlen.
  assert (consumed b (drop 1 b)) as Hone by (apply consumed_drop; lia).
  assert (forall p o', skip fuel p (depth + 1) = Some (Ok o') -> consumed p o')
    as Hwalk by (intros p o'; apply IH).
  destruct ((getMajorType (idx b 0) =? majorTypeUint)
            || (getMajorType (idx b 0) =? majorTypeNegInt)
            || (getMajorType (idx b 0) =? majorTypeTag)).
  { destruct (readUintCore b (getMajorType (idx b 0))) as [[u q]|e] eqn:E;
      [|discriminate].
    apply readUintCore_consumed in E.
    destruct (getMajorType (idx b 0) =? majorTypeTag).
    - intros H. apply IH in H. eauto using consumed_trans.
    - now intros [= <-]. }
  destruct ((getMajorType (idx b 0) =? majorTypeBytes)
            || (getMajorType (idx b 0) =? majorTypeText)).
  { destruct (getAddInfo (idx b 0) =? addInfoIndefinite).
    - intros H. now apply (skipChunkStep_consumed b _ _ _ _ Hone H).
    - destruct (readUintCore b (getMajorType (idx b 0))) as [[sz q]|e] eqn:E;
        [|discriminate].
      apply readUintCore_consumed in E.
      destruct (Z.of_nat (length q) <? sz) eqn:Hsz; [discriminate|].
      apply Z.ltb_ge in Hsz. intros [= <-].
      apply consumed_more; [assumption|lia]. }
  destruct (getMajorType (idx b 0) =? majorTypeArray).
  { destruct (getAddInfo (idx b 0) =? addInfoIndefinite).
    - intros H. now apply (indefItemStep_consumed _ Hwalk b _ _ _ _ Hone H).
    - destruct (readUintCore b (getMajorType (idx b 0))) as [[sz q]|e] eqn:E;
        [|discriminate].
      apply readUintCore_consumed in E. intros H.
      now apply (defItemStep_consumed _ Hwalk b _ _ _ _ _ _ E H). }
  destruct (getMajorType (idx b 0) =? majorTypeMap).
  { destruct (getAddInfo (idx b 0) =? addInfoIndefinite).
    - intros H. now apply (indefItemStep_consumed _ Hwalk b _ _ _ _ Hone H).
    - destruct (readUintCore b (getMajorType (idx b 0))) as [[sz q]|e] eqn:E;
        [|discriminate].
      apply readUintCore_consumed in E. intros H.
      now apply (defItemStep_consumed _ Hwalk b _ _ _ _ _ _ E H). }
  destruct (getMajorType (idx b 0) =? majorTypeSimple); [|discriminate].
  unfold skipSimple. intros H. injection H as H.
  split_ifs H; try discriminate; injection H as <-;
    apply consumed_drop; nat_tests; lia.
Qed.

Lemma Skip_consumed (b o : bytes) : Skip b = Ok o -> consumed b o.
Proof.
  unfold Skip, run. destruct (skip (S (length b)) b 0) as [[o'|e]|] eqn:E;
    try discriminate.
  intros [= <-]. now apply skip_consumed in E.
Qed.

(** X8: when [Skip] succeeds, what it returns is the input with a
    non-empty prefix removed: at least one byte is consumed, and the rest
    is the tail of the input, never other bytes. *)
Theorem X8_skip_returns_a_proper_suffix (b o : bytes) :
  Skip b = Ok o ->
  exists n, (0 < n <= length b)%nat /\ o = drop n b
            /\ b = take n b ++ o.
Proof.
  intros H. apply Skip_consumed in H as (n & Hn & ->).
  exists n. split; [assumption|]. split; [reflexivity|].
  now rewrite take_drop.
Qed.

Lemma X8_skip_returns_a_proper_suffix_witness :
  exists n, (0 < n <= length [0x82; 0x01; 0x61; 0x78; 0xf5])%nat
            /\ [0xf5] = drop n [0x82; 0x01; 0x61; 0x78; 0xf5]
            /\ [0x82; 0x01; 0x61; 0x78; 0xf5]
               = take n [0x82; 0x01; 0x61; 0x78; 0xf5] ++ [0xf5].
Proof.
  apply (X8_skip_returns_a_proper_suffix [0x82; 0x01; 0x61; 0x78; 0xf5] [0xf5]).
  reflexivity.
Defined.

(** ** CBOR sequences *)

Lemma splitStep_invariant (b : bytes) (fuel : nat) (p : bytes)
  (out : list bytes) (r : list bytes * option error) :
  concat out ++ p = b -> Forall (fun it => it <> []) out ->
  loop splitStep fuel (p, out) = Some r ->
  Forall (fun it => it <> []) r.1
  /\ match r.2 with
     | None => concat r.1 = b
     | Some e => exists rest, b = concat r.1 ++ rest /\ Skip rest = Err e
     end.
Proof.
  intros Hcat Hne Hl.
  apply (loop_invariant splitStep
           (fun st => concat st.2 ++ st.1 = b
                      /\ Forall (fun it => it <> []) st.2)
           (fun r => Forall (fun it => it <> []) r.1
              /\ match r.2 with
                 | None => concat r.1 = b
                 | Some e => exists rest, b = concat r.1 ++ rest
                                          /\ Skip rest = Err e
                 end))
    with fuel (p, out); [| |now split|assumption].
  - intros [q acc] [q' acc'] [Hq Hacc]. cbn [fst snd] in *.
    unfold splitStep. destruct (0 <? length q)%nat; [|discriminate].
    destruct (Skip q) as [rest|e] eqn:E; [|discriminate].
    intros [= <- <-]. apply Skip_consumed in E as (n & Hn & ->).
    rewrite length_drop.
    replace (length q - (length q - n))%nat with n by lia.
    split.
    + rewrite concat_app. cbn [concat]. rewrite app_nil_r, <- app_assoc.
      now rewrite take_drop.
    + apply Forall_app. split; [assumption|]. apply Forall_singleton.
      intros Hnil. apply (f_equal (@length Z)) in Hnil.
      rewrite length_take in Hnil. cbn [length] in Hnil. lia.
  - intros [q acc] r' [Hq Hacc]. cbn [fst snd] in *.
    unfold splitStep. destruct (0 <? length q)%nat eqn:Hlen.
    + destruct (Skip q) as [rest|e] eqn:E; [discriminate|].
      intros [= <-]. cbn [fst snd]. split; [assumption|].
      exists q. now split.
    + intros [= <-]. cbn [fst snd]. apply Nat.ltb_ge in Hlen.
      assert (q = []) as -> by (destruct q; [reflexivity|cbn in Hlen; lia]).
      rewrite app_nil_r in Hq. now split.
Qed.

Lemma splitStep_total (fuel : nat) (p : bytes) (out : list bytes) :
  (length p < fuel)%nat -> exists r, loop splitStep fuel (p, out) = Some r.
Proof.
  intros Hfuel.
  apply (loop_total splitStep (fun st => length st.1)); [| |exact Hfuel].
  - intros [q acc]. unfold splitStep.
    destruct (0 <? length q)%nat; [|discriminate].
    destruct (Skip q); discriminate.
  - intros [q acc] [q' acc']. cbn [fst]. unfold splitStep.
    destruct (0 <? length q)%nat; [|discriminate].
    destruct (Skip q) as [rest|e] eqn:E; [|discriminate].
    intros [= <- <-]. now apply Skip_consumed, consumed_shorter in E.
Qed.

(** X9: [SplitSequenceBytes] returns on every input, and the items it
    returns are not empty and are consecutive pieces of the input from its
    start.  With a nil error they make up the whole input: nothing is lost
    and nothing is added.  With an error they are the items before the
    one [Skip] refused, and the error is the one [Skip] gave on what
    follows them. *)
Theorem X9_split_sequence_partitions (b : bytes) :
  exists items err,
    SplitSequenceBytes b = Some (items, err)
    /\ Forall (fun it => it <> []) items
    /\ match err with
       | None => concat items = b
       | Some e => exists rest, b = concat items ++ rest /\ Skip rest = Err e
       end.
Proof.
  unfold SplitSequenceBytes.
  destruct (splitStep_total (S (length b)) b []) as [[items err] E]; [lia|].
  exists items, err. split; [assumption|].
  apply (splitStep_invariant b (S (length b)) b [] (items, err));
    [reflexivity|constructor|exact E].
Qed.

Lemma AppendSequence_concat (b : bytes) (items : list bytes) :
  AppendSequence b items = b ++ concat items.
Proof.
  unfold AppendSequence. revert b.
  induction items as [|it items IH]; intros b; cbn [fold_left concat].
  - now rewrite app_nil_r.
  - now rewrite IH, app_assoc.
Qed.

Lemma split_items (items : list bytes) :
  Forall (fun it => forall rest, Skip (it ++ rest) = Ok rest) items ->
  forall fuel out,
  (length (concat items) < fuel)%nat ->
  loop splitStep fuel (concat items, out) = Some (out ++ items, None).
Proof.
  induction 1 as [|it items Hit _ IH]; intros fuel out Hfuel.
  - destruct fuel; [lia|]. cbn. now rewrite app_nil_r.
  - destruct fuel; [lia|]. cbn [concat loop]. unfold splitStep at 1.
    pose proof (Hit (concat items)) as Hskip.
    pose proof (Skip_consumed _ _ Hskip) as Hc.
    apply consumed_shorter in Hc. rewrite length_app in Hc.
    assert ((0 <? length (it ++ concat items))%nat = true) as ->.
    { apply Nat.ltb_lt. rewrite length_app. lia. }
    rewrite Hskip.
    replace (length (it ++ concat items) - length (concat items))%nat
      with (length it) by (rewrite length_app; lia).
    rewrite take_app_length.
    rewrite IH by (cbn [concat] in Hfuel; rewrite length_app in Hfuel; lia).
    now rewrite <- app_assoc.
Qed.

(** X10: [SplitSequenceBytes] inverts [AppendSequence]: when every item is
    a complete data item ([Skip] steps exactly over it, whatever follows),
    splitting the sequence built from the items gives the items back. *)
Theorem X10_split_inverts_append_sequence (items : list bytes) :
  Forall (fun it => forall rest, Skip (it ++ rest) = Ok rest) items ->
  SplitSequenceBytes (AppendSequence [] items) = Some (items, None).
Proof.
  intros Hitems. rewrite AppendSequence_concat. cbn [app].
  unfold SplitSequenceBytes. now rewrite (split_items items Hitems) by lia.
Qed.

(** ** Skip over what the encoder writes *)

Lemma Skip_integer_header (major : Z) (w : nat) (n : Z) (rest : bytes) :
  major = majorTypeUint \/ major = majorTypeNegInt -> fitsWidth w n ->
  Skip (lengthHeader major w n ++ rest) = Ok rest.
Proof.
  intros Hmaj Hf.
  assert (0 <= major <= 7) as Hm
    by (destruct Hmaj as [ -> | -> ]; unfold majorTypeUint, majorTypeNegInt; lia).
  unfold Skip. cbn [skip]. change (0 >? recursionLimit) with false. cbv iota.
  rewrite header_not_short.
  destruct (lengthHeader_lead major w n rest Hm Hf) as (_ & -> & _).
  rewrite readUintCore_header by assumption.
  destruct Hmaj as [ -> | -> ]; reflexivity.
Qed.

Lemma Skip_string_header (major : Z) (w : nat) (data rest : bytes) :
  major = majorTypeBytes \/ major = majorTypeText ->
  fitsWidth w (Z.of_nat (length data)) ->
  Skip (lengthHeader major w (Z.of_nat (length data)) ++ data ++ rest)
  = Ok rest.
Proof.
  intros Hmaj Hf.
  assert (0 <= major <= 7) as Hm
    by (destruct Hmaj as [ -> | -> ]; unfold majorTypeBytes, majorTypeText; lia).
  unfold Skip. cbn [skip]. change (0 >? recursionLimit) with false. cbv iota.
  rewrite header_not_short.
  destruct (lengthHeader_lead major w _ (data ++ rest) Hm Hf) as (_ & -> & ->).
  rewrite followInfo_not_indefinite by assumption.
  rewrite readUintCore_header by assumption.
  assert ((Z.of_nat (length (data ++ rest)) <? Z.of_nat (length data)) = false)
    as -> by (apply Z.ltb_ge; rewrite length_app; lia).
  rewrite Nat2Z.id, drop_app_length.
  destruct Hmaj as [ -> | -> ]; reflexivity.
Qed.

Lemma Skip_AppendInt64 (v : Z) (rest : bytes) :
  - 2 ^ 63 <= v < 2 ^ 63 -> Skip (AppendInt64 [] v ++ rest) = Ok rest.
Proof.
  intros Hv. rewrite AppendInt64_canonical by assumption. cbn [app]. pow2.
  destruct (v <? 0) eqn:Hneg.
  - apply Z.ltb_lt in Hneg.
    destruct (canonicalHeader_lengthHeader majorTypeNegInt (-1 - v))
      as (-> & Hf & _); [pow2; lia|].
    apply Skip_integer_header; [now right|assumption].
  - apply Z.ltb_ge in Hneg.
    destruct (canonicalHeader_lengthHeader majorTypeUint v)
      as (-> & Hf & _); [pow2; lia|].
    apply Skip_integer_header; [now left|assumption].
Qed.

Lemma Skip_appendData (major : Z) (data rest : bytes) :
  major = majorTypeBytes \/ major = majorTypeText ->
  Z.of_nat (length data) <= MaxInt64 ->
  Skip (appendData major [] data ++ rest) = Ok rest.
Proof.
  intros Hmaj Hlen. rewrite appendData_header by assumption.
  rewrite <- app_assoc. apply Skip_string_header; [assumption|].
  apply fits_canonical. unfold MaxInt64 in Hlen. pow2. lia.
Qed.

(** X11: [Skip] steps exactly over what the encoder wrote: after an
    integer written by [AppendInt64], a byte string written by
    [AppendBytes] or a text string written by [AppendString] it returns
    the bytes that follow, whatever they are. *)
Theorem X11_skip_steps_over_encoded_items (v : Z) (data rest : bytes) :
  - 2 ^ 63 <= v < 2 ^ 63 ->
  Z.of_nat (length data) <= MaxInt64 ->
  Skip (AppendInt64 [] v ++ rest) = Ok rest
  /\ Skip (AppendBytes [] data ++ rest) = Ok rest
  /\ Skip (AppendString [] data ++ rest) = Ok rest.
Proof.
  intros Hv Hlen. split; [now apply Skip_AppendInt64|].
  split; apply Skip_appendData; auto.
Qed.

Lemma X11_skip_steps_over_encoded_items_witness :
  Skip (AppendInt64 [] (-500) ++ [0xff]) = Ok [0xff]
  /\ Skip (AppendBytes [] [1; 2; 3] ++ [0xff]) = Ok [0xff]
  /\ Skip (AppendString [] [1; 2; 3] ++ [0xff]) = Ok [0xff].
Proof.
  apply (X11_skip_steps_over_encoded_items (-500) [1; 2; 3] [0xff]).
  - lia.
  - vm_compute. discriminate.
Defined.

Lemma X10_split_inverts_append_sequence_witness :
  SplitSequenceBytes
    (AppendSequence [] [AppendString [] [0x68; 0x69]; AppendInt64 [] 42])
  = Some ([AppendString [] [0x68; 0x69]; AppendInt64 [] 42], None).
Proof.
  apply (X10_split_inverts_append_sequence
           [AppendString [] [0x68; 0x69]; AppendInt64 [] 42]).
  constructor; [|constructor; [|constructor]].
  - intros rest. apply Skip_appendData; [now right|]. vm_compute. discriminate.
  - intros rest. apply Skip_AppendInt64. lia.
Defined.

(** ** The stateful reader *)

Ltac shorter_by_cases H :=
  split_ifs H; try discriminate; inversion H; subst;
  rewrite ?length_drop; nat_tests; lia.

Lemma ReadArrayHeaderBytes_shorter (b : bytes) (sz : Z) (o : bytes) :
  ReadArrayHeaderBytes b = Ok (sz, o) -> (length o < length b)%nat.
Proof. unfold ReadArrayHeaderBytes. intros H. shorter_by_cases H. Qed.

Lemma ReadMapHeaderBytes_shorter (b : bytes) (sz : Z) (o : bytes) :
  ReadMapHeaderBytes b = Ok (sz, o) -> (length o < length b)%nat.
Proof. unfold ReadMapHeaderBytes. intros H. shorter_by_cases H. Qed.

Lemma ReadArrayStartBytes_shorter (b : bytes) (sz : Z) (i : bool) (o : bytes) :
  ReadArrayStartBytes b = Ok (sz, i, o) -> (length o < length b)%nat.
Proof.
  unfold ReadArrayStartBytes.
  destruct (length b <? 1)%nat eqn:Hlen; [discriminate|].
  destruct (idx b 0 =? makeByte majorTypeArray addInfoIndefinite).
  - intros [= <- <- <-]. rewrite length_drop. nat_tests. lia.
  - destruct (ReadArrayHeaderBytes b) as [[s q]|e] eqn:E; [|discriminate].
    intros [= <- <- <-]. now apply ReadArrayHeaderBytes_shorter in E.
Qed.

Lemma ReadInt64Bytes_shorter (b : bytes) (v : Z) (o : bytes) :
  ReadInt64Bytes b = Ok (v, o) -> (length o < length b)%nat.
Proof. unfold ReadInt64Bytes. intros H. shorter_by_cases H. Qed.

Lemma ReadFloat64Bytes_shorter (b : bytes) (v : Z) (o : bytes) :
  ReadFloat64Bytes b = Ok (v, o) -> (length o < length b)%nat.
Proof. unfold ReadFloat64Bytes. intros H. shorter_by_cases H. Qed.

Lemma ReadFloat32Bytes_shorter (b : bytes) (v : Z) (o : bytes) :
  ReadFloat32Bytes b = Ok (v, o) -> (length o < length b)%nat.
Proof. unfold ReadFloat32Bytes. intros H. shorter_by_cases H. Qed.

Lemma ReadBoolBytes_shorter (b : bytes) (v : bool) (o : bytes) :
  ReadBoolBytes b = Ok (v, o) -> (length o < length b)%nat.
Proof. unfold ReadBoolBytes. intros H. shorter_by_cases H. Qed.

Lemma bytesBody_shorter (b : bytes) (h : nat) (sz : Z) (v o : bytes) :
  (0 < h <= length b)%nat ->
  bytesBody b h sz = Ok (v, o) -> (length o < length b)%nat.
Proof.
  intros Hh. unfold bytesBody. intros H.
  split_ifs H; try discriminate; inversion H; subst;
    rewrite length_drop; lia.
Qed.

Lemma ReadBytesBytes_shorter (b v o : bytes) :
  ReadBytesBytes b = Some (Ok (v, o)) -> (length o < length b)%nat.
Proof.
  unfold ReadBytesBytes.
  destruct (length b <? 1)%nat eqn:Hlen; [discriminate|].
  apply Nat.ltb_ge in Hlen.
  destruct (idx b 0 =? makeByte majorTypeBytes addInfoIndefinite).
  - intros Hl.
    refine (loop_invariant bytesChunkStep
             (fun st => (length st.2 < length b)%nat)
             (fun r => forall v o, r = Ok (v, o) -> (length o < length b)%nat)
             _ _ (S (length b)) ([], drop 1 b) (Ok (v, o)) _ Hl v o eq_refl).
    + intros st st' Hst Hstep. apply bytesChunkStep_shorter in Hstep. lia.
    + intros [acc p] r Hst. cbn [snd] in Hst. unfold bytesChunkStep.
      destruct (length p <? 1)%nat. { intros [= <-] ? ? [=]. }
      destruct (idx p 0 =? breakByte).
      { intros [= <-] ? ? [= <- <-]. rewrite length_drop. lia. }
      destruct (readUintCore p majorTypeBytes) as [[sz q]|e].
      * destruct (Z.of_nat (length q) <? sz); [|discriminate].
        intros [= <-] ? ? [=].
      * intros [= <-] ? ? [=].
    + cbn [snd]. rewrite length_drop. lia.
  - intros [= H]. revert H.
    repeat match goal with
    | |- context [if ?c then _ else _] => destruct c eqn:?
    end; try discriminate;
    try (intros H; apply bytesBody_shorter in H; [exact H|nat_tests; lia]).
    destruct (readUintCore b majorTypeBytes) as [[sz q]|e] eqn:E;
      [|discriminate].
    apply readUintCore_shorter in E. intros H.
    split_ifs H; try discriminate; inversion H; subst;
      rewrite ?length_drop; lia.
Qed.

Lemma ReadStringBytes_shorter (valid : bytes -> bool) (onDecode : bool)
  (b v o : bytes) :
  ReadStringBytes valid onDecode b = Some (Ok (v, o)) ->
  (length o < length b)%nat.
Proof.
  unfold ReadStringBytes.
  destruct (length b <? 1)%nat eqn:Hlen; [discriminate|].
  apply Nat.ltb_ge in Hlen.
  destruct (idx b 0 =? makeByte majorTypeText addInfoIndefinite).
  - intros Hl.
    refine (loop_invariant (textChunkStep valid onDecode)
             (fun st => (length st.2 < length b)%nat)
             (fun r => forall v o, r = Ok (v, o) -> (length o < length b)%nat)
             _ _ (S (length b)) ([], drop 1 b) (Ok (v, o)) _ Hl v o eq_refl).
    + intros st st' Hst Hstep.
      apply (textChunkStep_shorter valid onDecode) in Hstep. lia.
    + intros [acc p] r Hst. cbn [snd] in Hst. unfold textChunkStep.
      destruct (length p <? 1)%nat. { intros [= <-] ? ? [=]. }
      destruct (idx p 0 =? breakByte).
      { destruct (onDecode && negb (valid acc)).
        - intros [= <-] ? ? [=].
        - intros [= <-] ? ? [= <- <-]. rewrite length_drop. lia. }
      destruct (ReadStringZC p) as [[chunk q]|e]; [discriminate|].
      intros [= <-] ? ? [=].
    + cbn [snd]. rewrite length_drop. lia.
  - intros [= H]. revert H. destruct (ReadStringZC b) as [[s q]|e] eqn:E; [|discriminate].
    apply ReadStringZC_shorter in E.
    destruct (onDecode && negb (valid s)); [discriminate|].
    now intros [= <- <-].
Qed.

Lemma advance_settings (r : Reader) (rest : bytes) :
  (length rest < length (buf r))%nat ->
  strict (advance r rest) = strict r
  /\ deterministic (advance r rest) = deterministic r
  /\ maxContainer (advance r rest) = maxContainer r
  /\ (length (buf (advance r rest)) < length (buf r))%nat.
Proof. intros H. now repeat split. Qed.

Lemma ReadIntBytes_shorter (b : bytes) (v : Z) (o : bytes) :
  ReadIntBytes b = Ok (v, o) -> (length o < length b)%nat.
Proof.
  unfold ReadIntBytes.
  destruct (ReadInt64Bytes b) as [[i q]|e] eqn:E; [|discriminate].
  intros [= <- <-]. now apply ReadInt64Bytes_shorter in E.
Qed.

Lemma ReadUintBytes_shorter (b : bytes) (v : Z) (o : bytes) :
  ReadUintBytes b = Ok (v, o) -> (length o < length b)%nat.
Proof.
  unfold ReadUintBytes.
  destruct (readUintCore b majorTypeUint) as [[i q]|e] eqn:E; [|discriminate].
  intros [= <- <-]. now apply readUintCore_shorter in E.
Qed.

Lemma ReadUint64Bytes_shorter (b : bytes) (v : Z) (o : bytes) :
  ReadUint64Bytes b = Ok (v, o) -> (length o < length b)%nat.
Proof. apply readUintCore_shorter. Qed.

Lemma run_Ok {A : Type} (o : option (result A)) (x : A) :
  run o = Ok x -> o = Some (Ok x).
Proof. destruct o as [[y|e]|]; cbn; congruence. Qed.

Lemma Skip_shorter (b o : bytes) :
  Skip b = Ok o -> (length o < length b)%nat.
Proof. intros H. apply consumed_shorter. now apply Skip_consumed. Qed.

Ltac transact :=
  intros r;
  repeat (match goal with
          | |- context [match ?x with _ => _ end] =>
            lazymatch x with
            | context [match _ with _ => _ end] => fail
            | _ => destruct x eqn:?
            end
          end; cbn [isErr]);
  try reflexivity; cbn [advance strict deterministic maxContainer buf];
  repeat split; try congruence;
  repeat match goal with
  | H : run _ = Ok _ |- _ => apply run_Ok in H
  end;
  eauto using ReadArrayHeaderBytes_shorter, ReadMapHeaderBytes_shorter,
    ReadArrayStartBytes_shorter, ReadInt64Bytes_shorter, ReadIntBytes_shorter,
    ReadUint64Bytes_shorter, ReadUintBytes_shorter, ReadBytesBytes_shorter,
    ReadStringBytes_shorter, ReadFloat32Bytes_shorter,
    ReadFloat64Bytes_shorter, ReadBoolBytes_shorter, Skip_shorter.

(** X12: every reading method of [Reader] is all or nothing.  A call that
    returns an error leaves the reader exactly as it was (buffer and
    settings); a call that succeeds keeps the strict flag, the deterministic
    flag and the size ceiling, and leaves strictly fewer unread bytes. *)
Theorem X12_reader_methods_are_transactional
  (valid : bytes -> bool) (onDecode : bool) :
  transactional isErr Reader_ReadArrayHeader
  /\ transactional isErr Reader_ReadArrayStart
  /\ transactional isErr Reader_ReadMapHeader
  /\ transactional isErr Reader_ReadInt64
  /\ transactional isErr Reader_ReadInt
  /\ transactional isErr Reader_ReadUint64
  /\ transactional isErr Reader_ReadUint
  /\ transactional isErr Reader_ReadBytes
  /\ transactional isErr (Reader_ReadString valid onDecode)
  /\ transactional isErr Reader_ReadFloat32
  /\ transactional isErr Reader_ReadFloat64
  /\ transactional isErr Reader_ReadBool
  /\ transactional
       (fun e : option error => match e with Some _ => true | None => false end)
       Reader_Skip.
Proof.
  repeat split.
  - unfold Reader_ReadArrayHeader. transact.
  - unfold Reader_ReadArrayStart. transact.
  - unfold Reader_ReadMapHeader. transact.
  - unfold Reader_ReadInt64. transact.
  - unfold Reader_ReadInt. transact.
  - unfold Reader_ReadUint64. transact.
  - unfold Reader_ReadUint. transact.
  - unfold Reader_ReadBytes. transact.
  - unfold Reader_ReadString. transact.
  - unfold Reader_ReadFloat32. transact.
  - unfold Reader_ReadFloat64. transact.
  - unfold Reader_ReadBool. transact.
  - unfold Reader_Skip. intros r.
    destruct (Skip (buf r)) as [rest|e] eqn:E; [|reflexivity].
    apply advance_settings. now apply Skip_shorter.
Qed.

(** ** The strictest reader on what the encoder writes *)

Lemma gates_open (s d : bool) (major : Z) (n : Z) (rest : bytes) :
  0 <= major <= 7 -> 0 <= n < 2 ^ 64 ->
  let b := lengthHeader major (canonicalWidth n - 1) n ++ rest in
  (length b <? 1)%nat = false
  /\ getMajorType (idx b 0) = major
  /\ (if s then strictGate (isNonCanonicalLength b major) else None) = None
  /\ d && (getMajorType (idx b 0) =? major)
       && (getAddInfo (idx b 0) =? addInfoIndefinite) = false.
Proof.
  intros Hm Hn b. pose proof (fits_canonical n Hn) as Hf.
  destruct (lengthHeader_lead major _ n rest Hm Hf) as (_ & Hmaj & Hai).
  split; [apply header_not_short|]. split; [assumption|]. split.
  - apply strictGate_canonical; [assumption..|]. right.
    now apply canonical_follow.
  - subst b. rewrite Hai, followInfo_not_indefinite by assumption.
    apply andb_false_r.
Qed.

(** X13: a reader in any mode, the strict and the deterministic one
    included, reads back what the encoder wrote and stops right after it:
    a container header within the ceiling, a signed integer, a byte string
    and a text string (valid UTF-8 when decoding validates). *)
Theorem X13_reader_accepts_encoder_output
  (valid : bytes -> bool) (onDecode s d : bool) (L n v : Z)
  (data rest : bytes) :
  0 <= n <= MaxUint32 -> L <= 0 \/ n <= L ->
  - 2 ^ 63 <= v < 2 ^ 63 ->
  Z.of_nat (length data) + Z.of_nat (length rest) + 9 <= MaxInt64 ->
  onDecode = false \/ valid data = true ->
  Reader_ReadArrayHeader (mkReader (AppendArrayHeader [] n ++ rest) s d L)
  = (Ok n, mkReader rest s d L)
  /\ Reader_ReadMapHeader (mkReader (AppendMapHeader [] n ++ rest) s d L)
     = (Ok n, mkReader rest s d L)
  /\ Reader_ReadInt64 (mkReader (AppendInt64 [] v ++ rest) s d L)
     = (Ok v, mkReader rest s d L)
  /\ Reader_ReadBytes (mkReader (AppendBytes [] data ++ rest) s d L)
     = (Ok data, mkReader rest s d L)
  /\ Reader_ReadString valid onDecode
       (mkReader (AppendString [] data ++ rest) s d L)
     = (Ok data, mkReader rest s d L).
Proof.
  intros Hn HL Hv Hlen Hutf.
  assert (0 <= n < 2 ^ 64) as Hn64 by (unfold MaxUint32 in Hn; pow2; lia).
  assert ((L >? 0) && (n >? L) = false) as Hceil.
  { apply andb_false_iff. destruct HL; [left|right]; lia. }
  repeat apply conj.
  - rewrite AppendArrayHeader_header by assumption. cbn [app].
    destruct (gates_open s d majorTypeArray n rest) as (H1 & _ & H2 & _);
      [unfold majorTypeArray; lia|assumption|].
    unfold Reader_ReadArrayHeader, isNonCanonicalArrayLength.
    cbn [buf strict deterministic maxContainer]. rewrite H1, H2.
    rewrite ReadArrayHeaderBytes_header
      by (try apply fits_canonical; try assumption; lia).
    now rewrite Hceil.
  - rewrite AppendMapHeader_header by assumption. cbn [app].
    destruct (gates_open s d majorTypeMap n rest) as (H1 & _ & H2 & _);
      [unfold majorTypeMap; lia|assumption|].
    unfold Reader_ReadMapHeader, isNonCanonicalMapLength.
    cbn [buf strict deterministic maxContainer]. rewrite H1, H2.
    rewrite ReadMapHeaderBytes_header
      by (try apply fits_canonical; try assumption; lia).
    now rewrite Hceil.
  - rewrite AppendInt64_canonical by assumption. cbn [app].
    unfold Reader_ReadInt64. cbn [buf strict deterministic maxContainer].
    destruct (v <? 0) eqn:Hneg.
    + apply Z.ltb_lt in Hneg.
      assert (0 <= -1 - v < 2 ^ 64) as Hu by (pow2; lia).
      destruct (canonicalHeader_lengthHeader majorTypeNegInt (-1 - v) Hu)
        as (-> & Hf & _).
      destruct (gates_open s d majorTypeNegInt (-1 - v) rest)
        as (H1 & Hmaj & H2 & _); [unfold majorTypeNegInt; lia|assumption|].
      rewrite H1, Hmaj.
      change ((majorTypeNegInt =? majorTypeUint)
              || (majorTypeNegInt =? majorTypeNegInt)) with true.
      rewrite andb_true_r, H2.
      destruct (ReadInt64Bytes_header _ (-1 - v) rest Hf) as [_ ->];
        [unfold MaxInt64; pow2; lia|].
      do 3 f_equal. lia.
    + apply Z.ltb_ge in Hneg.
      assert (0 <= v < 2 ^ 64) as Hu by (pow2; lia).
      destruct (canonicalHeader_lengthHeader majorTypeUint v Hu)
        as (-> & Hf & _).
      destruct (gates_open s d majorTypeUint v rest)
        as (H1 & Hmaj & H2 & _); [unfold majorTypeUint; lia|assumption|].
      rewrite H1, Hmaj.
      change ((majorTypeUint =? majorTypeUint)
              || (majorTypeUint =? majorTypeNegInt)) with true.
      rewrite andb_true_r, H2.
      destruct (ReadInt64Bytes_header _ v rest Hf) as [-> _];
        [unfold MaxInt64; pow2; lia|].
      reflexivity.
  - pose proof (ReadBytesBytes_AppendBytes data rest Hlen) as Hread.
    unfold AppendBytes in *. rewrite appendData_header in * by lia.
    rewrite <- app_assoc in *.
    destruct (gates_open s d majorTypeBytes (Z.of_nat (length data))
                (data ++ rest)) as (H1 & _ & H2 & H3);
      [unfold majorTypeBytes; lia|unfold MaxInt64 in Hlen; pow2; lia|].
    unfold Reader_ReadBytes, isNonCanonicalBytesLength.
    cbn [buf strict deterministic maxContainer].
    now rewrite H1, H2, H3, Hread.
  - assert (Z.of_nat (length data) <= MaxInt64) as Hd by lia.
    pose proof (ReadStringBytes_AppendString valid onDecode data rest Hd Hutf)
      as Hread.
    unfold AppendString in *. rewrite appendData_header in * by lia.
    rewrite <- app_assoc in *.
    destruct (gates_open s d majorTypeText (Z.of_nat (length data))
                (data ++ rest)) as (H1 & _ & H2 & H3);
      [unfold majorTypeText; lia|unfold MaxInt64 in Hlen; pow2; lia|].
    unfold Reader_ReadString, isNonCanonicalTextLength.
    cbn [buf strict deterministic maxContainer].
    now rewrite H1, H2, H3, Hread.
Qed.

Lemma X13_reader_accepts_encoder_output_witness :
  Reader_ReadArrayHeader (mkReader (AppendArrayHeader [] 300 ++ [1]) true true 500)
  = (Ok 300, mkReader [1] true true 500)
  /\ Reader_ReadMapHeader (mkReader (AppendMapHeader [] 300 ++ [1]) true true 500)
     = (Ok 300, mkReader [1] true true 500)
  /\ Reader_ReadInt64 (mkReader (AppendInt64 [] (-1000) ++ [1]) true true 500)
     = (Ok (-1000), mkReader [1] true true 500)
  /\ Reader_ReadBytes (mkReader (AppendBytes [] [104; 105] ++ [1]) true true 500)
     = (Ok [104; 105], mkReader [1] true true 500)
  /\ Reader_ReadString (fun _ => true) true
       (mkReader (AppendString [] [104; 105] ++ [1]) true true 500)
     = (Ok [104; 105], mkReader [1] true true 500).
Proof.
  apply (X13_reader_accepts_encoder_output (fun _ => true) true true true
           500 300 (-1000) [104; 105] [1]).
  - unfold MaxUint32. lia.
  - right. lia.
  - pow2. lia.
  - vm_compute. discriminate.
  - now right.
Defined.

(** ** number.go *)

Lemma NextType_header (major : Z) (w : nat) (n : Z) (rest : bytes) :
  0 <= major <= 6 -> fitsWidth w n ->
  NextType (lengthHeader major w n ++ rest)
  = getType (32 * major).
Proof.
  intros Hm Hf. unfold NextType.
  assert ((length (lengthHeader major w n ++ rest) =? 0)%nat = false) as ->.
  { apply Nat.eqb_neq. rewrite length_app, length_lengthHeader. lia. }
  destruct (lengthHeader_lead major w n rest) as (_ & Hmaj & _);
    [lia|assumption|].
  unfold getType. rewrite Hmaj.
  assert (getMajorType (32 * major) = major) as ->.
  { unfold getMajorType. 
    assert (major = 0 \/ major = 1 \/ major = 2 \/ major = 3 \/ major = 4
            \/ major = 5 \/ major = 6) as Hc by lia.
    destruct Hc as [ -> | [ -> | [ -> | [ -> | [ -> | [ -> | -> ]]]]]];
      reflexivity. }
  assert (major = 0 \/ major = 1 \/ major = 2 \/ major = 3 \/ major = 4
          \/ major = 5 \/ major = 6) as Hc by lia.
  destruct Hc as [ -> | [ -> | [ -> | [ -> | [ -> | [ -> | -> ]]]]]];
    reflexivity.
Qed.

Lemma Number_roundtrip_int (i : Z) (rest : bytes) :
  - 2 ^ 63 <= i < 2 ^ 63 ->
  Number_UnmarshalCBOR (AppendInt64 [] i ++ rest)
  = Ok (if i <? 0 then AsInt i else AsUint i, rest).
Proof.
  intros Hi. rewrite AppendInt64_canonical by assumption. cbn [app].
  unfold Number_UnmarshalCBOR. destruct (i <? 0) eqn:Hneg.
  - apply Z.ltb_lt in Hneg.
    assert (0 <= -1 - i < 2 ^ 64) as Hu by (pow2; lia).
    destruct (canonicalHeader_lengthHeader majorTypeNegInt (-1 - i) Hu)
      as (-> & Hf & _).
    rewrite NextType_header by (unfold majorTypeNegInt; lia || assumption).
    change (getType (32 * majorTypeNegInt)) with IntType.
    destruct (ReadInt64Bytes_header _ (-1 - i) rest Hf) as [_ ->];
      [unfold MaxInt64; pow2; lia|].
    do 3 f_equal. lia.
  - apply Z.ltb_ge in Hneg.
    assert (0 <= i < 2 ^ 64) as Hu by (pow2; lia).
    destruct (canonicalHeader_lengthHeader majorTypeUint i Hu)
      as (-> & Hf & _).
    rewrite NextType_header by (unfold majorTypeUint; lia || assumption).
    change (getType (32 * majorTypeUint)) with UintType.
    unfold ReadUint64Bytes.
    rewrite readUintCore_header; [reflexivity|unfold majorTypeUint; lia|].
    assumption.
Qed.

(** X14: what [Number.MarshalCBOR] writes, [Number.UnmarshalCBOR] reads
    back with the same value and stops right after it, for a number set
    by [AsInt], [AsUint] or [AsFloat64]; an [AsInt] number that is not
    negative comes back as an unsigned one, so [Int] on the number read
    back gives the value and reports the kind int only for a negative
    one.  A number set by [AsFloat32] is always refused: its lead byte is
    classified as a 64-bit float. *)
Theorem X14_number_roundtrip (i u f g : Z) (rest : bytes) :
  - 2 ^ 63 <= i < 2 ^ 63 -> 0 <= u < 2 ^ 64 -> 0 <= f < 2 ^ 64 ->
  0 <= g < 2 ^ 32 ->
  Number_UnmarshalCBOR (Number_MarshalCBOR (AsInt i) [] ++ rest)
  = Ok (if i <? 0 then AsInt i else AsUint i, rest)
  /\ Number_UnmarshalCBOR (Number_MarshalCBOR (AsUint u) [] ++ rest)
     = Ok (AsUint u, rest)
  /\ Number_UnmarshalCBOR (Number_MarshalCBOR (AsFloat64 f) [] ++ rest)
     = Ok (AsFloat64 f, rest)
  /\ isErr (Number_UnmarshalCBOR (Number_MarshalCBOR (AsFloat32 g) [] ++ rest))
     = true
  /\ Number_Int (if i <? 0 then AsInt i else AsUint i) = (i, i <? 0).
Proof.
  intros Hi Hu Hf Hg. pose proof Hi as Hi'.
  assert (int64 (uint64 i) = i) as Hwrap.
  { unfold int64, uint64. clear Hi'. pow2.
    destruct (Z_lt_le_dec i 0).
    - replace (i mod 18446744073709551616) with (i + 18446744073709551616)
        by (apply Z.mod_unique with (-1); lia).
      replace (i + 18446744073709551616 + 9223372036854775808)
        with (i + 9223372036854775808 + 1 * 18446744073709551616) by lia.
      rewrite Z.mod_add by lia. rewrite Z.mod_small by lia. lia.
    - rewrite (Z.mod_small i) by lia. rewrite Z.mod_small by lia. lia. }
  repeat apply conj.
  - unfold AsInt. destruct (i =? 0) eqn:H0.
    + apply Z.eqb_eq in H0. subst i. cbn [Number_MarshalCBOR typ].
      now rewrite Number_roundtrip_int.
    + cbn [Number_MarshalCBOR typ bits].
      rewrite Hwrap.
      rewrite Number_roundtrip_int by assumption. unfold AsInt.
      now rewrite H0.
  - unfold AsUint at 1. cbn [Number_MarshalCBOR typ bits].
    unfold AppendUint64. rewrite appendUintCore_header by assumption.
    cbn [app]. unfold Number_UnmarshalCBOR.
    rewrite NextType_header
      by (unfold majorTypeUint; lia || now apply fits_canonical).
    change (getType (32 * majorTypeUint)) with UintType.
    unfold ReadUint64Bytes.
    rewrite readUintCore_header; [reflexivity|unfold majorTypeUint; lia|].
    now apply fits_canonical.
  - unfold AsFloat64 at 1. cbn [Number_MarshalCBOR typ bits].
    pose proof (ReadFloat64Bytes_AppendFloat64 f rest Hf) as Hread.
    rewrite AppendFloat64_cells in *. cbn [app] in *.
    unfold Number_UnmarshalCBOR.
    change (NextType (251 :: be_bytes 8 f ++ rest)) with Float64Type.
    now rewrite Hread.
  - unfold AsFloat32. cbn [Number_MarshalCBOR typ bits].
    rewrite AppendFloat32_cells. cbn [app].
    unfold Number_UnmarshalCBOR.
    change (NextType (250 :: be_bytes 4 (uint32 (uint64 g)) ++ rest))
      with Float64Type.
    unfold ReadFloat64Bytes. cbn [idx nth].
    destruct (length _ <? 9)%nat; reflexivity.
  - unfold Number_Int. destruct (i <? 0) eqn:Hneg.
    + unfold AsInt. assert ((i =? 0) = false) as -> by lia.
      cbn [bits typ]. now rewrite Hwrap.
    + unfold AsUint. cbn [bits typ].
      rewrite int64_small by (apply Z.ltb_ge in Hneg; lia). reflexivity.
Qed.

Lemma X14_number_roundtrip_witness :
  Number_UnmarshalCBOR (Number_MarshalCBOR (AsInt 7) [] ++ [1])
  = Ok (if 7 <? 0 then AsInt 7 else AsUint 7, [1])
  /\ Number_UnmarshalCBOR (Number_MarshalCBOR (AsUint 300) [] ++ [1])
     = Ok (AsUint 300, [1])
  /\ Number_UnmarshalCBOR (Number_MarshalCBOR (AsFloat64 0x3ff8000000000000) []
                           ++ [1])
     = Ok (AsFloat64 0x3ff8000000000000, [1])
  /\ isErr (Number_UnmarshalCBOR
              (Number_MarshalCBOR (AsFloat32 0x3fc00000) [] ++ [1]))
     = true
  /\ Number_Int (if 7 <? 0 then AsInt 7 else AsUint 7) = (7, 7 <? 0).
Proof.
  apply (X14_number_roundtrip 7 300 0x3ff8000000000000 0x3fc00000 [1]);
    pow2; lia.
Defined.

(** ** The narrow integer readers *)

Lemma ReadInt64Bytes_AppendInt64 (v : Z) (rest : bytes) :
  - 2 ^ 63 <= v < 2 ^ 63 ->
  ReadInt64Bytes (AppendInt64 [] v ++ rest) = Ok (v, rest).
Proof.
  intros Hv. rewrite AppendInt64_canonical by assumption. cbn [app].
  destruct (v <? 0) eqn:Hneg.
  - apply Z.ltb_lt in Hneg.
    assert (0 <= -1 - v < 2 ^ 64) as Hu by (pow2; lia).
    destruct (canonicalHeader_lengthHeader majorTypeNegInt (-1 - v) Hu)
      as (-> & Hf & _).
    destruct (ReadInt64Bytes_header _ (-1 - v) rest Hf) as [_ ->];
      [unfold MaxInt64; pow2; lia|].
    do 2 f_equal. lia.
  - apply Z.ltb_ge in Hneg.
    assert (0 <= v < 2 ^ 64) as Hu by (pow2; lia).
    destruct (canonicalHeader_lengthHeader majorTypeUint v Hu)
      as (-> & Hf & _).
    destruct (ReadInt64Bytes_header _ v rest Hf) as [-> _];
      [unfold MaxInt64; pow2; lia|].
    reflexivity.
Qed.

Lemma readUintCore_AppendUint64 (u : Z) (rest : bytes) :
  0 <= u < 2 ^ 64 ->
  readUintCore (AppendUint64 [] u ++ rest) majorTypeUint = Ok (u, rest).
Proof.
  intros Hu. unfold AppendUint64. rewrite appendUintCore_header by assumption.
  cbn [app]. apply readUintCore_header; [unfold majorTypeUint; lia|].
  now apply fits_canonical.
Qed.

(** X15: the narrowing integer readers on what the encoder wrote.  A
    signed value comes back from [ReadInt8Bytes], [ReadInt16Bytes] and
    [ReadInt32Bytes] exactly when it lies in the range of the type, and an
    unsigned one from [ReadUint8Bytes], [ReadUint16Bytes] and
    [ReadUint32Bytes] exactly when it does not exceed the type's maximum;
    outside the range the reader reports an overflow carrying the value
    and the width, never a truncated number. *)
Theorem X15_narrow_integer_readers (v u : Z) (rest : bytes) :
  - 2 ^ 63 <= v < 2 ^ 63 -> 0 <= u < 2 ^ 64 ->
  ReadInt8Bytes (AppendInt64 [] v ++ rest)
  = (if (- 2 ^ 7 <=? v) && (v <? 2 ^ 7) then Ok (v, rest)
     else Err (IntOverflow v 8))
  /\ ReadInt16Bytes (AppendInt64 [] v ++ rest)
     = (if (- 2 ^ 15 <=? v) && (v <? 2 ^ 15) then Ok (v, rest)
        else Err (IntOverflow v 16))
  /\ ReadInt32Bytes (AppendInt64 [] v ++ rest)
     = (if (- 2 ^ 31 <=? v) && (v <? 2 ^ 31) then Ok (v, rest)
        else Err (IntOverflow v 32))
  /\ ReadUint8Bytes (AppendUint64 [] u ++ rest)
     = (if u <? 2 ^ 8 then Ok (u, rest) else Err (UintOverflow u 8))
  /\ ReadUint16Bytes (AppendUint64 [] u ++ rest)
     = (if u <? 2 ^ 16 then Ok (u, rest) else Err (UintOverflow u 16))
  /\ ReadUint32Bytes (AppendUint64 [] u ++ rest)
     = (if u <? 2 ^ 32 then Ok (u, rest) else Err (UintOverflow u 32)).
Proof.
  intros Hv Hu.
  pose proof (ReadInt64Bytes_AppendInt64 v rest Hv) as Hi.
  pose proof (readUintCore_AppendUint64 u rest Hu) as Hc.
  unfold ReadInt8Bytes, ReadInt16Bytes, ReadInt32Bytes, readIntN,
    ReadUint8Bytes, ReadUint16Bytes, ReadUint32Bytes, readUintN,
    MaxUint8, MaxUint16, MaxUint32.
  rewrite Hi, Hc. pow2.
  repeat apply conj;
    repeat match goal with
    | |- context [if ?c then _ else _] => destruct c eqn:?
    end; try reflexivity; exfalso;
    repeat match goal with
    | H : _ || _ = true |- _ => apply orb_true_iff in H; destruct H
    | H : _ || _ = false |- _ => apply orb_false_iff in H; destruct H
    | H : _ && _ = true |- _ => apply andb_true_iff in H; destruct H
    | H : _ && _ = false |- _ => apply andb_false_iff in H; destruct H
    end; lia.
Qed.

Lemma X15_narrow_integer_readers_witness :
  ReadInt8Bytes (AppendInt64 [] (-129) ++ [1])
  = (if (- 2 ^ 7 <=? -129) && (-129 <? 2 ^ 7) then Ok (-129, [1])
     else Err (IntOverflow (-129) 8))
  /\ ReadInt16Bytes (AppendInt64 [] (-129) ++ [1])
     = (if (- 2 ^ 15 <=? -129) && (-129 <? 2 ^ 15) then Ok (-129, [1])
        else Err (IntOverflow (-129) 16))
  /\ ReadInt32Bytes (AppendInt64 [] (-129) ++ [1])
     = (if (- 2 ^ 31 <=? -129) && (-129 <? 2 ^ 31) then Ok (-129, [1])
        else Err (IntOverflow (-129) 32))
  /\ ReadUint8Bytes (AppendUint64 [] 65536 ++ [1])
     = (if 65536 <? 2 ^ 8 then Ok (65536, [1]) else Err (UintOverflow 65536 8))
  /\ ReadUint16Bytes (AppendUint64 [] 65536 ++ [1])
     = (if 65536 <? 2 ^ 16 then Ok (65536, [1])
        else Err (UintOverflow 65536 16))
  /\ ReadUint32Bytes (AppendUint64 [] 65536 ++ [1])
     = (if 65536 <? 2 ^ 32 then Ok (65536, [1])
        else Err (UintOverflow 65536 32)).
Proof.
  apply (X15_narrow_integer_readers (-129) 65536 [1]); pow2; lia.
Defined.

(** ** Simple values *)

(** X16: a simple value written by [AppendSimpleValue], any of the 256,
    is read back by [ReadSimpleValue], which stops right after it (the
    values 24 to 31 included: they are written, and read, in the two-byte
    form); likewise a boolean through [AppendBool] and [ReadBoolBytes], and
    null through [AppendNil], [IsNil] and [ReadNilBytes]. *)
Theorem X16_simple_value_roundtrip (v : Z) (t : bool) (rest : bytes) :
  0 <= v < 256 ->
  ReadSimpleValue (AppendSimpleValue [] v ++ rest) = Ok (v, rest)
  /\ ReadBoolBytes (AppendBool [] t ++ rest) = Ok (t, rest)
  /\ IsNil (AppendNil [] ++ rest) = true
  /\ ReadNilBytes (AppendNil [] ++ rest) = Ok rest.
Proof.
  intros Hv. split; [|split; [now destruct t|split; reflexivity]].
  assert (In v (zrange 0 (Z.to_nat 256))) as Hin
    by (apply zrange_In; lia).
  vm_compute in Hin.
  repeat (destruct Hin as [<-|Hin]; [reflexivity|]).
  destruct Hin.
Qed.

Lemma X16_simple_value_roundtrip_witness :
  ReadSimpleValue (AppendSimpleValue [] 25 ++ [1]) = Ok (25, [1])
  /\ ReadBoolBytes (AppendBool [] true ++ [1]) = Ok (true, [1])
  /\ IsNil (AppendNil [] ++ [1]) = true
  /\ ReadNilBytes (AppendNil [] ++ [1]) = Ok [1].
Proof. apply (X16_simple_value_roundtrip 25 true [1]). lia. Defined.

(** ** The two text-string appenders *)

(** X17: [AppendString], which writes its header inline, and
    [AppendStringFromBytes], which calls the shared header writer, produce
    the same bytes; [AppendBytes] likewise is the shared header followed by
    the payload.  A Go slice holds at most [MaxInt64] bytes. *)
Theorem X17_string_appenders_agree (b data : bytes) :
  Z.of_nat (length data) <= MaxInt64 ->
  AppendString b data = AppendStringFromBytes b data
  /\ AppendBytes b data
     = appendUintCore b majorTypeBytes (Z.of_nat (length data)) ++ data.
Proof.
  intros Hlen. unfold AppendString, AppendBytes, AppendStringFromBytes.
  rewrite !appendData_appendUintCore by assumption.
  rewrite uint64_small; [now split|].
  unfold MaxInt64 in Hlen. pow2. lia.
Qed.

Lemma X17_string_appenders_agree_witness :
  AppendString [1; 2] (repeat 7 300) = AppendStringFromBytes [1; 2] (repeat 7 300)
  /\ AppendBytes [1; 2] (repeat 7 300)
     = appendUintCore [1; 2] majorTypeBytes (Z.of_nat (length (repeat 7 300)))
       ++ repeat 7 300.
Proof.
  apply (X17_string_appenders_agree [1; 2] (repeat 7 300)).
  vm_compute. discriminate.
Defined.

(** ** Big integers *)

Lemma SetBytes_be_bytes_acc (n : nat) (m acc : Z) :
  fold_left (fun a x => a * 256 + x) (be_bytes n m) acc
  = acc * 2 ^ (8 * Z.of_nat n) + m mod 2 ^ (8 * Z.of_nat n).
Proof.
  revert acc. induction n as [|k IH]; intros acc.
  - cbn [be_bytes fold_left]. change (2 ^ (8 * Z.of_nat 0)) with 1.
    rewrite Z.mod_1_r. lia.
  - cbn [be_bytes fold_left]. rewrite IH.
    replace (8 * Z.of_nat (S k)) with (8 * Z.of_nat k + 8) by lia.
    rewrite Z.pow_add_r by lia. change (2 ^ 8) with 256.
    assert (0 < 2 ^ (8 * Z.of_nat k)) as Hpos by (apply Z.pow_pos_nonneg; lia).
    rewrite (Z.rem_mul_r m (2 ^ (8 * Z.of_nat k)) 256) by lia.
    lia.
Qed.

Lemma SetBytes_big_Bytes (z : Z) : SetBytes (big_Bytes z) = Z.abs z.
Proof.
  unfold SetBytes, big_Bytes. destruct (Z.abs z =? 0) eqn:H0.
  { apply Z.eqb_eq in H0. now rewrite H0. }
  apply Z.eqb_neq in H0. assert (0 < Z.abs z) as Hpos by lia.
  rewrite SetBytes_be_bytes_acc. rewrite Z.mul_0_l, Z.add_0_l.
  apply Z.mod_small. split; [lia|].
  pose proof (Z.log2_nonneg (Z.abs z)) as Hl.
  destruct (Z.log2_spec (Z.abs z) Hpos) as [_ Hlt].
  eapply Z.lt_le_trans; [exact Hlt|].
  apply Z.pow_le_mono_r; [lia|].
  rewrite Z2Nat.id by (pose proof (Z.div_pos (Z.log2 (Z.abs z)) 8); lia).
  pose proof (Z.mul_div_le (Z.log2 (Z.abs z)) 8).
  pose proof (Z.mod_pos_bound (Z.log2 (Z.abs z)) 8).
  pose proof (Z.div_mod (Z.log2 (Z.abs z)) 8). lia.
Qed.

Lemma length_big_Bytes (z : Z) :
  Z.of_nat (length (big_Bytes z)) <= Z.log2 (Z.abs z) / 8 + 1.
Proof.
  unfold big_Bytes. pose proof (Z.log2_nonneg (Z.abs z)).
  pose proof (Z.div_pos (Z.log2 (Z.abs z)) 8).
  destruct (Z.abs z =? 0); [cbn [length]; lia|].
  rewrite be_bytes_length, Z2Nat.id; lia.
Qed.

Lemma AppendBytes_buffer (b data : bytes) :
  Z.of_nat (length data) <= MaxInt64 ->
  AppendBytes b data = b ++ AppendBytes [] data.
Proof.
  intros Hlen. unfold AppendBytes.
  rewrite !appendData_appendUintCore by assumption.
  rewrite !appendUintCore_header by (unfold MaxInt64 in Hlen; pow2; lia).
  cbn [app]. now rewrite <- app_assoc.
Qed.

Lemma ReadTagBytes_AppendTag (t : Z) (rest : bytes) :
  0 <= t < 2 ^ 64 -> ReadTagBytes (AppendTag [] t ++ rest) = Ok (t, rest).
Proof.
  intros Ht. unfold ReadTagBytes, AppendTag.
  rewrite appendUintCore_header by assumption. cbn [app].
  rewrite readUintCore_header; [reflexivity|unfold majorTypeTag; lia|].
  now apply fits_canonical.
Qed.

Lemma tagged_bytes (t : Z) (data rest : bytes) :
  0 <= t < 2 ^ 64 ->
  Z.of_nat (length data) + Z.of_nat (length rest) + 9 <= MaxInt64 ->
  AppendBytes (AppendTag [] t) data ++ rest
  = AppendTag [] t ++ AppendBytes [] data ++ rest
  /\ ReadTagBytes (AppendBytes (AppendTag [] t) data ++ rest)
     = Ok (t, AppendBytes [] data ++ rest)
  /\ ReadBytesBytes (AppendBytes [] data ++ rest) = Some (Ok (data, rest)).
Proof.
  intros Ht Hlen.
  assert (AppendBytes (AppendTag [] t) data ++ rest
          = AppendTag [] t ++ AppendBytes [] data ++ rest) as E.
  { rewrite AppendBytes_buffer by lia. now rewrite <- app_assoc. }
  split; [exact E|]. split.
  - rewrite E. now apply ReadTagBytes_AppendTag.
  - now apply ReadBytesBytes_AppendBytes.
Qed.

Lemma log2_pred_le (z : Z) : z < 0 -> Z.log2 (Z.abs (- z - 1)) <= Z.log2 (Z.abs z).
Proof. intros Hz. apply Z.log2_le_mono. lia. Qed.

Lemma ReadBigIntBytes_AppendBigInt (z : Z) (rest : bytes) :
  Z.log2 (Z.abs z) / 8 + Z.of_nat (length rest) + 10 <= MaxInt64 ->
  ReadBigIntBytes (AppendBigInt [] z ++ rest) = Some (Ok (z, rest)).
Proof.
  intros Hlen. unfold AppendBigInt, ReadBigIntBytes.
  destruct (z >=? 0) eqn:Hsign.
  - assert (0 <= z) as Hz by lia.
    destruct (tagged_bytes tagPosBignum (big_Bytes z) rest) as (_ & -> & E).
    { unfold tagPosBignum. pow2. lia. }
    { pose proof (length_big_Bytes z). lia. }
    cbn [lift bind]. rewrite E. cbn [bind].
    change (tagPosBignum =? tagPosBignum) with true.
    rewrite SetBytes_big_Bytes, Z.abs_eq by lia. reflexivity.
  - assert (z < 0) as Hz by lia.
    destruct (tagged_bytes tagNegBignum (big_Bytes (- z - 1)) rest)
      as (_ & -> & E).
    { unfold tagNegBignum. pow2. lia. }
    { pose proof (length_big_Bytes (- z - 1)).
      pose proof (log2_pred_le z Hz).
      pose proof (Z.div_le_mono (Z.log2 (Z.abs (- z - 1)))
                    (Z.log2 (Z.abs z)) 8). lia. }
    cbn [lift bind]. rewrite E. cbn [bind].
    change (tagNegBignum =? tagPosBignum) with false.
    change (tagNegBignum =? tagNegBignum) with true.
    rewrite SetBytes_big_Bytes, Z.abs_eq by lia.
    replace (- (- z - 1 + 1)) with z by lia. reflexivity.
Qed.

Lemma BitLen_bound (z : Z) (k : Z) :
  0 <= k -> BitLen z <= k -> Z.abs z < 2 ^ k.
Proof.
  intros Hk. unfold BitLen. destruct (z =? 0) eqn:H0.
  - apply Z.eqb_eq in H0. subst z. intros _. cbn [Z.abs].
    apply Z.pow_pos_nonneg; lia.
  - apply Z.eqb_neq in H0. intros Hb.
    destruct (Z.log2_spec (Z.abs z)) as [_ Hlt]; [lia|].
    eapply Z.lt_le_trans; [exact Hlt|].
    apply Z.pow_le_mono_r; lia.
Qed.

Lemma AppendInt64_buffer (b : bytes) (v : Z) :
  - 2 ^ 63 <= v < 2 ^ 63 -> AppendInt64 b v = b ++ AppendInt64 [] v.
Proof.
  intros Hv. now rewrite (AppendInt64_canonical b), (AppendInt64_canonical [])
    by assumption.
Qed.

Lemma length_big_Bytes_pred (z : Z) :
  z < 0 -> Z.of_nat (length (big_Bytes (- z - 1))) <= Z.log2 (Z.abs z) / 8 + 1.
Proof.
  intros Hz. pose proof (length_big_Bytes (- z - 1)).
  pose proof (log2_pred_le z Hz).
  pose proof (Z.div_le_mono (Z.log2 (Z.abs (- z - 1)))
                (Z.log2 (Z.abs z)) 8). lia.
Qed.

Lemma AppendBigInt_buffer (b : bytes) (z : Z) :
  Z.log2 (Z.abs z) / 8 + 1 <= MaxInt64 ->
  AppendBigInt b z = b ++ AppendBigInt [] z.
Proof.
  intros Hlen. unfold AppendBigInt.
  assert (forall t, 0 <= t < 2 ^ 64 -> AppendTag b t = b ++ AppendTag [] t)
    as Htag.
  { intros t Ht. unfold AppendTag.
    now rewrite (appendUintCore_header b), (appendUintCore_header [])
      by assumption. }
  destruct (z >=? 0) eqn:Hsign.
  - pose proof (length_big_Bytes z).
    rewrite (AppendBytes_buffer (AppendTag b _)),
      (AppendBytes_buffer (AppendTag [] _)) by lia.
    rewrite Htag by (unfold tagPosBignum; pow2; lia).
    now rewrite <- app_assoc.
  - assert (z < 0) as Hz by lia.
    pose proof (length_big_Bytes_pred z Hz).
    rewrite (AppendBytes_buffer (AppendTag b _)),
      (AppendBytes_buffer (AppendTag [] _)) by lia.
    rewrite Htag by (unfold tagNegBignum; pow2; lia).
    now rewrite <- app_assoc.
Qed.

Lemma appendCBORIntegerFromBigInt_buffer (b : bytes) (z : Z) :
  Z.log2 (Z.abs z) / 8 + 1 <= MaxInt64 ->
  appendCBORIntegerFromBigInt b z = b ++ appendCBORIntegerFromBigInt [] z.
Proof.
  intros Hlen. unfold appendCBORIntegerFromBigInt.
  destruct ((z >=? 0) && (BitLen z <=? 64)) eqn:Hu.
  - assert (0 <= uint64 z < 2 ^ 64) as Hr
      by (unfold uint64; pow2; apply Z.mod_pos_bound; lia).
    unfold AppendUint64.
    now rewrite (appendUintCore_header b), (appendUintCore_header [])
      by assumption.
  - destruct ((z <? 0) && (BitLen z <=? 63)) eqn:Hi.
    + apply AppendInt64_buffer. unfold int64. pow2.
      pose proof (Z.mod_pos_bound (z + 9223372036854775808)
                    18446744073709551616). lia.
    + now apply AppendBigInt_buffer.
Qed.

Lemma readCBORIntegerAsBigInt_bignum (z : Z) (rest : bytes) :
  Z.log2 (Z.abs z) / 8 + Z.of_nat (length rest) + 10 <= MaxInt64 ->
  readCBORIntegerAsBigInt (AppendBigInt [] z ++ rest) = Some (Ok (z, rest)).
Proof.
  intros Hlen.
  pose proof (ReadBigIntBytes_AppendBigInt z rest Hlen) as Hread.
  unfold ReadBigIntBytes in Hread. unfold readCBORIntegerAsBigInt.
  unfold AppendBigInt in *.
  destruct (z >=? 0) eqn:Hsign.
  - change (AppendTag [] tagPosBignum) with [194] in *.
    assert (Z.of_nat (length (big_Bytes z)) <= MaxInt64) as Hl
      by (pose proof (length_big_Bytes z); lia).
    rewrite AppendBytes_buffer in * by assumption. cbn [app] in *.
    change (ReadTagBytes (194 :: ?x)) with (Ok (2, x)) in *.
    cbn [length Nat.ltb Nat.leb idx nth lift bind] in *.
    change (getMajorType 194 =? majorTypeUint) with false.
    change (getMajorType 194 =? majorTypeNegInt) with false.
    change (getMajorType 194 =? majorTypeTag) with true.
    cbn [negb andb]. change (2 =? tagPosBignum) with true in *.
    change (2 =? tagNegBignum) with false. cbn [negb andb].
    destruct (ReadBytesBytes _) as [[[bs o2]|e]|]; cbn [bind] in *;
      try discriminate.
    exact Hread.
  - assert (z < 0) as Hz by lia.
    change (AppendTag [] tagNegBignum) with [195] in *.
    assert (Z.of_nat (length (big_Bytes (- z - 1))) <= MaxInt64) as Hl
      by (pose proof (length_big_Bytes_pred z Hz); lia).
    rewrite AppendBytes_buffer in * by assumption. cbn [app] in *.
    change (ReadTagBytes (195 :: ?x)) with (Ok (3, x)) in *.
    cbn [length Nat.ltb Nat.leb idx nth lift bind] in *.
    change (getMajorType 195 =? majorTypeUint) with false.
    change (getMajorType 195 =? majorTypeNegInt) with false.
    change (getMajorType 195 =? majorTypeTag) with true.
    cbn [negb andb]. change (3 =? tagPosBignum) with false in *.
    change (3 =? tagNegBignum) with true in *. cbn [negb andb].
    destruct (ReadBytesBytes _) as [[[bs o2]|e]|]; cbn [bind] in *;
      try discriminate.
    exact Hread.
Qed.

Lemma readCBORIntegerAsBigInt_roundtrip (z : Z) (rest : bytes) :
  Z.log2 (Z.abs z) / 8 + Z.of_nat (length rest) + 10 <= MaxInt64 ->
  readCBORIntegerAsBigInt (appendCBORIntegerFromBigInt [] z ++ rest)
  = Some (Ok (z, rest)).
Proof.
  intros Hlen. unfold appendCBORIntegerFromBigInt.
  destruct ((z >=? 0) && (BitLen z <=? 64)) eqn:Hu.
  { apply andb_true_iff in Hu. destruct Hu as [Hs Hb].
    apply Z.leb_le in Hb. apply BitLen_bound in Hb; [|lia].
    assert (0 <= z < 2 ^ 64) as Hz by lia.
    rewrite uint64_small by assumption.
    pose proof (readUintCore_AppendUint64 z rest Hz) as Hread.
    unfold AppendUint64 in *. rewrite appendUintCore_header in * by assumption.
    cbn [app] in *. unfold readCBORIntegerAsBigInt.
    rewrite header_not_short.
    destruct (lengthHeader_lead majorTypeUint (canonicalWidth z - 1) z rest)
      as (_ & -> & _);
      [unfold majorTypeUint; lia|now apply fits_canonical|].
    change (majorTypeUint =? majorTypeUint) with true.
    unfold lift. now rewrite Hread. }
  destruct ((z <? 0) && (BitLen z <=? 63)) eqn:Hi;
    [|now apply readCBORIntegerAsBigInt_bignum].
  apply andb_true_iff in Hi. destruct Hi as [Hs Hb].
  apply Z.leb_le in Hb. apply BitLen_bound in Hb; [|lia].
  assert (- 2 ^ 63 <= z < 2 ^ 63) as Hz by lia.
  rewrite int64_small by assumption.
  pose proof (ReadInt64Bytes_AppendInt64 z rest Hz) as Hread.
  rewrite AppendInt64_canonical in * by assumption. cbn [app] in *.
  rewrite Hs in *.
  assert (0 <= -1 - z < 2 ^ 64) as Hm by (pow2; lia).
  destruct (canonicalHeader_lengthHeader majorTypeNegInt (-1 - z) Hm)
    as (E & Hf & _).
  rewrite E in *. unfold readCBORIntegerAsBigInt.
  rewrite header_not_short.
  destruct (lengthHeader_lead majorTypeNegInt (canonicalWidth (-1 - z) - 1)
              (-1 - z) rest) as (_ & -> & _);
    [unfold majorTypeNegInt; lia|assumption|].
  change (majorTypeNegInt =? majorTypeUint) with false.
  change (majorTypeNegInt =? majorTypeNegInt) with true.
  unfold lift. now rewrite Hread.
Qed.

(** X18: a big integer of any size and sign written by [AppendBigInt]
    (tag 2 or 3 over the magnitude bytes) is read back by
    [ReadBigIntBytes]; written in the shortest form by
    [appendCBORIntegerFromBigInt] (a plain integer when it fits 64 bits,
    a bignum otherwise) it is read back by [readCBORIntegerAsBigInt].
    Both stop right after the item.  The bound says that the encoding
    fits a Go slice. *)
Theorem X18_bigint_roundtrip (z : Z) (rest : bytes) :
  Z.log2 (Z.abs z) / 8 + Z.of_nat (length rest) + 10 <= MaxInt64 ->
  ReadBigIntBytes (AppendBigInt [] z ++ rest) = Some (Ok (z, rest))
  /\ readCBORIntegerAsBigInt (appendCBORIntegerFromBigInt [] z ++ rest)
     = Some (Ok (z, rest)).
Proof.
  intros Hlen. split.
  - now apply ReadBigIntBytes_AppendBigInt.
  - now apply readCBORIntegerAsBigInt_roundtrip.
Qed.

Lemma X18_bigint_roundtrip_witness :
  ReadBigIntBytes (AppendBigInt [] (- 2 ^ 70) ++ [1])
  = Some (Ok (- 2 ^ 70, [1]))
  /\ readCBORIntegerAsBigInt (appendCBORIntegerFromBigInt [] (- 2 ^ 70) ++ [1])
     = Some (Ok (- 2 ^ 70, [1])).
Proof.
  apply (X18_bigint_roundtrip (- 2 ^ 70) [1]). vm_compute. discriminate.
Defined.

Lemma expMant_layout (tag e m : Z) (rest : bytes) :
  0 <= tag <= 23 -> - 2 ^ 63 <= e < 2 ^ 63 ->
  Z.log2 (Z.abs m) / 8 + Z.of_nat (length rest) + 10 <= MaxInt64 ->
  appendCBORIntegerFromBigInt
    (AppendInt64 (AppendArrayHeader (AppendTag [] tag) 2) e) m ++ rest
  = (192 + tag) :: 130 :: AppendInt64 [] e
      ++ appendCBORIntegerFromBigInt [] m ++ rest.
Proof.
  intros Ht He Hm.
  rewrite appendCBORIntegerFromBigInt_buffer by lia.
  rewrite AppendInt64_buffer by assumption.
  assert (AppendArrayHeader (AppendTag [] tag) 2 = [192 + tag; 130]) as ->.
  { unfold AppendTag, AppendArrayHeader.
    rewrite !appendUintCore_header by (rewrite ?uint64_small; pow2; lia).
    rewrite uint64_small by (pow2; lia).
    assert (canonicalWidth tag = 1%nat) as ->.
    { unfold canonicalWidth.
      now assert ((tag <=? 23) = true) as -> by (apply Z.leb_le; lia). }
    change (canonicalWidth 2 - 1)%nat with 0%nat.
    unfold lengthHeader. cbn [Nat.sub be_bytes followInfo app].
    change (makeByte majorTypeArray 2) with 130.
    f_equal. unfold makeByte, majorTypeTag, uint8.
    change (Z.shiftl 6 5 mod 256) with 192.
    assert (Z.lor 192 tag = 192 + tag) as ->.
    { assert (In tag (zrange 0 (Z.to_nat 24))) as Hin
        by (apply zrange_In; lia).
      vm_compute in Hin.
      repeat (destruct Hin as [<-|Hin]; [reflexivity|]). destruct Hin. }
    apply Z.mod_small. lia. }
  cbn [app]. now rewrite <- !app_assoc.
Qed.

Lemma readExpMant_roundtrip (e m : Z) (rest : bytes) :
  - 2 ^ 63 <= e < 2 ^ 63 ->
  Z.log2 (Z.abs m) / 8 + Z.of_nat (length rest) + 10 <= MaxInt64 ->
  readExpMant (130 :: AppendInt64 [] e
                 ++ appendCBORIntegerFromBigInt [] m ++ rest)
  = Some (Ok (e, m, rest)).
Proof.
  intros He Hm. unfold readExpMant.
  cbn [length Nat.ltb Nat.leb idx nth].
  change (130 =? makeByte majorTypeArray addInfoIndefinite) with false.
  cbv iota.
  assert (forall p, ReadArrayHeaderBytes (130 :: p) = Ok (2, p)) as ->.
  { intros p. apply (ReadArrayHeaderBytes_header 0 2 p).
    - left. split; [reflexivity|lia].
    - unfold MaxUint32. lia. }
  cbn [lift bind]. change (negb (2 =? 2)) with false. cbv iota.
  rewrite ReadInt64Bytes_AppendInt64 by assumption. cbn [bind].
  rewrite readCBORIntegerAsBigInt_roundtrip by assumption.
  reflexivity.
Qed.

(** X19: a decimal fraction written by [AppendDecimalFraction] and a
    bigfloat written by [AppendBigfloat] (exponent any [int64], mantissa
    any integer) are read back by [ReadDecimalFractionBytes] and
    [ReadBigfloatBytes], exponent and mantissa unchanged; each reader
    refuses the other's tag. *)
Theorem X19_exponent_mantissa_roundtrip (e m : Z) (rest : bytes) :
  - 2 ^ 63 <= e < 2 ^ 63 ->
  Z.log2 (Z.abs m) / 8 + Z.of_nat (length rest) + 10 <= MaxInt64 ->
  ReadDecimalFractionBytes (AppendDecimalFraction [] e m ++ rest)
  = Some (Ok (e, m, rest))
  /\ ReadBigfloatBytes (AppendBigfloat [] e m ++ rest)
     = Some (Ok (e, m, rest))
  /\ ReadBigfloatBytes (AppendDecimalFraction [] e m ++ rest)
     = Some (Err ErrUnsupportedType)
  /\ ReadDecimalFractionBytes (AppendBigfloat [] e m ++ rest)
     = Some (Err ErrUnsupportedType).
Proof.
  intros He Hm.
  unfold ReadDecimalFractionBytes, ReadBigfloatBytes, AppendDecimalFraction,
    AppendBigfloat, expectTag.
  rewrite !expMant_layout
    by (assumption || (unfold tagDecimalFrac, tagBigfloat; lia)).
  change (192 + tagDecimalFrac) with 196. change (192 + tagBigfloat) with 197.
  change (ReadTagBytes (196 :: ?x)) with (Ok (4, x)).
  change (ReadTagBytes (197 :: ?x)) with (Ok (5, x)).
  cbn [lift bind].
  change (negb (4 =? tagDecimalFrac)) with false.
  change (negb (5 =? tagBigfloat)) with false.
  change (negb (4 =? tagBigfloat)) with true.
  change (negb (5 =? tagDecimalFrac)) with true.
  cbv iota.
  rewrite readExpMant_roundtrip by assumption. repeat split.
Qed.

Lemma X19_exponent_mantissa_roundtrip_witness :
  ReadDecimalFractionBytes (AppendDecimalFraction [] (-2) (2 ^ 70) ++ [1])
  = Some (Ok (-2, 2 ^ 70, [1]))
  /\ ReadBigfloatBytes (AppendBigfloat [] (-2) (2 ^ 70) ++ [1])
     = Some (Ok (-2, 2 ^ 70, [1]))
  /\ ReadBigfloatBytes (AppendDecimalFraction [] (-2) (2 ^ 70) ++ [1])
     = Some (Err ErrUnsupportedType)
  /\ ReadDecimalFractionBytes (AppendBigfloat [] (-2) (2 ^ 70) ++ [1])
     = Some (Err ErrUnsupportedType).
Proof.
  apply (X19_exponent_mantissa_roundtrip (-2) (2 ^ 70) [1]).
  - pow2. lia.
  - vm_compute. discriminate.
Defined.

(** ** Tagged byte strings and text strings *)

Lemma AppendTag_buffer (b : bytes) (t : Z) :
  0 <= t < 2 ^ 64 -> AppendTag b t = b ++ AppendTag [] t.
Proof.
  intros Ht. unfold AppendTag.
  now rewrite (appendUintCore_header b), (appendUintCore_header [])
    by assumption.
Qed.

Lemma AppendString_buffer (b data : bytes) :
  Z.of_nat (length data) <= MaxInt64 ->
  AppendString b data = b ++ AppendString [] data.
Proof.
  intros Hlen. unfold AppendString.
  rewrite !appendData_appendUintCore by assumption.
  rewrite !appendUintCore_header by (unfold MaxInt64 in Hlen; pow2; lia).
  cbn [app]. now rewrite <- app_assoc.
Qed.

Lemma expectTag_AppendTag (t want : Z) (rest : bytes) :
  0 <= t < 2 ^ 64 ->
  expectTag want tagMismatch (AppendTag [] t ++ rest)
  = if t =? want then Ok rest else Err tagMismatch.
Proof.
  intros Ht. unfold expectTag. rewrite ReadTagBytes_AppendTag by assumption.
  now destruct (t =? want).
Qed.


Lemma tagged_text_read (L : Imports) (t want : Z) (s rest : bytes) :
  0 <= t < 2 ^ 64 -> Z.of_nat (length s) <= MaxInt64 ->
  ValidateUTF8OnDecode L = false \/ isUTF8Valid L s = true ->
  (let? o := lift (expectTag want tagMismatch
                     (AppendString (AppendTag [] t) s ++ rest)) in
   readString L o)
  = if t =? want then Some (Ok (s, rest)) else Some (Err tagMismatch).
Proof.
  intros Ht Hlen Hutf. rewrite AppendString_buffer by lia.
  rewrite <- app_assoc, expectTag_AppendTag by assumption.
  destruct (t =? want); [|reflexivity]. cbn [lift bind].
  unfold readString. now apply ReadStringBytes_AppendString.
Qed.





(** ** The self-describe tag *)

(** X22: [StripSelfDescribeCBOR] removes the tag that
    [AppendSelfDescribeCBOR] wrote and reports it found.  On any input,
    when it reports the tag absent it returns the input untouched, and when
    it reports it found the input opens with a header of tag 55799 and the
    bytes returned are those after that header. *)
Theorem X22_self_describe_tag (b rest : bytes) :
  StripSelfDescribeCBOR (AppendSelfDescribeCBOR [] ++ rest) = Ok (rest, true)
  /\ match StripSelfDescribeCBOR b with
     | Ok (o, true) => ReadTagBytes b = Ok (tagSelfDescribeCBOR, o)
     | Ok (o, false) => o = b
     | Err _ => True
     end.
Proof.
  split.
  - reflexivity.
  - unfold StripSelfDescribeCBOR.
    destruct (length b <? 1)%nat; [exact I|].
    destruct (negb (getMajorType (idx b 0) =? majorTypeTag)); [reflexivity|].
    destruct (ReadTagBytes b) as [[tag o]|e]; [|exact I].
    destruct (tag =? tagSelfDescribeCBOR) eqn:E; cbn [negb]; [|reflexivity].
    apply Z.eqb_eq in E. now subst tag.
Qed.

(** ** The deterministic map encoder: one output per map *)

Lemma lexLe_antisym (a b : bytes) : lexLe a b -> lexLe b a -> a = b.
Proof.
  revert b. induction a as [|x a IH]; intros [|y b]; cbn [lexLe];
    try tauto.
  intros [Hlt|[-> Hab]] [Hgt|[Heq Hba]]; try lia.
  f_equal. now apply IH.
Qed.

Lemma keyLe_antisym (a b : bytes) : keyLe a b -> keyLe b a -> a = b.
Proof.
  unfold keyLe. intros [Hlt|[Hlen Hab]] [Hgt|[Hlen' Hba]]; try lia.
  now apply lexLe_antisym.
Qed.

Lemma map_nth_seq {A : Type} (l : list A) (d : A) :
  map (fun i => nth i l d) (seq 0 (length l)) = l.
Proof.
  induction l as [|a l IH]; [reflexivity|].
  cbn [length seq map nth]. f_equal.
  rewrite <- seq_shift, map_map. exact IH.
Qed.

Lemma key_decides (pairs : list RawPair) (p q : RawPair) :
  NoDup (map Key pairs) -> p ∈ pairs -> q ∈ pairs -> Key p = Key q -> p = q.
Proof.
  induction pairs as [|a pairs IH]; intros Hnd Hp Hq Hk.
  - now apply elem_of_nil in Hp.
  - cbn [map] in Hnd. apply NoDup_cons in Hnd as [Hnotin Hnd].
    apply elem_of_cons in Hp as [->|Hp]; apply elem_of_cons in Hq as [->|Hq].
    + reflexivity.
    + exfalso. apply Hnotin. rewrite Hk. apply list_elem_of_In, in_map.
      now apply list_elem_of_In.
    + exfalso. apply Hnotin. rewrite <- Hk. apply list_elem_of_In, in_map.
      now apply list_elem_of_In.
    + now apply IH.
Qed.

Section DeterministicOutput.

Variable sort_Slice : (nat -> nat -> bool) -> list nat -> list nat.

Hypothesis sort_Slice_Permutation :
  forall less l, sort_Slice less l ≡ₚ l.
Hypothesis sort_Slice_sorted :
  forall keys l,
  StronglySorted (notLess (keyLess keys)) (sort_Slice (keyLess keys) l).

(** The pairs in the order [AppendRawMapDeterministic] writes them. *)
Lemma written_pairs (pairs : list RawPair) :
  Forall is_bytes (map Key pairs) ->
  let P := map (fun i => nth i pairs (mkRawPair [] []))
             (detOrder sort_Slice (map Key pairs)) in
  P ≡ₚ pairs
  /\ StronglySorted (fun p q => keyLe (Key p) (Key q)) P
  /\ forall b, AppendRawMapDeterministic sort_Slice b pairs
               = AppendMapHeader b (uint32 (Z.of_nat (length pairs)))
                 ++ flat_map (fun p => Key p ++ Value p) P.
Proof.
  intros Hb P.
  destruct (detOrder_spec sort_Slice sort_Slice_Permutation sort_Slice_sorted
              (map Key pairs) Hb) as [Hp Hs].
  rewrite length_map in Hp. split; [|split].
  - unfold P. rewrite Hp. now rewrite map_nth_seq.
  - unfold P.
    apply (StronglySorted_map
             (fun i j => keyLe (keyOf (map Key pairs) i)
                           (keyOf (map Key pairs) j))); [|assumption].
    intros i j. unfold keyOf.
    change (@nil Z) with (Key (mkRawPair [] [])). now rewrite !map_nth.
  - intros b. unfold AppendRawMapDeterministic.
    destruct (length pairs =? 0)%nat eqn:Hn.
    + apply Nat.eqb_eq in Hn. unfold P. rewrite Hn in Hp |- *.
      apply Permutation_nil_r in Hp. rewrite Hp. cbn [map flat_map].
      now rewrite app_nil_r.
    + rewrite fold_left_append. f_equal. unfold P. clear.
      induction (detOrder sort_Slice (map Key pairs)) as [|i order IH];
        [reflexivity|].
      cbn [map flat_map]. now rewrite IH.
Qed.

(** X23: the deterministic map encoder gives one output per map.  Two
    slices holding the same pairs (byte-string keys, no key twice) in any
    two orders are encoded by [AppendRawMapDeterministic] to the same
    bytes. *)
Theorem X23_deterministic_map_order_independent (b : bytes)
  (pairs pairs' : list RawPair) :
  Forall is_bytes (map Key pairs) -> NoDup (map Key pairs) ->
  pairs ≡ₚ pairs' ->
  AppendRawMapDeterministic sort_Slice b pairs
  = AppendRawMapDeterministic sort_Slice b pairs'.
Proof.
  intros Hb Hnd Hperm.
  assert (Forall is_bytes (map Key pairs')) as Hb'.
  { eapply Permutation_Forall; [|exact Hb]. now apply Permutation_map. }
  destruct (written_pairs pairs Hb) as (Hp & Hs & ->).
  destruct (written_pairs pairs' Hb') as (Hp' & Hs' & ->).
  rewrite (Permutation_length Hperm). f_equal. f_equal.
  apply (StronglySorted_unique_strong
           (fun p q => keyLe (Key p) (Key q))); try assumption.
  - intros p q Hin Hin' Hpq Hqp.
    apply (key_decides pairs); [assumption| | |].
    + now rewrite Hp in Hin.
    + rewrite Hp' in Hin'. now rewrite Hperm.
    + now apply keyLe_antisym.
  - now rewrite Hp, Hp'.
Qed.

End DeterministicOutput.

Lemma X23_deterministic_map_order_independent_witness :
  AppendRawMapDeterministic mergeSortSlice [0x01]
    [mkRawPair [0x61; 0x62] [0x01]; mkRawPair [0x61; 0x61] [0x02];
     mkRawPair [0x0a] [0x03]]
  = AppendRawMapDeterministic mergeSortSlice [0x01]
      [mkRawPair [0x0a] [0x03]; mkRawPair [0x61; 0x62] [0x01];
       mkRawPair [0x61; 0x61] [0x02]].
Proof.
  apply (X23_deterministic_map_order_independent mergeSortSlice
           mergeSortSlice_Permutation mergeSortSlice_sorted).
  - repeat constructor; lia.
  - apply NoDup_ListNoDup. cbn [map Key].
    repeat (constructor; [cbn [In]; intuition discriminate|]). constructor.
  - symmetry.
    apply (Permutation_cons_append
             [mkRawPair [0x61; 0x62] [0x01]; mkRawPair [0x61; 0x61] [0x02]]).
Defined.

(** ** The walkers return, and the validator consumes *)

Lemma loop_total_inv {S R : Type} (step : S -> flow S R) (mu : S -> nat)
  (P : S -> Prop) :
  (forall s, P s -> step s <> Stuck) ->
  (forall s s', P s -> step s = Continue s' -> P s' /\ (mu s' < mu s)%nat) ->
  forall fuel s, P s -> (mu s < fuel)%nat -> exists r, loop step fuel s = Some r.
Proof.
  intros Hstuck Hdec fuel.
  induction fuel as [|fuel IH]; intros s Hs Hmu; [lia|].
  cbn [loop]. destruct (step s) as [s'|r|] eqn:E.
  - destruct (Hdec s s' Hs E) as [Hs' Hlt]. apply IH; [assumption|lia].
  - now exists r.
  - now destruct (Hstuck s Hs).
Qed.

Lemma loop_more_fuel {S R : Type} (step : S -> flow S R) (fuel fuel' : nat)
  (s : S) (r : R) :
  loop step fuel s = Some r -> (fuel <= fuel')%nat ->
  loop step fuel' s = Some r.
Proof.
  revert fuel' s. induction fuel as [|fuel IH]; intros fuel' s;
    [discriminate|].
  intros H Hle. destruct fuel' as [|fuel']; [lia|]. cbn [loop] in *.
  destruct (step s); try assumption. apply (IH fuel'); [assumption|lia].
Qed.

Lemma ReadStringZC_consumed (b v o : bytes) :
  ReadStringZC b = Ok (v, o) -> consumed b o.
Proof.
  unfold ReadStringZC. intros H. split_ifs H; try discriminate;
    inversion H; subst; apply consumed_drop; nat_tests;
    repeat match goal with
    | Hc : _ || _ = false |- _ => apply orb_false_iff in Hc as [? ?]
    | Hc : (_ <? _) = false |- _ => apply Z.ltb_ge in Hc
    | Hc : (_ >? _) = false |- _ => rewrite Z.gtb_ltb in Hc
    end; lia.
Qed.

Lemma skipChunkStep_total (major : Z) (fuel : nat) (o : bytes) :
  (length o < fuel)%nat -> exists r, loop (skipChunkStep major) fuel o = Some r.
Proof.
  apply (loop_total (skipChunkStep major) (@length Z)).
  - intros s. unfold skipChunkStep.
    destruct (length s <? 1)%nat; [discriminate|].
    destruct (idx s 0 =? breakByte); [discriminate|].
    destruct (readUintCore s major) as [[sz q]|e]; [|discriminate].
    destruct (Z.of_nat (length q) <? sz); discriminate.
  - intros s s'. unfold skipChunkStep.
    destruct (length s <? 1)%nat; [discriminate|].
    destruct (idx s 0 =? breakByte); [discriminate|].
    destruct (readUintCore s major) as [[sz q]|e] eqn:E; [|discriminate].
    destruct (Z.of_nat (length q) <? sz); [discriminate|].
    intros [= <-]. apply readUintCore_shorter in E.
    rewrite length_drop. lia.
Qed.

Lemma validateTextChunkStep_total (valid : bytes -> bool) (fuel : nat)
  (o : bytes) :
  (length o < fuel)%nat ->
  exists r, loop (validateTextChunkStep valid) fuel o = Some r.
Proof.
  apply (loop_total (validateTextChunkStep valid) (@length Z)).
  - intros s. unfold validateTextChunkStep.
    destruct (length s <? 1)%nat; [discriminate|].
    destruct (idx s 0 =? breakByte); [discriminate|].
    destruct (ReadStringZC s) as [[chunk q]|e]; [|discriminate].
    destruct (negb (valid chunk)); discriminate.
  - intros s s'. unfold validateTextChunkStep.
    destruct (length s <? 1)%nat; [discriminate|].
    destruct (idx s 0 =? breakByte); [discriminate|].
    destruct (ReadStringZC s) as [[chunk q]|e] eqn:E; [|discriminate].
    destruct (negb (valid chunk)); [discriminate|].
    intros [= <-]. now apply ReadStringZC_shorter in E.
Qed.

Lemma validateTextChunkStep_consumed (valid : bytes -> bool) (b : bytes)
  (fuel : nat) (o : bytes) (r : result bytes) :
  consumed b o ->
  loop (validateTextChunkStep valid) fuel o = Some r ->
  forall o', r = Ok o' -> consumed b o'.
Proof.
  intros Ho Hl.
  apply (loop_invariant (validateTextChunkStep valid) (consumed b)
           (fun r => forall o', r = Ok o' -> consumed b o')) with fuel o;
    try assumption.
  - intros s s' Hs. unfold validateTextChunkStep.
    destruct (length s <? 1)%nat; [discriminate|].
    destruct (idx s 0 =? breakByte); [discriminate|].
    destruct (ReadStringZC s) as [[chunk q]|e] eqn:E; [|discriminate].
    destruct (negb (valid chunk)); [discriminate|].
    intros [= <-]. apply (consumed_trans b s q Hs).
    now apply ReadStringZC_consumed in E.
  - intros s r' Hs. unfold validateTextChunkStep.
    destruct (length s <? 1)%nat eqn:Hlen.
    { intros [= <-] o' [=]. }
    destruct (idx s 0 =? breakByte).
    { intros [= <-] o' [= <-]. apply consumed_more; [assumption|].
      apply Nat.ltb_ge in Hlen. lia. }
    destruct (ReadStringZC s) as [[chunk q]|e].
    + destruct (negb (valid chunk)); [|discriminate].
      intros [= <-] o' [=].
    + intros [= <-] o' [=].
Qed.

Section WalkerTotal.

(** A walker of one item that returns on every input shorter than [N],
    and whose successful results are what is left after consuming a
    prefix. *)
Variable walk : bytes -> option (result bytes).
Variable N : nat.
Hypothesis walk_total :
  forall p, (length p < N)%nat -> exists r, walk p = Some r.
Hypothesis walk_consumed :
  forall p o, walk p = Some (Ok o) -> consumed p o.

Lemma indefItemStep_total (pairs : bool) (fuel : nat) (o : bytes) :
  (length o < N)%nat -> (length o < fuel)%nat ->
  exists r, loop (indefItemStep walk pairs) fuel o = Some r.
Proof.
  intros HN. revert HN.
  apply (loop_total_inv (indefItemStep walk pairs) (@length Z)
           (fun s => (length s < N)%nat)).
  - intros s Hs. unfold indefItemStep.
    destruct (length s <? 1)%nat; [discriminate|].
    destruct (idx s 0 =? breakByte); [discriminate|].
    destruct (walk_total s Hs) as [[o1|e] E1]; rewrite E1; [|discriminate].
    destruct pairs; [|discriminate].
    apply walk_consumed, consumed_shorter in E1.
    destruct (walk_total o1 ltac:(lia)) as [[o2|e] E2]; rewrite E2;
      discriminate.
  - intros s s' Hs. unfold indefItemStep.
    destruct (length s <? 1)%nat; [discriminate|].
    destruct (idx s 0 =? breakByte); [discriminate|].
    destruct (walk s) as [[o1|e]|] eqn:E1; try discriminate.
    apply walk_consumed, consumed_shorter in E1.
    destruct pairs.
    + destruct (walk o1) as [[o2|e]|] eqn:E2; try discriminate.
      apply walk_consumed, consumed_shorter in E2. intros [= <-]. lia.
    + intros [= <-]. lia.
Qed.

Lemma defItemStep_total (pairs : bool) (sz : Z) (fuel : nat) (i : Z)
  (o : bytes) :
  (length o < N)%nat -> (length o < fuel)%nat ->
  exists r, loop (defItemStep walk pairs sz) fuel (i, o) = Some r.
Proof.
  intros HN Hf.
  apply (loop_total_inv (defItemStep walk pairs sz)
           (fun st => length st.2)
           (fun st => (length st.2 < N)%nat)); try assumption.
  - intros [j s] Hs. cbn [snd] in Hs. unfold defItemStep.
    destruct (j <? sz); [|discriminate].
    destruct (walk_total s Hs) as [[o1|e] E1]; rewrite E1; [|discriminate].
    destruct pairs; [|discriminate].
    apply walk_consumed, consumed_shorter in E1.
    destruct (walk_total o1 ltac:(lia)) as [[o2|e] E2]; rewrite E2;
      discriminate.
  - intros [j s] [j' s'] Hs. cbn [snd] in *. unfold defItemStep.
    destruct (j <? sz); [|discriminate].
    destruct (walk s) as [[o1|e]|] eqn:E1; try discriminate.
    apply walk_consumed, consumed_shorter in E1.
    destruct pairs.
    + destruct (walk o1) as [[o2|e]|] eqn:E2; try discriminate.
      apply walk_consumed, consumed_shorter in E2. intros [= <- <-]. lia.
    + intros [= <- <-]. lia.
Qed.

End WalkerTotal.

Lemma skip_total (fuel : nat) :
  forall (b : bytes) (depth : Z),
  (length b < fuel)%nat -> exists r, skip fuel b depth = Some r.
Proof.
  induction fuel as [|fuel IH]; intros b depth Hlen; [lia|].
  cbn [skip].
  destruct (depth >? recursionLimit); [eauto|].
  destruct (length b <? 1)%nat eqn:Hone; [eauto|].
  apply Nat.ltb_ge in Hone.
  assert (forall p, (length p < length b)%nat ->
            exists r, skip fuel p (depth + 1) = Some r) as Hwalk
    by (intros p Hp; apply IH; lia).
  assert (forall p o, skip fuel p (depth + 1) = Some (Ok o) -> consumed p o)
    as Hcons by (intros p o; apply skip_consumed).
  assert (length (drop 1 b) < length b)%nat as Hd
    by (rewrite length_drop; lia).
  destruct ((getMajorType (idx b 0) =? majorTypeUint)
            || (getMajorType (idx b 0) =? majorTypeNegInt)
            || (getMajorType (idx b 0) =? majorTypeTag)).
  { destruct (readUintCore b (getMajorType (idx b 0))) as [[u q]|e] eqn:E;
      [|eauto].
    apply readUintCore_shorter in E.
    destruct (getMajorType (idx b 0) =? majorTypeTag); [|eauto].
    apply IH. lia. }
  destruct ((getMajorType (idx b 0) =? majorTypeBytes)
            || (getMajorType (idx b 0) =? majorTypeText)).
  { destruct (getAddInfo (idx b 0) =? addInfoIndefinite).
    - apply skipChunkStep_total. lia.
    - destruct (readUintCore b (getMajorType (idx b 0))) as [[sz q]|e];
        [|eauto].
      destruct (Z.of_nat (length q) <? sz); eauto. }
  destruct (getMajorType (idx b 0) =? majorTypeArray).
  { destruct (getAddInfo (idx b 0) =? addInfoIndefinite).
    - apply (indefItemStep_total _ (length b) Hwalk Hcons); lia.
    - destruct (readUintCore b (getMajorType (idx b 0))) as [[sz q]|e] eqn:E;
        [|eauto].
      apply readUintCore_shorter in E.
      apply (defItemStep_total _ (length b) Hwalk Hcons); lia. }
  destruct (getMajorType (idx b 0) =? majorTypeMap).
  { destruct (getAddInfo (idx b 0) =? addInfoIndefinite).
    - apply (indefItemStep_total _ (length b) Hwalk Hcons); lia.
    - destruct (readUintCore b (getMajorType (idx b 0))) as [[sz q]|e] eqn:E;
        [|eauto].
      apply readUintCore_shorter in E.
      apply (defItemStep_total _ (length b) Hwalk Hcons); lia. }
  destruct (getMajorType (idx b 0) =? majorTypeSimple); eauto.
Qed.

Section ValidatorWalk.

Variable valid : bytes -> bool.

Lemma validate_consumed (fuel : nat) :
  forall (b : bytes) (depth : Z) (o : bytes),
  validateWellFormed valid fuel b depth = Some (Ok o) -> consumed b o.
Proof.
  induction fuel as [|fuel IH]; intros b depth o; [discriminate|].
  cbn [validateWellFormed].
  destruct (depth >? recursionLimit); [discriminate|].
  destruct (length b <? 1)%nat eqn:Hlen; [discriminate|].
  apply Nat.ltb_ge in Hlen.
  assert (consumed b (drop 1 b)) as Hone by (apply consumed_drop; lia).
  assert (forall p o', validateWellFormed valid fuel p (depth + 1)
                       = Some (Ok o') -> consumed p o')
    as Hwalk by (intros p o'; apply IH).
  destruct ((getAddInfo (idx b 0) =? 28) || (getAddInfo (idx b 0) =? 29)
            || (getAddInfo (idx b 0) =? 30)); [discriminate|].
  destruct ((getMajorType (idx b 0) =? majorTypeUint)
            || (getMajorType (idx b 0) =? majorTypeNegInt)
            || (getMajorType (idx b 0) =? majorTypeTag)).
  { destruct (readUintCore b (getMajorType (idx b 0))) as [[u q]|e] eqn:E;
      [|discriminate].
    apply readUintCore_consumed in E.
    destruct (getMajorType (idx b 0) =? majorTypeTag).
    - intros H. apply IH in H. eauto using consumed_trans.
    - now intros [= <-]. }
  destruct (getMajorType (idx b 0) =? majorTypeBytes).
  { destruct (getAddInfo (idx b 0) =? addInfoIndefinite).
    - intros H. now apply (skipChunkStep_consumed b _ _ _ _ Hone H).
    - destruct (readUintCore b majorTypeBytes) as [[sz q]|e] eqn:E;
        [|discriminate].
      apply readUintCore_consumed in E.
      destruct (Z.of_nat (length q) <? sz) eqn:Hsz; [discriminate|].
      apply Z.ltb_ge in Hsz. intros [= <-].
      apply consumed_more; [assumption|lia]. }
  destruct (getMajorType (idx b 0) =? majorTypeText).
  { destruct (getAddInfo (idx b 0) =? addInfoIndefinite).
    - intros H. now apply (validateTextChunkStep_consumed valid b _ _ _ Hone H).
    - destruct (ReadStringZC b) as [[s q]|e] eqn:E; [|discriminate].
      destruct (negb (valid s)); [discriminate|]. intros [= <-].
      now apply ReadStringZC_consumed in E. }
  destruct (getMajorType (idx b 0) =? majorTypeArray).
  { destruct (getAddInfo (idx b 0) =? addInfoIndefinite).
    - intros H. now apply (indefItemStep_consumed _ Hwalk b _ _ _ _ Hone H).
    - destruct (readUintCore b majorTypeArray) as [[sz q]|e] eqn:E;
        [|discriminate].
      apply readUintCore_consumed in E. intros H.
      now apply (defItemStep_consumed _ Hwalk b _ _ _ _ _ _ E H). }
  destruct (getMajorType (idx b 0) =? majorTypeMap).
  { destruct (getAddInfo (idx b 0) =? addInfoIndefinite).
    - intros H. now apply (indefItemStep_consumed _ Hwalk b _ _ _ _ Hone H).
    - destruct (readUintCore b majorTypeMap) as [[sz q]|e] eqn:E;
        [|discriminate].
      apply readUintCore_consumed in E. intros H.
      now apply (defItemStep_consumed _ Hwalk b _ _ _ _ _ _ E H). }
  destruct (getMajorType (idx b 0) =? majorTypeSimple); [|discriminate].
  unfold validateSimple. intros H. injection H as H.
  split_ifs H; try discriminate; injection H as <-;
    apply consumed_drop; nat_tests; lia.
Qed.

Lemma validate_total (fuel : nat) :
  forall (b : bytes) (depth : Z),
  (length b < fuel)%nat ->
  exists r, validateWellFormed valid fuel b depth = Some r.
Proof.
  induction fuel as [|fuel IH]; intros b depth Hlen; [lia|].
  cbn [validateWellFormed].
  destruct (depth >? recursionLimit); [eauto|].
  destruct (length b <? 1)%nat eqn:Hone; [eauto|].
  apply Nat.ltb_ge in Hone.
  assert (forall p, (length p < length b)%nat ->
            exists r, validateWellFormed valid fuel p (depth + 1) = Some r)
    as Hwalk by (intros p Hp; apply IH; lia).
  assert (forall p o, validateWellFormed valid fuel p (depth + 1)
                      = Some (Ok o) -> consumed p o)
    as Hcons by (intros p o; apply validate_consumed).
  assert (length (drop 1 b) < length b)%nat as Hd
    by (rewrite length_drop; lia).
  destruct ((getAddInfo (idx b 0) =? 28) || (getAddInfo (idx b 0) =? 29)
            || (getAddInfo (idx b 0) =? 30)); [eauto|].
  destruct ((getMajorType (idx b 0) =? majorTypeUint)
            || (getMajorType (idx b 0) =? majorTypeNegInt)
            || (getMajorType (idx b 0) =? majorTypeTag)).
  { destruct (readUintCore b (getMajorType (idx b 0))) as [[u q]|e] eqn:E;
      [|eauto].
    apply readUintCore_shorter in E.
    destruct (getMajorType (idx b 0) =? majorTypeTag); [|eauto].
    apply IH. lia. }
  destruct (getMajorType (idx b 0) =? majorTypeBytes).
  { destruct (getAddInfo (idx b 0) =? addInfoIndefinite).
    - apply skipChunkStep_total. lia.
    - destruct (readUintCore b majorTypeBytes) as [[sz q]|e]; [|eauto].
      destruct (Z.of_nat (length q) <? sz); eauto. }
  destruct (getMajorType (idx b 0) =? majorTypeText).
  { destruct (getAddInfo (idx b 0) =? addInfoIndefinite).
    - apply validateTextChunkStep_total. lia.
    - destruct (ReadStringZC b) as [[s q]|e]; [|eauto].
      destruct (negb (valid s)); eauto. }
  destruct (getMajorType (idx b 0) =? majorTypeArray).
  { destruct (getAddInfo (idx b 0) =? addInfoIndefinite).
    - apply (indefItemStep_total _ (length b) Hwalk Hcons); lia.
    - destruct (readUintCore b majorTypeArray) as [[sz q]|e] eqn:E; [|eauto].
      apply readUintCore_shorter in E.
      apply (defItemStep_total _ (length b) Hwalk Hcons); lia. }
  destruct (getMajorType (idx b 0) =? majorTypeMap).
  { destruct (getAddInfo (idx b 0) =? addInfoIndefinite).
    - apply (indefItemStep_total _ (length b) Hwalk Hcons); lia.
    - destruct (readUintCore b majorTypeMap) as [[sz q]|e] eqn:E; [|eauto].
      apply readUintCore_shorter in E.
      apply (defItemStep_total _ (length b) Hwalk Hcons); lia. }
  destruct (getMajorType (idx b 0) =? majorTypeSimple); eauto.
Qed.

Lemma ValidateWellFormedBytes_consumed (b o : bytes) :
  ValidateWellFormedBytes valid b = Ok o -> consumed b o.
Proof.
  unfold ValidateWellFormedBytes, run.
  destruct (validateWellFormed valid (S (length b)) b 0) as [[o'|e]|] eqn:E;
    try discriminate.
  intros [= <-]. now apply validate_consumed in E.
Qed.

Lemma ValidateDocument_total (fuel : nat) (b : bytes) :
  (length b < fuel)%nat ->
  exists r, loop (validateDocStep valid) fuel b = Some r.
Proof.
  apply (loop_total (validateDocStep valid) (@length Z)).
  - intros s. unfold validateDocStep.
    destruct (0 <? length s)%nat; [|discriminate].
    destruct (ValidateWellFormedBytes valid s); discriminate.
  - intros s s'. unfold validateDocStep.
    destruct (0 <? length s)%nat; [|discriminate].
    destruct (ValidateWellFormedBytes valid s) as [o|e] eqn:E;
      [|discriminate].
    intros [= <-].
    now apply ValidateWellFormedBytes_consumed, consumed_shorter in E.
Qed.

End ValidatorWalk.

(** X24: the two walkers return within the bound their callers give
    them (at most [len(b) + 1] nested calls, every one on a strictly
    shorter slice), so [Skip] and [ValidateWellFormedBytes] answer on every
    input, and [ValidateDocument] returns on every input; and when
    [ValidateWellFormedBytes] succeeds, what it returns is the input with a
    non-empty prefix removed. *)
Theorem X24_validator_returns_and_consumes (valid : bytes -> bool)
  (b : bytes) :
  (exists r, skip (S (length b)) b 0 = Some r)
  /\ (exists r, validateWellFormed valid (S (length b)) b 0 = Some r)
  /\ (exists r, ValidateDocument valid b = Some r)
  /\ match ValidateWellFormedBytes valid b with
     | Ok o => exists n, (0 < n <= length b)%nat /\ o = drop n b
     | Err _ => True
     end.
Proof.
  split; [apply skip_total; lia|].
  split; [apply validate_total; lia|].
  split; [apply ValidateDocument_total; lia|].
  destruct (ValidateWellFormedBytes valid b) as [o|e] eqn:E; [|exact I].
  now apply ValidateWellFormedBytes_consumed in E.
Qed.

(** ** The validator on what the encoder writes *)

Lemma followInfo_not_reserved (w : nat) (n : Z) :
  fitsWidth w n ->
  (followInfo w n =? 28) || (followInfo w n =? 29) || (followInfo w n =? 30)
  = false.
Proof.
  intros Hf. pose proof (followInfo_range w n Hf).
  repeat (apply orb_false_iff; split); apply Z.eqb_neq; lia.
Qed.

Section ValidatorOnEncoder.

Variable valid : bytes -> bool.

Lemma validate_integer_header (major : Z) (w : nat) (n : Z) (rest : bytes) :
  major = majorTypeUint \/ major = majorTypeNegInt -> fitsWidth w n ->
  ValidateWellFormedBytes valid (lengthHeader major w n ++ rest) = Ok rest.
Proof.
  intros Hmaj Hf.
  assert (0 <= major <= 7) as Hm
    by (destruct Hmaj as [ -> | -> ]; unfold majorTypeUint, majorTypeNegInt; lia).
  unfold ValidateWellFormedBytes. cbn [validateWellFormed].
  change (0 >? recursionLimit) with false. cbv iota.
  rewrite header_not_short.
  destruct (lengthHeader_lead major w n rest Hm Hf) as (_ & -> & ->).
  rewrite followInfo_not_reserved by assumption.
  rewrite readUintCore_header by assumption.
  destruct Hmaj as [ -> | -> ]; reflexivity.
Qed.

Lemma validate_bytes_header (w : nat) (data rest : bytes) :
  fitsWidth w (Z.of_nat (length data)) ->
  ValidateWellFormedBytes valid
    (lengthHeader majorTypeBytes w (Z.of_nat (length data)) ++ data ++ rest)
  = Ok rest.
Proof.
  intros Hf.
  assert (0 <= majorTypeBytes <= 7) as Hm by (unfold majorTypeBytes; lia).
  unfold ValidateWellFormedBytes. cbn [validateWellFormed].
  change (0 >? recursionLimit) with false. cbv iota.
  rewrite header_not_short.
  destruct (lengthHeader_lead majorTypeBytes w _ (data ++ rest) Hm Hf)
    as (_ & -> & ->).
  rewrite followInfo_not_reserved, followInfo_not_indefinite by assumption.
  rewrite readUintCore_header by assumption.
  assert ((Z.of_nat (length (data ++ rest)) <? Z.of_nat (length data)) = false)
    as -> by (apply Z.ltb_ge; rewrite length_app; lia).
  rewrite Nat2Z.id, drop_app_length. reflexivity.
Qed.

Lemma validate_text_header (w : nat) (s rest : bytes) :
  fitsWidth w (Z.of_nat (length s)) -> Z.of_nat (length s) <= MaxInt64 ->
  ValidateWellFormedBytes valid
    (lengthHeader majorTypeText w (Z.of_nat (length s)) ++ s ++ rest)
  = if valid s then Ok rest else Err ErrInvalidUTF8.
Proof.
  intros Hf Hlen.
  assert (0 <= majorTypeText <= 7) as Hm by (unfold majorTypeText; lia).
  unfold ValidateWellFormedBytes. cbn [validateWellFormed].
  change (0 >? recursionLimit) with false. cbv iota.
  rewrite header_not_short.
  destruct (lengthHeader_lead majorTypeText w _ (s ++ rest) Hm Hf)
    as (_ & -> & ->).
  rewrite followInfo_not_reserved, followInfo_not_indefinite by assumption.
  rewrite ReadStringZC_definite by assumption.
  change ((majorTypeText =? majorTypeUint) || (majorTypeText =? majorTypeNegInt)
          || (majorTypeText =? majorTypeTag)) with false.
  change (majorTypeText =? majorTypeBytes) with false.
  change (majorTypeText =? majorTypeText) with true. cbv iota.
  now destruct (valid s).
Qed.

Lemma validate_AppendInt64 (v : Z) (rest : bytes) :
  - 2 ^ 63 <= v < 2 ^ 63 ->
  ValidateWellFormedBytes valid (AppendInt64 [] v ++ rest) = Ok rest.
Proof.
  intros Hv. rewrite AppendInt64_canonical by assumption. cbn [app]. pow2.
  destruct (v <? 0) eqn:Hneg.
  - apply Z.ltb_lt in Hneg.
    destruct (canonicalHeader_lengthHeader majorTypeNegInt (-1 - v))
      as (-> & Hf & _); [pow2; lia|].
    apply validate_integer_header; [now right|assumption].
  - apply Z.ltb_ge in Hneg.
    destruct (canonicalHeader_lengthHeader majorTypeUint v)
      as (-> & Hf & _); [pow2; lia|].
    apply validate_integer_header; [now left|assumption].
Qed.

Lemma validate_AppendBytes (data rest : bytes) :
  Z.of_nat (length data) <= MaxInt64 ->
  ValidateWellFormedBytes valid (AppendBytes [] data ++ rest) = Ok rest.
Proof.
  intros Hd. unfold AppendBytes.
  rewrite appendData_header by assumption. rewrite <- app_assoc.
  apply validate_bytes_header. apply fits_canonical.
  unfold MaxInt64 in Hd. pow2. lia.
Qed.

Lemma validate_AppendString (s rest : bytes) :
  Z.of_nat (length s) <= MaxInt64 ->
  ValidateWellFormedBytes valid (AppendString [] s ++ rest)
  = if valid s then Ok rest else Err ErrInvalidUTF8.
Proof.
  intros Hs. unfold AppendString.
  rewrite appendData_header by assumption. rewrite <- app_assoc.
  apply validate_text_header; [|assumption]. apply fits_canonical.
  unfold MaxInt64 in Hs. pow2. lia.
Qed.

Lemma ValidateDocument_peel (b o : bytes) :
  ValidateWellFormedBytes valid b = Ok o ->
  ValidateDocument valid b = ValidateDocument valid o.
Proof.
  intros E. pose proof (ValidateWellFormedBytes_consumed valid b o E) as Hc.
  apply consumed_shorter in Hc.
  destruct (ValidateDocument_total valid (S (length o)) o ltac:(lia))
    as [r Hr].
  unfold ValidateDocument at 2. rewrite Hr.
  unfold ValidateDocument. cbn [loop]. unfold validateDocStep at 1.
  assert ((0 <? length b)%nat = true) as -> by (apply Nat.ltb_lt; lia).
  rewrite E. apply (loop_more_fuel _ (S (length o))); [assumption|lia].
Qed.

Lemma ValidateDocument_items (items : list bytes) :
  Forall (fun it => forall rest,
            ValidateWellFormedBytes valid (it ++ rest) = Ok rest) items ->
  ValidateDocument valid (concat items) = Some None.
Proof.
  induction 1 as [|it items Hit _ IH]; [reflexivity|].
  cbn [concat]. now rewrite (ValidateDocument_peel _ _ (Hit (concat items))).
Qed.

End ValidatorOnEncoder.

(** X25: [ValidateWellFormedBytes] accepts what the encoder wrote and
    returns the bytes that follow: an integer written by [AppendInt64], a
    byte string written by [AppendBytes], and a text string written by
    [AppendString] when the text is valid UTF-8; on a text that is not, it
    answers [ErrInvalidUTF8]. *)
Theorem X25_validator_accepts_encoder_output (valid : bytes -> bool)
  (v : Z) (data s rest : bytes) :
  - 2 ^ 63 <= v < 2 ^ 63 ->
  Z.of_nat (length data) <= MaxInt64 -> Z.of_nat (length s) <= MaxInt64 ->
  ValidateWellFormedBytes valid (AppendInt64 [] v ++ rest) = Ok rest
  /\ ValidateWellFormedBytes valid (AppendBytes [] data ++ rest) = Ok rest
  /\ ValidateWellFormedBytes valid (AppendString [] s ++ rest)
     = (if valid s then Ok rest else Err ErrInvalidUTF8).
Proof.
  intros Hv Hd Hs. split; [now apply validate_AppendInt64|].
  split; [now apply validate_AppendBytes|now apply validate_AppendString].
Qed.

Lemma X25_validator_accepts_encoder_output_witness :
  ValidateWellFormedBytes (fun s => bool_decide (s = [104; 105]))
    (AppendInt64 [] (-500) ++ [0xff]) = Ok [0xff]
  /\ ValidateWellFormedBytes (fun s => bool_decide (s = [104; 105]))
       (AppendBytes [] (repeat 7 300) ++ [0xff]) = Ok [0xff]
  /\ ValidateWellFormedBytes (fun s => bool_decide (s = [104; 105]))
       (AppendString [] [0xc3; 0x28] ++ [0xff])
     = (if (fun s => bool_decide (s = [104; 105])) [0xc3; 0x28] then Ok [0xff]
        else Err ErrInvalidUTF8).
Proof.
  apply (X25_validator_accepts_encoder_output
           (fun s => bool_decide (s = [104; 105])) (-500) (repeat 7 300)
           [0xc3; 0x28] [0xff]).
  - pow2. lia.
  - vm_compute. discriminate.
  - vm_compute. discriminate.
Defined.

(** X26: [ValidateDocument] accepts every CBOR sequence [AppendSequence]
    builds from items that [ValidateWellFormedBytes] steps over exactly,
    whatever follows them. *)
Theorem X26_document_of_valid_items (valid : bytes -> bool)
  (items : list bytes) :
  Forall (fun it => forall rest,
            ValidateWellFormedBytes valid (it ++ rest) = Ok rest) items ->
  ValidateDocument valid (AppendSequence [] items) = Some None.
Proof.
  intros H. rewrite AppendSequence_concat. cbn [app].
  now apply ValidateDocument_items.
Qed.

Lemma X26_document_of_valid_items_witness :
  ValidateDocument (fun _ => true)
    (AppendSequence [] [AppendString [] [104; 105]; AppendInt64 [] 42;
                        AppendBytes [] [1; 2; 3]])
  = Some None.
Proof.
  apply (X26_document_of_valid_items (fun _ => true)).
  constructor; [|constructor; [|constructor; [|constructor]]]; intros rest.
  - apply (validate_AppendString (fun _ => true)). vm_compute. discriminate.
  - apply validate_AppendInt64. pow2. lia.
  - apply validate_AppendBytes. vm_compute. discriminate.
Defined.

(** ** Worst-case sizes *)

Lemma canonicalWidth_le (u : Z) : (canonicalWidth u <= 9)%nat.
Proof.
  unfold canonicalWidth.
  repeat match goal with |- context [if ?c then _ else _] => destruct c end;
    lia.
Qed.

Lemma canonicalWidth_le_uint32 (u : Z) :
  u <= MaxUint32 -> (canonicalWidth u <= 5)%nat.
Proof.
  unfold canonicalWidth, MaxUint32. intros Hu.
  repeat match goal with
  | |- context [if ?c then _ else _] => destruct c eqn:?
  end; lia.
Qed.

Lemma length_appendUintCore (b : bytes) (major u : Z) :
  0 <= u < 2 ^ 64 ->
  length (appendUintCore b major u) = (length b + canonicalWidth u)%nat.
Proof.
  intros Hu. rewrite appendUintCore_canonical by assumption.
  now rewrite length_app, canonicalHeader_length.
Qed.

Lemma length_AppendInt64 (b : bytes) (v : Z) :
  - 2 ^ 63 <= v < 2 ^ 63 ->
  (length (AppendInt64 b v) <= length b + 9)%nat.
Proof.
  intros Hv. rewrite AppendInt64_canonical by assumption.
  rewrite length_app.
  destruct (v <? 0); rewrite canonicalHeader_length;
    match goal with |- context [canonicalWidth ?u] =>
      pose proof (canonicalWidth_le u) end; lia.
Qed.

Lemma length_appendData (major : Z) (b data : bytes) :
  Z.of_nat (length data) <= MaxUint32 ->
  (length (appendData major b data) <= length b + 5 + length data)%nat.
Proof.
  intros Hlen.
  assert (Z.of_nat (length data) <= MaxInt64) as Hd
    by (unfold MaxUint32, MaxInt64 in *; lia).
  rewrite appendData_appendUintCore by assumption.
  rewrite length_app, length_appendUintCore
    by (unfold MaxUint32 in Hlen; pow2; lia).
  pose proof (canonicalWidth_le_uint32 _ Hlen). lia.
Qed.

(** X27: the encoders never write more than the worst-case sizes of
    size.go, which the generated [Msgsize] methods add up: an integer at
    most [Int64Size] bytes, a float exactly [Float64Size] or
    [Float32Size], a boolean and null one byte, a map or array header at
    most [MapHeaderSize] and [ArrayHeaderSize], a time at most [TimeSize],
    and a byte or text string at most the prefix size plus its length,
    provided the length fits 32 bits (a longer one takes a 9-byte
    header). *)
Theorem X27_worst_case_sizes (L : Imports) (b data : bytes)
  (v u n f g : Z) (x : bool) (t : Time L) :
  - 2 ^ 63 <= v < 2 ^ 63 -> 0 <= u < 2 ^ 64 -> 0 <= n <= MaxUint32 ->
  Z.of_nat (length data) <= MaxUint32 ->
  - 2 ^ 63 <= Time_Unix L t < 2 ^ 63 ->
  (length (AppendInt64 b v) <= length b + Int64Size)%nat
  /\ (length (AppendUint64 b u) <= length b + Uint64Size)%nat
  /\ length (AppendFloat64 b f) = (length b + Float64Size)%nat
  /\ length (AppendFloat32 b g) = (length b + Float32Size)%nat
  /\ length (AppendBool b x) = (length b + BoolSize)%nat
  /\ length (AppendNil b) = (length b + NilSize)%nat
  /\ (length (AppendMapHeader b n) <= length b + MapHeaderSize)%nat
  /\ (length (AppendArrayHeader b n) <= length b + ArrayHeaderSize)%nat
  /\ (length (AppendTime L b t) <= length b + TimeSize)%nat
  /\ (length (AppendBytes b data)
      <= length b + BytesPrefixSize + length data)%nat
  /\ (length (AppendString b data)
      <= length b + StringPrefixSize + length data)%nat.
Proof.
  intros Hv Hu Hn Hlen Ht.
  unfold Int64Size, Uint64Size, Float64Size, Float32Size, BoolSize, NilSize,
    MapHeaderSize, ArrayHeaderSize, TimeSize, BytesPrefixSize,
    StringPrefixSize, Int64Size.
  assert (0 <= n < 2 ^ 64) as Hn64 by (unfold MaxUint32 in Hn; pow2; lia).
  repeat apply conj.
  - now apply length_AppendInt64.
  - unfold AppendUint64. rewrite length_appendUintCore by assumption.
    pose proof (canonicalWidth_le u). lia.
  - rewrite AppendFloat64_cells, length_app. cbn [length].
    rewrite be_bytes_length. lia.
  - rewrite AppendFloat32_cells, length_app. cbn [length].
    rewrite be_bytes_length. lia.
  - unfold AppendBool. destruct x; rewrite length_app; reflexivity.
  - unfold AppendNil. rewrite length_app. reflexivity.
  - unfold AppendMapHeader. rewrite uint32_as_uint64 by assumption.
    rewrite length_appendUintCore by assumption.
    pose proof (canonicalWidth_le_uint32 n ltac:(lia)). lia.
  - unfold AppendArrayHeader. rewrite uint32_as_uint64 by assumption.
    rewrite length_appendUintCore by assumption.
    pose proof (canonicalWidth_le_uint32 n ltac:(lia)). lia.
  - unfold AppendTime.
    assert (length (AppendTag b tagEpochDateTime) = S (length b)) as Htag.
    { unfold AppendTag. rewrite length_appendUintCore
        by (unfold tagEpochDateTime; pow2; lia).
      change (canonicalWidth tagEpochDateTime) with 1%nat. lia. }
    destruct (Time_Nanosecond L t =? 0).
    + pose proof (length_AppendInt64 (AppendTag b tagEpochDateTime)
                    (Time_Unix L t) Ht). lia.
    + rewrite AppendFloat64_cells, length_app. cbn [length].
      rewrite be_bytes_length. lia.
  - now apply length_appendData.
  - now apply length_appendData.
Qed.

Lemma X27_worst_case_sizes_witness :
  (length (AppendInt64 [1%Z] (- 2 ^ 40)%Z) <= length [1%Z] + Int64Size)%nat
  /\ (length (AppendUint64 [1%Z] (2 ^ 40)%Z) <= length [1%Z] + Uint64Size)%nat
  /\ length (AppendFloat64 [1%Z] 0%Z) = (length [1%Z] + Float64Size)%nat
  /\ length (AppendFloat32 [1%Z] 0%Z) = (length [1%Z] + Float32Size)%nat
  /\ length (AppendBool [1%Z] true) = (length [1%Z] + BoolSize)%nat
  /\ length (AppendNil [1%Z]) = (length [1%Z] + NilSize)%nat
  /\ (length (AppendMapHeader [1%Z] 70000%Z) <= length [1%Z] + MapHeaderSize)%nat
  /\ (length (AppendArrayHeader [1%Z] 70000%Z)
      <= length [1%Z] + ArrayHeaderSize)%nat
  /\ (length (AppendTime refusingImports [1%Z] (5, 7)%Z)
      <= length [1%Z] + TimeSize)%nat
  /\ (length (AppendBytes [1%Z] (repeat 7%Z 300))
      <= length [1%Z] + BytesPrefixSize + length (repeat 7%Z 300))%nat
  /\ (length (AppendString [1%Z] (repeat 7%Z 300))
      <= length [1%Z] + StringPrefixSize + length (repeat 7%Z 300))%nat.
Proof.
  apply (X27_worst_case_sizes refusingImports [1] (repeat 7 300)
           (- 2 ^ 40) (2 ^ 40) 70000 0 0 true (5, 7)).
  - pow2. lia.
  - pow2. lia.
  - unfold MaxUint32. lia.
  - vm_compute. discriminate.
  - vm_compute. split; [discriminate|reflexivity].
Defined.

(** ** JSON to CBOR and back *)

Section ThereAndBack.

Variable L : Imports.

Lemma toJSON_text (fuel : nat) (s : bytes) :
  Z.of_nat (length s) <= MaxInt64 ->
  ValidateUTF8OnDecode L = false \/ isUTF8Valid L s = true ->
  toJSON L (S fuel) (AppendString [] s) 0 = Some (Ok ([json_Marshal s], [])).
Proof.
  intros Hlen Hutf.
  pose proof (ReadStringBytes_AppendString (isUTF8Valid L)
                (ValidateUTF8OnDecode L) s [] Hlen Hutf) as Hread.
  rewrite app_nil_r in Hread. unfold AppendString in *.
  rewrite appendData_header in * by assumption.
  assert (fitsWidth (canonicalWidth (Z.of_nat (length s)) - 1)
            (Z.of_nat (length s))) as Hf
    by (apply fits_canonical; unfold MaxInt64 in Hlen; pow2; lia).
  cbn [toJSON]. change (0 >? recursionLimit) with false. cbv iota.
  rewrite header_not_short.
  destruct (lengthHeader_lead majorTypeText _ _ s
              ltac:(unfold majorTypeText; lia) Hf) as (_ & -> & _).
  change (majorTypeText =? majorTypeUint) with false.
  change (majorTypeText =? majorTypeNegInt) with false.
  change (majorTypeText =? majorTypeBytes) with false.
  change (majorTypeText =? majorTypeText) with true. cbv iota.
  unfold readString. now rewrite Hread.
Qed.

Lemma toJSON_tagged_text (fuel : nat) (t : Z) (s : bytes) :
  0 <= t < 2 ^ 64 -> Z.of_nat (length s) <= MaxInt64 ->
  ReadTagBytes (AppendString (AppendTag [] t) s)
  = Ok (t, AppendString [] s)
  /\ toJSON L (S fuel) (AppendString (AppendTag [] t) s) 0
     = toJSONTag L (fun p => toJSON L fuel p (0 + 1))
         (AppendString (AppendTag [] t) s).
Proof.
  intros Ht Hlen.
  assert (ReadTagBytes (AppendString (AppendTag [] t) s)
          = Ok (t, AppendString [] s)) as Htag.
  { rewrite AppendString_buffer by assumption.
    now apply ReadTagBytes_AppendTag. }
  split; [exact Htag|].
  now rewrite (toJSON_tag_arm L fuel _ _ 0 t Htag).
Qed.

Lemma tagged_text_item (t want : Z) (s : bytes) :
  0 <= t < 2 ^ 64 -> Z.of_nat (length s) <= MaxInt64 ->
  ValidateUTF8OnDecode L = false \/ isUTF8Valid L s = true ->
  (let? o := lift (expectTag want tagMismatch
                     (AppendString (AppendTag [] t) s)) in
   readString L o)
  = if t =? want then Some (Ok (s, [])) else Some (Err tagMismatch).
Proof.
  intros Ht Hlen Hutf.
  pose proof (tagged_text_read L t want s [] Ht Hlen Hutf) as H.
  now rewrite app_nil_r in H.
Qed.

End ThereAndBack.

Ltac closed_lookups :=
  unfold tryWrapper; cbn [mapIndex]; closed_ifs.

(** X28: a JSON value converted to CBOR by [jsonToCBOR] and rendered
    again by [ToJSONBytes] comes back as the same JSON for null, a
    boolean, a string, and the one-member wrapper objects [$base64urlstr],
    [$base64str] and [$mime] around a string.  The wrapper [$uri] does not
    come back: [{"$uri": s}] is rendered as the bare string [s].  The
    string is not empty, fits a Go slice, and is valid UTF-8 when
    decoding validates. *)
Theorem X28_json_there_and_back (L : Imports) (s : bytes) (x : bool) :
  (0 < length s)%nat -> Z.of_nat (length s) <= MaxInt64 ->
  ValidateUTF8OnDecode L = false \/ isUTF8Valid L s = true ->
  thereAndBack L JNil = Ok ([WriteString (str "null")], [])
  /\ thereAndBack L (JBool x)
     = Ok ([WriteString (if x then str "true" else str "false")], [])
  /\ thereAndBack L (JString s) = Ok ([json_Marshal s], [])
  /\ thereAndBack L (JObject [(str "$base64urlstr", JString s)])
     = Ok ([WriteString (wrapperOpen (str "$base64urlstr")); json_Marshal s;
            WriteString (str "}")], [])
  /\ thereAndBack L (JObject [(str "$base64str", JString s)])
     = Ok ([WriteString (wrapperOpen (str "$base64str")); json_Marshal s;
            WriteString (str "}")], [])
  /\ thereAndBack L (JObject [(str "$mime", JString s)])
     = Ok ([WriteString (wrapperOpen (str "$mime")); json_Marshal s;
            WriteString (str "}")], [])
  /\ thereAndBack L (JObject [(str "$uri", JString s)])
     = Ok ([json_Marshal s], []).
Proof.
  intros Hpos Hlen Hutf.
  assert ((length s =? 0)%nat = false) as Hne by (apply Nat.eqb_neq; lia).
  assert (forall t, 0 <= t <= 37 -> 0 <= t < 2 ^ 64) as Ht
    by (intros; pow2; lia).
  unfold thereAndBack, FromJSON, ToJSONBytes.
  repeat apply conj.
  - reflexivity.
  - now destruct x.
  - cbn [json_depth jsonToCBOR ret run].
    now rewrite toJSON_text.
  - cbn [json_depth map snd list_max Nat.max jsonToCBOR]. closed_lookups.
    unfold wrapText, asString. cbn [andb negb run].
    unfold AppendBase64URLString.
    destruct (toJSON_tagged_text L (length (AppendString (AppendTag []
                tagBase64URLString) s)) tagBase64URLString s
                (Ht tagBase64URLString ltac:(unfold tagBase64URLString; lia)) Hlen)
      as [Htag ->].
    unfold toJSONTag. rewrite Htag. cbn [lift bind]. closed_ifs.
    unfold toJSONTextWrapper, ReadBase64URLStringBytes.
    rewrite tagged_text_item
      by (assumption || apply Ht; unfold tagBase64URLString; lia).
    reflexivity.
  - cbn [json_depth map snd list_max Nat.max jsonToCBOR]. closed_lookups.
    unfold wrapText, asString. cbn [andb negb run].
    unfold AppendBase64String.
    destruct (toJSON_tagged_text L (length (AppendString (AppendTag []
                tagBase64String) s)) tagBase64String s
                (Ht tagBase64String ltac:(unfold tagBase64String; lia)) Hlen)
      as [Htag ->].
    unfold toJSONTag. rewrite Htag. cbn [lift bind]. closed_ifs.
    unfold toJSONTextWrapper, ReadBase64StringBytes.
    rewrite tagged_text_item
      by (assumption || apply Ht; unfold tagBase64String; lia).
    reflexivity.
  - cbn [json_depth map snd list_max Nat.max jsonToCBOR]. closed_lookups.
    unfold wrapText, asString. rewrite Hne. cbn [andb negb run].
    unfold AppendMIMEString.
    destruct (toJSON_tagged_text L (length (AppendString (AppendTag []
                tagMIME) s)) tagMIME s
                (Ht tagMIME ltac:(unfold tagMIME; lia)) Hlen)
      as [Htag ->].
    unfold toJSONTag. rewrite Htag. cbn [lift bind]. closed_ifs.
    unfold toJSONTextWrapper, ReadMIMEStringBytes.
    rewrite tagged_text_item
      by (assumption || apply Ht; unfold tagMIME; lia).
    reflexivity.
  - cbn [json_depth map snd list_max Nat.max jsonToCBOR]. closed_lookups.
    unfold wrapText, asString. rewrite Hne. cbn [andb negb run].
    unfold AppendURI.
    destruct (toJSON_tagged_text L (length (AppendString (AppendTag []
                tagURI) s)) tagURI s
                (Ht tagURI ltac:(unfold tagURI; lia)) Hlen)
      as [Htag ->].
    unfold toJSONTag. rewrite Htag. cbn [lift bind]. closed_ifs.
    unfold ReadURIStringBytes.
    rewrite tagged_text_item
      by (assumption || apply Ht; unfold tagURI; lia).
    reflexivity.
Qed.

Lemma X28_json_there_and_back_witness :
  thereAndBack refusingImports JNil = Ok ([WriteString (str "null")], [])
  /\ thereAndBack refusingImports (JBool true)
     = Ok ([WriteString (if true then str "true" else str "false")], [])
  /\ thereAndBack refusingImports (JString [104; 105])
     = Ok ([json_Marshal [104; 105]], [])
  /\ thereAndBack refusingImports
       (JObject [(str "$base64urlstr", JString [104; 105])])
     = Ok ([WriteString (wrapperOpen (str "$base64urlstr"));
            json_Marshal [104; 105]; WriteString (str "}")], [])
  /\ thereAndBack refusingImports
       (JObject [(str "$base64str", JString [104; 105])])
     = Ok ([WriteString (wrapperOpen (str "$base64str"));
            json_Marshal [104; 105]; WriteString (str "}")], [])
  /\ thereAndBack refusingImports (JObject [(str "$mime", JString [104; 105])])
     = Ok ([WriteString (wrapperOpen (str "$mime")); json_Marshal [104; 105];
            WriteString (str "}")], [])
  /\ thereAndBack refusingImports (JObject [(str "$uri", JString [104; 105])])
     = Ok ([json_Marshal [104; 105]], []).
Proof.
  apply (X28_json_there_and_back refusingImports [104; 105] true).
  - cbn [length]. lia.
  - vm_compute. discriminate.
  - now right.
Defined.
